(* ===================================================================== *)
(* A shallow embedding of flax/nnx/graph.py: the graph <-> (descriptor,   *)
(* leaves) codec, the structural fingerprint and the update context.      *)
(* ===================================================================== *)

From stdpp Require Import base list strings pretty.
From stdpp Require sorting.
From Stdlib Require Import ZArith Lia Sorted.
From Stdlib Require OrderedTypeEx.

Set Warnings "-register-all".
Local Open Scope string_scope.
Local Open Scope list_scope.
Local Open Scope Z_scope.

(* --------------------------------------------------------------------- *)
(* Exceptions and the error monad                                         *)
(* --------------------------------------------------------------------- *)

(** The exceptions graph.py raises, one constructor per raise site that the
    development reaches. [RecursionError] is what an unbounded recursion
    ends in (the fuel of the recursive traversals running out), and
    [InvalidObject] marks a store that no Python program can build (a
    reference to a cell that does not exist). *)
Inductive error :=
| UnsupportedType            (* RuntimeError: Unsupported type ..., this is a bug. *)
| ArraysNotSupported (at_path : option string)
                             (* ValueError: Arrays leaves are not supported, at '<path>' / found ... *)
| IndexAlreadyUsed (index : Z)   (* RuntimeError: GraphDef index ... already used. *)
| NotEnoughLeaves            (* ValueError: Not enough leaves to unflatten the graph *)
| ExtraLeaves (n : nat)      (* ValueError: Incorrect number of leaves: got an extra n leaves *)
| ExpectedVariable           (* ValueError: Expected a Variable type for ... *)
| NodeTypeMismatch           (* ValueError: Expected a node of type ... for index ... *)
| UnknownStaticField         (* RuntimeError: Unknown static field *)
| KeyError                   (* a failed dict subscript *)
| AssertionError             (* a failed assert *)
| AttributeError             (* a missing attribute on a metadata object *)
| TypeError                  (* e.g. sorting keys of different types *)
| ExpectedNodeDef            (* ValueError: Expected a NodeDef instance, but got ... *)
| MergeWithoutRefIndex       (* ValueError: Cannot merge without ref_index. *)
| RecursionError
| InvalidObject.

Inductive result (A : Type) :=
| Ok (a : A)
| Err (e : error).
Arguments Ok {A} a.
Arguments Err {A} e.

Definition bind {A B} (m : result A) (k : A → result B) : result B :=
  match m with
  | Ok a => k a
  | Err e => Err e
  end.

Notation "'let*' x ':=' m 'in' k" := (bind m (fun x => k))
  (at level 10, x pattern, m at level 100, k at level 200).

Definition is_ok {A} (r : result A) : bool :=
  match r with Ok _ => true | Err _ => false end.

Lemma bind_ok {A B} (m : result A) (k : A → result B) b :
  bind m k = Ok b → ∃ a, m = Ok a ∧ k a = Ok b.
Proof. destruct m as [a|e]; simpl; [eauto | discriminate]. Qed.

Lemma bind_err {A B} (m : result A) (k : A → result B) e :
  bind m k = Err e → m = Err e ∨ ∃ a, m = Ok a ∧ k a = Err e.
Proof. destruct m as [a|e']; simpl; [eauto | intros [= ->]; auto]. Qed.

(* --------------------------------------------------------------------- *)
(* Python dicts                                                           *)
(* --------------------------------------------------------------------- *)

(** A Python [dict] keeps its items in insertion order and finds a key by
    the key's own equality; [eqb stored looked_up] is that test. Assigning
    to a key that is present keeps the stored key and its position. *)
Section Dict.
Context {K V : Type} (eqb : K → K → bool).

Fixpoint dict_get (d : list (K * V)) (k : K) : option V :=
  match d with
  | [] => None
  | (k', v) :: d' => if eqb k' k then Some v else dict_get d' k
  end.

Definition dict_mem (d : list (K * V)) (k : K) : bool :=
  match dict_get d k with Some _ => true | None => false end.

Fixpoint dict_set (d : list (K * V)) (k : K) (v : V) : list (K * V) :=
  match d with
  | [] => [(k, v)]
  | (k', v') :: d' =>
      if eqb k' k then (k', v) :: d' else (k', v') :: dict_set d' k v
  end.

(** [d.update(items)] and [dict(items)]: later items win. *)
Definition dict_update (d : list (K * V)) (items : list (K * V)) : list (K * V) :=
  foldl (fun acc kv => dict_set acc kv.1 kv.2) d items.

Definition dict_len (d : list (K * V)) : Z := Z.of_nat (length d).

Lemma dict_mem_get d k : dict_mem d k = true ↔ is_Some (dict_get d k).
Proof.
  unfold dict_mem. destruct (dict_get d k) eqn:E; split; intros H.
  - eauto.
  - done.
  - done.
  - by destruct H.
Qed.

Lemma dict_get_set_eq d k v :
  eqb k k = true → dict_get (dict_set d k v) k = Some v.
Proof.
  intros Hrefl. induction d as [|[k' v'] d IH]; simpl.
  - by rewrite Hrefl.
  - destruct (eqb k' k) eqn:E; simpl; rewrite E; auto.
Qed.

Lemma dict_set_length_absent d k v :
  dict_get d k = None → length (dict_set d k v) = S (length d).
Proof.
  induction d as [|[k' v'] d IH]; simpl; [done|].
  destruct (eqb k' k); [done|]. intros H. simpl. by rewrite IH.
Qed.

Lemma dict_set_absent d k v :
  dict_get d k = None → dict_set d k v = d ++ [(k, v)].
Proof.
  induction d as [|[k' v'] d IH]; simpl; [done|].
  destruct (eqb k' k); [done|]. intros H. by rewrite IH.
Qed.
End Dict.

(* --------------------------------------------------------------------- *)
(* The objects of a graph                                                 *)
(* --------------------------------------------------------------------- *)

(** [flax.typing.Key]: attribute names and positions. *)
Inductive key :=
| KStr (s : string)
| KInt (z : Z).

Definition key_eqb (a b : key) : bool :=
  match a, b with
  | KStr s, KStr t => String.eqb s t
  | KInt x, KInt y => Z.eqb x y
  | _, _ => false
  end.

(** [str(key)], used to print a path. *)
Definition str_key (k : key) : string :=
  match k with
  | KStr s => s
  | KInt z => pretty z
  end.

(** ['/'.join(ss)] *)
Fixpoint join_slash (ss : list string) : string :=
  match ss with
  | [] => ""
  | [s] => s
  | s :: rest => s +:+ "/" +:+ join_slash rest
  end.

Definition path_str (path : list key) : string := join_slash (map str_key path).

(** Hashable constants that are neither nodes, Variables nor arrays. *)
Inductive static :=
| SInt (z : Z)
| SStr (s : string)
| SBool (b : bool).

(** The auxiliary data a node type's [flatten] returns next to the children.
    [IndexesPytreeDef] is the one [_flatten_pytree] builds; its treedef is
    represented by the class it rebuilds. *)
Inductive metadata :=
| MNone
| MOpaque (z : Z)
| IndexesPytreeDef (key_index : list (key * nat)) (treedef : string).

(** The identity of a mutable object, [id(x)]. *)
Abbreviation addr := nat.

(** What an attribute can hold. Mutable objects with an identity (instances
    of graph node classes, Variables) live in the store and are held by
    reference; immutable containers and other plain objects are held by
    value, as [(class, children, aux)] with the children and aux data their
    class's [flatten] returns. *)
Inductive value :=
| VStatic (s : static)
| VArray (data : Z)                 (* a jax.Array or np.ndarray *)
| VRef (a : addr)
| VTree (ty : string) (items : list (key * value)) (aux : metadata).

(** [Variable.raw_value]. *)
Inductive payload :=
| PData (z : Z)
| PVariable (a : addr).

Inductive object :=
| ONode (ty : string) (attrs : list (key * value)) (aux : metadata)
| OVar (ty : string) (raw_value : payload) (var_metadata : list (string * static)).

Abbreviation heap := (list object).

(** The leaves [flatten] emits: [value.to_state()], [value.raw_value], or
    the Variable itself under [return_variables]. *)
Inductive leaf :=
| VariableState (ty : string) (val : payload) (meta : list (string * static))
| RawLeaf (val : payload)
| VariableLeaf (a : addr).

(* --------------------------------------------------------------------- *)
(* Structure descriptors                                                  *)
(* --------------------------------------------------------------------- *)

(** A descriptor's [type] field: a registered class, or the marker class
    [GenericPytree] of [PYTREE_NODE_IMPL]. *)
Inductive pytype :=
| GenericPytree
| Cls (name : string).

Inductive graphdef :=
| NodeDef (type : pytype) (index : Z) (outer_index : option Z)
          (attributes : list (key * graphdef)) (md : metadata)
| NodeRef (type : string) (index : Z)
| VariableDef (type : string) (index : Z) (outer_index : option Z)
              (md : list (string * static))
| Static (v : value).

Inductive NodeImpl :=
| GraphNodeImpl (type : string)
| PytreeNodeImpl (type : pytype).

Definition impl_type (impl : NodeImpl) : pytype :=
  match impl with
  | GraphNodeImpl ty => Cls ty
  | PytreeNodeImpl ty => ty
  end.

Definition PYTREE_NODE_IMPL : NodeImpl := PytreeNodeImpl GenericPytree.

Definition is_graph_impl (impl : NodeImpl) : bool :=
  match impl with GraphNodeImpl _ => true | PytreeNodeImpl _ => false end.

Definition is_pytree_impl (impl : NodeImpl) : bool :=
  match impl with GraphNodeImpl _ => false | PytreeNodeImpl _ => true end.

(* --------------------------------------------------------------------- *)
(* The node type registry                                                 *)
(* --------------------------------------------------------------------- *)

(** What the traversals take from their surroundings: the three registries
    (as membership tests on class names), [issubclass(_, tuple)], and the
    [__hash__]/[__eq__] protocol of the objects that key a [RefMap]:
    [py_eq h a b] says that the objects at [a] and [b] hash alike and
    compare equal in the store [h]. *)
Record PyEnv := {
  GRAPH_REGISTRY : string → bool;
  PYTREE_REGISTRY : string → bool;
  JAX_PYTREE_REGISTRY : string → bool;
  issubclass_tuple : string → bool;
  py_eq : heap → addr → addr → bool
}.

(** [RefMap = dict]: a plain dict whose keys are the objects themselves. A
    dict lookup accepts a stored key that is the looked-up object, or one
    that is equal to it. *)
Abbreviation RefMap := (list (nat * Z)).

(** The state argument of [unflatten], and the second component of what
    [flatten] returns. *)
Inductive flat_state :=
| FlatState (keys : list (list key)) (values : list leaf)
| LeafList (values : list leaf).

Section Flatten.
Context (E : PyEnv).

Definition ref_eqb (h : heap) (stored looked : addr) : bool :=
  Nat.eqb stored looked || py_eq E h stored looked.

Definition ref_get (h : heap) (d : RefMap) (a : addr) : option Z :=
  dict_get (ref_eqb h) d a.

Definition ref_set (h : heap) (d : RefMap) (a : addr) (i : Z) : RefMap :=
  dict_set (ref_eqb h) d a i.

(** The registry lookups of [get_node_impl], on the class of [x]. *)
Definition lookup_impl (node_type : string) : option NodeImpl :=
  if GRAPH_REGISTRY E node_type then Some (GraphNodeImpl node_type)
  else if PYTREE_REGISTRY E node_type then Some (PytreeNodeImpl (Cls node_type))
  else if JAX_PYTREE_REGISTRY E node_type || issubclass_tuple E node_type
       then Some PYTREE_NODE_IMPL
  else None.

Definition get_node_impl (h : heap) (x : value) : result (option NodeImpl) :=
  match x with
  | VRef a =>
      match h !! a with
      | Some (OVar _ _ _) => Ok None          (* isinstance(x, Variable) *)
      | Some (ONode node_type _ _) => Ok (lookup_impl node_type)
      | None => Err InvalidObject
      end
  | VTree node_type _ _ => Ok (lookup_impl node_type)
  | VStatic _ | VArray _ => Ok None
  end.

Definition get_node_impl_for_type (x : pytype) : option NodeImpl :=
  match x with
  | GenericPytree => Some PYTREE_NODE_IMPL
  | Cls name =>
      if PYTREE_REGISTRY E name then Some (PytreeNodeImpl (Cls name))
      else if GRAPH_REGISTRY E name then Some (GraphNodeImpl name)
      else None
  end.

(** [type(x)] of a node or Variable. *)
Definition type_of (h : heap) (x : value) : result string :=
  match x with
  | VRef a =>
      match h !! a with
      | Some (ONode ty _ _) | Some (OVar ty _ _) => Ok ty
      | None => Err InvalidObject
      end
  | VTree ty _ _ => Ok ty
  | VStatic _ | VArray _ => Err InvalidObject
  end.

(** [node_impl.flatten(node)]: the (key, child) pairs and the aux data. *)
Definition node_flatten (h : heap) (node : value)
  : result (list (key * value) * metadata) :=
  match node with
  | VRef a =>
      match h !! a with
      | Some (ONode _ attrs aux) => Ok (attrs, aux)
      | _ => Err InvalidObject
      end
  | VTree _ items aux => Ok (items, aux)
  | VStatic _ | VArray _ => Err InvalidObject
  end.

(** The lists and the map [_graph_flatten] appends to while it runs. *)
Record fstate := FState {
  ref_index : RefMap;
  leaves : list leaf;
  paths : option (list (list key))
}.

(** [ref_outer_index.get(value, None) if ref_outer_index else None] *)
Definition outer_index_of (h : heap) (ref_outer_index : option RefMap) (a : addr)
  : option Z :=
  match ref_outer_index with
  | Some ((_ :: _) as d) => ref_get h d a
  | _ => None
  end.

Section Body.
Context (h : heap) (ref_outer_index : option RefMap) (return_variables : bool).
(** the recursive call *)
Context (rec : value → NodeImpl → option (list key) → fstate
               → result (graphdef * fstate)).

(** One turn of the loop [for key, value in values], with [path] the
    path of the node whose attributes are being walked. *)
Definition flatten_attr (path : option (list key)) (k : key) (v : value)
    (st : fstate) : result (graphdef * fstate) :=
  let* value_node_impl := get_node_impl h v in
  let path := option_map (fun p => p ++ [k]) path in
  match value_node_impl with
  | Some impl => rec v impl path st
  | None =>
      match v with
      | VRef a =>
          match h !! a with
          | Some (OVar ty raw md) =>
              match ref_get h (ref_index st) a with
              | Some i => Ok (NodeRef ty i, st)
              | None =>
                  let leaf :=
                    if return_variables then VariableLeaf a
                    else match path with
                         | None => RawLeaf raw
                         | Some _ => VariableState ty raw md
                         end in
                  let* paths' :=
                    match path with
                    | None => Ok (paths st)
                    | Some p =>
                        match paths st with
                        | Some ps => Ok (Some (ps ++ [p]))
                        | None => Err AssertionError
                        end
                    end in
                  let variable_index := dict_len (ref_index st) in
                  Ok (VariableDef ty variable_index
                        (outer_index_of h ref_outer_index a) md,
                      FState (ref_set h (ref_index st) a variable_index)
                             (leaves st ++ [leaf]) paths')
              end
          | Some (ONode _ _ _) => Ok (Static v, st)
          | None => Err InvalidObject
          end
      | VArray _ => Err (ArraysNotSupported (option_map path_str path))
      | VStatic _ | VTree _ _ _ => Ok (Static v, st)
      end
  end.

Fixpoint flatten_attrs (path : option (list key)) (values : list (key * value))
    (st : fstate) : result (list (key * graphdef) * fstate) :=
  match values with
  | [] => Ok ([], st)
  | (k, v) :: rest =>
      let* (d, st1) := flatten_attr path k v st in
      let* (ds, st2) := flatten_attrs path rest st1 in
      Ok ((k, d) :: ds, st2)
  end.
End Body.

Fixpoint _graph_flatten (fuel : nat) (h : heap) (ref_outer_index : option RefMap)
    (return_variables : bool) (node : value) (node_impl : NodeImpl)
    (path : option (list key)) (st : fstate) : result (graphdef * fstate) :=
  match fuel with
  | O => Err RecursionError
  | S fuel' =>
      let rec := _graph_flatten fuel' h ref_outer_index return_variables in
      match node_impl with
      | PytreeNodeImpl ty =>
          let* (values, md) := node_flatten h node in
          let* (attributes, st2) :=
            flatten_attrs h ref_outer_index return_variables rec path values st in
          Ok (NodeDef ty (-1) None attributes md, st2)
      | GraphNodeImpl ty =>
          match node with
          | VRef a =>
              match ref_get h (ref_index st) a with
              | Some i =>
                  let* node_ty := type_of h node in
                  Ok (NodeRef node_ty i, st)
              | None =>
                  let index := dict_len (ref_index st) in
                  let st1 := FState (ref_set h (ref_index st) a index)
                                    (leaves st) (paths st) in
                  let* (values, md) := node_flatten h node in
                  let* (attributes, st2) :=
                    flatten_attrs h ref_outer_index return_variables rec path values st1 in
                  Ok (NodeDef (Cls ty) index
                        (outer_index_of h ref_outer_index a) attributes md,
                      st2)
              end
          | _ => Err InvalidObject
          end
      end
  end.

(** [flatten]: returns the descriptor and the leaves, and (as the third
    component) the [ref_index] dict as the call leaves it. *)
Definition flatten (fuel : nat) (h : heap) (node : value)
    (with_paths return_variables : bool)
    (ref_index0 : option RefMap) (ref_outer_index : option RefMap)
  : result (graphdef * flat_state * RefMap) :=
  let ri := default [] ref_index0 in
  let path : option (list key) := if with_paths then Some [] else None in
  let paths0 : option (list (list key)) := if with_paths then Some [] else None in
  let* node_impl := get_node_impl h node in
  match node_impl with
  | None => Err UnsupportedType
  | Some node_impl =>
      let* (graphdef, st) :=
        _graph_flatten fuel h ref_outer_index return_variables node node_impl
          path (FState ri [] paths0) in
      match st.(paths) with
      | Some ps => Ok (graphdef, FlatState ps st.(leaves), st.(ref_index))
      | None => Ok (graphdef, LeafList st.(leaves), st.(ref_index))
      end
  end.
End Flatten.

(* --------------------------------------------------------------------- *)
(* Fingerprints                                                           *)
(* --------------------------------------------------------------------- *)

(** The tuples [_graph_fingerprint] builds. *)
Inductive fingerprint_t :=
| FpSeen (id : addr) (type : string) (index : Z)
    (* (id(node), type(node), index) *)
| FpNode (id : option addr) (type : pytype) (index : Z)
         (attributes : list fp_attr) (md : metadata)
    (* (id(node) or None, node_impl.type, index, attributes, metadata) *)
with fp_attr :=
| FaNode (k : key) (node_fp : fingerprint_t)
| FaSeenVariable (k : key) (id : addr) (type : string) (index : Z)
| FaVariable (k : key) (id : addr) (type : string) (index : Z)
             (md : list (string * static))
| FaStatic (k : key) (v : value).

Section Fingerprint.
Context (E : PyEnv).

(** [new_ref_index] and [next_index], as they are threaded through. *)
Record fpstate := FpState {
  new_ref_index : RefMap;
  next_index : Z
}.

Section Body.
Context (h : heap) (ref_index : RefMap).
Context (rec : value → NodeImpl → fpstate → result (fingerprint_t * fpstate)).

Definition fingerprint_attr (k : key) (v : value) (st : fpstate)
  : result (fp_attr * fpstate) :=
  let* value_node_impl := get_node_impl E h v in
  match value_node_impl with
  | Some impl =>
      let* (node_fp, st1) := rec v impl st in
      Ok (FaNode k node_fp, st1)
  | None =>
      match v with
      | VRef a =>
          match h !! a with
          | Some (OVar ty raw md) =>
              match ref_get E h ref_index a with
              | Some i => Ok (FaSeenVariable k a ty i, st)
              | None =>
                  match ref_get E h (new_ref_index st) a with
                  | Some i => Ok (FaSeenVariable k a ty i, st)
                  | None =>
                      let variable_index := next_index st in
                      Ok (FaVariable k a ty variable_index md,
                          FpState (ref_set E h (new_ref_index st) a variable_index)
                                  (next_index st + 1))
                  end
              end
          | Some (ONode _ _ _) => Ok (FaStatic k v, st)
          | None => Err InvalidObject
          end
      | VArray _ => Err (ArraysNotSupported None)
      | VStatic _ | VTree _ _ _ => Ok (FaStatic k v, st)
      end
  end.

Fixpoint fingerprint_attrs (values : list (key * value)) (st : fpstate)
  : result (list fp_attr * fpstate) :=
  match values with
  | [] => Ok ([], st)
  | (k, v) :: rest =>
      let* (d, st1) := fingerprint_attr k v st in
      let* (ds, st2) := fingerprint_attrs rest st1 in
      Ok (d :: ds, st2)
  end.
End Body.

Fixpoint _graph_fingerprint (fuel : nat) (h : heap) (ref_index : RefMap)
    (node : value) (node_impl : NodeImpl) (st : fpstate)
  : result (fingerprint_t * fpstate) :=
  match fuel with
  | O => Err RecursionError
  | S fuel' =>
      let rec := _graph_fingerprint fuel' h ref_index in
      match node_impl with
      | PytreeNodeImpl ty =>
          let* (values, md) := node_flatten h node in
          let* (attributes, st2) := fingerprint_attrs h ref_index rec values st in
          Ok (FpNode None ty (-1) attributes md, st2)
      | GraphNodeImpl ty =>
          match node with
          | VRef a =>
              match ref_get E h ref_index a with
              | Some i =>
                  let* node_ty := type_of h node in
                  Ok (FpSeen a node_ty i, st)
              | None =>
                  match ref_get E h (new_ref_index st) a with
                  | Some i =>
                      let* node_ty := type_of h node in
                      Ok (FpSeen a node_ty i, st)
                  | None =>
                      let index := next_index st in
                      let st1 := FpState (ref_set E h (new_ref_index st) a index)
                                         (next_index st + 1) in
                      let* (values, md) := node_flatten h node in
                      let* (attributes, st2) :=
                        fingerprint_attrs h ref_index rec values st1 in
                      Ok (FpNode (Some a) (Cls ty) index attributes md, st2)
                  end
              end
          | _ => Err InvalidObject
          end
      end
  end.

(** [fingerprint]; the second component is [new_ref_index] as the call
    leaves it. *)
Definition fingerprint (fuel : nat) (h : heap) (node : value)
    (ref_index0 new_ref_index0 : option RefMap)
  : result (fingerprint_t * RefMap) :=
  let ri := default [] ref_index0 in
  let nri := default [] new_ref_index0 in
  let next := dict_len ri + dict_len nri in
  let* node_impl := get_node_impl E h node in
  match node_impl with
  | None => Err UnsupportedType
  | Some node_impl =>
      let* (fp, st) := _graph_fingerprint fuel h ri node node_impl (FpState nri next) in
      Ok (fp, new_ref_index st)
  end.
End Fingerprint.

(* --------------------------------------------------------------------- *)
(* Unflatten                                                              *)
(* --------------------------------------------------------------------- *)

(** [index_ref] and [outer_index_outer_ref]: dicts from an index to an
    object of the store. *)
Abbreviation IndexMap := (list (Z * nat)).

Definition idx_get (d : IndexMap) (i : Z) : option addr := dict_get Z.eqb d i.
Definition idx_set (d : IndexMap) (i : Z) (a : addr) : IndexMap := dict_set Z.eqb d i a.

(** Modelled from the spec: the callbacks a graph node type is registered
    with live in the classes' own modules. [create_empty] makes "an empty
    instance from saved metadata", [clear] empties the children in place and
    [init] is the "bulk initialization from a sequence of (key, child)
    pairs", an update of the attribute dict. *)
Definition create_empty (ty : string) (md : metadata) : object := ONode ty [] md.

Definition clear (o : object) : result object :=
  match o with
  | ONode ty _ aux => Ok (ONode ty [] aux)
  | OVar _ _ _ => Err InvalidObject
  end.

Definition init (o : object) (children : list (key * value)) : result object :=
  match o with
  | ONode ty attrs aux => Ok (ONode ty (dict_update key_eqb attrs children) aux)
  | OVar _ _ _ => Err InvalidObject
  end.

(** Modelled from the spec: the Variable operations of variablelib.
    [to_variable] and [from_metadata] "construct a new Variable from the
    leaf value and the VariableDef's metadata"; [update_from_state] and the
    assignment to [raw_value] "update that existing Variable's value in
    place". *)
Definition payload_of_leaf (l : leaf) : payload :=
  match l with
  | VariableState _ v _ => v
  | RawLeaf v => v
  | VariableLeaf a => PVariable a
  end.

Definition new_variable (variabledef_type : string)
    (variabledef_md : list (string * static)) (l : leaf) : object :=
  match l with
  | VariableState ty v md => OVar ty v md               (* value.to_variable() *)
  | _ => OVar variabledef_type (payload_of_leaf l) variabledef_md
                                     (* variabledef.type.from_metadata(value, metadata) *)
  end.

Definition update_variable (o : object) (l : leaf) : result object :=
  match o with
  | OVar ty _ md => Ok (OVar ty (payload_of_leaf l) md)
  | ONode _ _ _ => Err ExpectedVariable
  end.

(** [PytreeNodeImpl.unflatten(children, metadata)]: a registered class
    rebuilds an instance of itself; [_unflatten_pytree] looks every key up
    in [metadata.key_index] and lets the treedef rebuild the container. *)
Definition pytree_unflatten (ty : pytype) (children : list (key * value))
    (md : metadata) : result value :=
  match ty with
  | Cls name => Ok (VTree name children md)
  | GenericPytree =>
      match md with
      | IndexesPytreeDef key_index treedef =>
          if forallb (fun kv => dict_mem key_eqb key_index kv.1) children
          then Ok (VTree treedef children md)
          else Err KeyError
      | _ => Err AttributeError
      end
  end.

Definition type_matches (o : object) (ty : pytype) : bool :=
  match o, ty with
  | ONode name _ _, Cls name' | OVar name _ _, Cls name' => String.eqb name name'
  | _, GenericPytree => false
  end.


(** A [State] or plain dict passed to [unflatten]: a nested mapping with
    leaves at the bottom. *)
Inductive state_tree :=
| SLeaf (l : leaf)
| SMap (items : list (key * state_tree)).

(** [flat_state] widened by the nested form. *)
Inductive state_arg :=
| Flat (fs : flat_state)
| Nested (items : list (key * state_tree)).

(** The order [sorted] puts keys in; keys of different types do not
    compare. *)
Definition key_ltb (a b : key) : result bool :=
  match a, b with
  | KStr s, KStr t => Ok (match String.compare s t with Lt => true | _ => false end)
  | KInt x, KInt y => Ok (x <? y)
  | _, _ => Err TypeError
  end.

Fixpoint insert_by_key {A} (k : key) (x : A) (sorted : list (key * A))
  : result (list (key * A)) :=
  match sorted with
  | [] => Ok [(k, x)]
  | (k', x') :: rest =>
      let* lt := key_ltb k k' in
      if lt then Ok ((k, x) :: sorted)
      else let* rest' := insert_by_key k x rest in Ok ((k', x') :: rest')
  end.

(** [sorted(xs.items())], by insertion from the right. *)
Fixpoint sorted_items {A} (items : list (key * A)) : result (list (key * A)) :=
  match items with
  | [] => Ok []
  | (k, x) :: rest =>
      let* rest' := sorted_items rest in
      insert_by_key k x rest'
  end.

(** [_get_sorted_leaves]: the inner [_flatten] appends the leaves below
    each value in key order; here the leaves below each value are computed
    first and then put in key order, which is the same list. *)
Fixpoint _flatten_state (xs : state_tree) : result (list leaf) :=
  match xs with
  | SLeaf l => Ok [l]
  | SMap items =>
      let* below :=
        (fix go (items : list (key * state_tree)) : result (list (key * list leaf)) :=
           match items with
           | [] => Ok []
           | (k, v) :: rest =>
               let* ls := _flatten_state v in
               let* rest' := go rest in
               Ok ((k, ls) :: rest')
           end) items in
      let* ordered := sorted_items below in
      Ok (concat (map snd ordered))
  end.

Definition _get_sorted_leaves (items : list (key * state_tree)) : result (list leaf) :=
  _flatten_state (SMap items).

(** The leaf queue [unflatten] starts from. *)
Definition leaves_of_state (state : state_arg) : result (list leaf) :=
  match state with
  | Nested items => _get_sorted_leaves items
  | Flat (FlatState _ values) => Ok values
  | Flat (LeafList values) => Ok values
  end.

Section Unflatten.
Context (E : PyEnv).

(** The store, the leaf queue and [index_ref], as they are threaded
    through [_graph_unflatten]. *)
Record ustate := UState {
  u_heap : heap;
  u_leaves : list leaf;
  index_ref : IndexMap
}.

Definition outer_lookup (outer_index_outer_ref : option IndexMap)
    (outer_index : option Z) : option addr :=
  match outer_index_outer_ref, outer_index with
  | Some d, Some i => idx_get d i
  | _, _ => None
  end.

Section Body.
Context (outer_index_outer_ref : option IndexMap).
Context (rec : graphdef → NodeImpl → ustate → result (value * ustate)).

(** One turn of the loop of [_get_children]. *)
Definition unflatten_attr (attr : graphdef) (st : ustate)
  : result (value * ustate) :=
  match attr with
  | Static v => Ok (v, st)
  | NodeRef _ index =>
      match idx_get (index_ref st) index with
      | Some a => Ok (VRef a, st)
      | None => Err KeyError
      end
  | NodeDef ty _ _ _ _ =>
      match get_node_impl_for_type E ty with
      | None => Err AssertionError
      | Some value_node_impl => rec attr value_node_impl st
      end
  | VariableDef ty index outer_index md =>
      match u_leaves st with
      | [] => Err NotEnoughLeaves
      | l :: leaves' =>
          match outer_lookup outer_index_outer_ref outer_index with
          | Some a =>
              match u_heap st !! a with
              | None => Err InvalidObject
              | Some o =>
                  let* o' := update_variable o l in
                  Ok (VRef a,
                      UState (<[a := o']> (u_heap st)) leaves'
                             (idx_set (index_ref st) index a))
              end
          | None =>
              let a := length (u_heap st) in
              Ok (VRef a,
                  UState (u_heap st ++ [new_variable ty md l]) leaves'
                         (idx_set (index_ref st) index a))
          end
      end
  end.

Fixpoint unflatten_attrs (attributes : list (key * graphdef)) (st : ustate)
  : result (list (key * value) * ustate) :=
  match attributes with
  | [] => Ok ([], st)
  | (k, v) :: rest =>
      let* (child, st1) := unflatten_attr v st in
      let* (children, st2) := unflatten_attrs rest st1 in
      Ok ((k, child) :: children, st2)
  end.
End Body.

Fixpoint _graph_unflatten (outer_index_outer_ref : option IndexMap)
    (nodedef : graphdef) (node_impl : NodeImpl) (st : ustate)
  : result (value * ustate) :=
  match nodedef with
  | NodeRef _ index =>
      match idx_get (index_ref st) index with
      | Some a => Ok (VRef a, st)
      | None => Err KeyError
      end
  | NodeDef ty index outer_index attributes md =>
      if dict_mem Z.eqb (index_ref st) index then Err (IndexAlreadyUsed index)
      else
        let _get_children :=
          unflatten_attrs outer_index_outer_ref
            (_graph_unflatten outer_index_outer_ref) attributes in
        match node_impl with
        | GraphNodeImpl name =>
            let* (node, h1) :=
              match outer_lookup outer_index_outer_ref outer_index with
              | Some a =>
                  match u_heap st !! a with
                  | None => Err InvalidObject
                  | Some o =>
                      if type_matches o ty then
                        let* o' := clear o in
                        Ok (a, <[a := o']> (u_heap st))
                      else Err NodeTypeMismatch
                  end
              | None =>
                  Ok (length (u_heap st), u_heap st ++ [create_empty name md])
              end in
            let st1 := UState h1 (u_leaves st) (idx_set (index_ref st) index node) in
            let* (children, st2) := _get_children st1 in
            match u_heap st2 !! node with
            | None => Err InvalidObject
            | Some o =>
                let* o' := init o children in
                Ok (VRef node,
                    UState (<[node := o']> (u_heap st2)) (u_leaves st2) (index_ref st2))
            end
        | PytreeNodeImpl pty =>
            let* (children, st2) := _get_children st in
            let* node := pytree_unflatten pty children md in
            Ok (node, st2)
        end
  | VariableDef _ _ _ _ | Static _ => Err AssertionError
  end.

(** [unflatten]; returns the node with the store and [index_ref] as the
    call leaves them. *)
Definition unflatten (h : heap) (graphdef : graphdef) (state : state_arg)
    (index_ref0 : option IndexMap) (outer_index_outer_ref : option IndexMap)
  : result (value * heap * IndexMap) :=
  let* leaves := leaves_of_state state in
  let ir := default [] index_ref0 in
  let* (node, st) :=
    match graphdef with
    | NodeRef _ index =>
        match idx_get ir index with
        | Some a => Ok (VRef a, UState h leaves ir)
        | None => Err KeyError
        end
    | NodeDef ty _ _ _ _ =>
        match get_node_impl_for_type E ty with
        | None => Err UnsupportedType
        | Some node_impl =>
            _graph_unflatten outer_index_outer_ref graphdef node_impl
              (UState h leaves ir)
        end
    | VariableDef _ _ _ _ | Static _ => Err AssertionError
    end in
  match u_leaves st with
  | [] => Ok (node, u_heap st, index_ref st)
  | _ :: _ => Err (ExtraLeaves (length (u_leaves st)))
  end.
End Unflatten.

(* --------------------------------------------------------------------- *)
(* UpdateContext                                                          *)
(* --------------------------------------------------------------------- *)

Record UpdateContext := {
  outer_ref_outer_index : option RefMap;
  outer_index_inner_ref : option IndexMap;
  (* reverse caches *)
  outer_index_outer_ref : option IndexMap;
  inner_ref_outer_index : option RefMap
}.

(** [UpdateContext(tag, None, None, None, None)], as [__enter__] makes it. *)
Definition new_context : UpdateContext :=
  {| outer_ref_outer_index := None; outer_index_inner_ref := None;
     outer_index_outer_ref := None; inner_ref_outer_index := None |}.

Section Context.
Context (E : PyEnv).

(** [{index: obj for obj, index in ref_index.items()}] *)
Definition invert_ref_index (d : RefMap) : IndexMap :=
  dict_update Z.eqb [] (map (fun oi => (oi.2, oi.1)) d).

(** [RefMap((obj, index) for index, obj in index_ref.items())] *)
Definition invert_index_ref (h : heap) (d : IndexMap) : RefMap :=
  dict_update (ref_eqb E h) [] (map (fun io => (io.2, io.1)) d).

Definition flatten_end (self : UpdateContext) (ref_index : RefMap) : UpdateContext :=
  match outer_ref_outer_index self with
  | None =>
      (* outer split (1), store the references *)
      {| outer_ref_outer_index := Some ref_index;
         outer_index_inner_ref := outer_index_inner_ref self;
         outer_index_outer_ref := Some (invert_ref_index ref_index);
         inner_ref_outer_index := inner_ref_outer_index self |}
  | Some _ =>
      (* inner split (3), clear index_ref *)
      {| outer_ref_outer_index := outer_ref_outer_index self;
         outer_index_inner_ref := None;
         outer_index_outer_ref := outer_index_outer_ref self;
         inner_ref_outer_index := None |}
  end.

Definition unflatten_end (h : heap) (self : UpdateContext) (index_ref : IndexMap)
    (inner_merge : bool) : UpdateContext :=
  if inner_merge then
    (* inner merge (2) *)
    {| outer_ref_outer_index := outer_ref_outer_index self;
       outer_index_inner_ref := Some index_ref;
       outer_index_outer_ref := outer_index_outer_ref self;
       inner_ref_outer_index := Some (invert_index_ref h index_ref) |}
  else self.

(** [UpdateContext.split], without filters. The flat state is returned
    as [flatten] gives it; its regrouping into [State] objects is done by
    statelib. *)
Definition split (fuel : nat) (self : UpdateContext) (h : heap) (node : value)
  : result (graphdef * flat_state * UpdateContext) :=
  let* (graphdef, flat_state, ref_index) :=
    flatten E fuel h node true false (Some []) (inner_ref_outer_index self) in
  Ok (graphdef, flat_state, flatten_end self ref_index).

(** [UpdateContext.merge], with [state] the merged state. *)
Definition merge (self : UpdateContext) (h : heap) (graphdef : graphdef)
    (state : state_arg) : result (value * heap * UpdateContext) :=
  match graphdef with
  | NodeDef _ _ _ _ _ =>
      match outer_ref_outer_index self with
      | None => Err MergeWithoutRefIndex
      | Some _ =>
          (* outer merge (4), create index_ref_cache *)
          match outer_index_outer_ref self with
          | None => Err AssertionError
          | Some index_ref_cache =>
              let* (node, h', index_ref) :=
                unflatten E h graphdef state (Some []) (Some index_ref_cache) in
              Ok (node, h', unflatten_end h' self index_ref true)
          end
      end
  | _ => Err ExpectedNodeDef
  end.

(** What leaving a [split_context(ctxtag)] block does to the context. *)
Definition split_context_exit (self : UpdateContext) (ref_index : RefMap)
  : UpdateContext := flatten_end self ref_index.

(** What leaving a [merge_context(inner, ctxtag)] block does to the
    context; [inner] must be given with a tag. *)
Definition merge_context_exit (h : heap) (self : UpdateContext)
    (index_ref : IndexMap) (inner : option bool) : result UpdateContext :=
  match inner with
  | None => Err InvalidObject
  | Some inner => Ok (unflatten_end h self index_ref inner)
  end.
End Context.

(** [setattr(node, k, v)] on a graph node. *)
Definition set_key (h : heap) (a : addr) (k : key) (v : value) : result heap :=
  match h !! a with
  | Some (ONode ty attrs aux) => Ok (<[a := ONode ty (dict_set key_eqb attrs k v) aux]> h)
  | _ => Err InvalidObject
  end.

Definition get_key (h : heap) (a : addr) (k : key) : option value :=
  match h !! a with
  | Some (ONode _ attrs _) => dict_get key_eqb attrs k
  | _ => None
  end.

(* --------------------------------------------------------------------- *)
(* A concrete environment                                                 *)
(* --------------------------------------------------------------------- *)

(** The registries after import, plus one graph node class, [Dict]. Objects
    hash and compare by identity, as instances of classes without
    [__eq__] do. *)
Definition std_env : PyEnv := {|
  GRAPH_REGISTRY := fun ty => String.eqb ty "Dict" || String.eqb ty "Module";
  PYTREE_REGISTRY := fun ty =>
    String.eqb ty "list" || String.eqb ty "tuple" || String.eqb ty "dict"
    || String.eqb ty "NoneType";
  JAX_PYTREE_REGISTRY := fun ty => String.eqb ty "OrderedDict";
  issubclass_tuple := fun ty => String.eqb ty "tuple" || String.eqb ty "Point";
  py_eq := fun _ _ _ => false
|}.

(* ===================================================================== *)
(* Properties                                                             *)
(* ===================================================================== *)

(** Splits an equation [bind m k = Ok _] into the two steps it stands for,
    and opens the pairs the steps return. *)
Ltac bind_inv H :=
  let x := fresh "x" in
  let Hx := fresh "Hx" in
  apply bind_ok in H as (x & Hx & H);
  repeat match type of H with
         | context [let (_, _) := ?p in _] => destruct p
         end;
  simpl in H.

Ltac inv_ok :=
  repeat match goal with
         | H : Ok _ = Ok _ |- _ => injection H as H; subst
         | H : (_, _) = (_, _) |- _ => injection H as H; subst
         | H : Err _ = Ok _ |- _ => discriminate H
         | H : Ok _ = Err _ |- _ => discriminate H
         end.

(* --------------------------------------------------------------------- *)
(* Arrays are never static                                                *)
(* --------------------------------------------------------------------- *)

Lemma get_node_impl_err E h v e : get_node_impl E h v = Err e → e = InvalidObject.
Proof.
  destruct v as [s|d|a|ty items aux]; simpl; try done.
  destruct (h !! a) as [[]|]; simpl; congruence.
Qed.

Lemma node_flatten_err h v e : node_flatten h v = Err e → e = InvalidObject.
Proof.
  destruct v as [s|d|a|ty items aux]; simpl; try congruence.
  destruct (h !! a) as [[]|]; simpl; congruence.
Qed.

Lemma type_of_err h v e : type_of h v = Err e → e = InvalidObject.
Proof.
  destruct v as [s|d|a|ty items aux]; simpl; try congruence.
  destruct (h !! a) as [[]|]; simpl; congruence.
Qed.

Arguments get_node_impl : simpl never.
Arguments node_flatten : simpl never.
Arguments type_of : simpl never.
Arguments ref_get : simpl never.
Arguments ref_set : simpl never.
Arguments outer_index_of : simpl never.

(** A descriptor that holds an array as a [Static] attribute. *)
Fixpoint has_static_array (g : graphdef) : bool :=
  match g with
  | Static (VArray _) => true
  | NodeDef _ _ _ attributes _ =>
      (fix any (l : list (key * graphdef)) : bool :=
         match l with
         | [] => false
         | (_, d) :: rest => has_static_array d || any rest
         end) attributes
  | _ => false
  end.

Definition any_static_array (l : list (key * graphdef)) : bool :=
  existsb (fun kd => has_static_array kd.2) l.

Lemma has_static_array_NodeDef ty i oi attrs md :
  has_static_array (NodeDef ty i oi attrs md) = any_static_array attrs.
Proof.
  unfold any_static_array. simpl.
  induction attrs as [|[k d] l IH]; simpl; [done|]. by rewrite IH.
Qed.

Arguments has_static_array : simpl never.

(** [reaches E h v p w]: following the attribute names [p] from the node
    [v], through nodes only, ends at [w]. *)
Inductive reaches (E : PyEnv) (h : heap) : value → list key → value → Prop :=
| reaches_here v : reaches E h v [] v
| reaches_step v impl items md k c p w :
    get_node_impl E h v = Ok (Some impl) →
    node_flatten h v = Ok (items, md) →
    (k, c) ∈ items →
    reaches E h c p w →
    reaches E h v (k :: p) w.

Section ArrayRejection.
Context (E : PyEnv) (h : heap) (roi : option RefMap) (rv : bool).

(** What a recursive call has to guarantee for the loop to inherit it:
    no static array in a descriptor it returns, and an array error that
    names a path below the one it was called at. *)
Definition array_safe
    (rec : value → NodeImpl → option (list key) → fstate → result (graphdef * fstate))
  : Prop :=
  ∀ v impl path st,
    get_node_impl E h v = Ok (Some impl) →
    match rec v impl path st with
    | Ok (gd, _) => has_static_array gd = false
    | Err (ArraysNotSupported s) =>
        match path with
        | Some p => ∃ q d, s = Some (path_str (p ++ q)) ∧ reaches E h v q (VArray d)
        | None => s = None
        end
    | Err _ => True
    end.

Lemma flatten_attr_array rec path k d st :
  flatten_attr E h roi rv rec path k (VArray d) st
  = Err (ArraysNotSupported (option_map (fun p => path_str (p ++ [k])) path)).
Proof. unfold flatten_attr. simpl. by destruct path. Qed.

Lemma flatten_attr_safe rec path k v st :
  array_safe rec →
  match flatten_attr E h roi rv rec path k v st with
  | Ok (gd, _) => has_static_array gd = false
  | Err (ArraysNotSupported s) =>
      match path with
      | Some p => ∃ q d, s = Some (path_str (p ++ k :: q)) ∧ reaches E h v q (VArray d)
      | None => s = None
      end
  | Err _ => True
  end.
Proof.
  intros Hrec. unfold flatten_attr.
  destruct (get_node_impl E h v) as [[impl|]|e] eqn:Himpl; simpl.
  - specialize (Hrec v impl (option_map (fun p => p ++ [k]) path) st Himpl).
    destruct (rec v impl _ st) as [[gd st']|[]]; try done.
    destruct path as [p|]; simpl in *; [|done].
    destruct Hrec as (q & d & -> & Hq). exists q, d.
    by rewrite <- app_assoc.
  - destruct v as [s|d|a|ty items aux]; simpl; try done.
    + destruct path as [p|]; simpl; [|done].
      exists [], d. split; [done | constructor].
    + destruct (h !! a) as [[ty attrs aux|ty raw md]|]; simpl; try done.
      destruct (ref_get E h (ref_index st) a); simpl; [done|].
      destruct path as [p|]; simpl; [|done].
      by destruct (paths st).
  - by rewrite (get_node_impl_err _ _ _ _ Himpl).
Qed.

Lemma flatten_attrs_safe rec path node impl items md values st :
  array_safe rec →
  get_node_impl E h node = Ok (Some impl) →
  node_flatten h node = Ok (items, md) →
  values ⊆ items →
  match flatten_attrs E h roi rv rec path values st with
  | Ok (ds, _) => any_static_array ds = false
  | Err (ArraysNotSupported s) =>
      match path with
      | Some p => ∃ q d, s = Some (path_str (p ++ q)) ∧ reaches E h node q (VArray d)
      | None => s = None
      end
  | Err _ => True
  end.
Proof.
  intros Hrec Himpl Hitems. revert st.
  induction values as [|[k v] values IH]; intros st Hsub; simpl; [done|].
  pose proof (flatten_attr_safe rec path k v st Hrec) as Hone.
  destruct (flatten_attr E h roi rv rec path k v st) as [[d st1]|e]; simpl.
  - assert (values ⊆ items) as Hsub'
      by (intros x Hx; apply Hsub, elem_of_cons; by right).
    specialize (IH st1 Hsub').
    destruct (flatten_attrs E h roi rv rec path values st1) as [[ds st2]|e]; simpl.
    + unfold any_static_array in *. simpl. by rewrite Hone, IH.
    + done.
  - destruct e; try done.
    destruct path as [p|]; [|done].
    destruct Hone as (q & d & -> & Hq). exists (k :: q), d. split; [done|].
    eapply reaches_step; eauto. apply Hsub, elem_of_cons; by left.
Qed.
End ArrayRejection.

Lemma _graph_flatten_array_safe E h roi rv fuel :
  array_safe E h (_graph_flatten E fuel h roi rv).
Proof.
  induction fuel as [|fuel IH]; intros v impl path st Himpl; simpl; [done|].
  destruct impl as [ty|ty].
  - destruct v as [s|d|a|ty' its aux]; try done.
    destruct (ref_get E h (ref_index st) a); simpl.
    { destruct (type_of h (VRef a)) as [?|e] eqn:Hty; simpl; [reflexivity|].
      by rewrite (type_of_err _ _ _ Hty). }
    destruct (node_flatten h (VRef a)) as [[values md]|e] eqn:Hfl; simpl;
      [|by rewrite (node_flatten_err _ _ _ Hfl)].
    pose proof (flatten_attrs_safe E h roi rv _ path (VRef a) _ values md values
      (FState (ref_set E h (ref_index st) a (dict_len (ref_index st)))
              (leaves st) (paths st)) IH Himpl Hfl (reflexivity _)) as Hloop.
    destruct (flatten_attrs _ _ _ _ _ _ _ _) as [[ds st2]|e]; simpl; [|done].
    by rewrite has_static_array_NodeDef.
  - destruct (node_flatten h v) as [[values md]|e] eqn:Hfl; simpl;
      [|by rewrite (node_flatten_err _ _ _ Hfl)].
    pose proof (flatten_attrs_safe E h roi rv _ path v _ values md values st
      IH Himpl Hfl (reflexivity _)) as Hloop.
    destruct (flatten_attrs _ _ _ _ _ _ _ _) as [[ds st2]|e]; simpl; [|done].
    by rewrite has_static_array_NodeDef.
Qed.

(** C10, as amended. An array met as an attribute value always makes
    [flatten] fail: the loop turn on an array raises, whatever the flags
    and maps, and a descriptor that [flatten] returns never holds an array
    as a [Static]. When paths are tracked ([with_paths=True]) the error
    names the path of an array that is really there; when they are not, the
    error carries no path. *)
Theorem flatten_rejects_arrays E fuel h node with_paths return_variables ri roi :
  (∀ rec path k d st,
     flatten_attr E h roi return_variables rec path k (VArray d) st
     = Err (ArraysNotSupported (option_map (fun p => path_str (p ++ [k])) path)))
  ∧ match flatten E fuel h node with_paths return_variables ri roi with
    | Ok (gd, _, _) => has_static_array gd = false
    | Err (ArraysNotSupported s) =>
        if with_paths
        then ∃ q d, s = Some (path_str q) ∧ reaches E h node q (VArray d)
        else s = None
    | Err _ => True
    end.
Proof.
  split; [intros; apply flatten_attr_array|].
  unfold flatten.
  destruct (get_node_impl E h node) as [[impl|]|e] eqn:Himpl; simpl; try done.
  - pose proof (_graph_flatten_array_safe E h roi return_variables fuel node impl
      (if with_paths then Some [] else None)
      (FState (default [] ri) [] (if with_paths then Some [] else None)) Himpl) as H.
    destruct (_graph_flatten _ _ _ _ _ _ _ _ _) as [[gd st]|e]; simpl.
    + by destruct (paths st).
    + destruct e; try done. by destruct with_paths.
  - by rewrite (get_node_impl_err _ _ _ _ Himpl).
Qed.

(** C10, the claim as it was stated fails: without paths
    ([with_paths=False]) the error for an array attribute names no path. *)
Lemma flatten_array_error_names_no_path :
  let h := [ONode "Module" [(KStr "w", VArray 7)] MNone] in
  flatten std_env 2 h (VRef 0%nat) false false None None
    = Err (ArraysNotSupported None)
  ∧ ¬ ∃ s, flatten std_env 2 h (VRef 0%nat) false false None None
           = Err (ArraysNotSupported (Some s)).
Proof. split; [reflexivity | intros [s Hs]; vm_compute in Hs; discriminate]. Qed.

(** With paths the same graph fails with the path of the array. *)
Example flatten_array_error_names_path :
  flatten std_env 3
    [ONode "Module" [(KStr "layers", VTree "list" [(KInt 0, VRef 1%nat)] MNone)] MNone;
     ONode "Module" [(KStr "w", VArray 7)] MNone]
    (VRef 0%nat) true false None None
  = Err (ArraysNotSupported (Some "layers/0/w")).
Proof. reflexivity. Qed.

(* --------------------------------------------------------------------- *)
(* Leaf counting                                                          *)
(* --------------------------------------------------------------------- *)

(** Induction on descriptors, with the attributes of a [NodeDef] covered. *)
Section graphdef_induction.
Variable P : graphdef → Prop.
Hypothesis HNodeDef : ∀ ty i oi attrs md,
  Forall (fun kd => P kd.2) attrs → P (NodeDef ty i oi attrs md).
Hypothesis HNodeRef : ∀ ty i, P (NodeRef ty i).
Hypothesis HVariableDef : ∀ ty i oi md, P (VariableDef ty i oi md).
Hypothesis HStatic : ∀ v, P (Static v).

Fixpoint graphdef_ind' (g : graphdef) : P g :=
  match g with
  | NodeDef ty i oi attrs md =>
      HNodeDef ty i oi attrs md
        ((fix go (l : list (key * graphdef)) : Forall (fun kd => P kd.2) l :=
            match l with
            | [] => List.Forall_nil _
            | kd :: rest => List.Forall_cons _ kd rest (graphdef_ind' kd.2) (go rest)
            end) attrs)
  | NodeRef ty i => HNodeRef ty i
  | VariableDef ty i oi md => HVariableDef ty i oi md
  | Static v => HStatic v
  end.
End graphdef_induction.

(** The number of leaves a descriptor asks for: one per [VariableDef]. *)
Fixpoint demand (g : graphdef) : nat :=
  match g with
  | VariableDef _ _ _ _ => 1
  | NodeDef _ _ _ attributes _ =>
      (fix sum (l : list (key * graphdef)) : nat :=
         match l with
         | [] => 0
         | (_, d) :: rest => demand d + sum rest
         end)%nat attributes
  | NodeRef _ _ | Static _ => 0
  end.

Fixpoint demand_attrs (l : list (key * graphdef)) : nat :=
  match l with
  | [] => 0
  | (_, d) :: rest => demand d + demand_attrs rest
  end%nat.

Lemma demand_NodeDef ty i oi attrs md :
  demand (NodeDef ty i oi attrs md) = demand_attrs attrs.
Proof. simpl. induction attrs as [|[k d] l IH]; simpl; [done|]. by rewrite IH. Qed.

Arguments demand : simpl never.

Definition with_leaves (st : ustate) (l : list leaf) : ustate :=
  UState (u_heap st) l (index_ref st).

(** What a traversal step does with the leaf queue: it takes exactly the
    [need] leaves it asks for from the front, does not look at the rest,
    and raises the underflow error when the queue is cut short; the "extra
    leaves" error is never raised inside the traversal. *)
Definition leaf_spec {B} (run : ustate → result (B * ustate)) (need : nat) : Prop :=
  ∀ st : ustate,
    match run st with
    | Ok (v, st') =>
        ∃ c, u_leaves st = c ++ u_leaves st' ∧ length c = need
           ∧ (∀ r, run (with_leaves st (c ++ r)) = Ok (v, with_leaves st' r))
           ∧ (∀ c1 c2, c = c1 ++ c2 → c2 ≠ [] →
                run (with_leaves st c1) = Err NotEnoughLeaves)
    | Err NotEnoughLeaves => (length (u_leaves st) < need)%nat
    | Err (ExtraLeaves _) => False
    | Err _ => True
    end.

Lemma with_leaves_id st : with_leaves st (u_leaves st) = st.
Proof. by destruct st. Qed.

Lemma leaf_spec_ext {B} (run run' : ustate → result (B * ustate)) n :
  (∀ st, run st = run' st) → leaf_spec run' n → leaf_spec run n.
Proof.
  intros Heq H st. specialize (H st). rewrite Heq.
  destruct (run' st) as [[v st']|e]; [|done].
  destruct H as (c & ? & ? & Hr & Hp). exists c. repeat split; try done.
  - intros r. by rewrite Heq.
  - intros c1 c2 ? ?. rewrite Heq. eauto.
Qed.

Lemma leaf_spec_bind {A B} (m : ustate → result (A * ustate))
    (k : A → ustate → result (B * ustate)) n1 n2 :
  leaf_spec m n1 → (∀ a, leaf_spec (k a) n2) →
  leaf_spec (fun st => let* (a, st1) := m st in k a st1) (n1 + n2).
Proof.
  intros Hm Hk st. pose proof (Hm st) as Hst.
  destruct (m st) as [[a st1]|e] eqn:Em; simpl.
  - destruct Hst as (c1 & Hl1 & Hn1 & Hr1 & Hp1).
    pose proof (Hk a st1) as Hst1.
    destruct (k a st1) as [[b st2]|e] eqn:Ek.
    + destruct Hst1 as (c2 & Hl2 & Hn2 & Hr2 & Hp2).
      exists (c1 ++ c2). repeat split.
      * by rewrite Hl1, Hl2, app_assoc.
      * rewrite length_app. lia.
      * intros r. rewrite <- app_assoc, Hr1. simpl. apply Hr2.
      * intros p1 p2 Heq Hne.
        apply app_eq_app in Heq as [q [[-> ->]|[-> ->]]].
        -- destruct q as [|x q].
           ++ rewrite app_nil_r in *. specialize (Hr1 []).
              rewrite app_nil_r in Hr1. rewrite Hr1. simpl.
              by apply (Hp2 [] c2).
           ++ by rewrite (Hp1 p1 (x :: q)).
        -- rewrite Hr1. simpl. by apply (Hp2 q p2).
    + destruct e; try done.
      rewrite Hl1, length_app. lia.
  - destruct e; try done. lia.
Qed.

(** A step that leaves the queue alone. *)
Definition leaf_neutral {B} (run : ustate → result (B * ustate)) : Prop :=
  ∀ st,
    match run st with
    | Ok (v, st') =>
        u_leaves st' = u_leaves st
        ∧ ∀ l, run (with_leaves st l) = Ok (v, with_leaves st' l)
    | Err NotEnoughLeaves | Err (ExtraLeaves _) => False
    | Err _ => True
    end.

Lemma leaf_neutral_spec {B} (run : ustate → result (B * ustate)) :
  leaf_neutral run → leaf_spec run 0.
Proof.
  intros H st. specialize (H st).
  destruct (run st) as [[v st']|e]; [|by destruct e].
  destruct H as [Hl Hr]. exists []. repeat split; try done.
  intros c1 c2 Heq Hne. symmetry in Heq. apply app_eq_nil in Heq as [_ ->]. done.
Qed.

Lemma singleton_split {A} (x : A) c1 c2 : [x] = c1 ++ c2 → c2 ≠ [] → c1 = [].
Proof.
  destruct c1 as [|y c1]; [done|]. simpl. intros [= -> Heq] Hne.
  symmetry in Heq. by apply app_eq_nil in Heq as [_ ->].
Qed.

Section LeafCount.
Context (E : PyEnv) (outer : option IndexMap).
Context (rec : graphdef → NodeImpl → ustate → result (value * ustate)).

Lemma unflatten_attr_leaf_spec attr :
  (∀ impl, leaf_spec (rec attr impl) (demand attr)) →
  leaf_spec (unflatten_attr E outer rec attr) (demand attr).
Proof.
  intros Hrec. destruct attr as [ty i oi attrs md|ty i|ty i oi md|v].
  - unfold unflatten_attr. destruct (get_node_impl_for_type E ty); [apply Hrec|].
    by intros st.
  - apply (leaf_neutral_spec (unflatten_attr E outer rec (NodeRef ty i))).
    intros [h ls ir]; simpl. by destruct (idx_get ir i).
  - intros [h ls ir]; cbn.
    destruct ls as [|l ls]; cbn; [unfold demand; lia|].
    destruct (outer_lookup outer oi) as [a|]; cbn.
    + destruct (h !! a) as [o|]; cbn; [|done].
      destruct (update_variable o l) as [o'|e] eqn:Eu; cbn.
      * exists [l]. repeat split; try done.
        -- cbn. rewrite Eu. done.
        -- intros c1 c2 Heq Hne. by rewrite (singleton_split _ _ _ Heq Hne).
      * destruct o; simpl in Eu; [by injection Eu as <- | discriminate].
    + exists [l]. repeat split; try done.
      intros c1 c2 Heq Hne. by rewrite (singleton_split _ _ _ Heq Hne).
  - apply (leaf_neutral_spec (unflatten_attr E outer rec (Static v))).
    by intros [h ls ir].
Qed.

Lemma unflatten_attrs_leaf_spec attrs :
  Forall (fun kd => ∀ impl, leaf_spec (rec kd.2 impl) (demand kd.2)) attrs →
  leaf_spec (unflatten_attrs E outer rec attrs) (demand_attrs attrs).
Proof.
  induction 1 as [|[k d] attrs Hd _ IH]; simpl.
  - apply (leaf_neutral_spec (fun st => Ok ([], st))). by intros [h ls ir].
  - assert (leaf_spec
      (fun st => let* (child, st1) := unflatten_attr E outer rec d st in
                 let* (children, st2) := unflatten_attrs E outer rec attrs st1 in
                 Ok ((k, child) :: children, st2))
      (demand d + (demand_attrs attrs + 0))) as H.
    { apply leaf_spec_bind; [by apply unflatten_attr_leaf_spec|].
      intros child. apply leaf_spec_bind; [done|].
      intros children. apply leaf_neutral_spec. by intros [h ls ir]. }
    rewrite Nat.add_0_r in H. exact H.
Qed.
End LeafCount.

Lemma _graph_unflatten_leaf_spec E outer gd :
  ∀ impl, leaf_spec (_graph_unflatten E outer gd impl) (demand gd).
Proof.
  induction gd as [ty i oi attrs md IH|ty i|ty i oi md|v] using graphdef_ind';
    intros impl.
  - rewrite demand_NodeDef.
    pose proof (unflatten_attrs_leaf_spec E outer _ attrs IH) as Hch.
    destruct impl as [name|pty].
    + set (pre := fun st : ustate =>
        if dict_mem Z.eqb (index_ref st) i then Err (IndexAlreadyUsed i)
        else
          let* (node, h1) :=
            match outer_lookup outer oi with
            | Some a =>
                match u_heap st !! a with
                | None => Err InvalidObject
                | Some o =>
                    if type_matches o ty then
                      let* o' := clear o in Ok (a, <[a := o']> (u_heap st))
                    else Err NodeTypeMismatch
                end
            | None => Ok (length (u_heap st), u_heap st ++ [create_empty name md])
            end in
          Ok (node, UState h1 (u_leaves st) (idx_set (index_ref st) i node))).
      set (post := fun (node : addr) (children : list (key * value)) (st2 : ustate) =>
        match u_heap st2 !! node with
        | None => Err InvalidObject
        | Some o =>
            let* o' := init o children in
            Ok (VRef node,
                UState (<[node := o']> (u_heap st2)) (u_leaves st2) (index_ref st2))
        end).
      assert (leaf_spec
        (fun st => let* (node, st1) := pre st in
                   let* (children, st2) :=
                     unflatten_attrs E outer (_graph_unflatten E outer) attrs st1 in
                   post node children st2)
        (0 + (demand_attrs attrs + 0))) as H.
      { apply leaf_spec_bind.
        - apply leaf_neutral_spec. intros [h ls ir]. unfold pre; simpl.
          destruct (dict_mem Z.eqb ir i); [done|].
          destruct (outer_lookup outer oi) as [a|]; simpl; [|done].
          destruct (h !! a) as [o|]; simpl; [|done].
          destruct (type_matches o ty); [|done].
          destruct o; simpl; done.
        - intros node. apply leaf_spec_bind; [done|].
          intros children. apply leaf_neutral_spec. intros [h ls ir]. unfold post; simpl.
          destruct (h !! node) as [o|]; [|done].
          destruct o; simpl; done. }
      replace (0 + (demand_attrs attrs + 0))%nat with (demand_attrs attrs) in H by lia.
      eapply leaf_spec_ext; [|exact H].
      intros [h ls ir]. unfold pre, post; simpl.
      destruct (dict_mem Z.eqb ir i); [done|].
      destruct (outer_lookup outer oi) as [a|]; simpl; [|done].
      destruct (h !! a) as [o|]; simpl; [|done].
      destruct (type_matches o ty); [|done].
      destruct (clear o); simpl; done.
    + assert (leaf_spec
        (fun st => let* (_, st0) :=
                     (fun st : ustate =>
                        if dict_mem Z.eqb (index_ref st) i
                        then Err (IndexAlreadyUsed i) else Ok (tt, st)) st in
                   let* (children, st2) :=
                     unflatten_attrs E outer (_graph_unflatten E outer) attrs st0 in
                   (fun st2 => let* node := pytree_unflatten pty children md in
                               Ok (node, st2)) st2)
        (0 + (demand_attrs attrs + 0))) as H.
      { apply leaf_spec_bind.
        - apply leaf_neutral_spec. intros [h ls ir]; simpl.
          by destruct (dict_mem Z.eqb ir i).
        - intros _. apply leaf_spec_bind; [done|].
          intros children. apply leaf_neutral_spec. intros [h ls ir]; simpl.
          destruct (pytree_unflatten pty children md) as [node|e] eqn:Ep; simpl; [done|].
          destruct pty; simpl in Ep; [|done].
          destruct md; try (by injection Ep as <-).
          destruct (forallb _ _); [done|by injection Ep as <-]. }
      replace (0 + (demand_attrs attrs + 0))%nat with (demand_attrs attrs) in H by lia.
      eapply leaf_spec_ext; [|exact H].
      intros [h ls ir]; simpl.
      by destruct (dict_mem Z.eqb ir i).
  - apply (leaf_neutral_spec (_graph_unflatten E outer (NodeRef ty i) impl)).
    intros [h ls ir]; simpl. by destruct (idx_get ir i).
  - by intros st.
  - by intros st.
Qed.

(** The traversal [unflatten] starts, as a step on the traversal state. *)
Definition unflatten_top (E : PyEnv) (outer : option IndexMap) (gd : graphdef)
    (st : ustate) : result (value * ustate) :=
  match gd with
  | NodeRef _ index =>
      match idx_get (index_ref st) index with
      | Some a => Ok (VRef a, st)
      | None => Err KeyError
      end
  | NodeDef ty _ _ _ _ =>
      match get_node_impl_for_type E ty with
      | None => Err UnsupportedType
      | Some node_impl => _graph_unflatten E outer gd node_impl st
      end
  | VariableDef _ _ _ _ | Static _ => Err AssertionError
  end.

Lemma unflatten_unfold E h gd state ir outer :
  unflatten E h gd state ir outer =
  let* leaves := leaves_of_state state in
  let* (node, st) := unflatten_top E outer gd (UState h leaves (default [] ir)) in
  match u_leaves st with
  | [] => Ok (node, u_heap st, index_ref st)
  | _ :: _ => Err (ExtraLeaves (length (u_leaves st)))
  end.
Proof.
  unfold unflatten, unflatten_top.
  destruct (leaves_of_state state) as [ls|]; simpl; [|done].
  destruct gd as [ty i oi attrs md|ty i|ty i oi md|v]; simpl; done.
Qed.

Lemma unflatten_top_leaf_spec E outer gd :
  leaf_spec (unflatten_top E outer gd) (demand gd).
Proof.
  destruct gd as [ty i oi attrs md|ty i|ty i oi md|v]; unfold unflatten_top.
  - destruct (get_node_impl_for_type E ty); [apply _graph_unflatten_leaf_spec|].
    by intros st.
  - apply (leaf_neutral_spec (fun st : ustate =>
      match idx_get (index_ref st) i with
      | Some a => Ok (VRef a, st) | None => Err KeyError end)).
    intros [h ls ir]; simpl. by destruct (idx_get ir i).
  - by intros st.
  - by intros st.
Qed.

(** C7. [unflatten] checks the number of leaves against the descriptor's
    demand (one leaf per [VariableDef]): reaching a [VariableDef] with the
    queue empty raises the underflow error; whenever the call returns, the
    leaves were exactly as many as the descriptor asks for, an underflow
    error means there were fewer and an "extra leaves" error that that
    many were left over; and for a descriptor that unflattens with some
    leaves, the same call with any leaves cut off the end fails with the
    underflow error and with any leaves added with the leftover error. *)
Theorem unflatten_leaf_count E h gd ir outer :
  (∀ rec ty i oi md st,
     u_leaves st = [] →
     unflatten_attr E outer rec (VariableDef ty i oi md) st = Err NotEnoughLeaves)
  ∧ (∀ state ls,
       leaves_of_state state = Ok ls →
       match unflatten E h gd state ir outer with
       | Ok _ => length ls = demand gd
       | Err NotEnoughLeaves => (length ls < demand gd)%nat
       | Err (ExtraLeaves n) => (0 < n)%nat ∧ length ls = (demand gd + n)%nat
       | Err _ => True
       end)
  ∧ (∀ ls r,
       unflatten E h gd (Flat (LeafList ls)) ir outer = Ok r →
       (∀ c1 c2, ls = c1 ++ c2 → c2 ≠ [] →
          unflatten E h gd (Flat (LeafList c1)) ir outer = Err NotEnoughLeaves)
       ∧ (∀ extra, extra ≠ [] →
          unflatten E h gd (Flat (LeafList (ls ++ extra))) ir outer
          = Err (ExtraLeaves (length extra)))).
Proof.
  split; [|split].
  - intros rec ty i oi md [h' ls ir'] Hls. simpl in Hls. subst ls. done.
  - intros state ls Hls. rewrite unflatten_unfold, Hls. simpl.
    pose proof (unflatten_top_leaf_spec E outer gd (UState h ls (default [] ir))) as H.
    destruct (unflatten_top _ _ _ _) as [[node st]|e]; simpl.
    + destruct H as (c & Hl & Hn & _). simpl in Hl.
      destruct (u_leaves st) as [|x rest] eqn:Hrest.
      * rewrite app_nil_r in Hl. by subst.
      * split; [simpl; lia|]. rewrite Hl, length_app. lia.
    + destruct e; try done.
  - intros ls r Hok. rewrite unflatten_unfold in Hok. simpl in Hok.
    pose proof (unflatten_top_leaf_spec E outer gd (UState h ls (default [] ir))) as H.
    destruct (unflatten_top _ _ _ _) as [[node st]|e] eqn:Et; simpl in Hok; [|done].
    destruct H as (c & Hl & Hn & Hr & Hp). simpl in Hl.
    destruct (u_leaves st) as [|x rest] eqn:Hrest; [|done].
    rewrite app_nil_r in Hl. subst c. split.
    + intros c1 c2 Heq Hne. rewrite unflatten_unfold. simpl.
      specialize (Hp c1 c2 Heq Hne). unfold with_leaves in Hp. simpl in Hp.
      by rewrite Hp.
    + intros extra Hne. rewrite unflatten_unfold. simpl.
      specialize (Hr extra). unfold with_leaves in Hr. simpl in Hr.
      rewrite Hr. simpl. by destruct extra.
Qed.

(** A two-variable module: both leaves are needed, no more. *)
Lemma unflatten_leaf_count_witness :
  let gd := NodeDef (Cls "Module") 0 None
              [(KStr "b", VariableDef "Param" 1 None []);
               (KStr "w", VariableDef "Param" 2 None [])] MNone in
  let b := RawLeaf (PData 1) in
  let w := RawLeaf (PData 2) in
  length [b; w] = demand gd
  ∧ unflatten std_env [] gd (Flat (LeafList [b])) None None = Err NotEnoughLeaves
  ∧ unflatten std_env [] gd (Flat (LeafList ([b; w] ++ [b]))) None None
    = Err (ExtraLeaves 1).
Proof.
  intros gd b w.
  destruct (unflatten_leaf_count std_env [] gd None None) as (_ & H2 & H3).
  split; [exact (H2 (Flat (LeafList [b; w])) [b; w] eq_refl)|].
  destruct (H3 [b; w]
    (VRef 0%nat,
     [ONode "Module" [(KStr "b", VRef 1%nat); (KStr "w", VRef 2%nat)] MNone;
      OVar "Param" (PData 1) []; OVar "Param" (PData 2) []],
     [(0, 0%nat); (1, 1%nat); (2, 2%nat)]) eq_refl) as [Hcut Hadd].
  split.
  - apply (Hcut [b] [w]); [reflexivity | discriminate].
  - apply (Hadd [b]). discriminate.
Defined.

(* --------------------------------------------------------------------- *)
(* The update context: call order and map clearing                        *)
(* --------------------------------------------------------------------- *)

Lemma merge_before_split E self h gd state :
  outer_ref_outer_index self = None →
  merge E self h gd state
  = match gd with
    | NodeDef _ _ _ _ _ => Err MergeWithoutRefIndex
    | _ => Err ExpectedNodeDef
    end.
Proof. intros H. unfold merge. rewrite H. by destruct gd. Qed.

Lemma flatten_end_after_first self ri :
  outer_ref_outer_index self ≠ None →
  flatten_end self ri
  = {| outer_ref_outer_index := outer_ref_outer_index self;
       outer_index_inner_ref := None;
       outer_index_outer_ref := outer_index_outer_ref self;
       inner_ref_outer_index := None |}.
Proof. unfold flatten_end. by destruct (outer_ref_outer_index self). Qed.




(** After the inner split the inner maps are gone. *)
Lemma inner_split_clears_inner_maps E fuel self h node gd fs c :
  outer_ref_outer_index self ≠ None →
  split E fuel self h node = Ok (gd, fs, c) →
  outer_index_inner_ref c = None ∧ inner_ref_outer_index c = None.
Proof.
  intros Hsome H. unfold split in H.
  destruct (flatten _ _ _ _ _ _ _ _) as [[[gd' fs'] ri]|e]; simpl in H; [|done].
  injection H as _ _ <-. by rewrite flatten_end_after_first.
Qed.

(** A merge never touches the outer maps, and fills the inner ones. *)
Lemma merge_keeps_outer_maps E self h gd state node h' c :
  merge E self h gd state = Ok (node, h', c) →
  outer_ref_outer_index c = outer_ref_outer_index self
  ∧ outer_index_outer_ref c = outer_index_outer_ref self
  ∧ outer_ref_outer_index c ≠ None
  ∧ outer_index_inner_ref c ≠ None
  ∧ inner_ref_outer_index c ≠ None.
Proof.
  unfold merge. destruct gd; try done.
  destruct (outer_ref_outer_index self) eqn:H1; [|done].
  destruct (outer_index_outer_ref self) eqn:H2; [|done].
  destruct (unflatten _ _ _ _ _ _) as [[[n hh] ir]|]; simpl; [|done].
  intros [= _ _ <-]. simpl. by rewrite H1, H2.
Qed.

(** Leaving a [merge_context] block with [inner=False] changes nothing. *)
Lemma outer_merge_context_exit E h self index_ref :
  merge_context_exit E h self index_ref (Some false) = Ok self.
Proof. reflexivity. Qed.

(** The four calls of the docstring example of [update_context], around
    the mutation made behind the boundary ([m2.a = s; m2.ref = m2]). The
    result is the outer merge's node, the final store, the inner object and
    the contexts after calls 3 and 4. *)
Definition update_round_trip (E : PyEnv) (fuel : nat) (h : heap) (m1 : addr)
    (k_new : key) (s : static) (k_ref : key)
  : result (value * heap * addr * UpdateContext * UpdateContext) :=
  let* (graphdef, state, c1) := split E fuel new_context h (VRef m1) in
  let* (m2, h2, c2) := merge E c1 h graphdef (Flat state) in
  match m2 with
  | VRef a2 =>
      let* h3 := set_key h2 a2 k_new (VStatic s) in
      let* h3 := set_key h3 a2 k_ref (VRef a2) in
      let* (graphdef_out, state_out, c3) := split E fuel c2 h3 m2 in
      let* (m3, h4, c4) := merge E c3 h3 graphdef_out (Flat state_out) in
      Ok (m3, h4, a2, c3, c4)
  | _ => Err InvalidObject
  end.

(** The example itself: a [Dict] that refers to itself. *)
Definition four_calls : result (value * heap * addr * UpdateContext * UpdateContext) :=
  update_round_trip std_env 3 [ONode "Dict" [(KStr "ref", VRef 0%nat)] MNone]
    0%nat (KStr "a") (SInt 1) (KStr "ref").

(** C9, the code at the failing input: after call 3 the inner maps are
    cleared, but after call 4 the outer maps are still there (and the inner
    ones are filled again). *)
Theorem outer_maps_survive_outer_merge :
  ∃ m3 h4 m2 c3 c4,
    four_calls = Ok (m3, h4, m2, c3, c4)
    ∧ outer_index_inner_ref c3 = None ∧ inner_ref_outer_index c3 = None
    ∧ outer_ref_outer_index c4 = Some [(0%nat, 0)]
    ∧ outer_index_outer_ref c4 = Some [(0, 0%nat)]
    ∧ outer_index_inner_ref c4 = Some [(0, 0%nat)]
    ∧ inner_ref_outer_index c4 = Some [(0%nat, 0)].
Proof. do 5 eexists. split; [vm_compute; reflexivity|]. simpl. done. Qed.

(* --------------------------------------------------------------------- *)
(* Dicts whose key test is equality                                       *)
(* --------------------------------------------------------------------- *)

Section DictEq.
Context {K V : Type} (eqb : K → K → bool).
Hypothesis eqb_spec : ∀ a b, eqb a b = true ↔ a = b.

Lemma eqb_refl_of_spec k : eqb k k = true.
Proof. by apply eqb_spec. Qed.

Lemma dict_get_None_keys (d : list (K * V)) k :
  dict_get eqb d k = None ↔ k ∉ map fst d.
Proof.
  induction d as [|[k' v] d IH]; simpl.
  - split; [intros _ H; by apply elem_of_nil in H | done].
  - destruct (eqb k' k) eqn:Ek.
    + apply eqb_spec in Ek as ->. split; [done|]. intros H. exfalso. apply H. by left.
    + rewrite IH. split.
      * intros Hn [Heq|H]%elem_of_cons; [|done]. simpl in Heq. subst.
        pose proof (eqb_refl_of_spec k'). congruence.
      * intros Hn H. apply Hn. by right.
Qed.

Lemma dict_get_set (d : list (K * V)) k v k' :
  dict_get eqb (dict_set eqb d k v) k' = if eqb k k' then Some v else dict_get eqb d k'.
Proof.
  induction d as [|[k0 v0] d IH]; simpl.
  - by destruct (eqb k k').
  - destruct (eqb k0 k) eqn:E0; simpl.
    + apply eqb_spec in E0 as ->. by destruct (eqb k k').
    + rewrite IH. destruct (eqb k0 k') eqn:E1; [|done].
      destruct (eqb k k') eqn:E2; [|done].
      apply eqb_spec in E1. apply eqb_spec in E2. subst.
      pose proof (eqb_refl_of_spec k'). congruence.
Qed.

Lemma dict_set_keys (d : list (K * V)) k v :
  map fst (dict_set eqb d k v)
  = if dict_mem eqb d k then map fst d else map fst d ++ [k].
Proof.
  unfold dict_mem. induction d as [|[k0 v0] d IH]; simpl; [done|].
  destruct (eqb k0 k) eqn:E0; simpl; [done|].
  rewrite IH. by destruct (dict_get eqb d k).
Qed.

Lemma dict_set_NoDup (d : list (K * V)) k v :
  NoDup (map fst d) → NoDup (map fst (dict_set eqb d k v)).
Proof.
  intros Hnd. rewrite dict_set_keys. unfold dict_mem.
  destruct (dict_get eqb d k) eqn:Hg; [done|].
  apply dict_get_None_keys in Hg.
  apply NoDup_app. split; [done|]. split; [|apply NoDup_singleton].
  intros x Hx ->%list_elem_of_singleton. done.
Qed.

Lemma dict_update_NoDup (d items : list (K * V)) :
  NoDup (map fst d) → NoDup (map fst (dict_update eqb d items)).
Proof.
  unfold dict_update. revert d.
  induction items as [|[k v] items IH]; intros d Hd; simpl; [done|].
  apply IH. by apply dict_set_NoDup.
Qed.

Lemma dict_update_rebuild (acc d : list (K * V)) :
  NoDup (map fst (acc ++ d)) → dict_update eqb acc d = acc ++ d.
Proof.
  unfold dict_update. revert acc.
  induction d as [|[k v] d IH]; intros acc Hnd; simpl.
  - by rewrite app_nil_r.
  - assert (dict_get eqb acc k = None) as Hk.
    { apply dict_get_None_keys. rewrite map_app in Hnd. simpl in Hnd.
      apply NoDup_app in Hnd as (_ & Hdis & _). intros Hin.
      apply (Hdis k Hin). by left. }
    rewrite (dict_set_absent _ _ _ _ Hk), IH; [by rewrite <- app_assoc|].
    by rewrite <- app_assoc.
Qed.

Lemma dict_get_map_values {W} (f : V → W) (d : list (K * V)) k :
  dict_get eqb (map (fun kv => (kv.1, f kv.2)) d) k = f <$> dict_get eqb d k.
Proof.
  induction d as [|[k0 v0] d IH]; simpl; [done|]. by destruct (eqb k0 k).
Qed.

Lemma dict_set_Forall (P : V → Prop) (d : list (K * V)) k v :
  Forall (fun kv => P kv.2) d → P v → Forall (fun kv => P kv.2) (dict_set eqb d k v).
Proof.
  intros Hd Hv. induction Hd as [|[k0 v0] d H0 Hd IH]; simpl.
  - by constructor.
  - destruct (eqb k0 k); constructor; done.
Qed.

Lemma dict_update_Forall (P : V → Prop) (d items : list (K * V)) :
  Forall (fun kv => P kv.2) d → Forall (fun kv => P kv.2) items →
  Forall (fun kv => P kv.2) (dict_update eqb d items).
Proof.
  unfold dict_update. intros Hd Hi. revert d Hd.
  induction Hi as [|[k v] items Hv Hi IH]; intros d Hd; simpl; [done|].
  apply IH. by apply dict_set_Forall.
Qed.
End DictEq.

Lemma key_eqb_spec a b : key_eqb a b = true ↔ a = b.
Proof.
  destruct a as [s|x], b as [t|y]; simpl; try (split; congruence).
  - rewrite String.eqb_eq. split; congruence.
  - rewrite Z.eqb_eq. split; congruence.
Qed.

Lemma Z_eqb_spec (a b : Z) : (a =? b) = true ↔ a = b.
Proof. apply Z.eqb_eq. Qed.

(** The equations of [_graph_flatten], case by case. *)
Lemma _graph_flatten_seen E fuel h roi rv a ty path st i :
  ref_get E h (ref_index st) a = Some i →
  _graph_flatten E (S fuel) h roi rv (VRef a) (GraphNodeImpl ty) path st
  = let* node_ty := type_of h (VRef a) in Ok (NodeRef node_ty i, st).
Proof. intros H. simpl. by rewrite H. Qed.

Lemma _graph_flatten_new E fuel h roi rv a ty path st :
  ref_get E h (ref_index st) a = None →
  _graph_flatten E (S fuel) h roi rv (VRef a) (GraphNodeImpl ty) path st
  = let index := dict_len (ref_index st) in
    let st1 := FState (ref_set E h (ref_index st) a index) (leaves st) (paths st) in
    let* (values, md) := node_flatten h (VRef a) in
    let* (attributes, st2) :=
      flatten_attrs E h roi rv (_graph_flatten E fuel h roi rv) path values st1 in
    Ok (NodeDef (Cls ty) index (outer_index_of E h roi a) attributes md, st2).
Proof. intros H. simpl. by rewrite H. Qed.

Lemma _graph_flatten_pytree E fuel h roi rv node ty path st :
  _graph_flatten E (S fuel) h roi rv node (PytreeNodeImpl ty) path st
  = let* (values, md) := node_flatten h node in
    let* (attributes, st2) :=
      flatten_attrs E h roi rv (_graph_flatten E fuel h roi rv) path values st in
    Ok (NodeDef ty (-1) None attributes md, st2).
Proof. reflexivity. Qed.

Arguments _graph_flatten : simpl never.


(* --------------------------------------------------------------------- *)
(* The update context round trip                                          *)
(* --------------------------------------------------------------------- *)

Definition map_values {A B} (f : A → B) (l : list (key * A)) : list (key * B) :=
  map (fun kv => (kv.1, f kv.2)) l.

(** An attribute value that is a constant or the object [a] itself. *)
Definition self_or_static (a : addr) (v : value) : Prop :=
  v = VRef a ∨ ∃ s, v = VStatic s.

(** The descriptor of such a value once the object has index 0. *)
Definition self_desc (ty : string) (v : value) : graphdef :=
  match v with
  | VRef _ => NodeRef ty 0
  | _ => Static v
  end.

Definition retarget (x : addr) (v : value) : value :=
  match v with
  | VRef _ => VRef x
  | _ => v
  end.

Lemma get_node_impl_graph E h a ty attrs aux :
  h !! a = Some (ONode ty attrs aux) → GRAPH_REGISTRY E ty = true →
  get_node_impl E h (VRef a) = Ok (Some (GraphNodeImpl ty)).
Proof. intros Ha Hg. unfold get_node_impl, lookup_impl. by rewrite Ha, Hg. Qed.

Lemma type_of_node h a ty attrs aux :
  h !! a = Some (ONode ty attrs aux) → type_of h (VRef a) = Ok ty.
Proof. intros Ha. unfold type_of. by rewrite Ha. Qed.

Lemma node_flatten_node h a ty attrs aux :
  h !! a = Some (ONode ty attrs aux) → node_flatten h (VRef a) = Ok (attrs, aux).
Proof. intros Ha. unfold node_flatten. by rewrite Ha. Qed.

Lemma ref_get_here E h a i d : ref_get E h ((a, i) :: d) a = Some i.
Proof. unfold ref_get, ref_eqb. simpl. by rewrite Nat.eqb_refl. Qed.

Section SelfGraph.
Context (E : PyEnv) (h : heap) (a : addr) (ty : string)
        (attrs : list (key * value)) (aux : metadata).
Hypothesis Ha : h !! a = Some (ONode ty attrs aux).
Hypothesis Hgraph : GRAPH_REGISTRY E ty = true.

Lemma flatten_attrs_self roi rv fuel path values st :
  ref_get E h (ref_index st) a = Some 0 →
  Forall (fun kv => self_or_static a kv.2) values →
  flatten_attrs E h roi rv (_graph_flatten E (S fuel) h roi rv) path values st
  = Ok (map_values (self_desc ty) values, st).
Proof.
  intros Hri Hall. induction Hall as [|[k v] values Hv _ IH]; [done|].
  cbn [flatten_attrs]. unfold flatten_attr at 1. simpl in Hv.
  destruct Hv as [->|[s ->]]; simpl in *.
  - rewrite (get_node_impl_graph _ _ _ _ _ _ Ha Hgraph). simpl.
    rewrite (_graph_flatten_seen _ _ _ _ _ _ _ _ _ _ Hri).
    rewrite (type_of_node _ _ _ _ _ Ha). simpl. by rewrite IH.
  - unfold get_node_impl. simpl. by rewrite IH.
Qed.

Lemma flatten_self roi fuel :
  Forall (fun kv => self_or_static a kv.2) attrs →
  flatten E (S (S fuel)) h (VRef a) true false (Some []) roi
  = Ok (NodeDef (Cls ty) 0 (outer_index_of E h roi a)
          (map_values (self_desc ty) attrs) aux,
        FlatState [] [], [(a, 0)]).
Proof.
  intros Hall. unfold flatten.
  rewrite (get_node_impl_graph _ _ _ _ _ _ Ha Hgraph). simpl.
  rewrite _graph_flatten_new by done. simpl.
  rewrite (node_flatten_node _ _ _ _ _ Ha). simpl.
  rewrite flatten_attrs_self; [done| |done].
  apply ref_get_here.
Qed.
End SelfGraph.

Lemma unflatten_attrs_self E outer rec a ty values st x :
  idx_get (index_ref st) 0 = Some x →
  Forall (fun kv => self_or_static a kv.2) values →
  unflatten_attrs E outer rec (map_values (self_desc ty) values) st
  = Ok (map_values (retarget x) values, st).
Proof.
  intros Hx Hall. induction Hall as [|[k v] values Hv _ IH]; [done|].
  simpl in Hv. simpl. destruct Hv as [->|[s ->]]; simpl.
  - rewrite Hx. simpl. fold (map_values (self_desc ty) values). by rewrite IH.
  - fold (map_values (self_desc ty) values). by rewrite IH.
Qed.

Lemma get_node_impl_for_type_graph E ty :
  GRAPH_REGISTRY E ty = true → PYTREE_REGISTRY E ty = false →
  get_node_impl_for_type E (Cls ty) = Some (GraphNodeImpl ty).
Proof. intros Hg Hp. unfold get_node_impl_for_type. by rewrite Hp, Hg. Qed.

Lemma snoc_lookup_last {A} (l : list A) x : (l ++ [x]) !! length l = Some x.
Proof. by apply list_lookup_middle. Qed.

Lemma snoc_insert_last {A} (l : list A) x y : <[length l := y]> (l ++ [x]) = l ++ [y].
Proof.
  replace (length l) with (length l + 0)%nat at 1 by lia.
  by rewrite insert_app_r.
Qed.

(** Unflattening the descriptor of a self-referring node with no outer
    index makes one new object. *)
Lemma unflatten_self_new E h a ty attrs aux outer :
  GRAPH_REGISTRY E ty = true → PYTREE_REGISTRY E ty = false →
  Forall (fun kv => self_or_static a kv.2) attrs →
  unflatten E h (NodeDef (Cls ty) 0 None (map_values (self_desc ty) attrs) aux)
    (Flat (FlatState [] [])) (Some []) outer
  = Ok (VRef (length h),
        h ++ [ONode ty (dict_update key_eqb []
                          (map_values (retarget (length h)) attrs)) aux],
        [(0, length h)]).
Proof.
  intros Hg Hp Hall. unfold unflatten.
  rewrite (get_node_impl_for_type_graph _ _ Hg Hp). simpl.
  replace (outer_lookup outer None) with (@None addr) by (by destruct outer).
  simpl. rewrite (unflatten_attrs_self _ _ _ a ty attrs _ (length h)); [|done|done].
  simpl. rewrite snoc_lookup_last. simpl. by rewrite snoc_insert_last.
Qed.

(** Unflattening it with an outer index that is known reuses the outer
    object: it is cleared and filled again. *)
Lemma unflatten_self_reuse E h m a ty attrs0 aux0 attrs aux :
  GRAPH_REGISTRY E ty = true → PYTREE_REGISTRY E ty = false →
  h !! m = Some (ONode ty attrs0 aux0) →
  Forall (fun kv => self_or_static a kv.2) attrs →
  unflatten E h (NodeDef (Cls ty) 0 (Some 0) (map_values (self_desc ty) attrs) aux)
    (Flat (FlatState [] [])) (Some []) (Some [(0, m)])
  = Ok (VRef m,
        <[m := ONode ty (dict_update key_eqb [] (map_values (retarget m) attrs)) aux0]> h,
        [(0, m)]).
Proof.
  intros Hg Hp Hm Hall. unfold unflatten.
  rewrite (get_node_impl_for_type_graph _ _ Hg Hp). simpl.
  rewrite Hm. simpl. rewrite String.eqb_refl. simpl.
  rewrite (unflatten_attrs_self _ _ _ a ty attrs _ m); [|done|done].
  simpl. rewrite list_lookup_insert_eq by (by apply lookup_lt_Some in Hm).
  simpl. by rewrite list_insert_insert_eq.
Qed.

Lemma retarget_self_or_static a x v : self_or_static a v → self_or_static x (retarget x v).
Proof. intros [->|[s ->]]; [by left | right; eauto]. Qed.

Lemma map_values_keys {A B} (f : A → B) l : map fst (map_values f l) = map fst l.
Proof. unfold map_values. rewrite map_map. done. Qed.

Lemma map_values_Forall {A B} (f : A → B) (P : A → Prop) (Q : B → Prop) l :
  (∀ v, P v → Q (f v)) →
  Forall (fun kv => P kv.2) l → Forall (fun kv => Q kv.2) (map_values f l).
Proof.
  intros Hf Hl. unfold map_values. apply Forall_map.
  eapply Forall_impl; [exact Hl|]. intros [k v]. simpl. apply Hf.
Qed.



(* --------------------------------------------------------------------- *)
(* Positions in a graph and in its descriptor                             *)
(* --------------------------------------------------------------------- *)

(** [reaches_pos E h v ns w]: taking the [n]-th attribute at each step of
    [ns], from the node [v] on and through nodes only, ends at [w]. *)
Inductive reaches_pos (E : PyEnv) (h : heap) : value → list nat → value → Prop :=
| reaches_pos_here v : reaches_pos E h v [] v
| reaches_pos_step v impl items md n k c ns w :
    get_node_impl E h v = Ok (Some impl) →
    node_flatten h v = Ok (items, md) →
    items !! n = Some (k, c) →
    reaches_pos E h c ns w →
    reaches_pos E h v (n :: ns) w.

(** The same walk in a descriptor. *)
Inductive gd_at : graphdef → list nat → graphdef → Prop :=
| gd_at_here d : gd_at d [] d
| gd_at_step ty i oi attrs md n k d ns d' :
    attrs !! n = Some (k, d) →
    gd_at d ns d' →
    gd_at (NodeDef ty i oi attrs md) (n :: ns) d'.

(** The traversal index a descriptor carries for an object; pytree nodes
    carry [-1], which is none. *)
Definition def_index (d : graphdef) : option Z :=
  match d with
  | NodeDef _ i _ _ _ => if i <? 0 then None else Some i
  | NodeRef _ i => Some i
  | VariableDef _ i _ _ => Some i
  | Static _ => None
  end.

(** Objects hash and compare by identity. *)
Definition identity_keys (E : PyEnv) : Prop :=
  ∀ h a b, py_eq E h a b = true → a = b.

(** A reference map as a traversal that started from an empty one leaves
    it: the n-th object met has index n, no object is in it twice, and all
    of them are objects of the store. *)
Definition ri_ok (h : heap) (ri : RefMap) : Prop :=
  map snd ri = map Z.of_nat (seq 0 (length ri))
  ∧ NoDup (map fst ri)
  ∧ Forall (fun a => a < length h)%nat (map fst ri).

Lemma ri_ok_nil h : ri_ok h [].
Proof. repeat split; simpl; constructor. Qed.

Lemma ref_eqb_refl E h a : ref_eqb E h a a = true.
Proof. unfold ref_eqb. by rewrite Nat.eqb_refl. Qed.

Lemma ref_get_None_notin E h (ri : RefMap) a :
  ref_get E h ri a = None → a ∉ map fst ri.
Proof.
  unfold ref_get. induction ri as [|[k i] ri IH]; simpl.
  - intros _ H. by apply elem_of_nil in H.
  - destruct (ref_eqb E h k a) eqn:Ek; [done|].
    intros Hn [->|H]%elem_of_cons; [|by apply IH].
    by rewrite ref_eqb_refl in Ek.
Qed.

Lemma ref_eqb_spec E h : identity_keys E → ∀ a b, ref_eqb E h a b = true ↔ a = b.
Proof.
  intros Hid a b. unfold ref_eqb. split.
  - intros [H|H]%orb_true_iff; [by apply Nat.eqb_eq | by apply (Hid h)].
  - intros ->. by rewrite Nat.eqb_refl.
Qed.

Lemma dict_get_Some_in {K V} (eqb : K → K → bool) (d : list (K * V)) k v :
  (∀ a b, eqb a b = true ↔ a = b) →
  dict_get eqb d k = Some v → (k, v) ∈ d.
Proof.
  intros Hspec. induction d as [|[k0 v0] d IH]; simpl; [done|].
  destruct (eqb k0 k) eqn:Ek.
  - apply Hspec in Ek as ->. intros [= ->]. by left.
  - intros H. right. by apply IH.
Qed.

Lemma dict_get_in_NoDup {K V} (eqb : K → K → bool) (d : list (K * V)) k v :
  (∀ a b, eqb a b = true ↔ a = b) →
  NoDup (map fst d) → (k, v) ∈ d → dict_get eqb d k = Some v.
Proof.
  intros Hspec. induction d as [|[k0 v0] d IH]; simpl; intros Hnd Hin.
  - by apply elem_of_nil in Hin.
  - apply NoDup_cons in Hnd as [Hk0 Hnd].
    apply elem_of_cons in Hin as [[= -> ->]|Hin].
    + by rewrite (proj2 (Hspec k0 k0) eq_refl).
    + destruct (eqb k0 k) eqn:Ek; [|by apply IH].
      apply Hspec in Ek as ->. exfalso. apply Hk0.
      apply list_elem_of_fmap. by exists (k, v).
Qed.

Lemma ref_get_Some_in E h (ri : RefMap) a i :
  identity_keys E → ref_get E h ri a = Some i → (a, i) ∈ ri.
Proof. intros Hid. apply dict_get_Some_in. by apply ref_eqb_spec. Qed.

Lemma ri_ok_snoc E h (ri : RefMap) a :
  ri_ok h ri → ref_get E h ri a = None → (a < length h)%nat →
  ref_set E h ri a (dict_len ri) = ri ++ [(a, Z.of_nat (length ri))]
  ∧ ri_ok h (ri ++ [(a, Z.of_nat (length ri))]).
Proof.
  intros (Hpos & Hnd & Hdom) Hnone Hlt. split.
  - unfold ref_set, dict_len. by apply dict_set_absent.
  - repeat split.
    + rewrite map_app, length_app, Hpos. simpl.
      rewrite Nat.add_1_r, seq_S, map_app. done.
    + rewrite map_app. simpl. apply NoDup_app. repeat split; [done| |apply NoDup_singleton].
      intros x Hx ->%list_elem_of_singleton.
      by apply (ref_get_None_notin _ _ _ _ Hnone).
    + rewrite map_app. apply Forall_app. split; [done|]. by repeat constructor.
Qed.

Lemma ri_ok_index_inj h (ri : RefMap) a b i :
  ri_ok h ri → (a, i) ∈ ri → (b, i) ∈ ri → a = b.
Proof.
  intros (Hpos & _ & _).
  assert (NoDup (map snd ri)) as Hnd.
  { rewrite Hpos. apply NoDup_fmap_2; [intros x y; lia | apply NoDup_seq]. }
  clear Hpos. induction ri as [|[k j] ri IH]; simpl in *.
  - intros H. by apply elem_of_nil in H.
  - apply NoDup_cons in Hnd as [Hj Hnd].
    intros [[= -> ->]|Ha]%elem_of_cons [[= ->]|Hb]%elem_of_cons.
    + done.
    + exfalso. apply Hj. apply list_elem_of_fmap. by exists (b, j).
    + exfalso. subst. apply Hj. apply list_elem_of_fmap. by exists (a, j).
    + by apply IH.
Qed.

Lemma get_node_impl_ref_lt E h a r :
  get_node_impl E h (VRef a) = Ok r → (a < length h)%nat.
Proof.
  unfold get_node_impl. destruct (h !! a) eqn:Ha; [|done].
  intros _. by apply lookup_lt_Some in Ha.
Qed.

Section FlattenIndices.
Context (E : PyEnv) (h : heap) (roi : option RefMap) (rv : bool).
Hypothesis Hid : identity_keys E.

(** Wherever the descriptor carries an index at the position of an object
    of the store, it is the index the map has for that very object. *)
Definition aligned (v : value) (gd : graphdef) (ri : RefMap) : Prop :=
  ∀ ns d b i,
    gd_at gd ns d → reaches_pos E h v ns (VRef b) → def_index d = Some i →
    (b, i) ∈ ri.

Definition flatten_post (v : value) (st : fstate) (gd : graphdef) (st' : fstate)
  : Prop :=
  (∃ new, ref_index st' = ref_index st ++ new)
  ∧ ri_ok h (ref_index st')
  ∧ aligned v gd (ref_index st').

Definition rec_ok
    (rec : value → NodeImpl → option (list key) → fstate → result (graphdef * fstate))
  : Prop :=
  ∀ v impl path st gd st',
    get_node_impl E h v = Ok (Some impl) → ri_ok h (ref_index st) →
    rec v impl path st = Ok (gd, st') → flatten_post v st gd st'.

Lemma aligned_leaf v d ri :
  (∀ impl, get_node_impl E h v ≠ Ok (Some impl)) →
  (∀ ty i oi attrs md, d ≠ NodeDef ty i oi attrs md) →
  (∀ b i, v = VRef b → def_index d = Some i → (b, i) ∈ ri) →
  aligned v d ri.
Proof.
  intros Hleaf Hd H ns d' b i Hgd Hr Hi.
  inversion Hgd; subst.
  - inversion Hr; subst. by apply H.
  - by destruct (Hd ty i0 oi attrs md).
Qed.

Lemma aligned_mono v d ri ri' : aligned v d ri → ri ⊆ ri' → aligned v d ri'.
Proof. intros H Hsub ns d' b i Hgd Hr Hi. apply Hsub. eauto. Qed.

Lemma flatten_attr_post rec path k v st d st' :
  rec_ok rec → ri_ok h (ref_index st) →
  flatten_attr E h roi rv rec path k v st = Ok (d, st') →
  flatten_post v st d st'.
Proof.
  intros Hrec Hri. unfold flatten_attr.
  destruct (get_node_impl E h v) as [[impl|]|e] eqn:Himpl; simpl; [| |done].
  { by apply Hrec. }
  assert (∀ impl, get_node_impl E h v ≠ Ok (Some impl)) as Hleaf by congruence.
  destruct v as [s|data|a|ty items aux]; try done.
  - intros [= <- <-]. split; [by exists []; rewrite app_nil_r | split; [done|]].
    by apply aligned_leaf.
  - destruct (h !! a) as [[ty attrs aux|ty raw md]|] eqn:Ha; [| |done].
    { intros [= <- <-]. split; [by exists []; rewrite app_nil_r | split; [done|]].
      by apply aligned_leaf. }
    destruct (ref_get E h (ref_index st) a) as [i|] eqn:Hget.
    + intros [= <- <-]. split; [by exists []; rewrite app_nil_r | split; [done|]].
      apply aligned_leaf; try done.
      intros b j [= <-] [= <-]. by apply (ref_get_Some_in E h).
    + intros H. apply bind_ok in H as (ps & _ & H). injection H as <- <-. simpl.
      destruct (ri_ok_snoc E h (ref_index st) a Hri Hget) as [-> Hok].
      { by apply lookup_lt_Some in Ha. }
      split; [by eexists | split; [done|]].
      apply aligned_leaf; try done.
      intros b j [= <-] [= <-]. apply elem_of_app. right. by left.
  - intros [= <- <-]. split; [by exists []; rewrite app_nil_r | split; [done|]].
    by apply aligned_leaf.
Qed.

Lemma flatten_attrs_post rec path values st ds st' :
  rec_ok rec → ri_ok h (ref_index st) →
  flatten_attrs E h roi rv rec path values st = Ok (ds, st') →
  (∃ new, ref_index st' = ref_index st ++ new)
  ∧ ri_ok h (ref_index st')
  ∧ ∀ n k v k' d, values !! n = Some (k, v) → ds !! n = Some (k', d) →
      aligned v d (ref_index st').
Proof.
  intros Hrec. revert st ds st'.
  induction values as [|[k v] values IH]; intros st ds st' Hri; simpl.
  - intros [= <- <-]. split; [by exists []; rewrite app_nil_r | split; [done|]].
    intros n ? ? ? ? H. by rewrite lookup_nil in H.
  - intros H. apply bind_ok in H as ([d st1] & Hx & H).
    apply bind_ok in H as ([ds' st2] & Hx0 & H). injection H as <- <-.
    apply flatten_attr_post in Hx as ([new1 Hext1] & Hri1 & Hal1); [|done|done].
    apply IH in Hx0 as ([new2 Hext2] & Hri2 & Hal2); [|done].
    split; [|split; [done|]].
    + exists (new1 ++ new2). by rewrite Hext2, Hext1, app_assoc.
    + intros [|n] k0 v0 k' d0; simpl.
      * intros [= <- <-] [= <- <-]. eapply aligned_mono; [exact Hal1|].
        rewrite Hext2. intros x Hx. apply elem_of_app. by left.
      * apply Hal2.
Qed.
End FlattenIndices.

Lemma _graph_flatten_post E h roi rv fuel :
  identity_keys E → rec_ok E h (_graph_flatten E fuel h roi rv).
Proof.
  intros Hid. induction fuel as [|fuel IH];
    intros v impl path st gd st' Himpl Hri; [done|].
  destruct impl as [ty|ty].
  - destruct v as [s|data|a|ty' items aux]; try done.
    destruct (ref_get E h (ref_index st) a) as [i|] eqn:Hget.
    + rewrite (_graph_flatten_seen _ _ _ _ _ _ _ _ _ _ Hget).
      intros H. apply bind_ok in H as (node_ty & _ & [= <- <-]).
      split; [by exists []; rewrite app_nil_r | split; [done|]].
      intros ns d b j Hgd Hr Hj. inversion Hgd; subst.
      inversion Hr; subst. injection Hj as <-. by apply (ref_get_Some_in E h).
    + rewrite (_graph_flatten_new _ _ _ _ _ _ _ _ _ Hget). cbn zeta.
      intros H. apply bind_ok in H as ([values md] & Hfl & H).
      apply bind_ok in H as ([attributes st2] & Hloop & [= <- <-]).
      destruct (ri_ok_snoc E h (ref_index st) a Hri Hget) as [Hset Hok1].
      { by apply get_node_impl_ref_lt in Himpl. }
      rewrite Hset in Hloop.
      apply (flatten_attrs_post E h roi rv Hid) in Hloop
        as ([new Hext] & Hri2 & Hal); [|done|done].
      simpl in Hext.
      split; [|split; [done|]].
      * exists ((a, Z.of_nat (length (ref_index st))) :: new).
        by rewrite Hext, <- app_assoc.
      * intros ns d b j Hgd Hr Hj. inversion Hgd; subst.
        -- inversion Hr; subst. simpl in Hj.
           destruct (dict_len (ref_index st) <? 0); [done|]. injection Hj as <-.
           rewrite Hext. apply elem_of_app. left. apply elem_of_app. right. by left.
        -- inversion Hr; subst.
           match goal with
           | H1 : node_flatten h (VRef a) = Ok (?its, _) |- _ =>
               rewrite Hfl in H1; injection H1 as <- <-
           end.
           eapply Hal; eauto.
  - rewrite _graph_flatten_pytree.
    intros H. apply bind_ok in H as ([values md] & Hfl & H).
    apply bind_ok in H as ([attributes st2] & Hloop & [= <- <-]).
    apply (flatten_attrs_post E h roi rv Hid) in Hloop
      as ([new Hext] & Hri2 & Hal); [|done|done].
    split; [by exists new | split; [done|]].
    intros ns d b j Hgd Hr Hj. inversion Hgd; subst; [done|].
    inversion Hr; subst.
    match goal with
    | H1 : node_flatten h v = Ok (?its, _) |- _ =>
        rewrite Hfl in H1; injection H1 as <- <-
    end.
    eapply Hal; eauto.
Qed.

(** C5, as amended. The reference map is a plain dict, keyed through the
    objects' own hash and equality. For objects that hash and compare by
    identity, a traversal that starts from an empty map gives two distinct
    objects two distinct indices, and every index the descriptor carries at
    the position of an object (as a NodeDef, a VariableDef or a NodeRef) is
    the index of that very object, never the one of another object with
    equal contents. *)
Theorem flatten_indices_by_identity E fuel h node with_paths rv roi gd fs ri :
  identity_keys E →
  flatten E fuel h node with_paths rv None roi = Ok (gd, fs, ri) →
  (∀ a b i j, (a, i) ∈ ri → (b, j) ∈ ri → a ≠ b → i ≠ j)
  ∧ (∀ ns d b i,
       gd_at gd ns d → reaches_pos E h node ns (VRef b) → def_index d = Some i →
       (b, i) ∈ ri ∧ ∀ a, (a, i) ∈ ri → a = b).
Proof.
  intros Hid H. unfold flatten in H.
  apply bind_ok in H as (oimpl & Himpl & H).
  destruct oimpl as [impl|]; [|done].
  apply bind_ok in H as ([gd' st] & Hrun & H).
  apply (_graph_flatten_post E h roi rv fuel Hid) in Hrun
    as (_ & Hri & Hal); [|done|apply ri_ok_nil].
  assert (gd' = gd ∧ ref_index st = ri) as [-> <-].
  { destruct (paths st); by injection H as <- _ <-. }
  split.
  - intros a b i j Ha Hb Hne ->. apply Hne. by eapply ri_ok_index_inj.
  - intros ns d b i Hgd Hr Hi. split; [by eapply Hal|].
    intros a Ha. eapply ri_ok_index_inj; eauto.
Qed.

Lemma std_env_identity_keys : identity_keys std_env.
Proof. intros h a b H. discriminate H. Qed.

(** Two distinct [Config] objects with equal contents under a module. *)
Definition twin_store : heap :=
  [ONode "Module" [(KStr "a", VRef 1%nat); (KStr "b", VRef 2%nat)] MNone;
   ONode "Config" [(KStr "x", VStatic (SInt 1))] MNone;
   ONode "Config" [(KStr "x", VStatic (SInt 1))] MNone].

Lemma flatten_indices_by_identity_witness :
  let gd := NodeDef (Cls "Module") 0 None
              [(KStr "a", NodeDef (Cls "Module") 1 None
                            [(KStr "x", Static (VStatic (SInt 1)))] MNone);
               (KStr "b", NodeDef (Cls "Module") 2 None
                            [(KStr "x", Static (VStatic (SInt 1)))] MNone)] MNone in
  let h := [ONode "Module" [(KStr "a", VRef 1%nat); (KStr "b", VRef 2%nat)] MNone;
            ONode "Module" [(KStr "x", VStatic (SInt 1))] MNone;
            ONode "Module" [(KStr "x", VStatic (SInt 1))] MNone] in
  let ri := [(0%nat, 0); (1%nat, 1); (2%nat, 2)] in
  (∀ a b i j, (a, i) ∈ ri → (b, j) ∈ ri → a ≠ b → i ≠ j)
  ∧ (∀ ns d b i,
       gd_at gd ns d → reaches_pos std_env h (VRef 0%nat) ns (VRef b) →
       def_index d = Some i → (b, i) ∈ ri ∧ ∀ a, (a, i) ∈ ri → a = b).
Proof.
  intros gd h ri.
  apply (flatten_indices_by_identity std_env 3 h (VRef 0%nat) true false None
           gd (FlatState [] []) ri std_env_identity_keys).
  reflexivity.
Defined.

Definition static_eqb (a b : static) : bool :=
  match a, b with
  | SInt x, SInt y => x =? y
  | SStr s, SStr t => String.eqb s t
  | SBool x, SBool y => Bool.eqb x y
  | _, _ => false
  end.

Fixpoint plain_attrs_eqb (l1 l2 : list (key * value)) : bool :=
  match l1, l2 with
  | [], [] => true
  | (k1, VStatic s1) :: r1, (k2, VStatic s2) :: r2 =>
      key_eqb k1 k2 && static_eqb s1 s2 && plain_attrs_eqb r1 r2
  | _, _ => false
  end.

(** The [__eq__] and [__hash__] a class gets from
    [@dataclass(eq=True, unsafe_hash=True)]: by field values. *)
Definition dataclass_eq (h : heap) (a b : addr) : bool :=
  match h !! a, h !! b with
  | Some (ONode ta attrs_a _), Some (ONode tb attrs_b _) =>
      String.eqb ta "Config" && String.eqb tb "Config" && plain_attrs_eqb attrs_a attrs_b
  | _, _ => false
  end.

(** [std_env] with such a class, [Config], registered as a graph node. *)
Definition dataclass_env : PyEnv := {|
  GRAPH_REGISTRY := fun ty => String.eqb ty "Module" || String.eqb ty "Config";
  PYTREE_REGISTRY := PYTREE_REGISTRY std_env;
  JAX_PYTREE_REGISTRY := JAX_PYTREE_REGISTRY std_env;
  issubclass_tuple := issubclass_tuple std_env;
  py_eq := dataclass_eq
|}.

(** C5, the claim as it was stated fails: the map is keyed by the objects'
    hash and equality, so the second of two distinct objects that compare
    equal is found in the map and emitted as a NodeRef to the first. *)
Lemma equal_objects_share_an_index :
  ∃ fs ri,
    flatten dataclass_env 3 twin_store (VRef 0%nat) true false None None
    = Ok (NodeDef (Cls "Module") 0 None
            [(KStr "a", NodeDef (Cls "Config") 1 None
                          [(KStr "x", Static (VStatic (SInt 1)))] MNone);
             (KStr "b", NodeRef "Config" 1)] MNone,
          fs, ri)
    ∧ 1%nat ≠ 2%nat
    ∧ ref_get dataclass_env twin_store ri 1%nat = Some 1
    ∧ ref_get dataclass_env twin_store ri 2%nat = Some 1.
Proof. do 2 eexists. split; [reflexivity|]. split; [lia|]. split; reflexivity. Qed.

(* --------------------------------------------------------------------- *)
(* What a fingerprint sees                                                *)
(* --------------------------------------------------------------------- *)

(** The shape of an attribute value: a reference stands for the identity of
    the object; a container that is a pytree node is known by the type of
    its node implementation, its children and its aux data; anything else
    is a constant. *)
Inductive shape :=
| ShStatic (v : value)
| ShRef (a : addr)
| ShTree (ty : pytype) (items : list (key * shape)) (aux : metadata).

Fixpoint shape_of (E : PyEnv) (v : value) : shape :=
  match v with
  | VRef a => ShRef a
  | VTree ty items aux =>
      match lookup_impl E ty with
      | Some impl =>
          ShTree (impl_type impl)
            ((fix go (l : list (key * value)) : list (key * shape) :=
                match l with
                | [] => []
                | (k, c) :: rest => (k, shape_of E c) :: go rest
                end) items)
            aux
      | None => ShStatic v
      end
  | VStatic _ | VArray _ => ShStatic v
  end.

Fixpoint shapes_of (E : PyEnv) (l : list (key * value)) : list (key * shape) :=
  match l with
  | [] => []
  | (k, c) :: rest => (k, shape_of E c) :: shapes_of E rest
  end.

Lemma shape_of_VTree E ty items aux :
  shape_of E (VTree ty items aux)
  = match lookup_impl E ty with
    | Some impl => ShTree (impl_type impl) (shapes_of E items) aux
    | None => ShStatic (VTree ty items aux)
    end.
Proof.
  simpl. destruct (lookup_impl E ty); [|done]. f_equal.
  induction items as [|[k c] l IH]; simpl; [done|]. by rewrite IH.
Qed.

Arguments shape_of : simpl never.

(** An object of the store without what a fingerprint does not look at:
    the contents of a Variable, and everything about an object that is
    neither a node nor a Variable. *)
Inductive eobject :=
| EVar (ty : string) (md : list (string * static))
| ENode (ty : string) (items : list (key * shape)) (aux : metadata)
| EOther.

Definition erase (E : PyEnv) (o : object) : eobject :=
  match o with
  | OVar ty _ md => EVar ty md
  | ONode ty attrs aux =>
      if GRAPH_REGISTRY E ty then ENode ty (shapes_of E attrs) aux else EOther
  end.

(** Shape, identities and metadata are the same in [h1] and [h2], as far as
    the graph below [v] goes. *)
Definition same_structure (E : PyEnv) (h1 h2 : heap) (v : value) : Prop :=
  ∀ ns a, reaches_pos E h1 v ns (VRef a) →
          erase E <$> (h1 !! a) = erase E <$> (h2 !! a).

(** Containers that are pytree nodes are held by value: an object of the
    store is an instance of a graph node class, a Variable, or not a node
    at all. *)
Definition heap_by_value (E : PyEnv) (h : heap) : Prop :=
  ∀ a ty attrs aux,
    h !! a = Some (ONode ty attrs aux) →
    GRAPH_REGISTRY E ty = true ∨ lookup_impl E ty = None.

(** The shape and the objects a fingerprint describes. *)
Fixpoint fp_shape (fp : fingerprint_t) : shape :=
  match fp with
  | FpSeen a _ _ => ShRef a
  | FpNode (Some a) _ _ _ _ => ShRef a
  | FpNode None ty _ attributes md =>
      ShTree ty
        ((fix go (l : list fp_attr) : list (key * shape) :=
            match l with
            | [] => []
            | fa :: rest => attr_shape fa :: go rest
            end) attributes)
        md
  end
with attr_shape (fa : fp_attr) : key * shape :=
  match fa with
  | FaNode k node_fp => (k, fp_shape node_fp)
  | FaSeenVariable k a _ _ => (k, ShRef a)
  | FaVariable k a _ _ _ => (k, ShRef a)
  | FaStatic k (VRef a) => (k, ShRef a)
  | FaStatic k v => (k, ShStatic v)
  end.

Fixpoint described (fp : fingerprint_t) : list (addr * eobject) :=
  match fp with
  | FpSeen _ _ _ => []
  | FpNode id ty _ attributes md =>
      match id, ty with
      | Some a, Cls name => [(a, ENode name (map attr_shape attributes) md)]
      | _, _ => []
      end ++
      (fix go (l : list fp_attr) : list (addr * eobject) :=
         match l with
         | [] => []
         | fa :: rest => described_attr fa ++ go rest
         end) attributes
  end
with described_attr (fa : fp_attr) : list (addr * eobject) :=
  match fa with
  | FaNode _ node_fp => described node_fp
  | FaVariable _ a ty _ md => [(a, EVar ty md)]
  | FaSeenVariable _ _ _ _ => []
  | FaStatic _ (VRef a) => [(a, EOther)]
  | FaStatic _ _ => []
  end.

Definition described_attrs (l : list fp_attr) : list (addr * eobject) :=
  concat (map described_attr l).

Lemma fp_shape_tree ty i attrs md :
  fp_shape (FpNode None ty i attrs md) = ShTree ty (map attr_shape attrs) md.
Proof. reflexivity. Qed.

Lemma described_node id ty i attrs md :
  described (FpNode id ty i attrs md)
  = match id, ty with
    | Some a, Cls name => [(a, ENode name (map attr_shape attrs) md)]
    | _, _ => []
    end ++ described_attrs attrs.
Proof.
  assert (∀ l, (fix go (l : list fp_attr) : list (addr * eobject) :=
                  match l with
                  | [] => []
                  | fa :: rest => described_attr fa ++ go rest
                  end) l = described_attrs l) as Hgo.
  { unfold described_attrs. induction l as [|fa l IH]; simpl; [done|]. by rewrite IH. }
  simpl. by rewrite Hgo.
Qed.

Arguments fp_shape : simpl never.
Arguments described : simpl never.

(** The equations of [_graph_fingerprint], case by case. *)
Lemma _graph_fingerprint_pytree E fuel h ri node ty st :
  _graph_fingerprint E (S fuel) h ri node (PytreeNodeImpl ty) st
  = let* (values, md) := node_flatten h node in
    let* (attributes, st2) :=
      fingerprint_attrs E h ri (_graph_fingerprint E fuel h ri) values st in
    Ok (FpNode None ty (-1) attributes md, st2).
Proof. reflexivity. Qed.

Lemma _graph_fingerprint_graph E fuel h ri a ty st :
  _graph_fingerprint E (S fuel) h ri (VRef a) (GraphNodeImpl ty) st
  = match ref_get E h ri a with
    | Some i => let* node_ty := type_of h (VRef a) in Ok (FpSeen a node_ty i, st)
    | None =>
        match ref_get E h (new_ref_index st) a with
        | Some i => let* node_ty := type_of h (VRef a) in Ok (FpSeen a node_ty i, st)
        | None =>
            let index := next_index st in
            let st1 := FpState (ref_set E h (new_ref_index st) a index)
                               (next_index st + 1) in
            let* (values, md) := node_flatten h (VRef a) in
            let* (attributes, st2) :=
              fingerprint_attrs E h ri (_graph_fingerprint E fuel h ri) values st1 in
            Ok (FpNode (Some a) (Cls ty) index attributes md, st2)
        end
    end.
Proof. reflexivity. Qed.

Lemma _graph_fingerprint_graph_by_value E fuel h ri v ty st :
  (∀ a, v ≠ VRef a) →
  _graph_fingerprint E (S fuel) h ri v (GraphNodeImpl ty) st = Err InvalidObject.
Proof. intros H. destruct v; try done. by destruct (H a). Qed.

Arguments _graph_fingerprint : simpl never.

Lemma dict_get_ext {K V} (eqb1 eqb2 : K → K → bool) (d : list (K * V)) k :
  (∀ a b, eqb1 a b = eqb2 a b) → dict_get eqb1 d k = dict_get eqb2 d k.
Proof.
  intros H. induction d as [|[k0 v0] d IH]; simpl; [done|]. by rewrite H, IH.
Qed.

Lemma dict_set_ext {K V} (eqb1 eqb2 : K → K → bool) (d : list (K * V)) k v :
  (∀ a b, eqb1 a b = eqb2 a b) → dict_set eqb1 d k v = dict_set eqb2 d k v.
Proof.
  intros H. induction d as [|[k0 v0] d IH]; simpl; [done|]. by rewrite H, IH.
Qed.

Lemma ref_eqb_heap_indep E h1 h2 a b :
  identity_keys E → ref_eqb E h1 a b = ref_eqb E h2 a b.
Proof.
  intros Hid. destruct (ref_eqb E h1 a b) eqn:E1, (ref_eqb E h2 a b) eqn:E2; try done.
  - apply (ref_eqb_spec E h1 Hid) in E1 as ->. by rewrite ref_eqb_refl in E2.
  - apply (ref_eqb_spec E h2 Hid) in E2 as ->. by rewrite ref_eqb_refl in E1.
Qed.

Lemma ref_get_heap_indep E h1 h2 d a :
  identity_keys E → ref_get E h1 d a = ref_get E h2 d a.
Proof. intros Hid. apply dict_get_ext. intros. by apply ref_eqb_heap_indep. Qed.

Lemma ref_set_heap_indep E h1 h2 d a i :
  identity_keys E → ref_set E h1 d a i = ref_set E h2 d a i.
Proof. intros Hid. apply dict_set_ext. intros. by apply ref_eqb_heap_indep. Qed.

Lemma lookup_impl_type_inj E ty1 ty2 impl1 impl2 :
  lookup_impl E ty1 = Some impl1 → lookup_impl E ty2 = Some impl2 →
  impl_type impl1 = impl_type impl2 → impl1 = impl2.
Proof.
  unfold lookup_impl. intros H1 H2 Hty.
  destruct (GRAPH_REGISTRY E ty1) eqn:G1, (GRAPH_REGISTRY E ty2) eqn:G2;
  destruct (PYTREE_REGISTRY E ty1) eqn:P1, (PYTREE_REGISTRY E ty2) eqn:P2;
  repeat match goal with
         | H : (if ?b then _ else _) = Some _ |- _ => destruct b
         end;
  simplify_eq; simpl in *; simplify_eq; congruence.
Qed.

Lemma shape_of_static E s : shape_of E (VStatic s) = ShStatic (VStatic s).
Proof. reflexivity. Qed.
Lemma shape_of_array E d : shape_of E (VArray d) = ShStatic (VArray d).
Proof. reflexivity. Qed.
Lemma shape_of_ref E a : shape_of E (VRef a) = ShRef a.
Proof. reflexivity. Qed.

Lemma shape_of_eq_cases E c1 c2 :
  shape_of E c1 = shape_of E c2 →
  c1 = c2
  ∨ ∃ ty1 items1 ty2 items2 aux impl,
      c1 = VTree ty1 items1 aux ∧ c2 = VTree ty2 items2 aux
      ∧ lookup_impl E ty1 = Some impl ∧ lookup_impl E ty2 = Some impl
      ∧ shapes_of E items1 = shapes_of E items2.
Proof.
  destruct c1 as [s1|d1|a1|ty1 items1 aux1], c2 as [s2|d2|a2|ty2 items2 aux2];
    rewrite ?shape_of_VTree, ?shape_of_static, ?shape_of_array, ?shape_of_ref;
    try (intros [= ->]; by left); try done.
  all: try (destruct (lookup_impl E ty2); intros H; by inversion H).
  all: try (destruct (lookup_impl E ty1); intros H; by inversion H).
  - destruct (lookup_impl E ty1) as [impl1|] eqn:H1,
             (lookup_impl E ty2) as [impl2|] eqn:H2; try done.
    + intros [= Hty Hsh ->]. right.
      pose proof (lookup_impl_type_inj _ _ _ _ _ H1 H2 Hty) as <-.
      by exists ty1, items1, ty2, items2, aux2, impl1.
    + intros [= -> -> ->]. by left.
Qed.

Section FingerprintAgree.
Context (E : PyEnv) (h1 h2 : heap) (ri : RefMap).
Hypothesis Hid : identity_keys E.
Hypothesis Hwf1 : heap_by_value E h1.
Hypothesis Hwf2 : heap_by_value E h2.

Lemma erase_agree_classify a :
  erase E <$> (h1 !! a) = erase E <$> (h2 !! a) →
  get_node_impl E h1 (VRef a) = get_node_impl E h2 (VRef a)
  ∧ type_of h1 (VRef a) = type_of h2 (VRef a) ∨
  (∃ ty ty' attrs attrs' aux aux',
     h1 !! a = Some (ONode ty attrs aux) ∧ h2 !! a = Some (ONode ty' attrs' aux')
     ∧ get_node_impl E h1 (VRef a) = Ok None ∧ get_node_impl E h2 (VRef a) = Ok None).
Proof.
  unfold get_node_impl, type_of.
  destruct (h1 !! a) as [[ty1 attrs1 aux1|ty1 raw1 md1]|] eqn:H1,
           (h2 !! a) as [[ty2 attrs2 aux2|ty2 raw2 md2]|] eqn:H2; simpl; try done.
  - destruct (GRAPH_REGISTRY E ty1) eqn:G1, (GRAPH_REGISTRY E ty2) eqn:G2; try done.
    + intros [= -> _ _]. by left.
    + intros _. right.
      destruct (Hwf1 _ _ _ _ H1) as [?|L1]; [congruence|].
      destruct (Hwf2 _ _ _ _ H2) as [?|L2]; [congruence|].
      rewrite L1, L2. by exists ty1, ty2, attrs1, attrs2, aux1, aux2.
  - by destruct (GRAPH_REGISTRY E ty1).
  - by destruct (GRAPH_REGISTRY E ty2).
  - intros [= -> _]. by left.
  - by left.
Qed.

Lemma fingerprint_attr_agree rec1 rec2 k c1 c2 st :
  shape_of E c1 = shape_of E c2 →
  same_structure E h1 h2 c1 →
  (∀ impl, get_node_impl E h1 c1 = Ok (Some impl) →
           get_node_impl E h2 c2 = Ok (Some impl) →
           rec1 c1 impl st = rec2 c2 impl st) →
  fingerprint_attr E h1 ri rec1 k c1 st = fingerprint_attr E h2 ri rec2 k c2 st.
Proof.
  intros Hsh Hsame Hrec. unfold fingerprint_attr.
  apply shape_of_eq_cases in Hsh
    as [<-|(ty1 & items1 & ty2 & items2 & aux & impl & -> & -> & L1 & L2 & Hitems)].
  - destruct c1 as [s|d|a|ty items aux]; try done.
    + pose proof (Hsame [] a (reaches_pos_here _ _ _)) as Ha.
      destruct (erase_agree_classify a Ha)
        as [[Hc Ht]|(ty & ty' & attrs & attrs' & aux & aux' & H1 & H2 & C1 & C2)].
      * rewrite <- Hc.
        destruct (get_node_impl E h1 (VRef a)) as [[impl|]|e] eqn:Hi; simpl; [| |done].
        { by rewrite Hrec. }
        destruct (h1 !! a) as [[ty attrs aux|ty raw md]|] eqn:H1,
                 (h2 !! a) as [[ty' attrs' aux'|ty' raw' md']|] eqn:H2;
          simpl in Ha; try done.
        -- by destruct (GRAPH_REGISTRY E ty).
        -- by destruct (GRAPH_REGISTRY E ty').
        -- injection Ha as -> ->.
           rewrite <- !(ref_get_heap_indep E h1 h2) by done.
           by rewrite <- (ref_set_heap_indep E h1 h2) by done.
      * rewrite C1, C2. simpl. by rewrite H1, H2.
    + unfold get_node_impl in *. destruct (lookup_impl E ty) as [impl|]; simpl; [|done].
      by rewrite Hrec.
  - unfold get_node_impl. rewrite L1, L2. simpl.
    rewrite (Hrec impl); [done| |]; unfold get_node_impl; by rewrite ?L1, ?L2.
Qed.

Lemma fingerprint_attrs_agree rec1 rec2 values1 values2 st0 :
  shapes_of E values1 = shapes_of E values2 →
  (∀ n k c, values1 !! n = Some (k, c) → same_structure E h1 h2 c) →
  (∀ c1 c2 impl st,
     c1 ∈ map snd values1 →
     shape_of E c1 = shape_of E c2 → same_structure E h1 h2 c1 →
     get_node_impl E h1 c1 = Ok (Some impl) →
     rec1 c1 impl st = rec2 c2 impl st) →
  fingerprint_attrs E h1 ri rec1 values1 st0 = fingerprint_attrs E h2 ri rec2 values2 st0.
Proof.
  revert values2 st0.
  induction values1 as [|[k1 c1] values1 IH]; intros [|[k2 c2] values2] st0;
    simpl; try done.
  intros [= -> Hc Hrest] Hsame Hrec.
  assert (same_structure E h1 h2 c1) as Hs1 by apply (Hsame 0%nat k2 c1 eq_refl).
  rewrite (fingerprint_attr_agree rec1 rec2 k2 c1 c2 st0 Hc Hs1).
  - destruct (fingerprint_attr E h2 ri rec2 k2 c2 st0) as [[d st1]|]; simpl; [|done].
    rewrite (IH values2 st1); [done|done| |].
    + intros n k c Hn. by apply (Hsame (S n) k c).
    + intros c c' impl st Hin. apply Hrec. simpl. by right.
  - intros impl Hi _. apply Hrec; try done. simpl. by left.
Qed.
End FingerprintAgree.

Lemma same_structure_child E h1 h2 v impl items md n k c :
  get_node_impl E h1 v = Ok (Some impl) →
  node_flatten h1 v = Ok (items, md) →
  items !! n = Some (k, c) →
  same_structure E h1 h2 v → same_structure E h1 h2 c.
Proof.
  intros Hi Hfl Hn Hsame ns a Hr. apply (Hsame (n :: ns)).
  by eapply reaches_pos_step.
Qed.

Lemma _graph_fingerprint_agree E h1 h2 ri fuel :
  identity_keys E → heap_by_value E h1 → heap_by_value E h2 →
  ∀ v1 v2 impl st,
    shape_of E v1 = shape_of E v2 →
    same_structure E h1 h2 v1 →
    get_node_impl E h1 v1 = Ok (Some impl) →
    _graph_fingerprint E fuel h1 ri v1 impl st
    = _graph_fingerprint E fuel h2 ri v2 impl st.
Proof.
  intros Hid Hwf1 Hwf2. induction fuel as [|fuel IH];
    intros v1 v2 impl st Hsh Hsame Himpl; [done|].
  destruct v1 as [s|d|a|ty1 items1 aux1]; try done.
  - (* an object of the store *)
    apply shape_of_eq_cases in Hsh as [<-|(? & ? & ? & ? & ? & ? & ? & _)]; [|done].
    pose proof (Hsame [] a (reaches_pos_here _ _ _)) as Ha.
    unfold get_node_impl in Himpl.
    destruct (h1 !! a) as [[ty attrs1 aux1|]|] eqn:H1; [|done|done].
    injection Himpl as Himpl.
    destruct (Hwf1 _ _ _ _ H1) as [G|L]; [|congruence].
    assert (impl = GraphNodeImpl ty) as ->.
    { unfold lookup_impl in Himpl. rewrite G in Himpl. congruence. }
    simpl in Ha. rewrite G in Ha.
    destruct (h2 !! a) as [[ty2 attrs2 aux2|]|] eqn:H2; simpl in Ha; [|done|done].
    destruct (GRAPH_REGISTRY E ty2) eqn:G2; [|done].
    injection Ha as <- Hshapes <-.
    rewrite !_graph_fingerprint_graph.
    rewrite <- !(ref_get_heap_indep E h1 h2) by done.
    rewrite (type_of_node _ _ _ _ _ H1), (type_of_node _ _ _ _ _ H2).
    rewrite (node_flatten_node _ _ _ _ _ H1), (node_flatten_node _ _ _ _ _ H2).
    destruct (ref_get E h1 ri a); [done|].
    destruct (ref_get E h1 (new_ref_index st) a); [done|].
    cbn zeta. simpl.
    rewrite <- (ref_set_heap_indep E h1 h2) by done.
    rewrite (fingerprint_attrs_agree E h1 h2 ri Hid Hwf1 Hwf2
               (_graph_fingerprint E fuel h1 ri) (_graph_fingerprint E fuel h2 ri)
               attrs1 attrs2); [done|done| |].
    + intros n k c Hn. eapply (same_structure_child E h1 h2 (VRef a)); eauto.
      * unfold get_node_impl. rewrite H1. unfold lookup_impl. by rewrite G.
      * by apply node_flatten_node with ty.
    + intros c1 c2 impl0 st0 _. apply IH.
  - (* a container held by value *)
    assert (∃ ty2 items2, v2 = VTree ty2 items2 aux1
              ∧ get_node_impl E h2 v2 = Ok (Some impl)
              ∧ shapes_of E items1 = shapes_of E items2)
      as (ty2 & items2 & -> & Himpl2 & Hshapes).
    { apply shape_of_eq_cases in Hsh
        as [<-|(? & ? & ty2 & items2 & ? & impl' & [= <- <- <-] & -> & L1 & L2 & Hs)].
      - by exists ty1, items1.
      - exists ty2, items2. split; [done|]. split; [|done].
        unfold get_node_impl in *. congruence. }
    destruct impl as [ty|pty].
    { by rewrite !_graph_fingerprint_graph_by_value. }
    rewrite !_graph_fingerprint_pytree. simpl.
    rewrite (fingerprint_attrs_agree E h1 h2 ri Hid Hwf1 Hwf2
               (_graph_fingerprint E fuel h1 ri) (_graph_fingerprint E fuel h2 ri)
               items1 items2); [done|done| |].
    + intros n k c Hn.
      by eapply (same_structure_child E h1 h2 (VTree ty1 items1 aux1)).
    + intros c1 c2 impl0 st0 _. apply IH.
Qed.

(** The objects a shape refers to. *)
Inductive sh_in : shape → addr → Prop :=
| sh_in_ref a : sh_in (ShRef a) a
| sh_in_tree ty items aux k s a :
    (k, s) ∈ items → sh_in s a → sh_in (ShTree ty items aux) a.

Lemma shapes_of_lookup E items n k c :
  items !! n = Some (k, c) → (k, shape_of E c) ∈ shapes_of E items.
Proof.
  revert n. induction items as [|[k0 c0] items IH]; intros [|n]; simpl; try done.
  - intros [= -> ->]. by left.
  - intros H. right. by eapply IH.
Qed.

Lemma shapes_of_elem E items k s :
  (k, s) ∈ shapes_of E items → ∃ c, (k, c) ∈ items ∧ s = shape_of E c.
Proof.
  induction items as [|[k0 c0] items IH]; simpl.
  - intros H. by apply elem_of_nil in H.
  - intros [[= -> ->]|H]%elem_of_cons.
    + exists c0. split; [by left|done].
    + destruct (IH H) as (c & Hc & ->). exists c. split; [by right|done].
Qed.

Section FingerprintDescribes.
Context (E : PyEnv) (h : heap).
Hypothesis Hid : identity_keys E.
Hypothesis Hwf : heap_by_value E h.

(** What a part of a traversal that took the map from [nri] to [nri'] and
    produced the description [D] of a value with references [refs] has
    established: the objects it registered are described, the description
    is true of the store, and every reference of a described node and of
    the value itself is registered or described. *)
Definition fp_post (nri nri' : RefMap) (D : list (addr * eobject))
    (refs : addr → Prop) : Prop :=
  (∃ new, nri' = nri ++ new ∧ ∀ a, a ∈ map fst new → a ∈ map fst D)
  ∧ (∀ a e, (a, e) ∈ D → erase E <$> (h !! a) = Some e)
  ∧ (∀ a ty items aux k s b,
       (a, ENode ty items aux) ∈ D → (k, s) ∈ items → sh_in s b →
       b ∈ map fst nri' ∨ b ∈ map fst D)
  ∧ (∀ b, refs b → b ∈ map fst nri' ∨ b ∈ map fst D).

Lemma fp_post_nil nri : fp_post nri nri [] (fun _ => False).
Proof.
  split; [|split; [|split]].
  - exists []. split; [by rewrite app_nil_r|]. intros a H. by apply elem_of_nil in H.
  - intros a e H. by apply elem_of_nil in H.
  - intros a ty items aux k s b H. by apply elem_of_nil in H.
  - done.
Qed.

Lemma fp_post_seq nri nri1 nri2 D1 D2 R1 R2 :
  fp_post nri nri1 D1 R1 → fp_post nri1 nri2 D2 R2 →
  fp_post nri nri2 (D1 ++ D2) (fun b => R1 b ∨ R2 b).
Proof.
  intros ((n1 & -> & Hn1) & He1 & Hc1 & Hr1) ((n2 & -> & Hn2) & He2 & Hc2 & Hr2).
  assert (∀ b, b ∈ map fst (nri ++ n1) ∨ b ∈ map fst D1 →
               b ∈ map fst ((nri ++ n1) ++ n2) ∨ b ∈ map fst (D1 ++ D2)) as Hup1.
  { intros b [H|H]; [left|right]; rewrite map_app; apply elem_of_app; by left. }
  assert (∀ b, b ∈ map fst ((nri ++ n1) ++ n2) ∨ b ∈ map fst D2 →
               b ∈ map fst ((nri ++ n1) ++ n2) ∨ b ∈ map fst (D1 ++ D2)) as Hup2.
  { intros b [H|H]; [by left|right]. rewrite map_app; apply elem_of_app; by right. }
  split; [|split; [|split]].
  - exists (n1 ++ n2). split; [by rewrite app_assoc|].
    intros a. rewrite !map_app, !elem_of_app. intros [H|H]; [left|right]; auto.
  - intros a e [H|H]%elem_of_app; auto.
  - intros a ty items aux k s b [H|H]%elem_of_app Hk Hs; [apply Hup1|apply Hup2]; eauto.
  - intros b [H|H]; [apply Hup1|apply Hup2]; eauto.
Qed.

Lemma fp_post_refs nri nri' D (R R' : addr → Prop) :
  (∀ b, R' b → R b) → fp_post nri nri' D R → fp_post nri nri' D R'.
Proof. intros HR (H1 & H2 & H3 & H4). repeat split; auto. Qed.

Definition fp_rec_ok
    (rec : value → NodeImpl → fpstate → result (fingerprint_t * fpstate)) : Prop :=
  ∀ v impl st fp st',
    get_node_impl E h v = Ok (Some impl) →
    rec v impl st = Ok (fp, st') →
    fp_post (new_ref_index st) (new_ref_index st') (described fp)
            (sh_in (shape_of E v))
    ∧ fp_shape fp = shape_of E v.

Lemma ref_get_nil a : ref_get E h [] a = None.
Proof. reflexivity. Qed.

Lemma lookup_impl_None_graph ty : lookup_impl E ty = None → GRAPH_REGISTRY E ty = false.
Proof. unfold lookup_impl. by destruct (GRAPH_REGISTRY E ty). Qed.

Lemma fingerprint_attr_post rec k c st fa st' :
  fp_rec_ok rec →
  fingerprint_attr E h [] rec k c st = Ok (fa, st') →
  fp_post (new_ref_index st) (new_ref_index st') (described_attr fa)
          (sh_in (shape_of E c))
  ∧ attr_shape fa = (k, shape_of E c).
Proof.
  intros Hrec. unfold fingerprint_attr.
  destruct (get_node_impl E h c) as [[impl|]|e] eqn:Himpl; simpl; [| |done].
  { intros H. apply bind_ok in H as ([fp st1] & Hrun & [= <- <-]).
    destruct (Hrec _ _ _ _ _ Himpl Hrun) as [Hpost Hsh].
    split; [done|]. simpl. by rewrite Hsh. }
  destruct c as [s|d|a|ty items aux]; try done.
  - intros [= <- <-]. split; [|done].
    eapply fp_post_refs; [|apply fp_post_nil]. intros b Hb. inversion Hb.
  - destruct (h !! a) as [[ty attrs aux|ty raw md]|] eqn:Ha; [| |done].
    + intros [= <- <-]. split; [|done]. simpl.
      split; [|split; [|split]].
      * exists []. split; [by rewrite app_nil_r|]. intros a' H. by apply elem_of_nil in H.
      * intros a' e H. apply list_elem_of_singleton in H. injection H as -> ->.
        rewrite Ha. simpl.
        unfold get_node_impl in Himpl. rewrite Ha in Himpl. injection Himpl as Himpl.
        by rewrite (lookup_impl_None_graph _ Himpl).
      * intros a' ty' items' aux' k' s b H. by apply list_elem_of_singleton in H.
      * intros b Hb. inversion Hb; subst. right. by left.
    + destruct (ref_get E h (new_ref_index st) a) as [i|] eqn:Hget.
      * intros [= <- <-]. split; [|done]. simpl.
        split; [|split; [|split]].
        -- exists []. split; [by rewrite app_nil_r|]. intros a' H. by apply elem_of_nil in H.
        -- intros a' e H. by apply elem_of_nil in H.
        -- intros a' ty' items' aux' k' s b H. by apply elem_of_nil in H.
        -- intros b Hb. inversion Hb; subst. left.
           apply (ref_get_Some_in E h _ _ _ Hid) in Hget.
           apply list_elem_of_fmap. by exists (b, i).
      * intros [= <- <-]. split; [|done]. simpl.
        split; [|split; [|split]].
        -- exists [(a, next_index st)]. split.
           ++ unfold ref_set. by apply dict_set_absent.
           ++ simpl. done.
        -- intros a' e H. apply list_elem_of_singleton in H. injection H as -> ->.
           by rewrite Ha.
        -- intros a' ty' items' aux' k' s b H. by apply list_elem_of_singleton in H.
        -- intros b Hb. inversion Hb; subst. right. by left.
  - unfold get_node_impl in Himpl. injection Himpl as Himpl.
    intros [= <- <-]. split.
    + eapply fp_post_refs; [|apply fp_post_nil]. intros b Hb.
      rewrite shape_of_VTree, Himpl in Hb. inversion Hb.
    + simpl. by rewrite shape_of_VTree, Himpl.
Qed.
Lemma fingerprint_attrs_post rec values st fas st' :
  fp_rec_ok rec →
  fingerprint_attrs E h [] rec values st = Ok (fas, st') →
  fp_post (new_ref_index st) (new_ref_index st') (described_attrs fas)
          (fun b => ∃ k s, (k, s) ∈ shapes_of E values ∧ sh_in s b)
  ∧ map attr_shape fas = shapes_of E values.
Proof.
  intros Hrec. revert st fas st'.
  induction values as [|[k c] values IH]; intros st fas st'; simpl.
  - intros [= <- <-]. split; [|done].
    eapply fp_post_refs; [|apply fp_post_nil].
    intros b (k & s & H & _). by apply elem_of_nil in H.
  - intros H. apply bind_ok in H as ([fa st1] & Hone & H).
    apply bind_ok in H as ([fas' st2] & Hrest & [= <- <-]).
    apply fingerprint_attr_post in Hone as [Hp1 Hs1]; [|done].
    apply IH in Hrest as [Hp2 Hs2].
    split; [|simpl; by rewrite Hs1, Hs2].
    unfold described_attrs. simpl. fold (described_attrs fas').
    eapply fp_post_refs; [|exact (fp_post_seq _ _ _ _ _ _ _ Hp1 Hp2)].
    intros b (k' & s & [[= -> ->]|Hin]%elem_of_cons & Hs); [by left|].
    right. eauto.
Qed.

Lemma heap_by_value_not_pytree a pty :
  get_node_impl E h (VRef a) ≠ Ok (Some (PytreeNodeImpl pty)).
Proof.
  unfold get_node_impl. destruct (h !! a) as [[ty attrs aux|]|] eqn:Ha; try done.
  destruct (Hwf _ _ _ _ Ha) as [G|L]; [|by rewrite L].
  unfold lookup_impl. by rewrite G.
Qed.

Lemma _graph_fingerprint_post fuel : fp_rec_ok (_graph_fingerprint E fuel h []).
Proof.
  induction fuel as [|fuel IH]; intros v impl st fp st' Himpl; [done|].
  destruct impl as [ty|pty].
  - destruct v as [s|d|a|ty' items aux]; try done.
    rewrite _graph_fingerprint_graph, ref_get_nil.
    assert (∃ attrs aux, h !! a = Some (ONode ty attrs aux) ∧ GRAPH_REGISTRY E ty = true)
      as (attrs & aux & Ha & G).
    { unfold get_node_impl in Himpl.
      destruct (h !! a) as [[ty0 attrs aux|]|] eqn:Ha; try done.
      injection Himpl as Himpl. unfold lookup_impl in Himpl.
      destruct (GRAPH_REGISTRY E ty0) eqn:G.
      - injection Himpl as ->. eauto.
      - destruct (PYTREE_REGISTRY E ty0); [done|].
        by destruct (JAX_PYTREE_REGISTRY E ty0 || issubclass_tuple E ty0). }
    rewrite (type_of_node _ _ _ _ _ Ha), (node_flatten_node _ _ _ _ _ Ha).
    destruct (ref_get E h (new_ref_index st) a) as [i|] eqn:Hget.
    + intros [= <- <-]. split; [|done].
      split; [|split; [|split]].
      * exists []. split; [by rewrite app_nil_r|]. intros a' H. by apply elem_of_nil in H.
      * intros a' e H. by apply elem_of_nil in H.
      * intros a' ty' items' aux' k' s b H. by apply elem_of_nil in H.
      * intros b Hb. inversion Hb; subst. left.
        apply (ref_get_Some_in E h _ _ _ Hid) in Hget.
        apply list_elem_of_fmap. by exists (b, i).
    + simpl. intros H.
      apply bind_ok in H as ([fas st2] & Hloop & [= <- <-]).
      apply (fingerprint_attrs_post _ _ _ _ _ IH) in Hloop
        as (((new & Hnew & Hdesc) & He & Hc & Hr) & Hsh).
      simpl in Hnew. unfold ref_set in Hnew.
      rewrite (dict_set_absent _ _ _ _ Hget) in Hnew.
      split; [|done]. rewrite described_node. simpl.
      assert (∀ b, b ∈ map fst (new_ref_index st2) ∨ b ∈ map fst (described_attrs fas) →
                   b ∈ map fst (new_ref_index st2)
                   ∨ b ∈ a :: map fst (described_attrs fas)) as Hup.
      { intros b [H|H]; [by left|right; by right]. }
      split; [|split; [|split]].
      * exists ((a, next_index st) :: new). split; [by rewrite Hnew, <- app_assoc|].
        simpl. intros a' [->|H]%elem_of_cons; [by left|right; auto].
      * intros a' e [[= -> ->]|H]%elem_of_cons; [|auto].
        rewrite Ha. simpl. by rewrite G, Hsh.
      * intros a' ty' items' aux' k' s b H Hk Hs. apply Hup.
        apply elem_of_cons in H as [H|H]; [|eauto].
        injection H as -> -> -> ->.
        apply Hr. exists k', s. by rewrite <- Hsh.
      * intros b Hb. inversion Hb; subst. right. by left.
  - destruct v as [s|d|a|ty' items aux]; try done.
    { by destruct (heap_by_value_not_pytree a pty). }
    rewrite _graph_fingerprint_pytree. simpl. intros H.
    apply bind_ok in H as ([fas st2] & Hloop & [= <- <-]).
    apply (fingerprint_attrs_post _ _ _ _ _ IH) in Hloop as [Hp Hsh].
    unfold get_node_impl in Himpl. injection Himpl as Himpl.
    rewrite shape_of_VTree, Himpl. simpl.
    split; [|by rewrite fp_shape_tree, Hsh].
    rewrite described_node. simpl.
    eapply fp_post_refs; [|exact Hp].
    intros b Hb. inversion Hb; subst. eauto.
Qed.
End FingerprintDescribes.

Lemma reach_described E h (D : list (addr * eobject)) :
  heap_by_value E h →
  (∀ a e, (a, e) ∈ D → erase E <$> (h !! a) = Some e) →
  (∀ a ty items aux k s b,
     (a, ENode ty items aux) ∈ D → (k, s) ∈ items → sh_in s b → b ∈ map fst D) →
  ∀ v ns a,
    reaches_pos E h v ns (VRef a) →
    (∀ b, sh_in (shape_of E v) b → b ∈ map fst D) →
    a ∈ map fst D.
Proof.
  intros Hwf Htrue Hclosed v ns a Hr. remember (VRef a) as w eqn:Hw.
  induction Hr as [v|v impl items md n k c ns w Himpl Hfl Hn Hr IH]; intros Hv; subst.
  - apply Hv. rewrite shape_of_ref. constructor.
  - apply IH; [done|]. intros b Hb.
    destruct v as [s|d|a0|ty items0 aux]; try done.
    + assert (a0 ∈ map fst D) as Ha0 by (apply Hv; rewrite shape_of_ref; constructor).
      apply list_elem_of_fmap in Ha0 as ([a' e] & -> & He). simpl in *.
      pose proof (Htrue _ _ He) as Her.
      unfold node_flatten in Hfl. unfold get_node_impl in Himpl.
      destruct (h !! a') as [[ty attrs aux|]|] eqn:Ha; try done.
      injection Hfl as -> ->. injection Himpl as Himpl.
      destruct (Hwf _ _ _ _ Ha) as [G|L]; [|congruence].
      simpl in Her. rewrite G in Her. injection Her as <-.
      eapply Hclosed; [exact He| |exact Hb]. by eapply shapes_of_lookup.
    + apply Hv. unfold node_flatten in Hfl. injection Hfl as -> ->.
      unfold get_node_impl in Himpl. injection Himpl as Himpl.
      rewrite shape_of_VTree, Himpl. econstructor; [|exact Hb].
      by eapply shapes_of_lookup.
Qed.

(** Only the contents of Variables differ between [h1] and [h2]. *)
Definition contents_changed (h1 h2 : heap) : Prop :=
  ∀ a, h2 !! a = h1 !! a
       ∨ ∃ ty md raw raw',
           h1 !! a = Some (OVar ty raw md) ∧ h2 !! a = Some (OVar ty raw' md).

Lemma contents_changed_same_structure E h1 h2 v :
  contents_changed h1 h2 → same_structure E h1 h2 v.
Proof.
  intros Hc ns a _. destruct (Hc a) as [->|(ty & md & raw & raw' & -> & ->)]; done.
Qed.

Lemma fingerprint_same_structure E fuel h1 h2 node :
  identity_keys E → heap_by_value E h1 → heap_by_value E h2 →
  same_structure E h1 h2 node →
  fingerprint E fuel h1 node None None = fingerprint E fuel h2 node None None.
Proof.
  intros Hid Hwf1 Hwf2 Hsame. unfold fingerprint.
  assert (get_node_impl E h1 node = get_node_impl E h2 node) as Hcls.
  { destruct node as [s|d|a|ty items aux]; try done.
    destruct (erase_agree_classify E h1 h2 Hwf1 Hwf2 a
                (Hsame [] a (reaches_pos_here _ _ _)))
      as [[H _]|(? & ? & ? & ? & ? & ? & _ & _ & -> & ->)]; done. }
  rewrite <- Hcls.
  destruct (get_node_impl E h1 node) as [[impl|]|e] eqn:Himpl; simpl; try done.
  by rewrite (_graph_fingerprint_agree E h1 h2 [] fuel Hid Hwf1 Hwf2
                node node impl _ eq_refl Hsame Himpl).
Qed.

Lemma fingerprint_describes E fuel h node fp nri :
  identity_keys E → heap_by_value E h →
  fingerprint E fuel h node None None = Ok (fp, nri) →
  (∀ a e, (a, e) ∈ described fp → erase E <$> (h !! a) = Some e)
  ∧ (∀ ns a, reaches_pos E h node ns (VRef a) → a ∈ map fst (described fp)).
Proof.
  intros Hid Hwf H. unfold fingerprint in H.
  apply bind_ok in H as (oimpl & Himpl & H). destruct oimpl as [impl|]; [|done].
  apply bind_ok in H as ([fp' st] & Hrun & [= -> <-]).
  destruct (_graph_fingerprint_post E h Hid Hwf fuel _ _ _ _ _ Himpl Hrun)
    as (((new & Hnew & Hdesc) & Htrue & Hclosed & Hrefs) & Hsh).
  simpl in Hnew. subst.
  assert (∀ b, b ∈ map fst (new_ref_index st) ∨ b ∈ map fst (described fp) →
               b ∈ map fst (described fp)) as Hin.
  { intros b [Hb|Hb]; [|done]. by apply Hdesc. }
  split; [done|].
  intros ns a Hr. eapply (reach_described E h (described fp)); eauto.
Qed.



(* --------------------------------------------------------------------- *)
(* The traversal ends                                                     *)
(* --------------------------------------------------------------------- *)

(** How deep the containers held by value nest in a value. *)
Fixpoint vdepth (v : value) : nat :=
  match v with
  | VTree _ items _ =>
      S ((fix go (l : list (key * value)) : nat :=
            match l with
            | [] => 0%nat
            | kc :: r => Nat.max (vdepth kc.2) (go r)
            end) items)
  | _ => 0%nat
  end.

Fixpoint vdepths (l : list (key * value)) : nat :=
  match l with
  | [] => 0%nat
  | kc :: r => Nat.max (vdepth kc.2) (vdepths r)
  end.

Lemma vdepth_VTree ty items aux : vdepth (VTree ty items aux) = S (vdepths items).
Proof. reflexivity. Qed.

Lemma vdepths_lookup items n k c :
  items !! n = Some (k, c) → (vdepth c ≤ vdepths items)%nat.
Proof.
  revert n. induction items as [|kc r IH]; intros [|n]; simpl; try done.
  - intros [= ->]. simpl. lia.
  - intros H. apply IH in H. lia.
Qed.

Definition odepth (o : object) : nat :=
  match o with
  | ONode _ attrs _ => vdepths attrs
  | OVar _ _ _ => 0%nat
  end.

Definition hdepth (h : heap) : nat := foldr (fun o d => Nat.max (odepth o) d) 0%nat h.

Lemma hdepth_lookup (h : heap) a o : h !! a = Some o → (odepth o ≤ hdepth h)%nat.
Proof.
  revert a. induction h as [|o' h IH]; intros [|a]; simpl; try done.
  - intros [= ->]. unfold hdepth. simpl. lia.
  - intros H. apply IH in H. unfold hdepth in *. simpl. lia.
Qed.

(** Recursion depth that is enough for [flatten]: every object of the store
    is entered once, and below it the containers held by value. *)
Definition fuel_bound (h : heap) (node : value) : nat :=
  S (length h * S (hdepth h) + vdepth node).

Arguments vdepth : simpl never.

Lemma ri_ok_length h (ri : RefMap) : ri_ok h ri → (length ri ≤ length h)%nat.
Proof.
  intros (_ & Hnd & Hdom).
  transitivity (length (seq 0 (length h))); [|by rewrite length_seq].
  rewrite <- (length_map fst ri).
  apply submseteq_length, NoDup_submseteq; [done|].
  intros x Hx. apply elem_of_seq. rewrite Forall_forall in Hdom.
  apply Hdom in Hx. lia.
Qed.

(** A run that did not end in the recursion limit, and left a map that is
    in order and no shorter. *)
Definition ended {A} (h : heap) (st : fstate) (r : result (A * fstate)) : Prop :=
  match r with
  | Ok (_, st') =>
      ri_ok h (ref_index st') ∧ (length (ref_index st) ≤ length (ref_index st'))%nat
  | Err e => e ≠ RecursionError
  end.

Section Termination.
Context (E : PyEnv) (h : heap) (roi : option RefMap) (rv : bool).
Hypothesis Hwf : heap_by_value E h.

(** What is left to traverse: the objects not yet in the map, each with
    the containers it holds by value, and the containers below [v]. *)
Definition measure (v : value) (st : fstate) : nat :=
  ((length h - length (ref_index st)) * S (hdepth h) + vdepth v)%nat.

Definition rec_ends
    (rec : value → NodeImpl → option (list key) → fstate → result (graphdef * fstate))
    (m : nat) : Prop :=
  ∀ v impl path st,
    get_node_impl E h v = Ok (Some impl) → ri_ok h (ref_index st) →
    (measure v st < m)%nat → ended h st (rec v impl path st).

Lemma flatten_attr_ends rec m path k v st :
  rec_ends rec m → ri_ok h (ref_index st) → (measure v st < m)%nat →
  ended h st (flatten_attr E h roi rv rec path k v st).
Proof.
  intros Hrec Hri Hm. unfold flatten_attr.
  destruct (get_node_impl E h v) as [[impl|]|e] eqn:Himpl; simpl.
  - by apply Hrec.
  - destruct v as [s|data|a|ty items aux]; simpl; try done.
    destruct (h !! a) as [[ty attrs aux|ty raw md]|] eqn:Ha; simpl; try done.
    destruct (ref_get E h (ref_index st) a) as [i|] eqn:Hget; simpl; [done|].
    destruct (ri_ok_snoc E h (ref_index st) a Hri Hget) as [Hset Hok].
    { by apply lookup_lt_Some in Ha. }
    match goal with
    | |- ended _ _ (bind ?m _) => destruct m as [ps|e] eqn:Hps
    end; simpl.
    + rewrite Hset. split; [done|]. rewrite length_app. simpl. lia.
    + destruct (option_map _ path); [|done]. destruct (paths st); by inversion Hps.
  - apply get_node_impl_err in Himpl as ->. done.
Qed.

Lemma measure_mono v st st' :
  (length (ref_index st) ≤ length (ref_index st'))%nat →
  (measure v st' ≤ measure v st)%nat.
Proof.
  intros Hle. unfold measure. apply Nat.add_le_mono_r, Nat.mul_le_mono_r. lia.
Qed.

Lemma flatten_attrs_ends rec m path values st :
  rec_ends rec m → ri_ok h (ref_index st) →
  (∀ n k c, values !! n = Some (k, c) → (measure c st < m)%nat) →
  ended h st (flatten_attrs E h roi rv rec path values st).
Proof.
  intros Hrec. revert st.
  induction values as [|[k v] values IH]; intros st Hri Hm; simpl.
  - split; [done|lia].
  - pose proof (flatten_attr_ends rec m path k v st Hrec Hri (Hm 0%nat k v eq_refl)) as H1.
    destruct (flatten_attr E h roi rv rec path k v st) as [[d st1]|e]; simpl; [|done].
    destruct H1 as [Hri1 Hle1].
    assert (ended h st1 (flatten_attrs E h roi rv rec path values st1)) as H2.
    { apply IH; [done|]. intros n k' c Hn.
      pose proof (Hm (S n) k' c Hn). pose proof (measure_mono c st st1 Hle1). lia. }
    destruct (flatten_attrs E h roi rv rec path values st1) as [[ds st2]|e]; simpl; [|done].
    destruct H2 as [Hri2 Hle2]. split; [done|lia].
Qed.
End Termination.

Lemma _graph_flatten_ends E h roi rv fuel :
  heap_by_value E h → rec_ends E h (_graph_flatten E fuel h roi rv) fuel.
Proof.
  intros Hwf. induction fuel as [|fuel IH]; intros v impl path st Himpl Hri Hm; [lia|].
  destruct impl as [ty|pty].
  - destruct v as [s|data|a|ty' items aux]; try done.
    destruct (ref_get E h (ref_index st) a) as [i|] eqn:Hget.
    + rewrite (_graph_flatten_seen _ _ _ _ _ _ _ _ _ _ Hget).
      destruct (type_of h (VRef a)) as [node_ty|e] eqn:Hty; simpl; [done|].
      by apply type_of_err in Hty as ->.
    + rewrite (_graph_flatten_new _ _ _ _ _ _ _ _ _ Hget). cbn zeta.
      destruct (ri_ok_snoc E h (ref_index st) a Hri Hget) as [Hset Hok1].
      { by apply get_node_impl_ref_lt in Himpl. }
      rewrite Hset.
      destruct (node_flatten h (VRef a)) as [[values md]|e] eqn:Hfl; simpl;
        [|by apply node_flatten_err in Hfl as ->].
      pose proof (ri_ok_length _ _ Hok1) as Hlen. rewrite length_app in Hlen.
      simpl in Hlen.
      set (st1 := FState (ref_index st ++ [(a, Z.of_nat (length (ref_index st)))])
                         (leaves st) (paths st)).
      assert (ended h st1
                (flatten_attrs E h roi rv (_graph_flatten E fuel h roi rv) path values st1))
        as H2.
      { apply (flatten_attrs_ends E h roi rv) with (m := fuel); [done|done|].
        intros n k c Hn. unfold measure in *. simpl. rewrite length_app. simpl.
        assert (vdepth c ≤ hdepth h)%nat as Hc.
        { unfold node_flatten in Hfl.
          destruct (h !! a) as [[ty0 attrs aux|]|] eqn:Ha; try done.
          injection Hfl as <- <-.
          apply hdepth_lookup in Ha. simpl in Ha.
          apply vdepths_lookup in Hn. lia. }
        replace (length h - length (ref_index st))%nat
          with (S (length h - (length (ref_index st) + 1)))%nat in Hm by lia.
        simpl in Hm. lia. }
      destruct (flatten_attrs E h roi rv _ path values st1) as [[ds st2]|e]; simpl; [|done].
      destruct H2 as [Hri2 Hle2]. split; [done|].
      subst st1. simpl in Hle2. rewrite length_app in Hle2. lia.
  - rewrite _graph_flatten_pytree.
    destruct v as [s|data|a|ty' items aux]; try done.
    { by destruct (heap_by_value_not_pytree E h Hwf a pty). }
    change (node_flatten h (VTree ty' items aux)) with (Ok (A:=_) (items, aux)). simpl.
    assert (ended h st
              (flatten_attrs E h roi rv (_graph_flatten E fuel h roi rv) path items st))
      as H2.
    { apply (flatten_attrs_ends E h roi rv) with (m := fuel); [done|done|].
      intros n k c Hn. unfold measure in *. rewrite vdepth_VTree in Hm.
      apply vdepths_lookup in Hn. lia. }
    destruct (flatten_attrs E h roi rv _ path items st) as [[ds st2]|e]; simpl; [|done].
    done.
Qed.

(** More fuel changes nothing once the recursion limit was not hit. *)
Section FuelMono.
Context (E : PyEnv) (h : heap) (roi : option RefMap) (rv : bool).
Context (rec rec' : value → NodeImpl → option (list key) → fstate
                    → result (graphdef * fstate)).
Hypothesis Hrec : ∀ v impl path st,
  rec v impl path st ≠ Err RecursionError → rec' v impl path st = rec v impl path st.

Lemma flatten_attr_fuel path k v st :
  flatten_attr E h roi rv rec path k v st ≠ Err RecursionError →
  flatten_attr E h roi rv rec' path k v st = flatten_attr E h roi rv rec path k v st.
Proof.
  unfold flatten_attr.
  destruct (get_node_impl E h v) as [[impl|]|e]; simpl; [|done|done].
  apply Hrec.
Qed.

Lemma flatten_attrs_fuel path values st :
  flatten_attrs E h roi rv rec path values st ≠ Err RecursionError →
  flatten_attrs E h roi rv rec' path values st
  = flatten_attrs E h roi rv rec path values st.
Proof.
  revert st. induction values as [|[k v] values IH]; intros st; simpl; [done|].
  intros H.
  rewrite flatten_attr_fuel.
  2: { intros Heq. apply H. by rewrite Heq. }
  destruct (flatten_attr E h roi rv rec path k v st) as [[d st1]|e]; simpl; [|done].
  simpl in H. rewrite IH; [done|].
  intros Heq. apply H. by rewrite Heq.
Qed.
End FuelMono.

Lemma _graph_flatten_fuel_S E h roi rv fuel :
  ∀ v impl path st,
    _graph_flatten E fuel h roi rv v impl path st ≠ Err RecursionError →
    _graph_flatten E (S fuel) h roi rv v impl path st
    = _graph_flatten E fuel h roi rv v impl path st.
Proof.
  induction fuel as [|fuel IH]; intros v impl path st H; [done|].
  destruct impl as [ty|pty].
  - destruct v as [s|data|a|ty' items aux]; try done.
    destruct (ref_get E h (ref_index st) a) as [i|] eqn:Hget.
    + by rewrite !(_graph_flatten_seen _ _ _ _ _ _ _ _ _ _ Hget).
    + rewrite !(_graph_flatten_new _ _ _ _ _ _ _ _ _ Hget) in *. cbn zeta in *.
      destruct (node_flatten h (VRef a)) as [[values md]|e]; simpl in *; [|done].
      rewrite (flatten_attrs_fuel E h roi rv _ _ IH); [done|].
      intros Heq. apply H. by rewrite Heq.
  - rewrite !_graph_flatten_pytree in *.
    destruct (node_flatten h v) as [[values md]|e]; simpl in *; [|done].
    rewrite (flatten_attrs_fuel E h roi rv _ _ IH); [done|].
    intros Heq. apply H. by rewrite Heq.
Qed.

Lemma _graph_flatten_fuel_le E h roi rv fuel fuel' v impl path st :
  (fuel ≤ fuel')%nat →
  _graph_flatten E fuel h roi rv v impl path st ≠ Err RecursionError →
  _graph_flatten E fuel' h roi rv v impl path st
  = _graph_flatten E fuel h roi rv v impl path st.
Proof.
  intros Hle H. induction Hle as [|fuel' Hle IH]; [done|].
  rewrite _graph_flatten_fuel_S; [done|]. by rewrite IH.
Qed.

(** [flatten] from an empty map ends within [fuel_bound], and returns the
    same with any larger recursion limit. *)
Lemma flatten_ends E h node with_paths rv roi fuel :
  heap_by_value E h → (fuel_bound h node ≤ fuel)%nat →
  flatten E fuel h node with_paths rv None roi ≠ Err RecursionError
  ∧ flatten E fuel h node with_paths rv None roi
    = flatten E (fuel_bound h node) h node with_paths rv None roi.
Proof.
  intros Hwf Hle. unfold flatten. simpl.
  destruct (get_node_impl E h node) as [[impl|]|e] eqn:Himpl; simpl; [|done|].
  2: { apply get_node_impl_err in Himpl as ->. done. }
  set (st0 := FState [] [] (if with_paths then Some [] else None)).
  pose proof (_graph_flatten_ends E h roi rv (fuel_bound h node) Hwf node impl
                (if with_paths then Some [] else None) st0 Himpl (ri_ok_nil h)) as Hend.
  assert (_graph_flatten E (fuel_bound h node) h roi rv node impl
            (if with_paths then Some [] else None) st0 ≠ Err RecursionError) as Hne.
  { intros Heq. rewrite Heq in Hend. apply Hend; [|done].
    unfold measure, fuel_bound. simpl. lia. }
  rewrite (_graph_flatten_fuel_le E h roi rv _ fuel _ _ _ _ Hle Hne).
  split; [|done].
  destruct (_graph_flatten E (fuel_bound h node) h roi rv node impl _ st0)
    as [[gd st]|e]; simpl; [by destruct (paths st)|congruence].
Qed.

(* --------------------------------------------------------------------- *)
(* Flatten, then unflatten                                                *)
(* --------------------------------------------------------------------- *)

(** No class is registered both as a graph node type and as a pytree node
    type, so the implementation [get_node_impl] finds for an object is the
    one [get_node_impl_for_type] finds for its descriptor. *)
Definition registry_ok (E : PyEnv) : Prop :=
  ∀ ty, GRAPH_REGISTRY E ty = true → PYTREE_REGISTRY E ty = false.

Fixpoint keys_nodup (ks : list key) : bool :=
  match ks with
  | [] => true
  | k :: r => negb (existsb (key_eqb k) r) && keys_nodup r
  end.

(** A container held by value is as its class's [flatten] presents it: the
    aux data of a generic pytree is the [IndexesPytreeDef] that
    [_flatten_pytree] builds, with an index for every key and a treedef
    that rebuilds the same class. *)
Fixpoint value_ok (E : PyEnv) (v : value) : bool :=
  match v with
  | VTree ty items aux =>
      match lookup_impl E ty, aux with
      | Some (PytreeNodeImpl GenericPytree), IndexesPytreeDef key_index treedef =>
          String.eqb treedef ty
          && forallb (fun kc => dict_mem key_eqb key_index kc.1) items
      | Some (PytreeNodeImpl GenericPytree), _ => false
      | _, _ => true
      end
      && (fix go (l : list (key * value)) : bool :=
            match l with
            | [] => true
            | kc :: r => value_ok E kc.2 && go r
            end) items
  | _ => true
  end.

Fixpoint values_ok (E : PyEnv) (l : list (key * value)) : bool :=
  match l with
  | [] => true
  | kc :: r => value_ok E kc.2 && values_ok E r
  end.

(** An object of the store is an instance of a graph node class, a
    Variable, or not a node at all; its attributes are a dict, with no key
    twice. *)
Definition object_ok (E : PyEnv) (o : object) : bool :=
  match o with
  | ONode ty attrs _ =>
      (GRAPH_REGISTRY E ty || bool_decide (lookup_impl E ty = None))
      && keys_nodup (map fst attrs) && values_ok E attrs
  | OVar _ _ _ => true
  end.

Definition store_ok (E : PyEnv) (h : heap) : bool := forallb (object_ok E) h.

(** The unfolding of a graph to a depth: what a traversal that follows
    references as [flatten] does, but forgets which object is which,
    sees. *)
Inductive tree :=
| TOpaque (v : value)
| TVariable (ty : string) (raw : payload) (md : list (string * static))
| TGraph (ty : string) (children : list (key * tree)) (aux : metadata)
| TTree (ty : string) (children : list (key * tree)) (aux : metadata)
| TCut.

Fixpoint unfold_graph (E : PyEnv) (h : heap) (depth : nat) (v : value) : tree :=
  match depth with
  | O => TCut
  | S depth =>
      let below := map (fun kc : key * value => (kc.1, unfold_graph E h depth kc.2)) in
      match v with
      | VRef a =>
          match h !! a with
          | Some (OVar ty raw md) => TVariable ty raw md
          | Some (ONode ty attrs aux) =>
              match lookup_impl E ty with
              | Some _ => TGraph ty (below attrs) aux
              | None => TOpaque v
              end
          | None => TOpaque v
          end
      | VTree ty items aux =>
          match lookup_impl E ty with
          | Some _ => TTree ty (below items) aux
          | None => TOpaque v
          end
      | VStatic _ | VArray _ => TOpaque v
      end
  end.

(** [v] in the store [h] and [v'] in [h'] are structurally equal. *)
Definition structurally_equal (E : PyEnv) (h : heap) (v : value) (h' : heap) (v' : value)
  : Prop :=
  ∀ depth, unfold_graph E h depth v = unfold_graph E h' depth v'.

Lemma value_ok_VTree E ty items aux :
  value_ok E (VTree ty items aux) = true →
  values_ok E items = true
  ∧ (lookup_impl E ty = Some PYTREE_NODE_IMPL →
     ∃ key_index, aux = IndexesPytreeDef key_index ty
       ∧ forallb (fun kc => dict_mem key_eqb key_index kc.1) items = true).
Proof.
  simpl. intros [H1 H2]%andb_true_iff. split.
  { clear H1. induction items as [|kc r IH]; simpl; [done|].
    apply andb_true_iff in H2 as [Hc Hr]. by rewrite Hc, IH. }
  intros Hl. rewrite Hl in H1. unfold PYTREE_NODE_IMPL in H1.
  destruct aux as [|z|ki td]; try done.
  apply andb_true_iff in H1 as [Htd Hks]. apply String.eqb_eq in Htd as ->.
  by exists ki.
Qed.

Arguments value_ok : simpl never.

Lemma keys_nodup_NoDup ks : keys_nodup ks = true → NoDup ks.
Proof.
  induction ks as [|k r IH]; simpl; [constructor|].
  intros [Hk Hr]%andb_true_iff. constructor; [|by apply IH].
  intros Hin. apply negb_true_iff in Hk.
  assert (existsb (key_eqb k) r = true); [|congruence].
  apply existsb_exists. exists k. split; [by apply list_elem_of_In|].
  by apply key_eqb_spec.
Qed.

Lemma store_ok_lookup E (h : heap) a o :
  store_ok E h = true → h !! a = Some o → object_ok E o = true.
Proof.
  unfold store_ok. rewrite forallb_forall. intros H Ha. apply H.
  apply list_elem_of_In. by eapply list_elem_of_lookup_2.
Qed.

Lemma store_ok_by_value E h : store_ok E h = true → heap_by_value E h.
Proof.
  intros Hok a ty attrs aux Ha. apply (store_ok_lookup E h a _ Hok) in Ha.
  simpl in Ha. apply andb_true_iff in Ha as [Ha _].
  apply andb_true_iff in Ha as [Ha _].
  apply orb_true_iff in Ha as [Ha|Ha]; [by left|right].
  by apply bool_decide_eq_true in Ha.
Qed.

Lemma store_ok_node E (h : heap) a ty attrs aux :
  store_ok E h = true → h !! a = Some (ONode ty attrs aux) →
  NoDup (map fst attrs) ∧ values_ok E attrs = true.
Proof.
  intros Hok Ha. apply (store_ok_lookup E h a _ Hok) in Ha. simpl in Ha.
  apply andb_true_iff in Ha as [Ha Hv]. apply andb_true_iff in Ha as [_ Hk].
  split; [by apply keys_nodup_NoDup | done].
Qed.

Lemma lookup_impl_for_type E ty impl :
  registry_ok E → lookup_impl E ty = Some impl →
  get_node_impl_for_type E (impl_type impl) = Some impl.
Proof.
  intros Hreg. unfold lookup_impl.
  destruct (GRAPH_REGISTRY E ty) eqn:G.
  { intros [= <-]. simpl. by rewrite (Hreg _ G), G. }
  destruct (PYTREE_REGISTRY E ty) eqn:P.
  { intros [= <-]. simpl. by rewrite P. }
  destruct (JAX_PYTREE_REGISTRY E ty || issubclass_tuple E ty); [|done].
  by intros [= <-].
Qed.

Lemma lookup_impl_graph E ty name :
  lookup_impl E ty = Some (GraphNodeImpl name) → name = ty ∧ GRAPH_REGISTRY E ty = true.
Proof.
  unfold lookup_impl. destruct (GRAPH_REGISTRY E ty); [by intros [= <-]|].
  destruct (PYTREE_REGISTRY E ty); [done|].
  by destruct (JAX_PYTREE_REGISTRY E ty || issubclass_tuple E ty).
Qed.

Lemma lookup_impl_pytree E ty pty :
  lookup_impl E ty = Some (PytreeNodeImpl pty) → pty = Cls ty ∨ pty = GenericPytree.
Proof.
  unfold lookup_impl. destruct (GRAPH_REGISTRY E ty); [done|].
  destruct (PYTREE_REGISTRY E ty); [intros [= <-]; by left|].
  destruct (JAX_PYTREE_REGISTRY E ty || issubclass_tuple E ty); [|done].
  intros [= <-]. by right.
Qed.

(** The objects [flatten] met, each with the object [unflatten] made for it. *)
Definition covers (φ : addr → option addr) (ri : RefMap) (ir : IndexMap) : Prop :=
  ∀ a i a', (a, i) ∈ ri → idx_get ir i = Some a' → φ a = Some a'.

(** [v'] is [v] with every object of the traversal replaced by its copy. *)
Inductive vrel (E : PyEnv) (h : heap) (φ : addr → option addr) : value → value → Prop :=
| vrel_static v :
    get_node_impl E h v = Ok None →
    (∀ a, v = VRef a → ∃ ty attrs aux, h !! a = Some (ONode ty attrs aux)) →
    vrel E h φ v v
| vrel_ref a a' :
    φ a = Some a' → vrel E h φ (VRef a) (VRef a')
| vrel_tree ty pty items items' aux :
    lookup_impl E ty = Some (PytreeNodeImpl pty) →
    map fst items' = map fst items →
    Forall2 (vrel E h φ) (map snd items) (map snd items') →
    vrel E h φ (VTree ty items aux) (VTree ty items' aux).

Definition orel (E : PyEnv) (h : heap) (φ : addr → option addr) (o o' : object) : Prop :=
  match o with
  | OVar _ _ _ => o' = o
  | ONode ty attrs aux =>
      GRAPH_REGISTRY E ty = true
      ∧ ∃ attrs', o' = ONode ty attrs' aux
          ∧ map fst attrs' = map fst attrs
          ∧ Forall2 (vrel E h φ) (map snd attrs) (map snd attrs')
  end.

(** The two maps go in step: the n-th index of the one is the n-th key of
    the other. *)
Definition synced (ri : RefMap) (ir : IndexMap) : Prop := map fst ir = map snd ri.

Lemma dict_get_app_Some {K V} (eqb : K → K → bool) (d d' : list (K * V)) k v :
  dict_get eqb d k = Some v → dict_get eqb (d ++ d') k = Some v.
Proof.
  induction d as [|[k0 v0] d IH]; simpl; [done|]. by destruct (eqb k0 k).
Qed.

Lemma dict_get_app_None {K V} (eqb : K → K → bool) (d d' : list (K * V)) k :
  dict_get eqb d k = None → dict_get eqb (d ++ d') k = dict_get eqb d' k.
Proof.
  induction d as [|[k0 v0] d IH]; simpl; [done|]. by destruct (eqb k0 k).
Qed.

Lemma covers_mono φ (ri Δri : RefMap) (ir Δir : IndexMap) :
  covers φ (ri ++ Δri) (ir ++ Δir) → covers φ ri ir.
Proof.
  intros H a i a' Hin Hget. apply (H a i a').
  - apply elem_of_app. by left.
  - by apply dict_get_app_Some.
Qed.

Lemma synced_absent h (ri : RefMap) (ir : IndexMap) :
  ri_ok h ri → synced ri ir → idx_get ir (dict_len ri) = None.
Proof.
  intros (Hpos & _ & _) Hs. apply (dict_get_None_keys Z.eqb Z_eqb_spec).
  rewrite Hs, Hpos. unfold dict_len.
  intros (n & Hn & Hin)%list_elem_of_fmap. apply elem_of_seq in Hin. lia.
Qed.

Lemma synced_no_pytree_index h (ri : RefMap) (ir : IndexMap) :
  ri_ok h ri → synced ri ir → idx_get ir (-1) = None.
Proof.
  intros (Hpos & _ & _) Hs. apply (dict_get_None_keys Z.eqb Z_eqb_spec).
  rewrite Hs, Hpos.
  intros (n & Hn & Hin)%list_elem_of_fmap. lia.
Qed.

Lemma synced_present (ri : RefMap) (ir : IndexMap) a i :
  synced ri ir → (a, i) ∈ ri → ∃ a', idx_get ir i = Some a'.
Proof.
  intros Hs Hin. destruct (idx_get ir i) as [a'|] eqn:Hget; [by exists a'|].
  apply (dict_get_None_keys Z.eqb Z_eqb_spec) in Hget. exfalso. apply Hget.
  rewrite Hs. apply list_elem_of_fmap. by exists (a, i).
Qed.

Lemma synced_app (ri Δri : RefMap) (ir Δir : IndexMap) :
  synced ri ir → map fst Δir = map snd Δri → synced (ri ++ Δri) (ir ++ Δir).
Proof. unfold synced. intros H1 H2. by rewrite !map_app, H1, H2. Qed.

Lemma idx_get_snoc (ir Δir : IndexMap) i a :
  idx_get ir i = None → idx_get (ir ++ (i, a) :: Δir) i = Some a.
Proof.
  intros H. unfold idx_get in *. rewrite dict_get_app_None by done.
  simpl. by rewrite Z.eqb_refl.
Qed.

(** The equations of [_graph_unflatten] without an outer cache. *)
Lemma _graph_unflatten_graph_new E ty index oi attrs md name st :
  idx_get (index_ref st) index = None →
  _graph_unflatten E None (NodeDef ty index oi attrs md) (GraphNodeImpl name) st
  = let node := length (u_heap st) in
    let st1 := UState (u_heap st ++ [create_empty name md]) (u_leaves st)
                      (idx_set (index_ref st) index node) in
    let* (children, st2) :=
      unflatten_attrs E None (_graph_unflatten E None) attrs st1 in
    match u_heap st2 !! node with
    | None => Err InvalidObject
    | Some o =>
        let* o' := init o children in
        Ok (VRef node,
            UState (<[node := o']> (u_heap st2)) (u_leaves st2) (index_ref st2))
    end.
Proof. intros H. simpl. unfold dict_mem. fold (idx_get (index_ref st) index). by rewrite H. Qed.

Lemma _graph_unflatten_pytree E ty index oi attrs md pty st :
  idx_get (index_ref st) index = None →
  _graph_unflatten E None (NodeDef ty index oi attrs md) (PytreeNodeImpl pty) st
  = let* (children, st2) :=
      unflatten_attrs E None (_graph_unflatten E None) attrs st in
    let* node := pytree_unflatten pty children md in
    Ok (node, st2).
Proof. intros H. simpl. unfold dict_mem. fold (idx_get (index_ref st) index). by rewrite H. Qed.

Lemma unflatten_attr_NodeDef E ty index oi attrs md impl st :
  get_node_impl_for_type E ty = Some impl →
  unflatten_attr E None (_graph_unflatten E None) (NodeDef ty index oi attrs md) st
  = _graph_unflatten E None (NodeDef ty index oi attrs md) impl st.
Proof. intros H. unfold unflatten_attr. by rewrite H. Qed.

Lemma forallb_keys {A B} (f : key → bool) (l : list (key * A)) (l' : list (key * B)) :
  map fst l' = map fst l →
  forallb (fun kc => f kc.1) l' = forallb (fun kc => f kc.1) l.
Proof.
  revert l'. induction l as [|[k x] l IH]; intros [|[k' x'] l']; simpl; try done.
  intros [= -> H]. by rewrite (IH _ H).
Qed.

Lemma middle_lookup_ne {A} (l t : list A) x y n :
  n ≠ length l → (l ++ x :: t) !! n = (l ++ y :: t) !! n.
Proof.
  intros Hn. destruct (decide (n < length l)%nat) as [Hlt|Hge].
  - by rewrite !lookup_app_l.
  - rewrite !lookup_app_r by lia.
    destruct (n - length l)%nat as [|m] eqn:Hm; [lia|done].
Qed.

Section RoundTrip.
Context (E : PyEnv) (h : heap) (roi : option RefMap).
Hypothesis Hid : identity_keys E.
Hypothesis Hreg : registry_ok E.
Hypothesis Hok : store_ok E h = true.

(** Every object the traversal registered in [Δri] has its copy in the
    store [H], made after the first [lo] cells, with the attributes of the
    original, each replaced by its copy. *)
Definition completed (φ : addr → option addr) (Δri : RefMap) (ir : IndexMap)
    (H : heap) (lo : nat) : Prop :=
  ∀ a i, (a, i) ∈ Δri →
    ∃ a' o o', idx_get ir i = Some a' ∧ (lo ≤ a')%nat
      ∧ h !! a = Some o ∧ H !! a' = Some o' ∧ orel E h φ o o'.

(** What a run of [unflatten] on the descriptor of a run of [flatten]
    leaves: as many new index entries as the run of [flatten] registered
    objects, all of them new cells, and the result [R]. *)
Definition upost (H : heap) (ir : IndexMap) (Δri ri' : RefMap) (hext : heap)
    (Δir : IndexMap) (R : (addr → option addr) → Prop) : Prop :=
  map fst Δir = map snd Δri
  ∧ Forall (fun p => length H ≤ p.2 < length H + length hext)%nat Δir
  ∧ NoDup (map snd Δir)
  ∧ ∀ φ, covers φ ri' (ir ++ Δir) →
         R φ ∧ completed φ Δri (ir ++ Δir) (H ++ hext) (length H).

Lemma upost_nil H ir ri (R : (addr → option addr) → Prop) :
  (∀ φ, covers φ ri ir → R φ) → upost H ir [] ri [] [] R.
Proof.
  intros HR. split; [done|]. split; [constructor|]. split; [constructor|].
  intros φ Hc. rewrite app_nil_r in Hc. split; [by apply HR|].
  intros a i Hin. by apply elem_of_nil in Hin.
Qed.

Lemma upost_mono H ir Δri ri' hext Δir (R R' : (addr → option addr) → Prop) :
  upost H ir Δri ri' hext Δir R → (∀ φ, R φ → R' φ) → upost H ir Δri ri' hext Δir R'.
Proof.
  intros (H1 & H2 & H3 & H4) HR. repeat (split; [done|]).
  intros φ Hc. destruct (H4 φ Hc) as [Hr Hcomp]. split; [by apply HR|done].
Qed.

Lemma completed_mono φ Δri ir Δir H hext lo lo' :
  completed φ Δri ir H lo → (lo' ≤ lo)%nat →
  completed φ Δri (ir ++ Δir) (H ++ hext) lo'.
Proof.
  intros Hc Hlo a i Hin. destruct (Hc a i Hin) as (a' & o & o' & Hi & Hlo' & Ha & Ha' & Hr).
  exists a', o, o'. split; [by apply dict_get_app_Some|]. split; [lia|].
  split; [done|]. split; [|done]. by apply lookup_app_l_Some.
Qed.

Lemma upost_seq H ir Δ1 ri1 hext1 Δir1 Δ2 hext2 Δir2
    (R1 R2 R : (addr → option addr) → Prop) :
  upost H ir Δ1 ri1 hext1 Δir1 R1 →
  upost (H ++ hext1) (ir ++ Δir1) Δ2 (ri1 ++ Δ2) hext2 Δir2 R2 →
  (∀ φ, R1 φ → R2 φ → R φ) →
  upost H ir (Δ1 ++ Δ2) (ri1 ++ Δ2) (hext1 ++ hext2) (Δir1 ++ Δir2) R.
Proof.
  intros (Hk1 & Hr1 & Hn1 & Hp1) (Hk2 & Hr2 & Hn2 & Hp2) HR.
  rewrite length_app in Hr2.
  split; [by rewrite !map_app, Hk1, Hk2|]. split; [|split].
  - apply Forall_app. split.
    + eapply Forall_impl; [exact Hr1|]. intros p Hp. simpl in *.
      rewrite length_app. lia.
    + eapply Forall_impl; [exact Hr2|]. intros p Hp. simpl in *.
      rewrite length_app. lia.
  - rewrite map_app. apply NoDup_app. split; [done|]. split; [|done].
    intros x (p & -> & Hp)%list_elem_of_fmap (q & Heq & Hq)%list_elem_of_fmap.
    rewrite Forall_forall in Hr1, Hr2. apply Hr1 in Hp. apply Hr2 in Hq. lia.
  - intros φ Hc. rewrite app_assoc in Hc.
    destruct (Hp2 φ Hc) as [HR2 Hc2].
    destruct (Hp1 φ (covers_mono _ _ _ _ _ Hc)) as [HR1 Hc1].
    split; [by apply HR|].
    intros a i [Hin|Hin]%elem_of_app.
    + rewrite !app_assoc. by apply (completed_mono φ Δ1 _ _ _ _ (length H)).
    + rewrite !app_assoc.
      destruct (Hc2 a i Hin) as (a' & o & o' & Hi & Hlo' & Ha & Ha' & Hr).
      exists a', o, o'. rewrite length_app in Hlo'. repeat split; try done. lia.
Qed.

(** A run of [flatten]'s loop body from [st] to [st'] that gave [gd], and
    what [unflatten] does on [gd] with the leaves of that run first in the
    queue. *)
Definition sim (v : value) (st : fstate) (gd : graphdef) (st' : fstate) : Prop :=
  ∃ Δri Δl,
    ref_index st' = ref_index st ++ Δri
    ∧ leaves st' = leaves st ++ Δl
    ∧ ri_ok h (ref_index st')
    ∧ ∀ H rest ir, synced (ref_index st) ir →
        ∃ v' hext Δir,
          unflatten_attr E None (_graph_unflatten E None) gd (UState H (Δl ++ rest) ir)
          = Ok (v', UState (H ++ hext) rest (ir ++ Δir))
          ∧ upost H ir Δri (ref_index st') hext Δir (fun φ => vrel E h φ v v').

Definition sims (values : list (key * value)) (st : fstate)
    (ds : list (key * graphdef)) (st' : fstate) : Prop :=
  ∃ Δri Δl,
    ref_index st' = ref_index st ++ Δri
    ∧ leaves st' = leaves st ++ Δl
    ∧ ri_ok h (ref_index st')
    ∧ ∀ H rest ir, synced (ref_index st) ir →
        ∃ vs' hext Δir,
          unflatten_attrs E None (_graph_unflatten E None) ds (UState H (Δl ++ rest) ir)
          = Ok (vs', UState (H ++ hext) rest (ir ++ Δir))
          ∧ map fst vs' = map fst values
          ∧ upost H ir Δri (ref_index st') hext Δir
              (fun φ => Forall2 (vrel E h φ) (map snd values) (map snd vs')).

Definition rec_sim
    (rec : value → NodeImpl → option (list key) → fstate → result (graphdef * fstate))
  : Prop :=
  ∀ v impl path st gd st',
    get_node_impl E h v = Ok (Some impl) → value_ok E v = true →
    ri_ok h (ref_index st) →
    rec v impl path st = Ok (gd, st') → sim v st gd st'.

Lemma sim_static v st :
  get_node_impl E h v = Ok None →
  (∀ a, v = VRef a → ∃ ty attrs aux, h !! a = Some (ONode ty attrs aux)) →
  ri_ok h (ref_index st) →
  sim v st (Static v) st.
Proof.
  intros Himpl Hobj Hri. exists [], []. rewrite !app_nil_r. repeat (split; [done|]).
  intros H rest ir Hs. exists v, [], []. rewrite !app_nil_r. split; [done|].
  apply upost_nil. intros φ _. by apply vrel_static.
Qed.

Lemma sim_seen a st ty i :
  ref_get E h (ref_index st) a = Some i → ri_ok h (ref_index st) →
  sim (VRef a) st (NodeRef ty i) st.
Proof.
  intros Hget Hri. apply (ref_get_Some_in E h _ _ _ Hid) in Hget.
  exists [], []. rewrite !app_nil_r. repeat (split; [done|]).
  intros H rest ir Hs. destruct (synced_present _ _ _ _ Hs Hget) as [a' Ha'].
  exists (VRef a'), [], []. rewrite !app_nil_r. split.
  { simpl. by rewrite Ha'. }
  apply upost_nil. intros φ Hc. apply vrel_ref. by apply (Hc a i a').
Qed.

Lemma flatten_attr_sim rec path k v st d st' :
  rec_sim rec → ri_ok h (ref_index st) → value_ok E v = true →
  flatten_attr E h roi false rec path k v st = Ok (d, st') →
  sim v st d st'.
Proof.
  intros Hrec Hri Hv. unfold flatten_attr.
  destruct (get_node_impl E h v) as [[impl|]|e] eqn:Himpl; simpl; [| |done].
  { by apply Hrec. }
  destruct v as [s|data|a|ty items aux]; try done.
  - intros [= <- <-]. by apply sim_static.
  - destruct (h !! a) as [[ty attrs aux|ty raw md]|] eqn:Ha; [| |done].
    { intros [= <- <-]. apply sim_static; try done.
      intros ? [= <-]. eauto. }
    destruct (ref_get E h (ref_index st) a) as [i|] eqn:Hget.
    { intros [= <- <-]. by apply sim_seen. }
    intros H. apply bind_ok in H as (ps & _ & H). injection H as <- <-. simpl.
    destruct (ri_ok_snoc E h (ref_index st) a Hri Hget) as [Hset Hok1].
    { by apply lookup_lt_Some in Ha. }
    rewrite Hset.
    eexists [_], [_]. simpl. repeat (split; [done|]).
    intros H rest ir Hs.
    pose proof (synced_absent h _ _ Hri Hs) as Habs.
    exists (VRef (length H)), [OVar ty raw md],
           [(Z.of_nat (length (ref_index st)), length H)].
    split.
    { unfold idx_set. rewrite (dict_set_absent _ _ _ _ Habs).
      by destruct (option_map _ path). }
    split; [done|]. split; [repeat constructor; simpl; lia|].
    split; [apply NoDup_singleton|].
    intros φ Hc.
    assert (idx_get (ir ++ [(Z.of_nat (length (ref_index st)), length H)])
              (Z.of_nat (length (ref_index st))) = Some (length H)) as Hi.
    { by apply idx_get_snoc. }
    split.
    + apply vrel_ref. apply (Hc a (Z.of_nat (length (ref_index st)))); [|done].
      apply elem_of_app. right. by left.
    + intros b j Hin. apply list_elem_of_singleton in Hin. injection Hin as -> ->.
      exists (length H), (OVar ty raw md), (OVar ty raw md).
      repeat split; try done. by apply snoc_lookup_last.
  - intros [= <- <-]. by apply sim_static.
Qed.

Lemma flatten_attrs_sim rec path values st ds st' :
  rec_sim rec → ri_ok h (ref_index st) → values_ok E values = true →
  flatten_attrs E h roi false rec path values st = Ok (ds, st') →
  sims values st ds st'.
Proof.
  intros Hrec. revert st ds st'.
  induction values as [|[k v] values IH]; intros st ds st' Hri Hvs; simpl.
  - intros [= <- <-]. exists [], []. rewrite !app_nil_r. repeat (split; [done|]).
    intros H rest ir Hs. exists [], [], []. rewrite !app_nil_r.
    split; [done|]. split; [done|]. apply upost_nil. intros φ _. constructor.
  - simpl in Hvs. apply andb_true_iff in Hvs as [Hv Hvs].
    intros H. apply bind_ok in H as ([d st1] & Hx & H).
    apply bind_ok in H as ([ds' st2] & Hx0 & H). injection H as <- <-.
    apply flatten_attr_sim in Hx as (Δ1 & Δl1 & Hri1 & Hl1 & Hok1 & Hsim1); [|done..].
    apply IH in Hx0 as (Δ2 & Δl2 & Hri2 & Hl2 & Hok2 & Hsim2); [|done..].
    exists (Δ1 ++ Δ2), (Δl1 ++ Δl2).
    split; [by rewrite Hri2, Hri1, app_assoc|].
    split; [by rewrite Hl2, Hl1, app_assoc|].
    split; [done|].
    intros H rest ir Hs.
    destruct (Hsim1 H (Δl2 ++ rest) ir Hs) as (v' & hext1 & Δir1 & Hrun1 & Hp1).
    assert (synced (ref_index st1) (ir ++ Δir1)) as Hs1.
    { rewrite Hri1. apply synced_app; [done|]. by destruct Hp1. }
    destruct (Hsim2 (H ++ hext1) rest (ir ++ Δir1) Hs1)
      as (vs' & hext2 & Δir2 & Hrun2 & Hk2 & Hp2).
    exists ((k, v') :: vs'), (hext1 ++ hext2), (Δir1 ++ Δir2).
    split; [|split].
    + simpl. rewrite <- app_assoc, Hrun1. simpl. rewrite Hrun2. simpl.
      by rewrite !app_assoc.
    + simpl. by rewrite Hk2.
    + rewrite Hri2, Hri1 in *. rewrite <- app_assoc.
      rewrite <- app_assoc in Hp2.
      replace (ref_index st ++ Δ1 ++ Δ2) with ((ref_index st ++ Δ1) ++ Δ2) in *
        by by rewrite app_assoc.
      eapply upost_seq; [exact Hp1|exact Hp2|].
      intros φ Hv' Hvs'. simpl. by constructor.
Qed.
End RoundTrip.

Lemma _graph_flatten_sim E h roi fuel :
  identity_keys E → registry_ok E → store_ok E h = true →
  rec_sim E h (_graph_flatten E fuel h roi false).
Proof.
  intros Hid Hreg Hok. induction fuel as [|fuel IH];
    intros v impl path st gd st' Himpl Hv Hri; [done|].
  destruct impl as [ty|pty].
  - destruct v as [s|data|a|ty' items aux]; try done.
    destruct (ref_get E h (ref_index st) a) as [i|] eqn:Hget.
    { rewrite (_graph_flatten_seen _ _ _ _ _ _ _ _ _ _ Hget).
      intros H. apply bind_ok in H as (node_ty & _ & [= <- <-]).
      by apply sim_seen. }
    rewrite (_graph_flatten_new _ _ _ _ _ _ _ _ _ Hget). cbn zeta.
    intros H. apply bind_ok in H as ([values md] & Hfl & H).
    apply bind_ok in H as ([attributes st2] & Hloop & [= <- <-]).
    destruct (ri_ok_snoc E h (ref_index st) a Hri Hget) as [Hset Hok1].
    { by apply get_node_impl_ref_lt in Himpl. }
    rewrite Hset in Hloop.
    assert (h !! a = Some (ONode ty values md)
            ∧ GRAPH_REGISTRY E ty = true) as [Ha HG].
    { unfold node_flatten in Hfl. unfold get_node_impl in Himpl.
      destruct (h !! a) as [[ty0 attrs aux|]|] eqn:Ha; try done.
      injection Hfl as <- <-. injection Himpl as Himpl.
      apply lookup_impl_graph in Himpl as [-> HG]. done. }
    destruct (store_ok_node E h a ty values md Hok Ha) as [Hnd Hvs].
    apply (flatten_attrs_sim E h roi Hid) in Hloop
      as (Δ2 & Δl & Hri2 & Hl2 & Hok2 & Hsim2); [|done..].
    simpl in Hri2, Hl2.
    set (n := Z.of_nat (length (ref_index st))) in *.
    exists ((a, n) :: Δ2), Δl.
    split; [by rewrite Hri2, <- app_assoc|]. split; [done|]. split; [done|].
    intros H rest ir Hs.
    pose proof (synced_absent h _ _ Hri Hs) as Habs. fold n in Habs.
    assert (synced (ref_index st ++ [(a, n)]) (ir ++ [(n, length H)])) as Hs1.
    { by apply synced_app. }
    destruct (Hsim2 (H ++ [ONode ty [] md]) rest (ir ++ [(n, length H)]) Hs1)
      as (vs' & hext & Δir & Hrun & Hk & Hp).
    exists (VRef (length H)), (ONode ty vs' md :: hext), ((n, length H) :: Δir).
    split.
    { rewrite (unflatten_attr_NodeDef E _ _ _ _ _ (GraphNodeImpl ty)).
      2: { apply get_node_impl_for_type_graph; [done|by apply Hreg]. }
      rewrite _graph_unflatten_graph_new by done. cbn zeta. simpl.
      unfold idx_set. rewrite (dict_set_absent _ _ _ _ Habs).
      unfold create_empty. change (dict_len (ref_index st)) with n.
      rewrite Hrun. simpl.
      rewrite <- app_assoc. simpl. rewrite list_lookup_middle by done. simpl.
      rewrite (dict_update_rebuild key_eqb key_eqb_spec [] vs').
      2: { simpl. by rewrite Hk. }
      simpl.
      replace (length H) with (length H + 0)%nat at 2 by lia.
      rewrite insert_app_r. simpl. by rewrite <- app_assoc. }
    destruct Hp as (Hk1 & Hr1 & Hn1 & Hp1). rewrite length_app in Hr1. simpl in Hr1.
    split; [simpl; by rewrite Hk1|]. split; [|split].
    + constructor; [simpl; lia|].
      eapply Forall_impl; [exact Hr1|]. intros p Hp. simpl in *. lia.
    + simpl. constructor; [|done].
      intros (p & Heq & Hp)%list_elem_of_fmap.
      rewrite Forall_forall in Hr1. apply Hr1 in Hp. lia.
    + intros φ Hc. rewrite Hri2 in Hc.
      replace (ir ++ (n, length H) :: Δir) with ((ir ++ [(n, length H)]) ++ Δir) in *
        by by rewrite <- app_assoc.
      rewrite Hri2 in Hp1.
      destruct (Hp1 φ Hc) as [Hvs' Hcomp].
      assert (idx_get ((ir ++ [(n, length H)]) ++ Δir) n = Some (length H)) as Hi.
      { rewrite <- app_assoc. by apply idx_get_snoc. }
      split.
      * apply vrel_ref. apply (Hc a n); [|done].
        apply elem_of_app. left. apply elem_of_app. right. by left.
      * intros b j [Heq|Hin]%elem_of_cons.
        -- injection Heq as -> ->.
           exists (length H), (ONode ty values md), (ONode ty vs' md).
           repeat split; try done; [by apply list_lookup_middle|].
           by exists vs'.
        -- destruct (Hcomp b j Hin) as (a' & o & o' & Hj & Hlo & Hb & Hb' & Hrel).
           rewrite length_app in Hlo. simpl in Hlo.
           exists a', o, o'. repeat split; try done; [lia|].
           rewrite <- app_assoc in Hb'. simpl in Hb'.
           rewrite <- Hb'. apply middle_lookup_ne. lia.
  - rewrite _graph_flatten_pytree.
    destruct v as [s|data|a|ty' items aux]; try done.
    { by destruct (heap_by_value_not_pytree E h (store_ok_by_value E h Hok) a pty). }
    change (node_flatten h (VTree ty' items aux)) with (Ok (A:=_) (items, aux)). simpl.
    intros H. apply bind_ok in H as ([attributes st2] & Hloop & [= <- <-]).
    assert (lookup_impl E ty' = Some (PytreeNodeImpl pty)) as Hl.
    { unfold get_node_impl in Himpl. by injection Himpl. }
    destruct (value_ok_VTree E ty' items aux Hv) as [Hvs Hgen].
    apply (flatten_attrs_sim E h roi Hid) in Hloop
      as (Δ2 & Δl & Hri2 & Hl2 & Hok2 & Hsim2); [|done..].
    exists Δ2, Δl. repeat (split; [done|]).
    intros H rest ir Hs.
    destruct (Hsim2 H rest ir Hs) as (vs' & hext & Δir & Hrun & Hk & Hp).
    exists (VTree ty' vs' aux), hext, Δir. split.
    { rewrite (unflatten_attr_NodeDef E _ _ _ _ _ (PytreeNodeImpl pty)).
      2: { apply (lookup_impl_for_type E ty' _ Hreg Hl). }
      rewrite _graph_unflatten_pytree by exact (synced_no_pytree_index h _ _ Hri Hs).
      rewrite Hrun. simpl.
      destruct (lookup_impl_pytree E ty' pty Hl) as [->| ->]; simpl; [done|].
      destruct (Hgen Hl) as (ki & -> & Hks).
      by rewrite (forallb_keys (dict_mem key_eqb ki) items vs' Hk), Hks. }
    eapply upost_mono; [exact Hp|]. intros φ HF. by eapply vrel_tree.
Qed.

Lemma _graph_flatten_desc E fuel h roi rv v impl path st gd st' :
  _graph_flatten E fuel h roi rv v impl path st = Ok (gd, st') →
  match gd with NodeDef _ _ _ _ _ | NodeRef _ _ => True | _ => False end.
Proof.
  destruct fuel as [|fuel]; [done|]. destruct impl as [ty|pty].
  - destruct v as [s|data|a|ty' items aux]; try done.
    destruct (ref_get E h (ref_index st) a) as [i|] eqn:Hget.
    + rewrite (_graph_flatten_seen _ _ _ _ _ _ _ _ _ _ Hget).
      intros H. by apply bind_ok in H as (node_ty & _ & [= <- <-]).
    + rewrite (_graph_flatten_new _ _ _ _ _ _ _ _ _ Hget). cbn zeta.
      intros H. apply bind_ok in H as ([values md] & Hfl & H).
      by apply bind_ok in H as ([attributes st2] & Hloop & [= <- <-]).
  - rewrite _graph_flatten_pytree.
    intros H. apply bind_ok in H as ([values md] & Hfl & H).
    by apply bind_ok in H as ([attributes st2] & Hloop & [= <- <-]).
Qed.

Lemma unflatten_top_attr E gd st r :
  match gd with NodeDef _ _ _ _ _ | NodeRef _ _ => True | _ => False end →
  unflatten_attr E None (_graph_unflatten E None) gd st = Ok r →
  unflatten_top E None gd st = Ok r.
Proof.
  destruct gd as [ty i oi attrs md|ty i|ty i oi md|v]; simpl; try done.
  by destruct (get_node_impl_for_type E ty).
Qed.

(** The copy [unflatten] made of an object [flatten] met: the object
    [index_ref] has at the index [ref_index] has for it. *)
Definition copy_of (ri : RefMap) (ir : IndexMap) (a : addr) : option addr :=
  match dict_get Nat.eqb ri a with
  | Some i => idx_get ir i
  | None => None
  end.

Lemma Nat_eqb_spec (a b : nat) : (a =? b)%nat = true ↔ a = b.
Proof. apply Nat.eqb_eq. Qed.

Lemma copy_of_covers h ri ir : ri_ok h ri → covers (copy_of ri ir) ri ir.
Proof.
  intros (_ & Hnd & _) a i a' Hin Hget. unfold copy_of.
  by rewrite (dict_get_in_NoDup Nat.eqb ri a i Nat_eqb_spec Hnd Hin).
Qed.

Lemma copy_of_inv ri ir a a' :
  copy_of ri ir a = Some a' → ∃ i, (a, i) ∈ ri ∧ idx_get ir i = Some a'.
Proof.
  unfold copy_of. destruct (dict_get Nat.eqb ri a) as [i|] eqn:Hi; [|done].
  intros H. exists i. split; [|done]. by apply (dict_get_Some_in Nat.eqb _ _ _ Nat_eqb_spec).
Qed.

Lemma NoDup_snd_inj {A B} (l : list (A * B)) x y b :
  NoDup (map snd l) → (x, b) ∈ l → (y, b) ∈ l → x = y.
Proof.
  induction l as [|[k j] l IH]; simpl.
  - intros _ H. by apply elem_of_nil in H.
  - intros [Hj Hnd]%NoDup_cons Hx Hy.
    apply elem_of_cons in Hx as [Hx|Hx]; apply elem_of_cons in Hy as [Hy|Hy].
    + congruence.
    + injection Hx as -> ->. exfalso. apply Hj. apply list_elem_of_fmap. by exists (y, j).
    + injection Hy as -> ->. exfalso. apply Hj. apply list_elem_of_fmap. by exists (x, j).
    + by apply IH.
Qed.

(** What a round trip leaves: the store grew by the copies; every object
    met has a copy that is a new cell, with the attributes of the original,
    each replaced by its copy; and no two objects share a copy. *)
Definition copies (E : PyEnv) (h : heap) (φ : addr → option addr) (h' : heap) : Prop :=
  (∃ hext, h' = h ++ hext)
  ∧ (∀ a a', φ a = Some a' →
       (length h ≤ a')%nat
       ∧ ∃ o o', h !! a = Some o ∧ h' !! a' = Some o' ∧ orel E h φ o o')
  ∧ (∀ a b a', φ a = Some a' → φ b = Some a' → a = b).

Lemma flatten_unflatten E fuel h node with_paths roi gd fs ri :
  identity_keys E → registry_ok E → store_ok E h = true → value_ok E node = true →
  flatten E fuel h node with_paths false None roi = Ok (gd, fs, ri) →
  ∃ node' h' ir,
    unflatten E h gd (Flat fs) None None = Ok (node', h', ir)
    ∧ ri_ok h ri ∧ synced ri ir
    ∧ copies E h (copy_of ri ir) h'
    ∧ vrel E h (copy_of ri ir) node node'.
Proof.
  intros Hid Hreg Hok Hv H. unfold flatten in H.
  apply bind_ok in H as (oimpl & Himpl & H).
  destruct oimpl as [impl|]; [|done].
  apply bind_ok in H as ([gd' st] & Hrun & H).
  pose proof (_graph_flatten_desc _ _ _ _ _ _ _ _ _ _ _ Hrun) as Hdesc.
  apply (_graph_flatten_sim E h roi fuel Hid Hreg Hok) in Hrun
    as (Δri & Δl & Hri & Hl & Hok' & Hsim); [|done|done|apply ri_ok_nil].
  simpl in Hri, Hl.
  assert (gd' = gd ∧ ref_index st = ri
          ∧ leaves_of_state (Flat fs) = Ok (leaves st)) as (-> & <- & Hls).
  { destruct (paths st); by injection H as <- <- <-. }
  destruct (Hsim h [] [] eq_refl) as (node' & hext & Δir & Hu & Hk & Hr & Hn & Hp).
  rewrite app_nil_r in Hu. simpl in Hu, Hp.
  exists node', (h ++ hext), Δir. split.
  { rewrite unflatten_unfold, Hls. simpl. rewrite Hl.
    by rewrite (unflatten_top_attr _ _ _ _ Hdesc Hu). }
  split; [done|]. split; [by unfold synced; rewrite Hri, Hk|].
  destruct (Hp (copy_of (ref_index st) Δir) (copy_of_covers h _ _ Hok')) as [Hrel Hcomp].
  split; [|done]. split; [by exists hext|]. split.
  - intros a a' (i & Hin & Hi)%copy_of_inv. rewrite Hri in Hin.
    destruct (Hcomp a i Hin) as (a'' & o & o' & Hi' & Hlo & Ha & Ha' & Ho).
    assert (a'' = a') as -> by congruence.
    split; [done|]. by exists o, o'.
  - intros a b a' (i & Hin & Hi)%copy_of_inv (j & Hjn & Hj)%copy_of_inv.
    apply (dict_get_Some_in Z.eqb _ _ _ Z_eqb_spec) in Hi, Hj.
    pose proof (NoDup_snd_inj _ _ _ _ Hn Hi Hj) as ->.
    by eapply ri_ok_index_inj.
Qed.

Lemma pairs_lookup {A B} (R : A → B → Prop) (l : list (key * A)) (l' : list (key * B))
    n k c :
  map fst l' = map fst l → Forall2 R (map snd l) (map snd l') →
  l !! n = Some (k, c) → ∃ c', l' !! n = Some (k, c') ∧ R c c'.
Proof.
  revert l' n. induction l as [|[k0 c0] l IH]; intros [|[k1 c1] l'] n; simpl; try done.
  intros [= -> Hk] HF. apply Forall2_cons in HF as [Hc HF].
  destruct n as [|n]; simpl.
  - intros [= -> ->]. by exists c1.
  - by apply IH.
Qed.

Lemma pairs_lookup_r {A B} (R : A → B → Prop) (l : list (key * A)) (l' : list (key * B))
    n k c' :
  map fst l' = map fst l → Forall2 R (map snd l) (map snd l') →
  l' !! n = Some (k, c') → ∃ c, l !! n = Some (k, c) ∧ R c c'.
Proof.
  revert l' n. induction l as [|[k0 c0] l IH]; intros [|[k1 c1] l'] n; simpl; try done.
  intros [= -> Hk] HF. apply Forall2_cons in HF as [Hc HF].
  destruct n as [|n]; simpl.
  - intros [= -> ->]. by exists c0.
  - by apply IH.
Qed.

Lemma pairs_map {A B C} (f : A → C) (g : B → C) (l : list (key * A)) (l' : list (key * B)) :
  map fst l' = map fst l → Forall2 (fun c c' => f c = g c') (map snd l) (map snd l') →
  map (fun kc => (kc.1, f kc.2)) l = map (fun kc => (kc.1, g kc.2)) l'.
Proof.
  revert l'. induction l as [|[k0 c0] l IH]; intros [|[k1 c1] l']; simpl; try done.
  intros [= -> Hk] HF. apply Forall2_cons in HF as [Hc HF]. simpl in Hc.
  by rewrite Hc, (IH l').
Qed.

Section Copies.
Context (E : PyEnv) (h : heap) (φ : addr → option addr) (h' : heap).
Hypothesis Hcopies : copies E h φ h'.

Lemma copies_old a o : h !! a = Some o → h' !! a = Some o.
Proof. destruct Hcopies as ([hext ->] & _ & _). apply lookup_app_l_Some. Qed.

Lemma vrel_static_impl v :
  get_node_impl E h v = Ok None →
  (∀ a, v = VRef a → ∃ ty attrs aux, h !! a = Some (ONode ty attrs aux)) →
  get_node_impl E h' v = Ok None.
Proof.
  intros Himpl Hobj. destruct v as [s|data|a|ty items aux]; try done.
  destruct (Hobj a eq_refl) as (ty & attrs & aux & Ha).
  unfold get_node_impl in *. by rewrite (copies_old _ _ Ha), Ha in *.
Qed.

Lemma vrel_unfold depth :
  ∀ v v', vrel E h φ v v' → unfold_graph E h depth v = unfold_graph E h' depth v'.
Proof.
  induction depth as [|depth IH]; intros v v' Hrel; [done|].
  inversion Hrel as [v0 Himpl Hobj|a a' Hφ|ty pty items items' aux Hl Hk HF]; subst.
  - destruct v' as [s|data|a|ty items aux]; try done.
    + destruct (Hobj a eq_refl) as (ty & attrs & aux & Ha). simpl.
      rewrite (copies_old _ _ Ha), Ha. unfold get_node_impl in Himpl.
      rewrite Ha in Himpl. injection Himpl as ->. done.
    + unfold get_node_impl in Himpl. injection Himpl as Himpl. simpl. by rewrite Himpl.
  - destruct Hcopies as (_ & Hc & _).
    destruct (Hc a a' Hφ) as (_ & o & o' & Ha & Ha' & Ho). simpl. rewrite Ha, Ha'.
    destruct o as [ty attrs aux|ty raw md]; simpl in Ho; [|by subst].
    destruct Ho as (HG & attrs' & -> & Hk & HF).
    destruct (lookup_impl E ty) eqn:Hl.
    + f_equal. apply pairs_map; [done|].
      eapply Forall2_impl; [exact HF|]. intros c c' Hcc. by apply IH.
    + unfold lookup_impl in Hl. by rewrite HG in Hl.
  - simpl. rewrite Hl. f_equal. apply pairs_map; [done|].
    eapply Forall2_impl; [exact HF|]. intros c c' Hcc. by apply IH.
Qed.

(** A walk in the graph is a walk in its copy. *)
Lemma vrel_step v v' impl items md n k c :
  vrel E h φ v v' →
  get_node_impl E h v = Ok (Some impl) → node_flatten h v = Ok (items, md) →
  items !! n = Some (k, c) →
  ∃ items' c', get_node_impl E h' v' = Ok (Some impl)
    ∧ node_flatten h' v' = Ok (items', md)
    ∧ items' !! n = Some (k, c') ∧ vrel E h φ c c'.
Proof.
  intros Hrel Himpl Hfl Hn.
  inversion Hrel as [v0 Himpl0 Hobj|a a' Hφ|ty pty items0 items' aux Hl Hk HF]; subst.
  - congruence.
  - destruct Hcopies as (_ & Hc & _).
    destruct (Hc a a' Hφ) as (_ & o & o' & Ha & Ha' & Ho).
    unfold node_flatten, get_node_impl in *. rewrite Ha in Hfl, Himpl. rewrite Ha'.
    destruct o as [ty attrs aux|ty raw md']; [|done].
    injection Hfl as -> ->. destruct Ho as (HG & attrs' & -> & Hk & HF).
    destruct (pairs_lookup _ _ _ _ _ _ Hk HF Hn) as (c' & Hn' & Hcc).
    by exists attrs', c'.
  - unfold node_flatten, get_node_impl in *. injection Hfl as -> ->.
    destruct (pairs_lookup _ _ _ _ _ _ Hk HF Hn) as (c' & Hn' & Hcc).
    by exists items', c'.
Qed.

Lemma vrel_step_back v v' impl items' md n k c' :
  vrel E h φ v v' →
  get_node_impl E h' v' = Ok (Some impl) → node_flatten h' v' = Ok (items', md) →
  items' !! n = Some (k, c') →
  ∃ items c, get_node_impl E h v = Ok (Some impl)
    ∧ node_flatten h v = Ok (items, md)
    ∧ items !! n = Some (k, c) ∧ vrel E h φ c c'.
Proof.
  intros Hrel Himpl Hfl Hn.
  inversion Hrel as [v0 Himpl0 Hobj|a a' Hφ|ty pty items0 items1 aux Hl Hk HF]; subst.
  - rewrite (vrel_static_impl _ Himpl0 Hobj) in Himpl. done.
  - destruct Hcopies as (_ & Hc & _).
    destruct (Hc a a' Hφ) as (_ & o & o' & Ha & Ha' & Ho).
    unfold node_flatten, get_node_impl in *. rewrite Ha' in Hfl, Himpl. rewrite Ha.
    destruct o as [ty attrs aux|ty raw md']; simpl in Ho; [|by subst].
    destruct Ho as (HG & attrs' & -> & Hk & HF). injection Hfl as -> ->.
    destruct (pairs_lookup_r _ _ _ _ _ _ Hk HF Hn) as (c & Hn' & Hcc).
    by exists attrs, c.
  - unfold node_flatten, get_node_impl in *. injection Hfl as -> ->.
    destruct (pairs_lookup_r _ _ _ _ _ _ Hk HF Hn) as (c & Hn' & Hcc).
    by exists items0, c.
Qed.

Lemma reaches_copy v ns w :
  reaches_pos E h v ns w →
  ∀ v', vrel E h φ v v' → ∃ w', reaches_pos E h' v' ns w' ∧ vrel E h φ w w'.
Proof.
  induction 1 as [v|v impl items md n k c ns w Himpl Hfl Hn Hr IH]; intros v' Hrel.
  - exists v'. split; [constructor|done].
  - destruct (vrel_step _ _ _ _ _ _ _ _ Hrel Himpl Hfl Hn)
      as (items' & c' & Himpl' & Hfl' & Hn' & Hcc).
    destruct (IH c' Hcc) as (w' & Hr' & Hww).
    exists w'. split; [|done]. by eapply reaches_pos_step.
Qed.

Lemma reaches_original v' ns w' :
  reaches_pos E h' v' ns w' →
  ∀ v, vrel E h φ v v' → ∃ w, reaches_pos E h v ns w ∧ vrel E h φ w w'.
Proof.
  induction 1 as [v'|v' impl items' md n k c' ns w' Himpl Hfl Hn Hr IH]; intros v Hrel.
  - exists v. split; [constructor|done].
  - destruct (vrel_step_back _ _ _ _ _ _ _ _ Hrel Himpl Hfl Hn)
      as (items & c & Himpl' & Hfl' & Hn' & Hcc).
    destruct (IH c Hcc) as (w & Hr' & Hww).
    exists w. split; [|done]. by eapply reaches_pos_step.
Qed.

(** The copy of a Variable is a new object, with the contents of the
    original. *)
Lemma vrel_variable w a' ty raw md :
  vrel E h φ w (VRef a') → h' !! a' = Some (OVar ty raw md) →
  ∃ a, w = VRef a ∧ h !! a = Some (OVar ty raw md) ∧ h !! a' = None.
Proof.
  intros Hrel Ha'.
  inversion Hrel as [v0 Himpl Hobj|a a0 Hφ|]; subst.
  - destruct (Hobj a' eq_refl) as (ty0 & attrs & aux & Ha).
    rewrite (copies_old _ _ Ha) in Ha'. done.
  - destruct Hcopies as (_ & Hc & _).
    destruct (Hc a a' Hφ) as (Hlo & o & o' & Ha & Ha'' & Ho).
    exists a. split; [done|]. rewrite Ha' in Ha''. injection Ha'' as <-.
    split; [|by apply lookup_ge_None].
    destruct o as [ty0 attrs aux|ty0 raw0 md0]; simpl in Ho.
    + by destruct Ho as (_ & attrs' & ? & _).
    + by rewrite Ha, <- Ho.
Qed.

(** An object has one copy. *)
Lemma vrel_ref_fun a w1 w2 :
  vrel E h φ (VRef a) w1 → vrel E h φ (VRef a) w2 → w1 = w2.
Proof.
  intros H1 H2.
  inversion H1 as [v1 Himpl1 Hobj1|a1 a1' Hφ1|]; subst;
    inversion H2 as [v2 Himpl2 Hobj2|a2 a2' Hφ2|]; subst; try done.
  - exfalso. destruct Hcopies as (_ & Hc & _).
    destruct (Hc a a2' Hφ2) as (_ & o & o' & Ha & _ & Ho).
    destruct (Hobj1 a eq_refl) as (ty & attrs & aux & Ha0).
    rewrite Ha0 in Ha. injection Ha as <-. destruct Ho as (HG & _).
    unfold get_node_impl in Himpl1. rewrite Ha0 in Himpl1.
    unfold lookup_impl in Himpl1. by rewrite HG in Himpl1.
  - exfalso. destruct Hcopies as (_ & Hc & _).
    destruct (Hc a a1' Hφ1) as (_ & o & o' & Ha & _ & Ho).
    destruct (Hobj2 a eq_refl) as (ty & attrs & aux & Ha0).
    rewrite Ha0 in Ha. injection Ha as <-. destruct Ho as (HG & _).
    unfold get_node_impl in Himpl2. rewrite Ha0 in Himpl2.
    unfold lookup_impl in Himpl2. by rewrite HG in Himpl2.
  - congruence.
Qed.
End Copies.

Lemma reaches_pos_fun E h v ns w1 w2 :
  reaches_pos E h v ns w1 → reaches_pos E h v ns w2 → w1 = w2.
Proof.
  intros H1. revert w2.
  induction H1 as [v|v impl items md n k c ns w Himpl Hfl Hn Hr IH]; intros w2 H2.
  - by inversion H2.
  - inversion H2 as [|v0 impl0 items0 md0 n0 k0 c0 ns0 w0 Himpl0 Hfl0 Hn0 Hr0]; subst.
    rewrite Hfl in Hfl0. injection Hfl0 as <- <-.
    rewrite Hn in Hn0. injection Hn0 as <- <-. by apply IH.
Qed.

Lemma vrel_ref_cases E h φ a w :
  vrel E h φ (VRef a) w →
  (w = VRef a ∧ get_node_impl E h (VRef a) = Ok None
   ∧ ∃ ty attrs aux, h !! a = Some (ONode ty attrs aux))
  ∨ (∃ a', w = VRef a' ∧ φ a = Some a').
Proof.
  intros H. inversion H as [v Himpl Hobj|b a' Hφ|]; subst.
  - left. split; [done|]. split; [done|]. by apply Hobj.
  - right. by exists a'.
Qed.

Lemma vrel_ref_inj E h φ h' a1 a2 w :
  copies E h φ h' →
  vrel E h φ (VRef a1) w → vrel E h φ (VRef a2) w → a1 = a2.
Proof.
  intros (_ & Hc & Hinj) H1 H2.
  apply vrel_ref_cases in H1 as [(-> & _ & ty & attrs & aux & Ha)|(a1' & -> & Hφ1)];
    apply vrel_ref_cases in H2
      as [(Heq & _ & ty2 & attrs2 & aux2 & Ha2)|(a2' & Heq & Hφ2)].
  - congruence.
  - exfalso. injection Heq as <-.
    destruct (Hc a2 a1 Hφ2) as (Hlo & _). apply lookup_lt_Some in Ha. lia.
  - exfalso. injection Heq as ->.
    destruct (Hc a1 a2 Hφ1) as (Hlo & _). apply lookup_lt_Some in Ha2. lia.
  - injection Heq as <-. by eapply Hinj.
Qed.

(** C2. For every graph [g] (acyclic or not) of a store in which objects
    hash by identity, [unflatten] applied to the descriptor and the leaves
    that [flatten g] returns, without an outer cache, returns a graph that
    is structurally equal to [g]: the two unfold to the same tree, to any
    depth. Every Variable reachable from the result is an object that was
    not in the store before, it stands where a Variable of [g] with the
    same contents stood, and two Variables of [g] never share a copy. *)
Theorem round_trip_identity E fuel h g with_paths roi gd fs ri :
  identity_keys E → registry_ok E → store_ok E h = true → value_ok E g = true →
  flatten E fuel h g with_paths false None roi = Ok (gd, fs, ri) →
  ∃ g' h' ir,
    unflatten E h gd (Flat fs) None None = Ok (g', h', ir)
    ∧ structurally_equal E h g h' g'
    ∧ (∀ ns a' ty raw md,
         reaches_pos E h' g' ns (VRef a') → h' !! a' = Some (OVar ty raw md) →
         h !! a' = None
         ∧ ∃ a, reaches_pos E h g ns (VRef a) ∧ h !! a = Some (OVar ty raw md))
    ∧ (∀ ns1 ns2 a1 a2 a',
         reaches_pos E h g ns1 (VRef a1) → reaches_pos E h g ns2 (VRef a2) →
         reaches_pos E h' g' ns1 (VRef a') → reaches_pos E h' g' ns2 (VRef a') →
         a1 = a2).
Proof.
  intros Hid Hreg Hok Hv Hfl.
  destruct (flatten_unflatten E fuel h g with_paths roi gd fs ri Hid Hreg Hok Hv Hfl)
    as (g' & h' & ir & Hun & Hri & Hs & Hc & Hrel).
  exists g', h', ir. split; [done|]. split; [|split].
  - intros depth. by eapply vrel_unfold.
  - intros ns a' ty raw md Hr Ha'.
    destruct (reaches_original E h _ h' Hc g' ns (VRef a') Hr g Hrel) as (w & Hr0 & Hw).
    destruct (vrel_variable E h _ h' Hc w a' ty raw md Hw Ha') as (a & -> & Ha & Hnew).
    split; [done|]. by exists a.
  - intros ns1 ns2 a1 a2 a' Hr1 Hr2 Hr1' Hr2'.
    destruct (reaches_copy E h _ h' Hc g ns1 (VRef a1) Hr1 g' Hrel) as (w1 & Hw1 & Hrel1).
    destruct (reaches_copy E h _ h' Hc g ns2 (VRef a2) Hr2 g' Hrel) as (w2 & Hw2 & Hrel2).
    rewrite (reaches_pos_fun _ _ _ _ _ _ Hw1 Hr1') in Hrel1.
    rewrite (reaches_pos_fun _ _ _ _ _ _ Hw2 Hr2') in Hrel2.
    by eapply vrel_ref_inj.
Qed.

Lemma std_env_registry_ok : registry_ok std_env.
Proof.
  intros ty H. simpl in *.
  apply orb_true_iff in H as [H|H]; apply String.eqb_eq in H; by subst.
Qed.

(** A module with a Variable under two names and a list of a second
    Variable and a constant. *)
Definition shared_store : heap :=
  [ONode "Module" [(KStr "bias", VRef 1%nat);
                   (KStr "kernel", VRef 1%nat);
                   (KStr "layers", VTree "list" [(KInt 0, VRef 2%nat);
                                                 (KInt 1, VStatic (SInt 7))] MNone)]
         MNone;
   OVar "Param" (PData 3) [];
   OVar "Param" (PData 4) []].

Lemma round_trip_identity_witness :
  let gd := NodeDef (Cls "Module") 0 None
              [(KStr "bias", VariableDef "Param" 1 None []);
               (KStr "kernel", NodeRef "Param" 1);
               (KStr "layers",
                NodeDef (Cls "list") (-1) None
                  [(KInt 0, VariableDef "Param" 2 None []);
                   (KInt 1, Static (VStatic (SInt 7)))] MNone)] MNone in
  let fs := FlatState [[KStr "bias"]; [KStr "layers"; KInt 0]]
              [VariableState "Param" (PData 3) []; VariableState "Param" (PData 4) []] in
  let g := VRef 0%nat in
  flatten std_env 5 shared_store g true false None None
  = Ok (gd, fs, [(0%nat, 0); (1%nat, 1); (2%nat, 2)])
  ∧ ∃ g' h' ir,
      unflatten std_env shared_store gd (Flat fs) None None = Ok (g', h', ir)
      ∧ structurally_equal std_env shared_store g h' g'
      ∧ (∀ ns a' ty raw md,
           reaches_pos std_env h' g' ns (VRef a') → h' !! a' = Some (OVar ty raw md) →
           shared_store !! a' = None
           ∧ ∃ a, reaches_pos std_env shared_store g ns (VRef a)
                  ∧ shared_store !! a = Some (OVar ty raw md))
      ∧ (∀ ns1 ns2 a1 a2 a',
           reaches_pos std_env shared_store g ns1 (VRef a1) →
           reaches_pos std_env shared_store g ns2 (VRef a2) →
           reaches_pos std_env h' g' ns1 (VRef a') →
           reaches_pos std_env h' g' ns2 (VRef a') →
           a1 = a2).
Proof.
  intros gd fs g. split; [reflexivity|].
  apply (round_trip_identity std_env 5 shared_store g true None gd fs
           [(0%nat, 0); (1%nat, 1); (2%nat, 2)]).
  - exact std_env_identity_keys.
  - exact std_env_registry_ok.
  - reflexivity.
  - reflexivity.
  - reflexivity.
Defined.

(* --------------------------------------------------------------------- *)
(* The shape of a descriptor                                              *)
(* --------------------------------------------------------------------- *)

(** The index a descriptor introduces: that of the NodeDef of a graph node
    or of a VariableDef. A NodeRef carries an index that another
    descriptor introduced. *)
Definition own_index (d : graphdef) : option Z :=
  match d with
  | NodeDef _ i _ _ _ => if i <? 0 then None else Some i
  | VariableDef _ i _ _ => Some i
  | NodeRef _ _ | Static _ => None
  end.

(** What kind of value stands where the descriptor [d] was made. *)
Definition describes (E : PyEnv) (h : heap) (w : value) (d : graphdef) : Prop :=
  match d with
  | NodeDef _ i _ _ _ =>
      ∃ impl, get_node_impl E h w = Ok (Some impl)
              ∧ if is_graph_impl impl then 0 ≤ i ∧ ∃ a, w = VRef a else i = -1
  | NodeRef _ _ => ∃ a, w = VRef a
  | VariableDef _ _ _ _ =>
      ∃ a ty raw md, w = VRef a ∧ h !! a = Some (OVar ty raw md)
  | Static _ => get_node_impl E h w = Ok None
  end.

Lemma gd_at_leaf d p d' :
  (∀ ty i oi attrs md, d ≠ NodeDef ty i oi attrs md) →
  gd_at d p d' → p = [] ∧ d' = d.
Proof.
  intros Hd H. inversion H; subst; [done|]. by destruct (Hd ty i oi attrs md).
Qed.

Lemma gd_at_NodeDef ty i oi attrs md p d :
  gd_at (NodeDef ty i oi attrs md) p d →
  (p = [] ∧ d = NodeDef ty i oi attrs md)
  ∨ (∃ n ns k d0, p = n :: ns ∧ attrs !! n = Some (k, d0) ∧ gd_at d0 ns d).
Proof.
  intros H. inversion H; subst; [by left|]. right. eauto 10.
Qed.

Section FlattenShape.
Context (E : PyEnv) (h : heap) (roi : option RefMap) (rv : bool).

(** The descriptor [gd] of a run from [st] to [st'] on the value [v]: it
    follows the graph position by position; the indices it introduces are
    those the run added to the map, each at one position only. *)
Definition shape_post (v : value) (st : fstate) (gd : graphdef) (st' : fstate) : Prop :=
  (length (ref_index st) ≤ length (ref_index st'))%nat
  ∧ ri_ok h (ref_index st')
  ∧ (∀ p d, gd_at gd p d → ∃ w, reaches_pos E h v p w ∧ describes E h w d)
  ∧ (∀ p d i, gd_at gd p d → own_index d = Some i →
       dict_len (ref_index st) ≤ i < dict_len (ref_index st'))
  ∧ (∀ p q d d' i, gd_at gd p d → gd_at gd q d' →
       own_index d = Some i → own_index d' = Some i → p = q)
  ∧ (∀ a i, (a, i) ∈ ref_index st' →
       (a, i) ∈ ref_index st ∨ ∃ p d, gd_at gd p d ∧ own_index d = Some i).

Definition shape_attrs (values : list (key * value)) (st : fstate)
    (ds : list (key * graphdef)) (st' : fstate) : Prop :=
  (length (ref_index st) ≤ length (ref_index st'))%nat
  ∧ ri_ok h (ref_index st')
  ∧ (∀ n k d0, ds !! n = Some (k, d0) →
       ∃ k' c, values !! n = Some (k', c)
         ∧ ∀ p d, gd_at d0 p d → ∃ w, reaches_pos E h c p w ∧ describes E h w d)
  ∧ (∀ n k d0 p d i, ds !! n = Some (k, d0) → gd_at d0 p d → own_index d = Some i →
       dict_len (ref_index st) ≤ i < dict_len (ref_index st'))
  ∧ (∀ n m k k' d0 d0' p q d d' i,
       ds !! n = Some (k, d0) → ds !! m = Some (k', d0') →
       gd_at d0 p d → gd_at d0' q d' →
       own_index d = Some i → own_index d' = Some i → n = m ∧ p = q)
  ∧ (∀ a i, (a, i) ∈ ref_index st' →
       (a, i) ∈ ref_index st
       ∨ ∃ n k d0 p d, ds !! n = Some (k, d0) ∧ gd_at d0 p d ∧ own_index d = Some i).

Definition rec_shape
    (rec : value → NodeImpl → option (list key) → fstate → result (graphdef * fstate))
  : Prop :=
  ∀ v impl path st gd st',
    get_node_impl E h v = Ok (Some impl) → ri_ok h (ref_index st) →
    rec v impl path st = Ok (gd, st') → shape_post v st gd st'.

Lemma shape_leaf v st d :
  (∀ ty i oi attrs md, d ≠ NodeDef ty i oi attrs md) →
  own_index d = None → describes E h v d → ri_ok h (ref_index st) →
  shape_post v st d st.
Proof.
  intros Hd Hown Hdesc Hri. split; [done|]. split; [done|]. split; [|split; [|split]].
  - intros p d' [-> ->]%gd_at_leaf; [|done]. exists v. split; [constructor|done].
  - intros p d' i [-> ->]%gd_at_leaf; [|done]. congruence.
  - intros p q d' d'' i [-> ->]%gd_at_leaf; [|done]. congruence.
  - intros a i Hin. by left.
Qed.

Lemma flatten_attr_shape rec path k v st d st' :
  rec_shape rec → ri_ok h (ref_index st) →
  flatten_attr E h roi rv rec path k v st = Ok (d, st') →
  shape_post v st d st'.
Proof.
  intros Hrec Hri. unfold flatten_attr.
  destruct (get_node_impl E h v) as [[impl|]|e] eqn:Himpl; simpl; [| |done].
  { by apply Hrec. }
  destruct v as [s|data|a|ty items aux]; try done.
  - intros [= <- <-]. by apply shape_leaf.
  - destruct (h !! a) as [[ty attrs aux|ty raw md]|] eqn:Ha; [| |done].
    { intros [= <- <-]. by apply shape_leaf. }
    destruct (ref_get E h (ref_index st) a) as [i|] eqn:Hget.
    { intros [= <- <-]. apply shape_leaf; try done. by exists a. }
    intros H. apply bind_ok in H as (ps & _ & H). injection H as <- <-. simpl.
    destruct (ri_ok_snoc E h (ref_index st) a Hri Hget) as [-> Hok].
    { by apply lookup_lt_Some in Ha. }
    unfold shape_post. simpl. unfold dict_len. rewrite length_app. simpl.
    split; [lia|]. split; [done|]. split; [|split; [|split]].
    + intros p d' [-> ->]%gd_at_leaf; [|done]. exists (VRef a).
      split; [constructor|]. by exists a, ty, raw, md.
    + intros p d' i [-> ->]%gd_at_leaf; [|done]. intros [= <-]. lia.
    + intros p q d' d'' i [-> ->]%gd_at_leaf; [|done].
      by intros [-> ->]%gd_at_leaf.
    + intros b i [Hin|Hin]%elem_of_app; [by left|right].
      apply list_elem_of_singleton in Hin. injection Hin as -> ->.
      eexists [], _. split; [constructor|done].
  - intros [= <- <-]. by apply shape_leaf.
Qed.

Lemma flatten_attrs_shape rec path values st ds st' :
  rec_shape rec → ri_ok h (ref_index st) →
  flatten_attrs E h roi rv rec path values st = Ok (ds, st') →
  shape_attrs values st ds st'.
Proof.
  intros Hrec. revert st ds st'.
  induction values as [|[k v] values IH]; intros st ds st' Hri; simpl.
  - intros [= <- <-]. split; [done|]. split; [done|].
    split; [|split; [|split]].
    + intros n k d0 Hn. by rewrite lookup_nil in Hn.
    + intros n k d0 p d i Hn. by rewrite lookup_nil in Hn.
    + intros n m k k' d0 d0' p q d d' i Hn. by rewrite lookup_nil in Hn.
    + intros a i Hin. by left.
  - intros H. apply bind_ok in H as ([d st1] & Hx & H).
    apply bind_ok in H as ([ds' st2] & Hx0 & H). injection H as <- <-.
    apply flatten_attr_shape in Hx as (Hle1 & Hri1 & Hm1 & Hr1 & Hu1 & Hc1); [|done..].
    apply IH in Hx0 as (Hle2 & Hri2 & Hm2 & Hr2 & Hu2 & Hc2); [|done].
    unfold shape_attrs. unfold dict_len in *.
    split; [lia|]. split; [done|]. split; [|split; [|split]].
    + intros [|n] k0 d0; simpl.
      * intros [= <- <-]. by exists k, v.
      * apply Hm2.
    + intros [|n] k0 d0 p d' i; simpl.
      * intros [= <- <-] Hat Hown. pose proof (Hr1 p d' i Hat Hown). lia.
      * intros Hn Hat Hown. pose proof (Hr2 n k0 d0 p d' i Hn Hat Hown). lia.
    + intros [|n] [|m] k0 k1 d0 d0' p q d' d'' i; simpl.
      * intros [= <- <-] [= <- <-] Hp Hq Ho Ho'. split; [done|]. by eapply Hu1.
      * intros [= <- <-] Hm Hp Hq Ho Ho'.
        pose proof (Hr1 p d' i Hp Ho). pose proof (Hr2 m k1 d0' q d'' i Hm Hq Ho'). lia.
      * intros Hn [= <- <-] Hp Hq Ho Ho'.
        pose proof (Hr1 q d'' i Hq Ho'). pose proof (Hr2 n k0 d0 p d' i Hn Hp Ho). lia.
      * intros Hn Hm Hp Hq Ho Ho'.
        destruct (Hu2 n m k0 k1 d0 d0' p q d' d'' i Hn Hm Hp Hq Ho Ho') as [-> ->]. done.
    + intros a i Hin. destruct (Hc2 a i Hin) as [Hin1|(n & k0 & d0 & p & d' & Hn & Hat & Ho)].
      * destruct (Hc1 a i Hin1) as [Hin0|(p & d' & Hat & Ho)]; [by left|right].
        by exists 0%nat, k, d, p, d'.
      * right. by exists (S n), k0, d0, p, d'.
Qed.

(** From the attributes to the node that holds them. *)
Lemma shape_node v impl values md st st1 st2 t i oi ds :
  get_node_impl E h v = Ok (Some impl) → node_flatten h v = Ok (values, md) →
  describes E h v (NodeDef t i oi ds md) →
  (length (ref_index st) ≤ length (ref_index st1))%nat →
  (0 ≤ i → i = dict_len (ref_index st)
           ∧ dict_len (ref_index st1) = dict_len (ref_index st) + 1) →
  (∀ a j, (a, j) ∈ ref_index st1 → (a, j) ∈ ref_index st ∨ (j = i ∧ 0 ≤ i)) →
  shape_attrs values st1 ds st2 →
  shape_post v st (NodeDef t i oi ds md) st2.
Proof.
  intros Himpl Hfl Hgi Hle Hroot Hcov (Hle2 & Hri2 & Hm2 & Hr2 & Hu2 & Hc2).
  assert (∀ j, own_index (NodeDef t i oi ds md) = Some j → j = i ∧ 0 ≤ i) as Hown.
  { intros j. simpl. destruct (i <? 0) eqn:Hi; [done|]. intros [= <-].
    apply Z.ltb_ge in Hi. done. }
  unfold shape_post. unfold dict_len in *.
  split; [lia|]. split; [done|]. split; [|split; [|split]].
  - intros p d [[-> ->]|(n & ns & k & d0 & -> & Hn & Hat)]%gd_at_NodeDef.
    + exists v. split; [constructor|done].
    + destruct (Hm2 n k d0 Hn) as (k' & c & Hc & Hmir).
      destruct (Hmir ns d Hat) as (w & Hr & Hd).
      exists w. split; [|done]. by eapply reaches_pos_step.
  - intros p d j [[-> ->]|(n & ns & k & d0 & -> & Hn & Hat)]%gd_at_NodeDef Ho.
    + apply Hown in Ho as [-> Hi]. destruct (Hroot Hi) as [-> Hlen]. lia.
    + pose proof (Hr2 n k d0 ns d j Hn Hat Ho). lia.
  - intros p q d d' j
      [[-> ->]|(n & ns & k & d0 & -> & Hn & Hat)]%gd_at_NodeDef
      [[-> ->]|(m & ms & k' & d0' & -> & Hm & Hat')]%gd_at_NodeDef Ho Ho'.
    + done.
    + apply Hown in Ho as [-> Hi]. destruct (Hroot Hi) as [Heq Hlen].
      pose proof (Hr2 m k' d0' ms d' i Hm Hat' Ho'). lia.
    + apply Hown in Ho' as [-> Hi]. destruct (Hroot Hi) as [Heq Hlen].
      pose proof (Hr2 n k d0 ns d i Hn Hat Ho). lia.
    + by destruct (Hu2 n m k k' d0 d0' ns ms d d' j Hn Hm Hat Hat' Ho Ho') as [-> ->].
  - intros a j Hin.
    destruct (Hc2 a j Hin) as [Hin1|(n & k & d0 & p & d & Hn & Hat & Ho)].
    + destruct (Hcov a j Hin1) as [Hin0|[-> Hi]]; [by left|right].
      eexists [], _. split; [constructor|]. simpl.
      destruct (i <? 0) eqn:Hi'; [|done]. apply Z.ltb_lt in Hi'. lia.
    + right. exists (n :: p), d. split; [|done]. by eapply gd_at_step.
Qed.
End FlattenShape.

Lemma _graph_flatten_shape E h roi rv fuel :
  rec_shape E h (_graph_flatten E fuel h roi rv).
Proof.
  induction fuel as [|fuel IH]; intros v impl path st gd st' Himpl Hri; [done|].
  destruct impl as [ty|pty].
  - destruct v as [s|data|a|ty' items aux]; try done.
    destruct (ref_get E h (ref_index st) a) as [i|] eqn:Hget.
    + rewrite (_graph_flatten_seen _ _ _ _ _ _ _ _ _ _ Hget).
      intros H. apply bind_ok in H as (node_ty & _ & [= <- <-]).
      apply shape_leaf; try done. by exists a.
    + rewrite (_graph_flatten_new _ _ _ _ _ _ _ _ _ Hget). cbn zeta.
      intros H. apply bind_ok in H as ([values md] & Hfl & H).
      apply bind_ok in H as ([attributes st2] & Hloop & [= <- <-]).
      destruct (ri_ok_snoc E h (ref_index st) a Hri Hget) as [Hset Hok1].
      { by apply get_node_impl_ref_lt in Himpl. }
      rewrite Hset in Hloop.
      apply (flatten_attrs_shape E h roi rv) in Hloop; [|done|done].
      apply (shape_node E h (VRef a) (GraphNodeImpl ty) values md st
               (FState (ref_index st ++ [(a, Z.of_nat (length (ref_index st)))])
                       (leaves st) (paths st))
               st2 _ _ _ attributes Himpl Hfl); simpl; unfold dict_len.
      * exists (GraphNodeImpl ty). split; [done|]. simpl. split; [lia|by exists a].
      * rewrite length_app. simpl. lia.
      * intros _. rewrite length_app. simpl. lia.
      * intros b j [Hin|Hin]%elem_of_app; [by left|right].
        apply list_elem_of_singleton in Hin. injection Hin as -> ->. lia.
      * exact Hloop.
  - rewrite _graph_flatten_pytree.
    intros H. apply bind_ok in H as ([values md] & Hfl & H).
    apply bind_ok in H as ([attributes st2] & Hloop & [= <- <-]).
    apply (flatten_attrs_shape E h roi rv) in Hloop; [|done|done].
    apply (shape_node E h v (PytreeNodeImpl pty) values md st st st2 _ _ _
             attributes Himpl Hfl); simpl.
    + by exists (PytreeNodeImpl pty).
    + lia.
    + lia.
    + intros a j Hin. by left.
    + exact Hloop.
Qed.

Lemma NoDup_fst_inj {A B} (l : list (A * B)) a x y :
  NoDup (map fst l) → (a, x) ∈ l → (a, y) ∈ l → x = y.
Proof.
  induction l as [|[k j] l IH]; simpl.
  - intros _ H. by apply elem_of_nil in H.
  - intros [Hk Hnd]%NoDup_cons Hx Hy.
    apply elem_of_cons in Hx as [Hx|Hx]; apply elem_of_cons in Hy as [Hy|Hy].
    + congruence.
    + injection Hx as -> ->. exfalso. apply Hk. apply list_elem_of_fmap. by exists (k, y).
    + injection Hy as -> ->. exfalso. apply Hk. apply list_elem_of_fmap. by exists (k, x).
    + by apply IH.
Qed.

Lemma gd_at_fun gd p d d' : gd_at gd p d → gd_at gd p d' → d = d'.
Proof.
  intros H. revert d'. induction H as [d|ty i oi attrs md n k d ns d0 Hn Hat IH];
    intros d' H'.
  - by inversion H'.
  - inversion H'; subst. apply IH.
    match goal with
    | H1 : attrs !! n = Some _ |- _ => rewrite Hn in H1; by injection H1 as <- <-
    end.
Qed.

Lemma gd_at_app_inv gd p q d :
  gd_at gd (p ++ q) d → ∃ dp, gd_at gd p dp ∧ gd_at dp q d.
Proof.
  revert gd. induction p as [|n p IH]; intros gd H; simpl in *.
  - exists gd. split; [constructor|done].
  - inversion H; subst.
    match goal with
    | H1 : gd_at _ (p ++ q) d |- _ => destruct (IH _ H1) as (dp & Hp & Hq)
    end.
    exists dp. split; [|done]. by eapply gd_at_step.
Qed.

Lemma reaches_pos_app E h v p w q u :
  reaches_pos E h v p w → reaches_pos E h w q u → reaches_pos E h v (p ++ q) u.
Proof.
  induction 1 as [v|v impl items md n k c ns w Himpl Hfl Hn Hr IH]; intros Hq; [done|].
  simpl. eapply reaches_pos_step; eauto.
Qed.

(** What [flatten] from an empty map gives, position by position. *)
Lemma flatten_shape E fuel h g with_paths rv roi gd fs ri :
  identity_keys E →
  flatten E fuel h g with_paths rv None roi = Ok (gd, fs, ri) →
  ri_ok h ri
  ∧ aligned E h g gd ri
  ∧ (∀ p d, gd_at gd p d → ∃ w, reaches_pos E h g p w ∧ describes E h w d)
  ∧ (∀ p q d d' i, gd_at gd p d → gd_at gd q d' →
       own_index d = Some i → own_index d' = Some i → p = q)
  ∧ (∀ a i, (a, i) ∈ ri → ∃ p d, gd_at gd p d ∧ own_index d = Some i).
Proof.
  intros Hid H. unfold flatten in H.
  apply bind_ok in H as (oimpl & Himpl & H).
  destruct oimpl as [impl|]; [|done].
  apply bind_ok in H as ([gd' st] & Hrun & H).
  pose proof Hrun as Hrun2.
  apply (_graph_flatten_post E h roi rv fuel Hid) in Hrun
    as (_ & Hri & Hal); [|done|apply ri_ok_nil].
  apply (_graph_flatten_shape E h roi rv fuel) in Hrun2
    as (_ & _ & Hm & _ & Hu & Hc); [|done|apply ri_ok_nil].
  assert (gd' = gd ∧ ref_index st = ri) as [-> <-].
  { destruct (paths st); by injection H as <- _ <-. }
  repeat (split; [done|]).
  intros a i Hin. destruct (Hc a i Hin) as [Hnil|Hex]; [|done].
  by apply elem_of_nil in Hnil.
Qed.

Definition node_def_of (i : Z) (d : graphdef) : Prop :=
  match d with NodeDef _ j _ _ _ => j = i | _ => False end.

Definition node_ref_of (i : Z) (d : graphdef) : Prop :=
  match d with NodeRef _ j => j = i | _ => False end.

Section Sharing.
Context (E : PyEnv) (h : heap) (g : value) (gd : graphdef) (ri : RefMap).
Context (x : addr) (ty : string).
Hypothesis Hri : ri_ok h ri.
Hypothesis Hal : aligned E h g gd ri.
Hypothesis Hmirror :
  ∀ p d, gd_at gd p d → ∃ w, reaches_pos E h g p w ∧ describes E h w d.
Hypothesis Hunique :
  ∀ p q d d' i, gd_at gd p d → gd_at gd q d' →
    own_index d = Some i → own_index d' = Some i → p = q.
Hypothesis Hcover : ∀ a i, (a, i) ∈ ri → ∃ p d, gd_at gd p d ∧ own_index d = Some i.
Hypothesis Hx : get_node_impl E h (VRef x) = Ok (Some (GraphNodeImpl ty)).

(** Where the traversal met the graph node [x], the descriptor is a
    NodeDef or a NodeRef with the index of [x]. *)
Lemma node_position p d :
  gd_at gd p d → reaches_pos E h g p (VRef x) →
  ∃ i, (x, i) ∈ ri ∧ def_index d = Some i ∧ (node_def_of i d ∨ node_ref_of i d).
Proof.
  intros Hat Hr. destruct (Hmirror p d Hat) as (w & Hw & Hd).
  rewrite (reaches_pos_fun _ _ _ _ _ _ Hw Hr) in Hd.
  destruct d as [t i oi attrs md|t i|t i oi md|v]; simpl in Hd.
  - destruct Hd as (impl & Himpl & Hi). rewrite Hx in Himpl. injection Himpl as <-.
    simpl in Hi. destruct Hi as [Hi _].
    assert (def_index (NodeDef t i oi attrs md) = Some i) as Hdi.
    { simpl. destruct (i <? 0) eqn:Hlt; [|done]. apply Z.ltb_lt in Hlt. lia. }
    exists i. split; [by eapply Hal|]. split; [done|]. by left.
  - exists i. split; [by eapply Hal|]. split; [done|]. by right.
  - destruct Hd as (a & t' & raw & md' & [= <-] & Ha).
    unfold get_node_impl in Hx. by rewrite Ha in Hx.
  - congruence.
Qed.

(** A position that carries an index is a position of the object that
    has the index. *)
Lemma index_position p d i :
  gd_at gd p d → def_index d = Some i → (x, i) ∈ ri → reaches_pos E h g p (VRef x).
Proof.
  intros Hat Hdi Hin. destruct (Hmirror p d Hat) as (w & Hw & Hd).
  assert (∃ b, w = VRef b) as [b ->].
  { destruct d as [t j oi attrs md|t j|t j oi md|v]; simpl in Hd, Hdi; try done.
    - destruct Hd as (impl & Himpl & Hi). destruct (is_graph_impl impl).
      + by destruct Hi as [_ Hb].
      + subst j. done.
    - destruct Hd as (a & t' & raw & md' & -> & Ha). by exists a. }
  pose proof (Hal p d b i Hat Hw Hdi) as Hb.
  by rewrite (ri_ok_index_inj h ri x b i Hri Hin Hb).
Qed.

Lemma own_index_def d i : own_index d = Some i → def_index d = Some i.
Proof. by destruct d. Qed.

(** The one position of the NodeDef of [x]. *)
Lemma node_def_position i :
  (x, i) ∈ ri →
  ∃ pd dd, gd_at gd pd dd ∧ node_def_of i dd ∧ own_index dd = Some i
    ∧ reaches_pos E h g pd (VRef x).
Proof.
  intros Hin. destruct (Hcover x i Hin) as (pd & dd & Hat & Hown).
  pose proof (index_position pd dd i Hat (own_index_def _ _ Hown) Hin) as Hr.
  exists pd, dd. split; [done|]. split; [|by split].
  destruct (node_position pd dd Hat Hr) as (j & Hj & Hdj & [Hd|Hd]).
  - rewrite (own_index_def _ _ Hown) in Hdj. injection Hdj as ->. done.
  - by destruct dd.
Qed.

Lemma node_def_own d i : node_def_of i d → def_index d = Some i → own_index d = Some i.
Proof. by destruct d. Qed.
End Sharing.

(** The copy of a graph node is a new object of the same class. *)
Lemma copy_graph_node E h φ h' x ty w :
  copies E h φ h' →
  get_node_impl E h (VRef x) = Ok (Some (GraphNodeImpl ty)) →
  vrel E h φ (VRef x) w →
  ∃ x', w = VRef x' ∧ φ x = Some x' ∧ h !! x' = None
        ∧ get_node_impl E h' (VRef x') = Ok (Some (GraphNodeImpl ty)).
Proof.
  intros Hc Hx Hrel.
  apply vrel_ref_cases in Hrel as [(_ & Hnone & _)|(x' & -> & Hφ)]; [congruence|].
  exists x'. split; [done|]. split; [done|].
  destruct Hc as (_ & Hc & _). destruct (Hc x x' Hφ) as (Hlo & o & o' & Ha & Ha' & Ho).
  split; [by apply lookup_ge_None|].
  unfold get_node_impl in *. rewrite Ha in Hx. rewrite Ha'.
  destruct o as [t attrs aux|]; [|done]. by destruct Ho as (_ & attrs' & -> & _).
Qed.


(** A module that holds one submodule under two names. *)
Definition diamond_store : heap :=
  [ONode "Module" [(KStr "decoder", VRef 1%nat); (KStr "encoder", VRef 1%nat)] MNone;
   ONode "Module" [(KStr "w", VRef 2%nat)] MNone;
   OVar "Param" (PData 3) []].


(** C4. [flatten] ends on every graph, cyclic or not: a recursion depth of
    [fuel_bound] is enough, and more changes nothing. Where a graph node
    [x] reaches itself again, the traversal finds it in the map, where it
    was put before its attributes were walked: the descriptor has a
    [NodeRef] there, with the index of the NodeDef of [x] above it.
    [unflatten] returns on that descriptor, and the copy of [x] reaches
    itself by the same steps. *)
Theorem cycles_round_trip E h g with_paths roi fuel :
  identity_keys E → registry_ok E → store_ok E h = true → value_ok E g = true →
  (fuel_bound h g ≤ fuel)%nat →
  flatten E fuel h g with_paths false None roi ≠ Err RecursionError
  ∧ flatten E fuel h g with_paths false None roi
    = flatten E (fuel_bound h g) h g with_paths false None roi
  ∧ ∀ gd fs ri,
      flatten E fuel h g with_paths false None roi = Ok (gd, fs, ri) →
      (∀ x p q d,
         reaches_pos E h g p (VRef x) → reaches_pos E h (VRef x) q (VRef x) →
         q ≠ [] → gd_at gd (p ++ q) d →
         ∃ i dp, (x, i) ∈ ri ∧ gd_at gd p dp ∧ node_def_of i dp ∧ node_ref_of i d)
      ∧ ∃ g' h' ir,
          unflatten E h gd (Flat fs) None None = Ok (g', h', ir)
          ∧ ∀ x p q,
              reaches_pos E h g p (VRef x) → reaches_pos E h (VRef x) q (VRef x) →
              q ≠ [] →
              ∃ x', reaches_pos E h' g' p (VRef x')
                    ∧ reaches_pos E h' (VRef x') q (VRef x')
                    ∧ h !! x' = None.
Proof.
  intros Hid Hreg Hok Hv Hfuel.
  pose proof (store_ok_by_value E h Hok) as Hwf.
  destruct (flatten_ends E h g with_paths false roi fuel Hwf Hfuel) as [Hend Hsame].
  split; [done|]. split; [done|].
  intros gd fs ri Hfl.
  assert (∀ x q, reaches_pos E h (VRef x) q (VRef x) → q ≠ [] →
                 ∃ ty, get_node_impl E h (VRef x) = Ok (Some (GraphNodeImpl ty)))
    as Hnode.
  { intros x q Hq Hne. inversion Hq as [|v impl items md n k c ns w Himpl]; subst; [done|].
    destruct impl as [ty|pty]; [by exists ty|].
    by destruct (heap_by_value_not_pytree E h Hwf x pty). }
  destruct (flatten_shape E fuel h g with_paths false roi gd fs ri Hid Hfl)
    as (Hri & Hal & Hm & Hu & Hc).
  split.
  - intros x p q d Hp Hq Hne Hat.
    destruct (Hnode x q Hq Hne) as [ty Hx].
    destruct (gd_at_app_inv _ _ _ _ Hat) as (dp & Hatp & Hatq).
    destruct (node_position E h g gd ri x ty Hal Hm Hx p dp Hatp Hp)
      as (i & Hin & Hdi & Hk).
    pose proof (reaches_pos_app _ _ _ _ _ _ _ Hp Hq) as Hpq.
    destruct (node_position E h g gd ri x ty Hal Hm Hx (p ++ q) d Hat Hpq)
      as (j & Hjn & Hdj & Hkj).
    assert (j = i) as ->.
    { destruct Hri as (_ & Hnd & _). by eapply NoDup_fst_inj. }
    assert (node_def_of i dp) as Hdp.
    { destruct Hk as [Hk|Hk]; [done|]. destruct dp; try done.
      inversion Hatq; subst. done. }
    exists i, dp. repeat (split; [done|]).
    destruct Hkj as [Hd|Hd]; [|done]. exfalso. apply Hne.
    assert (p ++ q = p) as Heq.
    { eapply Hu; eauto using node_def_own. }
    apply (app_inv_head p). by rewrite app_nil_r.
  - destruct (flatten_unflatten E fuel h g with_paths roi gd fs ri Hid Hreg Hok Hv Hfl)
      as (g' & h' & ir & Hun & _ & _ & Hcp & Hrel).
    exists g', h', ir. split; [done|].
    intros x p q Hp Hq Hne.
    destruct (Hnode x q Hq Hne) as [ty Hx].
    destruct (reaches_copy E h _ h' Hcp g p (VRef x) Hp g' Hrel) as (w & Hw & Hrelx).
    destruct (copy_graph_node E h _ h' x ty w Hcp Hx Hrelx) as (x' & -> & _ & Hnew & _).
    destruct (reaches_copy E h _ h' Hcp (VRef x) q (VRef x) Hq (VRef x') Hrelx)
      as (w' & Hw' & Hrelx').
    rewrite <- (vrel_ref_fun E h _ h' Hcp x _ _ Hrelx Hrelx') in Hw'.
    by exists x'.
Qed.

(** Two modules that hold each other. *)
Definition cycle_store : heap :=
  [ONode "Module" [(KStr "child", VRef 1%nat)] MNone;
   ONode "Module" [(KStr "parent", VRef 0%nat); (KStr "w", VRef 2%nat)] MNone;
   OVar "Param" (PData 3) []].

Lemma cycles_round_trip_witness :
  let h := cycle_store in
  let g := VRef 0%nat in
  (fuel_bound h g ≤ 4)%nat
  ∧ flatten std_env 4 h g true false None None ≠ Err RecursionError
  ∧ flatten std_env 4 h g true false None None
    = flatten std_env (fuel_bound h g) h g true false None None
  ∧ ∀ gd fs ri,
      flatten std_env 4 h g true false None None = Ok (gd, fs, ri) →
      (∀ x p q d,
         reaches_pos std_env h g p (VRef x) → reaches_pos std_env h (VRef x) q (VRef x) →
         q ≠ [] → gd_at gd (p ++ q) d →
         ∃ i dp, (x, i) ∈ ri ∧ gd_at gd p dp ∧ node_def_of i dp ∧ node_ref_of i d)
      ∧ ∃ g' h' ir,
          unflatten std_env h gd (Flat fs) None None = Ok (g', h', ir)
          ∧ ∀ x p q,
              reaches_pos std_env h g p (VRef x) →
              reaches_pos std_env h (VRef x) q (VRef x) →
              q ≠ [] →
              ∃ x', reaches_pos std_env h' g' p (VRef x')
                    ∧ reaches_pos std_env h' (VRef x') q (VRef x')
                    ∧ h !! x' = None.
Proof.
  intros h g.
  assert (fuel_bound h g ≤ 4)%nat as Hfuel by (vm_compute; lia).
  split; [exact Hfuel|].
  apply (cycles_round_trip std_env h g true None 4).
  - exact std_env_identity_keys.
  - exact std_env_registry_ok.
  - reflexivity.
  - reflexivity.
  - exact Hfuel.
Defined.

(* ===================================================================== *)
(* Further properties                                                     *)
(* ===================================================================== *)

(* --------------------------------------------------------------------- *)
(* Outer indices of a descriptor                                          *)
(* --------------------------------------------------------------------- *)

(** [NodeDef.with_no_outer_index] and [VariableDef.with_no_outer_index];
    the method of a NodeDef calls the one of every attribute that is a
    NodeDef or a VariableDef and leaves the other attributes as they are. *)
Fixpoint with_no_outer_index (g : graphdef) : graphdef :=
  match g with
  | NodeDef ty index _ attributes md =>
      NodeDef ty index None
        ((fix go (l : list (key * graphdef)) : list (key * graphdef) :=
            match l with
            | [] => []
            | kv :: rest => (kv.1, with_no_outer_index kv.2) :: go rest
            end) attributes)
        md
  | VariableDef ty index _ md => VariableDef ty index None md
  | NodeRef _ _ | Static _ => g
  end.

(** [NodeDef.with_same_outer_index] and [VariableDef.with_same_outer_index]. *)
Fixpoint with_same_outer_index (g : graphdef) : graphdef :=
  match g with
  | NodeDef ty index _ attributes md =>
      NodeDef ty index (if 0 <=? index then Some index else None)
        ((fix go (l : list (key * graphdef)) : list (key * graphdef) :=
            match l with
            | [] => []
            | kv :: rest => (kv.1, with_same_outer_index kv.2) :: go rest
            end) attributes)
        md
  | VariableDef ty index _ md => VariableDef ty index (Some index) md
  | NodeRef _ _ | Static _ => g
  end.

Lemma with_no_outer_index_NodeDef ty i oi attrs md :
  with_no_outer_index (NodeDef ty i oi attrs md)
  = NodeDef ty i None (map_values with_no_outer_index attrs) md.
Proof. reflexivity. Qed.

Lemma with_same_outer_index_NodeDef ty i oi attrs md :
  with_same_outer_index (NodeDef ty i oi attrs md)
  = NodeDef ty i (if 0 <=? i then Some i else None)
      (map_values with_same_outer_index attrs) md.
Proof. reflexivity. Qed.

Arguments with_no_outer_index : simpl never.
Arguments with_same_outer_index : simpl never.

Lemma map_values_ext_Forall {A B} (f g : A → B) (l : list (key * A)) :
  Forall (fun kv => f kv.2 = g kv.2) l → map_values f l = map_values g l.
Proof.
  unfold map_values. induction 1 as [|kv l H _ IH]; simpl; [done|]. by rewrite H, IH.
Qed.

Lemma map_values_compose {A B C} (f : A → B) (g : B → C) (l : list (key * A)) :
  map_values g (map_values f l) = map_values (fun x => g (f x)) l.
Proof. unfold map_values. induction l as [|kv l IH]; simpl; [done|]. by rewrite IH. Qed.

(** X1. The two rewritings of a descriptor forget what was in the outer index
    fields: each gives the same whether applied once or twice, and
    whichever of them comes last decides. *)
Theorem outer_index_rewritings gd :
  with_no_outer_index (with_no_outer_index gd) = with_no_outer_index gd
  ∧ with_same_outer_index (with_same_outer_index gd) = with_same_outer_index gd
  ∧ with_no_outer_index (with_same_outer_index gd) = with_no_outer_index gd
  ∧ with_same_outer_index (with_no_outer_index gd) = with_same_outer_index gd.
Proof.
  induction gd as [ty i oi attrs md IH|ty i|ty i oi md|v] using graphdef_ind';
    try done.
  repeat split;
    repeat (rewrite with_no_outer_index_NodeDef
            || rewrite with_same_outer_index_NodeDef);
    rewrite map_values_compose; f_equal;
    try (by destruct (0 <=? i));
    apply map_values_ext_Forall;
    (eapply Forall_impl; [exact IH|]); simpl; intros kv H; tauto.
Qed.

(** The descriptors' other fields are as they were. *)
Lemma with_no_outer_index_demand gd : demand (with_no_outer_index gd) = demand gd.
Proof.
  induction gd as [ty i oi attrs md IH|ty i|ty i oi md|v] using graphdef_ind';
    try done.
  rewrite with_no_outer_index_NodeDef, !demand_NodeDef. unfold map_values.
  induction IH as [|[k d] l H _ IHl]; simpl; [done|]. simpl in H. by rewrite H, IHl.
Qed.

Section UnflattenOuterIndex.
Context (E : PyEnv).

Lemma unflatten_attr_no_outer rec1 rec2 d st :
  (∀ impl, rec1 (with_no_outer_index d) impl st = rec2 d impl st) →
  unflatten_attr E None rec1 (with_no_outer_index d) st
  = unflatten_attr E None rec2 d st.
Proof.
  intros Hrec. destruct d as [ty i oi attrs md|ty i|ty i oi md|v]; try done.
  rewrite with_no_outer_index_NodeDef in *. unfold unflatten_attr.
  destruct (get_node_impl_for_type E ty); [apply Hrec|done].
Qed.

Lemma unflatten_attrs_no_outer rec1 rec2 attrs :
  Forall (fun kd => ∀ impl st, rec1 (with_no_outer_index kd.2) impl st = rec2 kd.2 impl st)
         attrs →
  ∀ st, unflatten_attrs E None rec1 (map_values with_no_outer_index attrs) st
        = unflatten_attrs E None rec2 attrs st.
Proof.
  induction 1 as [|[k d] attrs Hd _ IH]; intros st; simpl; [done|].
  rewrite (unflatten_attr_no_outer rec1 rec2 d st) by (intros impl; apply Hd).
  destruct (unflatten_attr E None rec2 d st) as [[child st1]|e]; simpl; [|done].
  by rewrite IH.
Qed.
End UnflattenOuterIndex.

Lemma _graph_unflatten_no_outer E gd :
  ∀ impl st,
    _graph_unflatten E None (with_no_outer_index gd) impl st
    = _graph_unflatten E None gd impl st.
Proof.
  induction gd as [ty i oi attrs md IH|ty i|ty i oi md|v] using graphdef_ind';
    intros impl st; try done.
  rewrite with_no_outer_index_NodeDef. simpl.
  destruct (dict_mem Z.eqb (index_ref st) i); [done|].
  destruct impl as [name|pty].
  - rewrite (unflatten_attrs_no_outer E _ (_graph_unflatten E None) attrs IH).
    done.
  - by rewrite (unflatten_attrs_no_outer E _ (_graph_unflatten E None) attrs IH).
Qed.

(** X2. Without an outer cache [unflatten] does not look at the outer indices
    of the descriptor: two descriptors that differ in them only give the
    same result, object for object. *)
Theorem unflatten_ignores_outer_index E h gd1 gd2 state index_ref0 :
  with_no_outer_index gd1 = with_no_outer_index gd2 →
  unflatten E h gd1 state index_ref0 None = unflatten E h gd2 state index_ref0 None.
Proof.
  assert (∀ gd, unflatten E h gd state index_ref0 None
                = unflatten E h (with_no_outer_index gd) state index_ref0 None) as H.
  { intros gd. rewrite !unflatten_unfold.
    destruct (leaves_of_state state) as [ls|e]; simpl; [|done].
    destruct gd as [ty i oi attrs md|ty i|ty i oi md|v]; try done.
    rewrite with_no_outer_index_NodeDef. unfold unflatten_top.
    destruct (get_node_impl_for_type E ty); [|done].
    rewrite <- with_no_outer_index_NodeDef with (oi := oi).
    by rewrite _graph_unflatten_no_outer. }
  intros Heq. by rewrite (H gd1), (H gd2), Heq.
Qed.

Lemma unflatten_ignores_outer_index_witness :
  let gd := NodeDef (Cls "Module") 0 (Some 5)
              [(KStr "w", VariableDef "Param" 1 (Some 7) [])] MNone in
  unflatten std_env [] gd (Flat (LeafList [RawLeaf (PData 3)])) None None
  = unflatten std_env [] (with_same_outer_index gd)
      (Flat (LeafList [RawLeaf (PData 3)])) None None.
Proof.
  intros gd.
  apply (unflatten_ignores_outer_index std_env [] gd (with_same_outer_index gd)).
  reflexivity.
Defined.

(* --------------------------------------------------------------------- *)
(* What [ref_outer_index] changes in what [flatten] returns               *)
(* --------------------------------------------------------------------- *)

Definition no_outer_result (r : result (graphdef * fstate)) : result (graphdef * fstate) :=
  match r with
  | Ok (gd, st) => Ok (with_no_outer_index gd, st)
  | Err e => Err e
  end.

Definition no_outer_results (r : result (list (key * graphdef) * fstate))
  : result (list (key * graphdef) * fstate) :=
  match r with
  | Ok (ds, st) => Ok (map_values with_no_outer_index ds, st)
  | Err e => Err e
  end.

Section FlattenOuterIndex.
Context (E : PyEnv) (h : heap) (roi1 roi2 : option RefMap) (rv : bool).
Context (rec1 rec2 : value → NodeImpl → option (list key) → fstate
                      → result (graphdef * fstate)).
Hypothesis Hrec : ∀ v impl path st,
  no_outer_result (rec1 v impl path st) = no_outer_result (rec2 v impl path st).

Lemma flatten_attr_roi path k v st :
  no_outer_result (flatten_attr E h roi1 rv rec1 path k v st)
  = no_outer_result (flatten_attr E h roi2 rv rec2 path k v st).
Proof.
  unfold flatten_attr.
  destruct (get_node_impl E h v) as [[impl|]|e]; simpl; [apply Hrec| |done].
  destruct v as [s|data|a|ty items aux]; try done.
  destruct (h !! a) as [[ty attrs aux|ty raw md]|]; try done.
  destruct (ref_get E h (ref_index st) a) as [i|]; [done|].
  match goal with
  | |- no_outer_result (bind ?m _) = _ => destruct m as [ps|e]
  end; done.
Qed.

Lemma flatten_attrs_roi path values st :
  no_outer_results (flatten_attrs E h roi1 rv rec1 path values st)
  = no_outer_results (flatten_attrs E h roi2 rv rec2 path values st).
Proof.
  revert st. induction values as [|[k v] values IH]; intros st; simpl; [done|].
  pose proof (flatten_attr_roi path k v st) as H1.
  destruct (flatten_attr E h roi1 rv rec1 path k v st) as [[d1 st1]|e1];
    destruct (flatten_attr E h roi2 rv rec2 path k v st) as [[d2 st2]|e2];
    simpl in *; try (done || congruence).
  injection H1 as Hd <-.
  pose proof (IH st1) as H2.
  destruct (flatten_attrs E h roi1 rv rec1 path values st1) as [[ds1 st1']|e1];
    destruct (flatten_attrs E h roi2 rv rec2 path values st1) as [[ds2 st2']|e2];
    simpl in *; try (done || congruence).
Qed.
End FlattenOuterIndex.

Lemma _graph_flatten_roi E h roi1 roi2 rv fuel :
  ∀ v impl path st,
    no_outer_result (_graph_flatten E fuel h roi1 rv v impl path st)
    = no_outer_result (_graph_flatten E fuel h roi2 rv v impl path st).
Proof.
  induction fuel as [|fuel IH]; intros v impl path st; [done|].
  destruct impl as [ty|pty].
  - destruct v as [s|data|a|ty' items aux]; try done.
    destruct (ref_get E h (ref_index st) a) as [i|] eqn:Hget.
    + by rewrite !(_graph_flatten_seen _ _ _ _ _ _ _ _ _ _ Hget).
    + rewrite !(_graph_flatten_new _ _ _ _ _ _ _ _ _ Hget). cbn zeta.
      destruct (node_flatten h (VRef a)) as [[values md]|e]; simpl; [|done].
      match goal with
      | |- no_outer_result (bind (flatten_attrs _ _ _ _ _ _ _ ?st1) _) = _ =>
          pose proof (flatten_attrs_roi E h roi1 roi2 rv _ _ IH path values st1) as H
      end.
      destruct (flatten_attrs E h roi1 rv _ path values _) as [[ds1 st1']|e1];
        destruct (flatten_attrs E h roi2 rv _ path values _) as [[ds2 st2']|e2];
        simpl in *; try (done || congruence).
      injection H as Hds <-. by rewrite !with_no_outer_index_NodeDef, Hds.
  - rewrite !_graph_flatten_pytree.
    destruct (node_flatten h v) as [[values md]|e]; simpl; [|done].
    pose proof (flatten_attrs_roi E h roi1 roi2 rv _ _ IH path values st) as H.
    destruct (flatten_attrs E h roi1 rv _ path values _) as [[ds1 st1']|e1];
      destruct (flatten_attrs E h roi2 rv _ path values _) as [[ds2 st2']|e2];
      simpl in *; try (done || congruence).
    injection H as Hds <-. by rewrite !with_no_outer_index_NodeDef, Hds.
Qed.

(** X3. [ref_outer_index] decides the outer indices of the descriptor and
    nothing else: with any two outer maps [flatten] fails with the same
    error or returns the same leaves, the same paths and the same reference
    map, and descriptors that differ in their outer indices only. *)
Theorem flatten_outer_index_only E fuel h node with_paths rv ri0 roi1 roi2 :
  match flatten E fuel h node with_paths rv ri0 roi1,
        flatten E fuel h node with_paths rv ri0 roi2 with
  | Ok (gd1, fs1, ri1), Ok (gd2, fs2, ri2) =>
      with_no_outer_index gd1 = with_no_outer_index gd2 ∧ fs1 = fs2 ∧ ri1 = ri2
  | Err e1, Err e2 => e1 = e2
  | _, _ => False
  end.
Proof.
  unfold flatten.
  destruct (get_node_impl E h node) as [[impl|]|e]; simpl; [|done|done].
  match goal with
  | |- context [_graph_flatten E fuel h roi1 rv node impl ?p ?st] =>
      pose proof (_graph_flatten_roi E h roi1 roi2 rv fuel node impl p st) as H
  end.
  destruct (_graph_flatten E fuel h roi1 rv node impl _ _) as [[gd1 st1]|e1];
    destruct (_graph_flatten E fuel h roi2 rv node impl _ _) as [[gd2 st2]|e2];
    simpl in *; try (done || congruence).
  injection H as Hgd <-. by destruct (paths st1).
Qed.

Lemma outer_index_of_own E h (ri Δ : RefMap) a n :
  ref_get E h ri a = None →
  outer_index_of E h (Some (ri ++ (a, n) :: Δ)) a = Some n.
Proof.
  intros Hnone. unfold outer_index_of.
  destruct (ri ++ (a, n) :: Δ) as [|x R] eqn:HR.
  { by destruct ri. }
  rewrite <- HR. unfold ref_get in *. rewrite dict_get_app_None by done.
  simpl. by rewrite ref_eqb_refl.
Qed.

Section FlattenSameOuter.
Context (E : PyEnv) (h : heap) (rv : bool) (R : RefMap).
Context (rec1 rec2 : value → NodeImpl → option (list key) → fstate
                      → result (graphdef * fstate)).

(** A run without an outer map, and the same run with the outer map [R],
    which holds the map the run leaves. *)
Definition same_outer_post (st : fstate) (gd : graphdef) (st' : fstate)
    (r2 : result (graphdef * fstate)) : Prop :=
  (∃ Δ, ref_index st' = ref_index st ++ Δ)
  ∧ ((∃ Δ, R = ref_index st' ++ Δ) → r2 = Ok (with_same_outer_index gd, st')).

Hypothesis Hrec : ∀ v impl path st gd st',
  rec1 v impl path st = Ok (gd, st') →
  same_outer_post st gd st' (rec2 v impl path st).

Lemma flatten_attr_same_outer path k v st d st' :
  flatten_attr E h None rv rec1 path k v st = Ok (d, st') →
  same_outer_post st d st' (flatten_attr E h (Some R) rv rec2 path k v st).
Proof.
  unfold flatten_attr.
  destruct (get_node_impl E h v) as [[impl|]|e] eqn:Himpl; simpl; [apply Hrec| |done].
  assert (∀ st0 : fstate, ∃ Δ, ref_index st0 = ref_index st0 ++ Δ) as Hrefl.
  { intros st0. exists []. by rewrite app_nil_r. }
  destruct v as [s|data|a|ty items aux]; try done.
  - intros [= <- <-]. by split.
  - destruct (h !! a) as [[ty attrs aux|ty raw md]|] eqn:Ha; [| |done].
    { intros [= <- <-]. by split. }
    destruct (ref_get E h (ref_index st) a) as [i|] eqn:Hget.
    { intros [= <- <-]. by split. }
    intros H. apply bind_ok in H as (ps & Hps & H). injection H as <- <-.
    unfold ref_set. rewrite (dict_set_absent _ _ _ _ Hget). simpl.
    split; [by eexists|].
    intros [Δ ->]. rewrite Hps. simpl. rewrite <- app_assoc. simpl.
    by rewrite (outer_index_of_own E h _ _ a _ Hget).
  - intros [= <- <-]. by split.
Qed.

Lemma flatten_attrs_same_outer path values st ds st' :
  flatten_attrs E h None rv rec1 path values st = Ok (ds, st') →
  (∃ Δ, ref_index st' = ref_index st ++ Δ)
  ∧ ((∃ Δ, R = ref_index st' ++ Δ) →
     flatten_attrs E h (Some R) rv rec2 path values st
     = Ok (map_values with_same_outer_index ds, st')).
Proof.
  revert st ds st'. induction values as [|[k v] values IH]; intros st ds st'; simpl.
  - intros [= <- <-]. split; [exists []; by rewrite app_nil_r|done].
  - intros H. apply bind_ok in H as ([d st1] & Hx & H).
    apply bind_ok in H as ([ds' st2] & Hx0 & H). injection H as <- <-.
    apply flatten_attr_same_outer in Hx as [[Δ1 Hext1] Hrun1].
    apply IH in Hx0 as [[Δ2 Hext2] Hrun2].
    split; [exists (Δ1 ++ Δ2); by rewrite Hext2, Hext1, app_assoc|].
    intros [Δ HR]. rewrite Hrun1.
    2: { exists (Δ2 ++ Δ). by rewrite HR, Hext2, app_assoc. }
    simpl. rewrite Hrun2 by by exists Δ. done.
Qed.
End FlattenSameOuter.

Lemma _graph_flatten_same_outer E h rv R fuel :
  ∀ v impl path st gd st',
    _graph_flatten E fuel h None rv v impl path st = Ok (gd, st') →
    same_outer_post R st gd st' (_graph_flatten E fuel h (Some R) rv v impl path st).
Proof.
  induction fuel as [|fuel IH]; intros v impl path st gd st'; [done|].
  destruct impl as [ty|pty].
  - destruct v as [s|data|a|ty' items aux]; try done.
    destruct (ref_get E h (ref_index st) a) as [i|] eqn:Hget.
    + rewrite !(_graph_flatten_seen _ _ _ _ _ _ _ _ _ _ Hget).
      intros H. pose proof H as H'.
      apply bind_ok in H as (node_ty & _ & [= <- <-]).
      split; [exists []; by rewrite app_nil_r|done].
    + rewrite !(_graph_flatten_new _ _ _ _ _ _ _ _ _ Hget). cbn zeta.
      intros H. apply bind_ok in H as ([values md] & Hfl & H).
      apply bind_ok in H as ([attributes st2] & Hloop & [= <- <-]).
      rewrite Hfl. simpl.
      unfold ref_set in *. rewrite (dict_set_absent _ _ _ _ Hget) in *.
      apply (flatten_attrs_same_outer E h rv R _ _ IH) in Hloop as [[Δ2 Hext] Hrun].
      simpl in Hext.
      split; [exists ((a, dict_len (ref_index st)) :: Δ2); by rewrite Hext, <- app_assoc|].
      intros [Δ HR]. rewrite Hrun by by exists Δ. simpl.
      rewrite with_same_outer_index_NodeDef.
      assert ((0 <=? dict_len (ref_index st)) = true) as ->.
      { apply Z.leb_le. unfold dict_len. lia. }
      rewrite HR, Hext, <- !app_assoc. simpl.
      by rewrite (outer_index_of_own E h _ _ a _ Hget).
  - rewrite !_graph_flatten_pytree.
    intros H. apply bind_ok in H as ([values md] & Hfl & H).
    apply bind_ok in H as ([attributes st2] & Hloop & [= <- <-]).
    rewrite Hfl. simpl.
    apply (flatten_attrs_same_outer E h rv R _ _ IH) in Hloop as [Hext Hrun].
    split; [done|]. intros HR. rewrite Hrun by done. simpl.
    by rewrite with_same_outer_index_NodeDef.
Qed.

(** X4. The descriptor [CacheContext.create] keeps as [final_graphdef],
    [graphdef.with_same_outer_index()], is the one [flatten] returns when
    the outer map is the reference map of that very traversal: every
    object is then its own outer object. *)
Theorem flatten_same_outer_index E fuel h node with_paths rv ri0 gd fs ri :
  flatten E fuel h node with_paths rv ri0 None = Ok (gd, fs, ri) →
  flatten E fuel h node with_paths rv ri0 (Some ri)
  = Ok (with_same_outer_index gd, fs, ri).
Proof.
  unfold flatten.
  destruct (get_node_impl E h node) as [[impl|]|e]; simpl; [|done|done].
  intros H. apply bind_ok in H as ([gd' st] & Hrun & H).
  apply (_graph_flatten_same_outer E h rv ri) in Hrun as [_ Hrun].
  assert (gd' = gd ∧ ref_index st = ri) as [-> Hri].
  { destruct (paths st); by injection H as <- _ <-. }
  rewrite Hrun by (exists []; by rewrite app_nil_r).
  simpl. destruct (paths st); injection H as <- _; by rewrite Hri.
Qed.

Lemma flatten_same_outer_index_witness :
  flatten std_env 5 diamond_store (VRef 0%nat) true false None
    (Some [(0%nat, 0); (1%nat, 1); (2%nat, 2)])
  = Ok (NodeDef (Cls "Module") 0 (Some 0)
          [(KStr "decoder",
            NodeDef (Cls "Module") 1 (Some 1)
              [(KStr "w", VariableDef "Param" 2 (Some 2) [])] MNone);
           (KStr "encoder", NodeRef "Module" 1)] MNone,
        FlatState [[KStr "decoder"; KStr "w"]] [VariableState "Param" (PData 3) []],
        [(0%nat, 0); (1%nat, 1); (2%nat, 2)]).
Proof.
  apply (flatten_same_outer_index std_env 5 diamond_store (VRef 0%nat) true false None
           (NodeDef (Cls "Module") 0 None
              [(KStr "decoder",
                NodeDef (Cls "Module") 1 None
                  [(KStr "w", VariableDef "Param" 2 None [])] MNone);
               (KStr "encoder", NodeRef "Module" 1)] MNone)).
  reflexivity.
Defined.

(* --------------------------------------------------------------------- *)
(* The leaves and paths [flatten] returns                                 *)
(* --------------------------------------------------------------------- *)

(** [state.get_values()] of what [flatten] returns, or the list itself. *)
Definition flat_values (fs : flat_state) : list leaf :=
  match fs with
  | FlatState _ values => values
  | LeafList values => values
  end.

(** The leaf [_graph_flatten] appends for a Variable: the Variable itself,
    its raw value, or its state. *)
Definition leaf_of (rv : bool) (with_path : bool) (a : addr) (ty : string)
    (raw : payload) (md : list (string * static)) : leaf :=
  if rv then VariableLeaf a
  else if with_path then VariableState ty raw md else RawLeaf raw.

Section FlattenLeaves.
Context (E : PyEnv) (h : heap) (roi : option RefMap) (rv : bool).

(** The leaf [l] is that of a Variable found by the steps [q] from [v]. *)
Definition leaf_at (v : value) (with_path : bool) (q : list key) (l : leaf) : Prop :=
  ∃ a ty raw md,
    reaches E h v q (VRef a) ∧ h !! a = Some (OVar ty raw md)
    ∧ l = leaf_of rv with_path a ty raw md.

(** What a run on [v] with the path [path] adds to the leaves and to the
    paths. *)
Definition leaves_post (v : value) (path : option (list key)) (st : fstate)
    (need : nat) (st' : fstate) : Prop :=
  ∃ Δq Δl,
    leaves st' = leaves st ++ Δl
    ∧ length Δl = need
    ∧ Forall2 (leaf_at v (bool_decide (is_Some path))) Δq Δl
    ∧ match path with
      | Some p0 =>
          ∀ ps, paths st = Some ps →
                paths st' = Some (ps ++ map (fun q => p0 ++ q) Δq)
      | None => paths st' = paths st
      end.

Definition rec_leaves
    (rec : value → NodeImpl → option (list key) → fstate → result (graphdef * fstate))
  : Prop :=
  ∀ v impl path st gd st',
    get_node_impl E h v = Ok (Some impl) →
    rec v impl path st = Ok (gd, st') → leaves_post v path st (demand gd) st'.

Lemma leaves_post_nil v path st : leaves_post v path st 0 st.
Proof.
  exists [], []. rewrite app_nil_r. repeat split; [constructor|].
  destruct path as [p0|]; [|done]. intros ps ->. simpl. by rewrite app_nil_r.
Qed.

Lemma flatten_attr_leaves rec path k v st d st' :
  rec_leaves rec →
  flatten_attr E h roi rv rec path k v st = Ok (d, st') →
  leaves_post v (option_map (fun p => p ++ [k]) path) st (demand d) st'.
Proof.
  intros Hrec. unfold flatten_attr.
  destruct (get_node_impl E h v) as [[impl|]|e] eqn:Himpl; simpl; [| |done].
  { by apply Hrec. }
  destruct v as [s|data|a|ty items aux]; try done.
  - intros [= <- <-]. apply leaves_post_nil.
  - destruct (h !! a) as [[ty attrs aux|ty raw md]|] eqn:Ha; [| |done].
    { intros [= <- <-]. apply leaves_post_nil. }
    destruct (ref_get E h (ref_index st) a) as [i|] eqn:Hget.
    { intros [= <- <-]. apply leaves_post_nil. }
    intros H. apply bind_ok in H as (ps' & Hps & H). injection H as <- <-. simpl.
    exists [[]], [leaf_of rv (bool_decide (is_Some path)) a ty raw md].
    split.
    { unfold leaf_of. destruct rv; [done|]. by destruct path. }
    split; [done|]. split.
    { constructor; [|constructor]. exists a, ty, raw, md.
      split; [constructor|]. split; [done|]. by destruct path. }
    destruct path as [p0|]; simpl in *; [|by injection Hps].
    intros ps Heq. rewrite Heq in Hps. injection Hps as <-. by rewrite app_nil_r.
  - intros [= <- <-]. apply leaves_post_nil.
Qed.

Lemma flatten_attrs_leaves rec path values st ds st' :
  rec_leaves rec →
  flatten_attrs E h roi rv rec path values st = Ok (ds, st') →
  ∃ Δq Δl,
    leaves st' = leaves st ++ Δl
    ∧ length Δl = demand_attrs ds
    ∧ Forall2 (fun q l => ∃ k c q', q = k :: q' ∧ (k, c) ∈ values
                 ∧ leaf_at c (bool_decide (is_Some path)) q' l) Δq Δl
    ∧ match path with
      | Some p0 =>
          ∀ ps, paths st = Some ps →
                paths st' = Some (ps ++ map (fun q => p0 ++ q) Δq)
      | None => paths st' = paths st
      end.
Proof.
  intros Hrec. revert st ds st'.
  induction values as [|[k v] values IH]; intros st ds st'; simpl.
  - intros [= <- <-]. exists [], []. rewrite app_nil_r. repeat split; [constructor|].
    destruct path as [p0|]; [|done]. intros ps ->. simpl. by rewrite app_nil_r.
  - intros H. apply bind_ok in H as ([d st1] & Hx & H).
    apply bind_ok in H as ([ds' st2] & Hx0 & H). injection H as <- <-.
    apply flatten_attr_leaves in Hx as (Δq1 & Δl1 & Hl1 & Hn1 & HF1 & Hp1); [|done].
    apply IH in Hx0 as (Δq2 & Δl2 & Hl2 & Hn2 & HF2 & Hp2).
    exists (map (cons k) Δq1 ++ Δq2), (Δl1 ++ Δl2).
    split; [by rewrite Hl2, Hl1, app_assoc|].
    split; [rewrite length_app; simpl; lia|]. split.
    + apply Forall2_app.
      * apply Forall2_fmap_l. eapply Forall2_impl; [exact HF1|].
        intros q l Hq. exists k, v, q. split; [done|]. split; [by left|].
        by destruct path.
      * eapply Forall2_impl; [exact HF2|].
        intros q l (k' & c & q' & -> & Hin & Hq). exists k', c, q'.
        split; [done|]. split; [by right|done].
    + destruct path as [p0|]; simpl in *; [|congruence].
      intros ps Hps. rewrite (Hp2 _ (Hp1 ps Hps)). f_equal.
      rewrite map_app, app_assoc. f_equal. f_equal.
      rewrite <- list_fmap_compose. apply list_fmap_ext. intros ? q ?. simpl.
      by rewrite <- app_assoc.
Qed.

Lemma leaves_post_node v impl items md path st ds st' :
  get_node_impl E h v = Ok (Some impl) → node_flatten h v = Ok (items, md) →
  (∃ Δq Δl,
    leaves st' = leaves st ++ Δl
    ∧ length Δl = demand_attrs ds
    ∧ Forall2 (fun q l => ∃ k c q', q = k :: q' ∧ (k, c) ∈ items
                 ∧ leaf_at c (bool_decide (is_Some path)) q' l) Δq Δl
    ∧ match path with
      | Some p0 =>
          ∀ ps, paths st = Some ps →
                paths st' = Some (ps ++ map (fun q => p0 ++ q) Δq)
      | None => paths st' = paths st
      end) →
  leaves_post v path st (demand_attrs ds) st'.
Proof.
  intros Himpl Hfl (Δq & Δl & Hl & Hn & HF & Hp).
  exists Δq, Δl. repeat (split; [done|]). split; [|done].
  eapply Forall2_impl; [exact HF|].
  intros q l (k & c & q' & -> & Hin & a & ty & raw & md' & Hr & Ha & ->).
  exists a, ty, raw, md'. split; [|done]. by eapply reaches_step.
Qed.
End FlattenLeaves.

Lemma _graph_flatten_leaves E h roi rv fuel :
  rec_leaves E h rv (_graph_flatten E fuel h roi rv).
Proof.
  induction fuel as [|fuel IH]; intros v impl path st gd st' Himpl; [done|].
  destruct impl as [ty|pty].
  - destruct v as [s|data|a|ty' items aux]; try done.
    destruct (ref_get E h (ref_index st) a) as [i|] eqn:Hget.
    + rewrite (_graph_flatten_seen _ _ _ _ _ _ _ _ _ _ Hget).
      intros H. apply bind_ok in H as (node_ty & _ & [= <- <-]).
      apply leaves_post_nil.
    + rewrite (_graph_flatten_new _ _ _ _ _ _ _ _ _ Hget). cbn zeta.
      intros H. apply bind_ok in H as ([values md] & Hfl & H).
      apply bind_ok in H as ([attributes st2] & Hloop & [= <- <-]).
      apply (flatten_attrs_leaves E h roi rv) in Hloop; [|done].
      rewrite demand_NodeDef.
      exact (leaves_post_node E h rv (VRef a) _ values md path
               (FState _ (leaves st) (paths st)) attributes st2 Himpl Hfl Hloop).
  - rewrite _graph_flatten_pytree.
    intros H. apply bind_ok in H as ([values md] & Hfl & H).
    apply bind_ok in H as ([attributes st2] & Hloop & [= <- <-]).
    apply (flatten_attrs_leaves E h roi rv) in Hloop; [|done].
    rewrite demand_NodeDef.
    by apply (leaves_post_node E h rv v _ values md path st attributes st2 Himpl Hfl).
Qed.

Lemma flatten_leaves_post E fuel h node with_paths rv ri0 roi gd fs ri :
  flatten E fuel h node with_paths rv ri0 roi = Ok (gd, fs, ri) →
  ∃ Δq,
    length (flat_values fs) = demand gd
    ∧ Forall2 (leaf_at E h rv node with_paths) Δq (flat_values fs)
    ∧ fs = if with_paths then FlatState Δq (flat_values fs)
           else LeafList (flat_values fs).
Proof.
  unfold flatten.
  destruct (get_node_impl E h node) as [[impl|]|e] eqn:Himpl; simpl; [|done|done].
  intros H. apply bind_ok in H as ([gd' st] & Hrun & H).
  apply (_graph_flatten_leaves E h roi rv fuel) in Hrun
    as (Δq & Δl & Hl & Hn & HF & Hp); [|done].
  simpl in Hl. exists Δq. destruct with_paths; simpl in *.
  - rewrite (Hp [] eq_refl) in H. injection H as <- <- _. simpl.
    rewrite Hl. repeat split; try done. f_equal.
    rewrite <- (list_fmap_id Δq) at 2. by apply list_fmap_ext.
  - rewrite Hp in H. injection H as <- <- _. simpl. by rewrite Hl.
Qed.

(** X5. [flatten] returns one leaf for every VariableDef of the descriptor it
    returns, so [unflatten] cannot fail on the two together for want or
    excess of leaves, in any store and with any maps. *)
Theorem flatten_leaves_match_descriptor E fuel h node with_paths rv ri0 roi gd fs ri :
  flatten E fuel h node with_paths rv ri0 roi = Ok (gd, fs, ri) →
  length (flat_values fs) = demand gd
  ∧ ∀ h' index_ref0 outer,
      match unflatten E h' gd (Flat fs) index_ref0 outer with
      | Err NotEnoughLeaves | Err (ExtraLeaves _) => False
      | _ => True
      end.
Proof.
  intros Hfl. destruct (flatten_leaves_post _ _ _ _ _ _ _ _ _ _ _ Hfl) as (Δq & Hn & _ & _).
  split; [done|]. intros h' ir outer. rewrite unflatten_unfold.
  assert (leaves_of_state (Flat fs) = Ok (flat_values fs)) as -> by by destruct fs.
  simpl.
  pose proof (unflatten_top_leaf_spec E outer gd
                (UState h' (flat_values fs) (default [] ir))) as H.
  destruct (unflatten_top _ _ _ _) as [[v st]|e]; simpl.
  - destruct H as (c & Hl & Hc & _). simpl in Hl.
    destruct (u_leaves st) as [|x rest]; [done|].
    rewrite Hl, length_app in Hn. simpl in Hn. lia.
  - destruct e; try done. simpl in H. lia.
Qed.

Lemma flatten_leaves_match_descriptor_witness :
  let gd := NodeDef (Cls "Module") 0 None
              [(KStr "bias", VariableDef "Param" 1 None []);
               (KStr "kernel", NodeRef "Param" 1);
               (KStr "layers",
                NodeDef (Cls "list") (-1) None
                  [(KInt 0, VariableDef "Param" 2 None []);
                   (KInt 1, Static (VStatic (SInt 7)))] MNone)] MNone in
  let fs := LeafList [RawLeaf (PData 3); RawLeaf (PData 4)] in
  length (flat_values fs) = demand gd
  ∧ ∀ h' index_ref0 outer,
      match unflatten std_env h' gd (Flat fs) index_ref0 outer with
      | Err NotEnoughLeaves | Err (ExtraLeaves _) => False
      | _ => True
      end.
Proof.
  intros gd fs.
  apply (flatten_leaves_match_descriptor std_env 5 shared_store (VRef 0%nat) false false
           None None gd fs [(0%nat, 0); (1%nat, 1); (2%nat, 2)]).
  reflexivity.
Defined.

Lemma Forall2_exists_l {A B} (R : A → B → Prop) l k :
  Forall2 R l k → Forall (fun y => ∃ x, R x y) k.
Proof. induction 1; constructor; eauto. Qed.

(** X6. With paths, [flatten] returns as many paths as leaves, and the leaf
    at a path is the state of a Variable that the path leads to from the
    root (or that Variable itself, with [return_variables]); without
    paths, every leaf is the raw value of a Variable that some path leads
    to. *)
Theorem flatten_paths_lead_to_leaves E fuel h node with_paths rv ri0 roi gd fs ri :
  flatten E fuel h node with_paths rv ri0 roi = Ok (gd, fs, ri) →
  match fs with
  | FlatState ps ls =>
      with_paths = true
      ∧ Forall2 (fun p l => ∃ a ty raw md,
                   reaches E h node p (VRef a) ∧ h !! a = Some (OVar ty raw md)
                   ∧ l = if rv then VariableLeaf a else VariableState ty raw md) ps ls
  | LeafList ls =>
      with_paths = false
      ∧ Forall (fun l => ∃ p a ty raw md,
                  reaches E h node p (VRef a) ∧ h !! a = Some (OVar ty raw md)
                  ∧ l = if rv then VariableLeaf a else RawLeaf raw) ls
  end.
Proof.
  intros Hfl.
  destruct (flatten_leaves_post _ _ _ _ _ _ _ _ _ _ _ Hfl) as (Δq & _ & HF & Hfs).
  destruct with_paths; rewrite Hfs.
  - split; [done|]. eapply Forall2_impl; [exact HF|].
    intros p l (a & ty & raw & md & Hr & Ha & ->). exists a, ty, raw, md.
    unfold leaf_of. by destruct rv.
  - split; [done|]. apply Forall2_exists_l in HF.
    eapply Forall_impl; [exact HF|].
    intros l (p & a & ty & raw & md & Hr & Ha & ->). exists p, a, ty, raw, md.
    unfold leaf_of. by destruct rv.
Qed.

Lemma flatten_paths_lead_to_leaves_witness :
  let g := VRef 0%nat in
  Forall2 (fun p l => ∃ a ty raw md,
             reaches std_env shared_store g p (VRef a)
             ∧ shared_store !! a = Some (OVar ty raw md)
             ∧ l = VariableState ty raw md)
    [[KStr "bias"]; [KStr "layers"; KInt 0]]
    [VariableState "Param" (PData 3) []; VariableState "Param" (PData 4) []].
Proof.
  intros g.
  pose proof (flatten_paths_lead_to_leaves std_env 5 shared_store g true false None None
                _ _ _ eq_refl) as H.
  simpl in H. exact (proj2 H).
Defined.

(* --------------------------------------------------------------------- *)
(* What [unflatten] leaves alone                                          *)
(* --------------------------------------------------------------------- *)

(** The objects [unflatten] may reuse: those of the outer cache. *)
Definition outer_range (outer : option IndexMap) (a : addr) : Prop :=
  match outer with
  | Some d => a ∈ map snd d
  | None => False
  end.

(** The store grew, and its objects outside the outer cache are as they
    were. *)
Definition frame (outer : option IndexMap) (H H' : heap) : Prop :=
  (length H ≤ length H')%nat
  ∧ ∀ a, (a < length H)%nat → ¬ outer_range outer a → H' !! a = H !! a.

Lemma frame_refl outer H : frame outer H H.
Proof. by split. Qed.

Lemma frame_trans outer H1 H2 H3 :
  frame outer H1 H2 → frame outer H2 H3 → frame outer H1 H3.
Proof.
  intros [Hl1 Hf1] [Hl2 Hf2]. split; [lia|].
  intros a Ha Hout. rewrite Hf2, Hf1; [done..|lia|done].
Qed.

Lemma frame_app outer (H ext : heap) : frame outer H (H ++ ext).
Proof.
  split; [rewrite length_app; lia|]. intros a Ha _. by apply lookup_app_l.
Qed.

Lemma outer_lookup_range outer oi a : outer_lookup outer oi = Some a → outer_range outer a.
Proof.
  destruct outer as [d|], oi as [i|]; simpl; try done.
  intros Hget. apply (dict_get_Some_in Z.eqb _ _ _ Z_eqb_spec) in Hget.
  apply list_elem_of_fmap. by exists (i, a).
Qed.

Lemma frame_insert_outer outer (H : heap) oi a o :
  outer_lookup outer oi = Some a → frame outer H (<[a := o]> H).
Proof.
  intros Hr%outer_lookup_range. split; [by rewrite length_insert|].
  intros a' Ha' Hout. apply list_lookup_insert_ne. by intros ->.
Qed.

Lemma frame_insert_new outer (H0 H : heap) node o :
  (length H0 ≤ node)%nat → frame outer H0 H → frame outer H0 (<[node := o]> H).
Proof.
  intros Hn [Hl Hf]. split; [by rewrite length_insert|].
  intros a Ha Hout. rewrite list_lookup_insert_ne by lia. by apply Hf.
Qed.

Section UnflattenFrame.
Context (E : PyEnv) (outer : option IndexMap).
Context (rec : graphdef → NodeImpl → ustate → result (value * ustate)).

Lemma unflatten_attr_frame d st v st' :
  (∀ impl st v st', rec d impl st = Ok (v, st') → frame outer (u_heap st) (u_heap st')) →
  unflatten_attr E outer rec d st = Ok (v, st') →
  frame outer (u_heap st) (u_heap st').
Proof.
  intros Hrec. destruct d as [ty i oi attrs md|ty i|ty i oi md|w]; simpl.
  - destruct (get_node_impl_for_type E ty); [apply Hrec|done].
  - destruct (idx_get (index_ref st) i); [|done]. intros [= <- <-]. apply frame_refl.
  - destruct (u_leaves st) as [|l ls]; [done|].
    destruct (outer_lookup outer oi) as [a|] eqn:Hout.
    + destruct (u_heap st !! a) as [o|]; [|done].
      intros H. apply bind_ok in H as (o' & _ & [= <- <-]). simpl.
      by eapply frame_insert_outer.
    + intros [= <- <-]. simpl. apply frame_app.
  - intros [= <- <-]. apply frame_refl.
Qed.

Lemma unflatten_attrs_frame attrs :
  Forall (fun kd => ∀ impl st v st',
            rec kd.2 impl st = Ok (v, st') → frame outer (u_heap st) (u_heap st')) attrs →
  ∀ st vs st',
    unflatten_attrs E outer rec attrs st = Ok (vs, st') →
    frame outer (u_heap st) (u_heap st').
Proof.
  induction 1 as [|[k d] attrs Hd _ IH]; intros st vs st'; simpl.
  - intros [= <- <-]. apply frame_refl.
  - intros H. apply bind_ok in H as ([child st1] & Hx & H).
    apply bind_ok in H as ([children st2] & Hx0 & [= <- <-]).
    eapply frame_trans; [by eapply unflatten_attr_frame|by eapply IH].
Qed.
End UnflattenFrame.

Lemma _graph_unflatten_frame E outer gd :
  ∀ impl st v st',
    _graph_unflatten E outer gd impl st = Ok (v, st') →
    frame outer (u_heap st) (u_heap st').
Proof.
  induction gd as [ty i oi attrs md IH|ty i|ty i oi md|w] using graphdef_ind';
    intros impl st v st'; simpl; try done.
  - destruct (dict_mem Z.eqb (index_ref st) i); [done|].
    pose proof (unflatten_attrs_frame E outer (_graph_unflatten E outer) attrs IH)
      as Hattrs.
    destruct impl as [name|pty].
    + intros H. apply bind_ok in H as ([node h1] & Hnode & H).
      apply bind_ok in H as ([children st2] & Hch & H).
      apply Hattrs in Hch. simpl in Hch.
      destruct (u_heap st2 !! node) as [o|]; [|done].
      apply bind_ok in H as (o' & _ & [= <- <-]). simpl.
      destruct (outer_lookup outer oi) as [a|] eqn:Hout.
      * destruct (u_heap st !! a) as [o0|]; [|done].
        destruct (type_matches o0 ty); [|done].
        apply bind_ok in Hnode as (o1 & _ & [= <- <-]).
        eapply frame_trans; [by eapply frame_insert_outer|].
        eapply frame_trans; [exact Hch|]. by eapply frame_insert_outer.
      * injection Hnode as <- <-.
        apply frame_insert_new; [done|].
        eapply frame_trans; [apply frame_app|exact Hch].
    + intros H. apply bind_ok in H as ([children st2] & Hch & H).
      apply bind_ok in H as (node & _ & [= <- <-]). by apply Hattrs in Hch.
  - destruct (idx_get (index_ref st) i); [|done]. intros [= <- <-]. apply frame_refl.
Qed.

(** X7. [unflatten] writes to new objects and to the objects of the outer
    cache only: the store it leaves is no shorter, and every other object
    is as it was. Without an outer cache no object of the store changes. *)
Theorem unflatten_frame E h gd state index_ref0 outer node h' index_ref' :
  unflatten E h gd state index_ref0 outer = Ok (node, h', index_ref') →
  (length h ≤ length h')%nat
  ∧ ∀ a o, h !! a = Some o → ¬ outer_range outer a → h' !! a = Some o.
Proof.
  rewrite unflatten_unfold. intros H.
  apply bind_ok in H as (ls & _ & H). apply bind_ok in H as ([v st] & Hrun & H).
  destruct (u_leaves st); [|done]. injection H as <- <- <-.
  assert (frame outer h (u_heap st)) as [Hl Hf].
  { unfold unflatten_top in Hrun.
    destruct gd as [ty i oi attrs md|ty i|ty i oi md|w]; try done.
    - destruct (get_node_impl_for_type E ty); [|done].
      by apply _graph_unflatten_frame in Hrun.
    - simpl in Hrun. destruct (idx_get (default [] index_ref0) i); [|done].
      injection Hrun as <- <-. apply frame_refl. }
  split; [done|]. intros a o Ha Hout. rewrite Hf; [done| |done].
  by apply lookup_lt_Some in Ha.
Qed.

Lemma unflatten_frame_witness :
  let gd := NodeDef (Cls "Module") 0 (Some 0)
              [(KStr "w", VariableDef "Param" 1 None [])] MNone in
  let h := [ONode "Module" [(KStr "old", VStatic (SInt 1))] MNone;
            OVar "Param" (PData 3) []] in
  let outer := Some [(0, 0%nat)] in
  let h' := [ONode "Module" [(KStr "w", VRef 2%nat)] MNone;
             OVar "Param" (PData 3) [];
             OVar "Param" (PData 9) []] in
  (length h ≤ length h')%nat
  ∧ ∀ a o, h !! a = Some o → ¬ outer_range outer a → h' !! a = Some o.
Proof.
  intros gd h outer h'.
  exact (unflatten_frame std_env h gd (Flat (LeafList [RawLeaf (PData 9)]))
           None outer (VRef 0%nat) h' [(0, 0%nat); (1, 2%nat)] eq_refl).
Defined.

(* --------------------------------------------------------------------- *)
(* The map of a fingerprint and the map of [flatten]                      *)
(* --------------------------------------------------------------------- *)

Lemma ref_get_app E h (ri nri : RefMap) a :
  ref_get E h (ri ++ nri) a
  = match ref_get E h ri a with
    | Some i => Some i
    | None => ref_get E h nri a
    end.
Proof.
  unfold ref_get. destruct (dict_get (ref_eqb E h) ri a) as [i|] eqn:Hg.
  - by apply dict_get_app_Some.
  - by apply dict_get_app_None.
Qed.

Section FingerprintFlatten.
Context (E : PyEnv) (h : heap) (ri : RefMap) (roi : option RefMap) (rv : bool).

(** The two traversals in step: the map of [flatten] is the given map
    followed by the new map of the fingerprint, which is what
    [ref_index.update(new_ref_index)] makes of the two. *)
Definition in_step (st : fstate) (fst : fpstate) : Prop :=
  ref_index st = ri ++ new_ref_index fst
  ∧ next_index fst = dict_len (ref_index st)
  ∧ dict_update (ref_eqb E h) ri (new_ref_index fst) = ri ++ new_ref_index fst.

Definition paths_ready (path : option (list key)) (st : fstate) : Prop :=
  is_Some path → is_Some (paths st).

Definition step_post {A B} (st : fstate) (r1 : result (A * fstate))
    (r2 : result (B * fpstate)) : Prop :=
  match r1, r2 with
  | Ok (_, st'), Ok (_, fst') =>
      in_step st' fst' ∧ (is_Some (paths st) → is_Some (paths st'))
  | Err _, Err _ => True
  | _, _ => False
  end.

Context (rec1 : value → NodeImpl → option (list key) → fstate
                → result (graphdef * fstate)).
Context (rec2 : value → NodeImpl → fpstate → result (fingerprint_t * fpstate)).
Hypothesis Hrec : ∀ v impl path st fst,
  in_step st fst → paths_ready path st →
  step_post st (rec1 v impl path st) (rec2 v impl fst).

Lemma in_step_add st fst a :
  in_step st fst → ref_get E h (ref_index st) a = None →
  in_step (FState (ref_set E h (ref_index st) a (dict_len (ref_index st)))
                  (leaves st) (paths st))
          (FpState (ref_set E h (new_ref_index fst) a (next_index fst))
                   (next_index fst + 1)).
Proof.
  intros (Hri & Hnext & Hup) Hget.
  assert (ref_get E h (new_ref_index fst) a = None) as Hn.
  { rewrite Hri, ref_get_app in Hget. by destruct (ref_get E h ri a). }
  unfold ref_set. rewrite (dict_set_absent _ _ _ _ Hget), (dict_set_absent _ _ _ _ Hn).
  unfold in_step. simpl. split; [|split].
  - rewrite Hnext, app_assoc. by f_equal.
  - unfold dict_len in *. rewrite Hnext, length_app. simpl. lia.
  - unfold dict_update in *. rewrite foldl_app, Hup. simpl.
    rewrite <- Hri. rewrite (dict_set_absent _ _ _ _ Hget).
    by rewrite Hri, <- app_assoc.
Qed.

Lemma flatten_attr_in_step path k v st fst :
  in_step st fst → paths_ready path st →
  step_post st (flatten_attr E h roi rv rec1 path k v st)
               (fingerprint_attr E h ri rec2 k v fst).
Proof.
  intros Hstep Hready. unfold flatten_attr, fingerprint_attr.
  destruct (get_node_impl E h v) as [[impl|]|e]; simpl; [| |done].
  { assert (paths_ready (option_map (fun p => p ++ [k]) path) st) as Hready'.
    { intros Hs. apply Hready. by destruct path. }
    pose proof (Hrec v impl _ st fst Hstep Hready') as H.
    destruct (rec1 v impl _ st) as [[gd st']|e1];
      destruct (rec2 v impl fst) as [[fp fst']|e2]; done. }
  destruct v as [s|data|a|ty items aux]; try done.
  destruct (h !! a) as [[ty attrs aux|ty raw md]|]; try done.
  pose proof Hstep as (Hri & Hnext & Hup).
  destruct (ref_get E h (ref_index st) a) as [i|] eqn:Hget.
  - rewrite Hri, ref_get_app in Hget.
    destruct (ref_get E h ri a) as [j|]; [done|]. by rewrite Hget.
  - pose proof (in_step_add st fst a Hstep Hget) as Hadd.
    rewrite Hri, ref_get_app in Hget.
    destruct (ref_get E h ri a) as [j|]; [done|]. rewrite Hget.
    destruct path as [p0|]; simpl.
    + destruct (Hready (ltac:(eauto))) as [ps Hps]. rewrite Hps. simpl.
      split; [exact Hadd|]. eauto.
    + split; [exact Hadd|]. done.
Qed.

Lemma flatten_attrs_in_step path values st fst :
  in_step st fst → paths_ready path st →
  step_post st (flatten_attrs E h roi rv rec1 path values st)
               (fingerprint_attrs E h ri rec2 values fst).
Proof.
  revert st fst. induction values as [|[k v] values IH]; intros st fst Hstep Hready;
    simpl; [done|].
  pose proof (flatten_attr_in_step path k v st fst Hstep Hready) as H1.
  destruct (flatten_attr E h roi rv rec1 path k v st) as [[d st1]|e1];
    destruct (fingerprint_attr E h ri rec2 k v fst) as [[fa fst1]|e2];
    simpl in *; try done.
  destruct H1 as [Hstep1 Hp1].
  assert (paths_ready path st1) as Hready1 by (intros Hs; auto).
  pose proof (IH st1 fst1 Hstep1 Hready1) as H2.
  destruct (flatten_attrs E h roi rv rec1 path values st1) as [[ds st2]|e1];
    destruct (fingerprint_attrs E h ri rec2 values fst1) as [[fas fst2]|e2];
    simpl in *; try done.
  destruct H2 as [Hstep2 Hp2]. split; [done|]. auto.
Qed.
End FingerprintFlatten.

Lemma _graph_flatten_in_step E h ri roi rv fuel :
  ∀ v impl path st fst,
    in_step E h ri st fst → paths_ready path st →
    step_post E h ri st (_graph_flatten E fuel h roi rv v impl path st)
                        (_graph_fingerprint E fuel h ri v impl fst).
Proof.
  induction fuel as [|fuel IH]; intros v impl path st fst Hstep Hready; [done|].
  destruct impl as [ty|pty].
  - destruct v as [s|data|a|ty' items aux]; try done.
    rewrite _graph_fingerprint_graph.
    pose proof Hstep as (Hri & Hnext & Hup).
    destruct (ref_get E h (ref_index st) a) as [i|] eqn:Hget.
    + rewrite (_graph_flatten_seen _ _ _ _ _ _ _ _ _ _ Hget).
      rewrite Hri, ref_get_app in Hget.
      destruct (ref_get E h ri a) as [j|].
      * destruct (type_of h (VRef a)); done.
      * rewrite Hget. destruct (type_of h (VRef a)); done.
    + rewrite (_graph_flatten_new _ _ _ _ _ _ _ _ _ Hget). cbn zeta.
      pose proof (in_step_add E h ri st fst a Hstep Hget) as Hadd.
      rewrite Hri, ref_get_app in Hget.
      destruct (ref_get E h ri a) as [j|]; [done|]. rewrite Hget.
      destruct (node_flatten h (VRef a)) as [[values md]|e]; simpl; [|done].
      match type of Hadd with
      | in_step _ _ _ ?st1 ?fst1 =>
          pose proof (flatten_attrs_in_step E h ri roi rv _ _ IH path values st1 fst1
                        Hadd Hready) as H
      end.
      destruct (flatten_attrs E h roi rv _ path values _) as [[ds st2]|e1];
        destruct (fingerprint_attrs E h ri _ values _) as [[fas fst2]|e2];
        simpl in *; done.
  - rewrite _graph_flatten_pytree, _graph_fingerprint_pytree.
    destruct (node_flatten h v) as [[values md]|e]; simpl; [|done].
    pose proof (flatten_attrs_in_step E h ri roi rv _ _ IH path values st fst
                  Hstep Hready) as H.
    destruct (flatten_attrs E h roi rv _ path values _) as [[ds st2]|e1];
      destruct (fingerprint_attrs E h ri _ values _) as [[fas fst2]|e2];
      simpl in *; done.
Qed.

Lemma in_step_init E h (ri : RefMap) ls ps :
  in_step E h ri (FState ri ls ps) (FpState [] (dict_len ri + dict_len ([] : RefMap))).
Proof.
  unfold in_step, dict_len. simpl. rewrite app_nil_r. repeat split. lia.
Qed.

Lemma paths_ready_init (with_paths : bool) (ri : RefMap) ls :
  paths_ready (if with_paths then Some [] else None)
              (FState ri ls (if with_paths then Some [] else None)).
Proof. intros Hs. by destruct with_paths. Qed.

(** X8. A fingerprint registers the objects [flatten] would register, with
    the same indices: [flatten] and [fingerprint] with the same
    [ref_index] both fail or both return, and the map [flatten] leaves is
    the given map updated with the [new_ref_index] of the fingerprint,
    which is how [SplitContext.flatten] brings its map up to date when it
    takes the descriptor from its cache. *)
Theorem fingerprint_registers_as_flatten E fuel h node with_paths rv ref_index0 roi :
  match flatten E fuel h node with_paths rv ref_index0 roi,
        fingerprint E fuel h node ref_index0 None with
  | Ok (_, _, ri'), Ok (_, nri) =>
      ri' = dict_update (ref_eqb E h) (default [] ref_index0) nri
      ∧ ri' = default [] ref_index0 ++ nri
  | Err _, Err _ => True
  | _, _ => False
  end.
Proof.
  unfold flatten, fingerprint.
  destruct (get_node_impl E h node) as [[impl|]|e]; simpl; [|done|done].
  set (ri := default [] ref_index0).
  match goal with
  | |- context [_graph_flatten E fuel h roi rv node impl ?p ?st] =>
      pose proof (_graph_flatten_in_step E h ri roi rv fuel node impl p st
                    (FpState [] (dict_len ri + dict_len ([] : RefMap)))) as H
  end.
  destruct (_graph_flatten E fuel h roi rv node impl _ _) as [[gd st]|e1];
    destruct (_graph_fingerprint E fuel h ri node impl _) as [[fp fst]|e2];
    simpl in *.
  - destruct H as [(Hri & Hnext & Hup) _].
    + apply in_step_init.
    + apply paths_ready_init.
    + destruct (paths st); simpl; by rewrite Hup, Hri.
  - exfalso. apply H; [apply in_step_init|apply paths_ready_init].
  - exfalso. apply H; [apply in_step_init|apply paths_ready_init].
  - done.
Qed.

(* --------------------------------------------------------------------- *)
(* The stacks of update contexts                                          *)
(* --------------------------------------------------------------------- *)

(** What the context managers raise next to the errors of the traversals. *)
Inductive exn :=
| GraphError (e : error)
| NoUpdateContext (tag : string)        (* ValueError, [current_update_context] *)
| NoUpdateContextStack (tag : string)   (* RuntimeError, [__exit__] *)
| IndexError                            (* [stack.pop()], [stack[-1]] of an empty list *)
| AlreadyRegistered (type : string)     (* ValueError: Node type ... is already registered. *)
| NoAxisFound.                          (* ValueError: No axis found for ... *)

Inductive outcome (A : Type) :=
| Return (a : A)
| Raise (e : exn).
Arguments Return {A} a.
Arguments Raise {A} e.

(** [GRAPH_CONTEXT.update_context_stacks]: for every tag the contexts that
    are open, the innermost last. *)
Abbreviation Stacks := (list (string * list UpdateContext)).

(** [del d[k]] *)
Definition dict_del {K V} (eqb : K → K → bool) (d : list (K * V)) (k : K) : list (K * V) :=
  List.filter (fun kv => negb (eqb kv.1 k)) d.

Module UpdateContextManager.

(** [__enter__]: returns the new context and the stacks with it. *)
Definition enter (tag : string) (stacks : Stacks) : UpdateContext * Stacks :=
  let ctx := new_context in
  match dict_get String.eqb stacks tag with
  | None => (ctx, dict_set String.eqb stacks tag [ctx])
  | Some stack => (ctx, dict_set String.eqb stacks tag (stack ++ [ctx]))
  end.

(** [__exit__]: pops the innermost context of the tag, whose four maps are
    deleted, and forgets the tag when no context of it is left. *)
Definition exit (tag : string) (stacks : Stacks) : outcome Stacks :=
  match dict_get String.eqb stacks tag with
  | None => Raise (NoUpdateContextStack tag)
  | Some stack =>
      match reverse stack with
      | [] => Raise IndexError
      | ctx :: rest =>
          let stack := reverse rest in
          match stack with
          | [] => Return (dict_del String.eqb stacks tag)
          | _ :: _ => Return (dict_set String.eqb stacks tag stack)
          end
      end
  end.
End UpdateContextManager.

Definition current_update_context (tag : string) (stacks : Stacks)
  : outcome UpdateContext :=
  match dict_get String.eqb stacks tag with
  | None => Raise (NoUpdateContext tag)
  | Some stack =>
      match last stack with
      | Some ctx => Return ctx
      | None => Raise IndexError
      end
  end.

(** Every tag of the dict has an open context. *)
Definition stacks_ok (stacks : Stacks) : Prop := Forall (fun kv => kv.2 ≠ []) stacks.

Lemma String_eqb_spec (a b : string) : String.eqb a b = true ↔ a = b.
Proof. apply String.eqb_eq. Qed.

Lemma dict_del_absent {K V} (eqb : K → K → bool) (d : list (K * V)) k :
  (∀ a b, eqb a b = true ↔ a = b) →
  dict_get eqb d k = None → dict_del eqb d k = d.
Proof.
  intros Hspec. unfold dict_del. induction d as [|[k0 v0] d IH]; simpl; [done|].
  destruct (eqb k0 k) eqn:Ek; [done|]. intros H. simpl. by rewrite IH.
Qed.

Lemma dict_del_snoc {K V} (eqb : K → K → bool) (d : list (K * V)) k v :
  (∀ a b, eqb a b = true ↔ a = b) →
  dict_get eqb d k = None → dict_del eqb (d ++ [(k, v)]) k = d.
Proof.
  intros Hspec Hnone. unfold dict_del. rewrite List.filter_app. simpl.
  rewrite (proj2 (Hspec k k) eq_refl). simpl. rewrite app_nil_r.
  by apply (dict_del_absent eqb d k Hspec).
Qed.

Lemma dict_set_set {K V} (eqb : K → K → bool) (d : list (K * V)) k v v' :
  (∀ a b, eqb a b = true ↔ a = b) →
  dict_get eqb d k = Some v →
  dict_set eqb (dict_set eqb d k v') k v = d.
Proof.
  intros Hspec. induction d as [|[k0 v0] d IH]; simpl; [done|].
  destruct (eqb k0 k) eqn:Ek; simpl.
  - rewrite Ek. intros [= ->]. apply Hspec in Ek as ->. done.
  - rewrite Ek. intros H. by rewrite IH.
Qed.

Lemma dict_get_Forall {K V} (eqb : K → K → bool) (P : V → Prop) (d : list (K * V)) k v :
  Forall (fun kv => P kv.2) d → dict_get eqb d k = Some v → P v.
Proof.
  induction 1 as [|[k0 v0] d H0 _ IH]; simpl; [done|].
  destruct (eqb k0 k); [by intros [= <-]|done].
Qed.

(** X9. Entering and leaving update contexts is a stack discipline. While
    every tag of the dict has an open context: entering a context keeps
    it so and makes the new context the current one of its tag; leaving it
    again gives back the stacks as they were, so the context that was
    current before is current again; whatever [__exit__] returns has an
    open context for every tag it still holds; and
    [current_update_context] returns for every tag of the dict. Without
    an entry for the tag, [__exit__] and [current_update_context]
    raise. *)
Theorem update_context_stack_discipline tag (stacks : Stacks) :
  stacks_ok stacks →
  stacks_ok (UpdateContextManager.enter tag stacks).2
  ∧ current_update_context tag (UpdateContextManager.enter tag stacks).2
    = Return new_context
  ∧ UpdateContextManager.exit tag (UpdateContextManager.enter tag stacks).2
    = Return stacks
  ∧ (∀ stacks', UpdateContextManager.exit tag stacks = Return stacks' →
       stacks_ok stacks')
  ∧ (∀ stack, dict_get String.eqb stacks tag = Some stack →
       ∃ ctx, current_update_context tag stacks = Return ctx ∧ last stack = Some ctx)
  ∧ (dict_get String.eqb stacks tag = None →
       UpdateContextManager.exit tag stacks = Raise (NoUpdateContextStack tag)
       ∧ current_update_context tag stacks = Raise (NoUpdateContext tag)).
Proof.
  intros Hok. unfold UpdateContextManager.enter, UpdateContextManager.exit,
    current_update_context.
  destruct (dict_get String.eqb stacks tag) as [stack|] eqn:Hget; simpl.
  - assert (stack ≠ []) as Hne.
    { exact (dict_get_Forall String.eqb (fun s => s ≠ []) _ _ _ Hok Hget). }
    rewrite (dict_get_set String.eqb String_eqb_spec).
    rewrite (proj2 (String_eqb_spec tag tag) eq_refl).
    rewrite last_snoc, reverse_snoc, reverse_involutive.
    split; [|split; [done|split; [|split; [|split]]]].
    + apply (dict_set_Forall String.eqb (fun s => s ≠ [])); [done|].
      by destruct stack.
    + destruct stack as [|c stack]; [done|].
      by rewrite (dict_set_set String.eqb _ _ _ _ String_eqb_spec Hget).
    + intros stacks'. destruct (reverse stack) as [|ctx rest] eqn:Hrev; [done|].
      destruct (reverse rest) as [|c rest'] eqn:Hrest.
      * intros [= <-]. unfold stacks_ok, dict_del. unfold stacks_ok in Hok.
        rewrite Forall_forall in *. intros kv Hin.
        apply list_elem_of_In, List.filter_In in Hin as [Hin _].
        apply Hok. by apply list_elem_of_In.
      * intros [= <-].
        by apply (dict_set_Forall String.eqb (fun s => s ≠ [])).
    + intros stack' [= <-]. destruct (last stack) as [ctx|] eqn:Hlast; [by exists ctx|].
      apply last_None in Hlast. done.
    + done.
  - rewrite (dict_set_absent _ _ _ _ Hget).
    rewrite (dict_get_app_None String.eqb _ _ _ Hget). simpl.
    rewrite (proj2 (String_eqb_spec tag tag) eq_refl). simpl.
    split; [|split; [done|split; [|split; [|split]]]]; try done.
    + apply Forall_app. split; [done|]. by repeat constructor.
    + by rewrite (dict_del_snoc String.eqb _ _ _ String_eqb_spec Hget).
Qed.

Lemma update_context_stack_discipline_witness :
  let stacks := [("jit", [new_context])] in
  UpdateContextManager.exit "jit" (UpdateContextManager.enter "jit" stacks).2
  = Return stacks
  ∧ UpdateContextManager.exit "vmap" (UpdateContextManager.enter "vmap" stacks).2
    = Return stacks.
Proof.
  intros stacks.
  assert (stacks_ok stacks) as Hok by (repeat constructor; discriminate).
  split.
  - exact (proj1 (proj2 (proj2 (update_context_stack_discipline "jit" stacks Hok)))).
  - exact (proj1 (proj2 (proj2 (update_context_stack_discipline "vmap" stacks Hok)))).
Defined.

(* --------------------------------------------------------------------- *)
(* Split and merge contexts: one index space for several graphs           *)
(* --------------------------------------------------------------------- *)

Definition lift {A} (r : result A) : outcome A :=
  match r with
  | Ok a => Return a
  | Err e => Raise (GraphError e)
  end.

(** [current_update_context(self.ctxtag) if self.ctxtag is not None else None] *)
Definition context_of (ctxtag : option string) (stacks : Stacks)
  : outcome (option UpdateContext) :=
  match ctxtag with
  | Some tag =>
      match current_update_context tag stacks with
      | Return ctx => Return (Some ctx)
      | Raise e => Raise e
      end
  | None => Return None
  end.

Module SplitContext.
Record t := {
  ctxtag : option string;
  ref_index : RefMap
}.

(** [SplitContext.flatten] without filters and without a cache context;
    returns the context with its [ref_index] as the call leaves it. *)
Definition flatten (E : PyEnv) (fuel : nat) (stacks : Stacks) (self : t)
    (h : heap) (node : value) (with_paths : bool)
  : outcome (graphdef * flat_state * t) :=
  match context_of (ctxtag self) stacks with
  | Raise e => Raise e
  | Return ctx =>
      let ref_outer_index :=
        match ctx with
        | Some ctx => inner_ref_outer_index ctx
        | None => None
        end in
      match lift (flatten E fuel h node with_paths false (Some (ref_index self))
                    ref_outer_index) with
      | Raise e => Raise e
      | Return (graphdef, flat_state, ri) =>
          Return (graphdef, flat_state, {| ctxtag := ctxtag self; ref_index := ri |})
      end
  end.
End SplitContext.

Module MergeContext.
Record t := {
  ctxtag : option string;
  index_ref : IndexMap
}.

(** [MergeContext.unflatten] on a list of leaves, without a cache
    context; returns the node with the store and the context as the call
    leaves them. *)
Definition unflatten (E : PyEnv) (stacks : Stacks) (self : t)
    (h : heap) (graphdef : graphdef) (flat_state : list leaf)
  : outcome (value * heap * t) :=
  match context_of (ctxtag self) stacks with
  | Raise e => Raise e
  | Return ctx =>
      let state := Flat (LeafList flat_state) in
      let outer :=
        match graphdef with
        | NodeRef _ _ => None
        | _ => match ctx with
               | Some ctx => outer_index_outer_ref ctx
               | None => None
               end
        end in
      match lift (unflatten E h graphdef state (Some (index_ref self)) outer) with
      | Raise e => Raise e
      | Return (node, h', ir) =>
          Return (node, h', {| ctxtag := ctxtag self; index_ref := ir |})
      end
  end.
End MergeContext.

Lemma flatten_unflatten_from E fuel h node with_paths roi ri0 gd fs ri H ir0 :
  identity_keys E → registry_ok E → store_ok E h = true → value_ok E node = true →
  ri_ok h ri0 → synced ri0 ir0 →
  flatten E fuel h node with_paths false (Some ri0) roi = Ok (gd, fs, ri) →
  ∃ Δri node' hext Δir,
    ri = ri0 ++ Δri ∧ ri_ok h ri
    ∧ unflatten E H gd (Flat fs) (Some ir0) None = Ok (node', H ++ hext, ir0 ++ Δir)
    ∧ upost E h H ir0 Δri ri hext Δir (fun φ => vrel E h φ node node').
Proof.
  intros Hid Hreg Hok Hv Hri0 Hs0 Hfl. unfold flatten in Hfl.
  apply bind_ok in Hfl as (oimpl & Himpl & Hfl).
  destruct oimpl as [impl|]; [|done].
  apply bind_ok in Hfl as ([gd' st] & Hrun & Hfl).
  pose proof (_graph_flatten_desc _ _ _ _ _ _ _ _ _ _ _ Hrun) as Hdesc.
  apply (_graph_flatten_sim E h roi fuel Hid Hreg Hok) in Hrun
    as (Δri & Δl & Hri & Hl & Hok' & Hsim); [|done|done|done].
  simpl in Hri, Hl.
  assert (gd' = gd ∧ ref_index st = ri
          ∧ leaves_of_state (Flat fs) = Ok (leaves st)) as (-> & <- & Hls).
  { destruct (paths st); by injection Hfl as <- <- <-. }
  destruct (Hsim H [] ir0 Hs0) as (node' & hext & Δir & Hu & Hp).
  rewrite app_nil_r in Hu.
  exists Δri, node', hext, Δir. split; [done|]. split; [done|]. split; [|done].
  rewrite unflatten_unfold, Hls. simpl. rewrite Hl.
  by rewrite (unflatten_top_attr _ _ _ _ Hdesc Hu).
Qed.

Lemma upost_copies E h ri hext ir (R : (addr → option addr) → Prop) :
  ri_ok h ri → upost E h h [] ri ri hext ir R →
  copies E h (copy_of ri ir) (h ++ hext) ∧ R (copy_of ri ir).
Proof.
  intros Hri (Hk & Hr & Hn & Hp). simpl in Hp.
  destruct (Hp (copy_of ri ir) (copy_of_covers h _ _ Hri)) as [Hrel Hcomp].
  split; [|done]. split; [by exists hext|]. split.
  - intros a a' (i & Hin & Hi)%copy_of_inv.
    destruct (Hcomp a i Hin) as (a'' & o & o' & Hi' & Hlo & Ha & Ha' & Ho).
    assert (a'' = a') as -> by congruence.
    split; [done|]. by exists o, o'.
  - intros a b a' (i & Hin & Hi)%copy_of_inv (j & Hjn & Hj)%copy_of_inv.
    apply (dict_get_Some_in Z.eqb _ _ _ Z_eqb_spec) in Hi, Hj.
    pose proof (NoDup_snd_inj _ _ _ _ Hn Hi Hj) as ->.
    by eapply ri_ok_index_inj.
Qed.

(** X10. Two graphs flattened in one split context and rebuilt in one merge
    context, in a store in which objects hash by identity. Both calls of
    [MergeContext.unflatten] return, each result is structurally equal
    to the graph it was flattened from, and the two results share exactly
    what the two graphs shared: where an object stood in both graphs, one
    object stands in both results, and an object that stands in both
    results stands where one object stood in both graphs. *)
Theorem shared_index_space_round_trip E fuel stacks h g1 g2 gd1 l1 sc1 gd2 l2 sc2 :
  identity_keys E → registry_ok E → store_ok E h = true →
  value_ok E g1 = true → value_ok E g2 = true →
  SplitContext.flatten E fuel stacks
    {| SplitContext.ctxtag := None; SplitContext.ref_index := [] |} h g1 false
  = Return (gd1, LeafList l1, sc1) →
  SplitContext.flatten E fuel stacks sc1 h g2 false = Return (gd2, LeafList l2, sc2) →
  ∃ g1' h1 mc1 g2' h2 mc2,
    MergeContext.unflatten E stacks
      {| MergeContext.ctxtag := None; MergeContext.index_ref := [] |} h gd1 l1
    = Return (g1', h1, mc1)
    ∧ MergeContext.unflatten E stacks mc1 h1 gd2 l2 = Return (g2', h2, mc2)
    ∧ structurally_equal E h g1 h2 g1'
    ∧ structurally_equal E h g2 h2 g2'
    ∧ (∀ p1 p2 x, reaches_pos E h g1 p1 (VRef x) → reaches_pos E h g2 p2 (VRef x) →
         ∃ x', reaches_pos E h2 g1' p1 (VRef x') ∧ reaches_pos E h2 g2' p2 (VRef x'))
    ∧ (∀ p1 p2 x1 x2 x',
         reaches_pos E h g1 p1 (VRef x1) → reaches_pos E h g2 p2 (VRef x2) →
         reaches_pos E h2 g1' p1 (VRef x') → reaches_pos E h2 g2' p2 (VRef x') →
         x1 = x2).
Proof.
  intros Hid Hreg Hok Hv1 Hv2 Hf1 Hf2.
  unfold SplitContext.flatten in Hf1. simpl in Hf1.
  destruct (flatten E fuel h g1 false false (Some []) None)
    as [[[gd1' fs1] ri1]|e] eqn:Hfl1; simpl in Hf1; [|done].
  injection Hf1 as -> -> <-.
  unfold SplitContext.flatten in Hf2. simpl in Hf2.
  destruct (flatten E fuel h g2 false false (Some ri1) None)
    as [[[gd2' fs2] ri2]|e] eqn:Hfl2; simpl in Hf2; [|done].
  injection Hf2 as -> -> <-.
  destruct (flatten_unflatten_from E fuel h g1 false None [] gd1 _ ri1 h []
              Hid Hreg Hok Hv1 (ri_ok_nil h) eq_refl Hfl1)
    as (Δ1 & g1' & hext1 & Δir1 & Hri1 & Hok1 & Hun1 & Hp1).
  simpl in Hri1, Hun1. subst Δ1.
  assert (synced ri1 Δir1) as Hs1 by by destruct Hp1 as (Hk & _).
  destruct (flatten_unflatten_from E fuel h g2 false None ri1 gd2 _ ri2 (h ++ hext1) Δir1
              Hid Hreg Hok Hv2 Hok1 Hs1 Hfl2)
    as (Δ2 & g2' & hext2 & Δir2 & Hri2 & Hok2 & Hun2 & Hp2).
  exists g1', (h ++ hext1), {| MergeContext.ctxtag := None; MergeContext.index_ref := Δir1 |},
    g2', ((h ++ hext1) ++ hext2),
    {| MergeContext.ctxtag := None; MergeContext.index_ref := Δir1 ++ Δir2 |}.
  assert (match gd1 with NodeRef _ _ => None | _ => @None IndexMap end = None) as Ho1
    by by destruct gd1.
  assert (match gd2 with NodeRef _ _ => None | _ => @None IndexMap end = None) as Ho2
    by by destruct gd2.
  split. { unfold MergeContext.unflatten. simpl. by rewrite Ho1, Hun1. }
  split. { unfold MergeContext.unflatten. simpl. by rewrite Ho2, Hun2. }
  subst ri2.
  pose proof (upost_seq E h h [] ri1 ri1 hext1 Δir1 Δ2 hext2 Δir2 _ _
                (fun φ => vrel E h φ g1 g1' ∧ vrel E h φ g2 g2') Hp1 Hp2
                (fun φ H1 H2 => conj H1 H2)) as Hp.
  simpl in Hp.
  apply (upost_copies E h _ _ _ _ Hok2) in Hp as [Hc [Hr1 Hr2]].
  rewrite <- app_assoc. set (h2 := h ++ hext1 ++ hext2) in *.
  set (φ := copy_of (ri1 ++ Δ2) (Δir1 ++ Δir2)) in *.
  split; [intros depth; by eapply vrel_unfold|].
  split; [intros depth; by eapply vrel_unfold|]. split.
  - intros p1 p2 x Hx1 Hx2.
    destruct (reaches_copy E h φ h2 Hc g1 p1 (VRef x) Hx1 g1' Hr1) as (w1 & Hw1 & Hrel1).
    destruct (reaches_copy E h φ h2 Hc g2 p2 (VRef x) Hx2 g2' Hr2) as (w2 & Hw2 & Hrel2).
    pose proof (vrel_ref_fun E h φ h2 Hc x w1 w2 Hrel1 Hrel2) as <-.
    apply vrel_ref_cases in Hrel1 as [(-> & _)|(x' & -> & _)]; eauto.
  - intros p1 p2 x1 x2 x' Hx1 Hx2 Hx1' Hx2'.
    destruct (reaches_copy E h φ h2 Hc g1 p1 (VRef x1) Hx1 g1' Hr1) as (w1 & Hw1 & Hrel1).
    destruct (reaches_copy E h φ h2 Hc g2 p2 (VRef x2) Hx2 g2' Hr2) as (w2 & Hw2 & Hrel2).
    rewrite (reaches_pos_fun _ _ _ _ _ _ Hw1 Hx1') in Hrel1.
    rewrite (reaches_pos_fun _ _ _ _ _ _ Hw2 Hx2') in Hrel2.
    by eapply vrel_ref_inj.
Qed.

Lemma shared_index_space_round_trip_witness :
  let h := diamond_store in
  let g1 := VRef 0%nat in
  let g2 := VRef 1%nat in
  let gd1 := NodeDef (Cls "Module") 0 None
               [(KStr "decoder",
                 NodeDef (Cls "Module") 1 None
                   [(KStr "w", VariableDef "Param" 2 None [])] MNone);
                (KStr "encoder", NodeRef "Module" 1)] MNone in
  let gd2 := NodeRef "Module" 1 in
  ∃ g1' h1 mc1 g2' h2 mc2,
    MergeContext.unflatten std_env []
      {| MergeContext.ctxtag := None; MergeContext.index_ref := [] |} h gd1
      [RawLeaf (PData 3)]
    = Return (g1', h1, mc1)
    ∧ MergeContext.unflatten std_env [] mc1 h1 gd2 [] = Return (g2', h2, mc2)
    ∧ structurally_equal std_env h g1 h2 g1'
    ∧ structurally_equal std_env h g2 h2 g2'
    ∧ (∀ p1 p2 x, reaches_pos std_env h g1 p1 (VRef x) →
         reaches_pos std_env h g2 p2 (VRef x) →
         ∃ x', reaches_pos std_env h2 g1' p1 (VRef x')
               ∧ reaches_pos std_env h2 g2' p2 (VRef x'))
    ∧ (∀ p1 p2 x1 x2 x',
         reaches_pos std_env h g1 p1 (VRef x1) → reaches_pos std_env h g2 p2 (VRef x2) →
         reaches_pos std_env h2 g1' p1 (VRef x') →
         reaches_pos std_env h2 g2' p2 (VRef x') →
         x1 = x2).
Proof.
  intros h g1 g2 gd1 gd2.
  apply (shared_index_space_round_trip std_env 5 [] h g1 g2 gd1 [RawLeaf (PData 3)]
           {| SplitContext.ctxtag := None;
              SplitContext.ref_index := [(0%nat, 0); (1%nat, 1); (2%nat, 2)] |}
           gd2 []
           {| SplitContext.ctxtag := None;
              SplitContext.ref_index := [(0%nat, 0); (1%nat, 1); (2%nat, 2)] |}).
  - exact std_env_identity_keys.
  - exact std_env_registry_ok.
  - reflexivity.
  - reflexivity.
  - reflexivity.
  - reflexivity.
  - reflexivity.
Defined.

(* --------------------------------------------------------------------- *)
(* The leaves of a nested state                                           *)
(* --------------------------------------------------------------------- *)

Definition same_kind (a b : key) : Prop :=
  match a, b with
  | KStr _, KStr _ | KInt _, KInt _ => True
  | _, _ => False
  end.

(** The keys of a dict that [sorted] accepts. *)
Definition homogeneous (ks : list key) : Prop :=
  ∀ k k', k ∈ ks → k' ∈ ks → same_kind k k'.

Definition key_lt (a b : key) : Prop := key_ltb a b = Ok true.

Definition item_lt {A} (p q : key * A) : Prop := key_lt p.1 q.1.

Lemma homogeneous_perm ks ks' : ks ≡ₚ ks' → homogeneous ks → homogeneous ks'.
Proof. intros Hp Hh k k' H1 H2. apply Hh; by rewrite Hp. Qed.

Lemma same_kind_refl a : same_kind a a.
Proof. by destruct a. Qed.

Lemma same_kind_sym a b : same_kind a b → same_kind b a.
Proof. by destruct a, b. Qed.

Lemma same_kind_trans a b c : same_kind a b → same_kind b c → same_kind a c.
Proof. by destruct a, b, c. Qed.

Lemma key_ltb_Ok a b x : key_ltb a b = Ok x → same_kind a b.
Proof. by destruct a, b. Qed.

Lemma key_ltb_Err a b e : key_ltb a b = Err e → e = TypeError ∧ ¬ same_kind a b.
Proof. destruct a, b; simpl; try done; intros [= <-]; (split; [done|intros H; exact H]). Qed.

Lemma key_ltb_same_kind a b : same_kind a b → ∃ x, key_ltb a b = Ok x.
Proof. destruct a, b; simpl; try done; eauto. Qed.

Lemma key_lt_trans a b c : key_lt a b → key_lt b c → key_lt a c.
Proof.
  unfold key_lt. destruct a as [s|x], b as [t|y], c as [u|z]; simpl; try done.
  - intros H1 H2. f_equal.
    destruct (String.compare s t) eqn:E1; try done.
    destruct (String.compare t u) eqn:E2; try done.
    apply OrderedTypeEx.String_as_OT.cmp_lt in E1, E2.
    pose proof (OrderedTypeEx.String_as_OT.lt_trans _ _ _ E1 E2) as E3.
    apply OrderedTypeEx.String_as_OT.cmp_lt in E3.
    unfold OrderedTypeEx.String_as_OT.cmp in E3. by rewrite E3.
  - intros [= H1] [= H2]. f_equal. lia.
Qed.

Lemma key_lt_irrefl a : ¬ key_lt a a.
Proof.
  unfold key_lt. destruct a as [s|x]; simpl.
  - destruct (String.compare s s) eqn:E1; try done.
    pose proof (String.compare_antisym s s) as Ha. rewrite E1 in Ha. done.
  - intros [= H]. lia.
Qed.

Lemma key_lt_total a b :
  key_ltb a b = Ok false → a ≠ b → key_lt b a.
Proof.
  unfold key_lt. destruct a as [s|x], b as [t|y]; simpl; try done.
  - intros H Hne. f_equal. rewrite String.compare_antisym.
    destruct (String.compare s t) eqn:E1; try done.
    apply String.compare_eq_iff in E1. congruence.
  - intros [= H] Hne. f_equal.
    assert (x ≠ y) by congruence. lia.
Qed.

Lemma insert_by_key_perm {A} k (x : A) s s' :
  insert_by_key k x s = Ok s' → (k, x) :: s ≡ₚ s'.
Proof.
  revert s'. induction s as [|[k' x'] s IH]; intros s'; simpl.
  - by intros [= <-].
  - intros H. apply bind_ok in H as (lt & Hlt & H). destruct lt.
    + by injection H as <-.
    + apply bind_ok in H as (rest' & Hrest & [= <-]).
      rewrite Permutation_swap. constructor. by apply IH.
Qed.

Lemma insert_by_key_sorted {A} k (x : A) s s' :
  insert_by_key k x s = Ok s' → k ∉ map fst s →
  StronglySorted item_lt s → StronglySorted item_lt s'.
Proof.
  revert s'. induction s as [|[k' x'] s IH]; intros s'; simpl.
  - intros [= <-] _ _. repeat constructor.
  - intros H Hk Hs. apply bind_ok in H as (lt & Hlt & H).
    apply StronglySorted_inv in Hs as [Hs Hall].
    apply not_elem_of_cons in Hk as [Hne Hk]. destruct lt.
    + injection H as <-. constructor; [by constructor|].
      constructor; [done|].
      eapply Forall_impl; [exact Hall|]. intros [k2 x2] H2.
      unfold item_lt in *. simpl in *. by eapply key_lt_trans.
    + apply bind_ok in H as (rest' & Hrest & [= <-]).
      constructor; [by apply IH|].
      rewrite <- (insert_by_key_perm _ _ _ _ Hrest).
      constructor; [|done]. unfold item_lt. simpl. by apply key_lt_total.
Qed.

Lemma insert_by_key_Ok {A} k (x : A) s :
  (∀ k', k' ∈ map fst s → same_kind k k') → ∃ s', insert_by_key k x s = Ok s'.
Proof.
  induction s as [|[k' x'] s IH]; simpl; [eauto|]. intros Hk.
  destruct (key_ltb_same_kind k k') as [lt ->]; [apply Hk; by left|]. simpl.
  destruct lt; [eauto|].
  destruct IH as [s' ->]; [intros k2 H2; apply Hk; by right|]. simpl. eauto.
Qed.

Lemma insert_by_key_Err {A} k (x : A) s e :
  insert_by_key k x s = Err e →
  e = TypeError ∧ ∃ k', k' ∈ map fst s ∧ ¬ same_kind k k'.
Proof.
  induction s as [|[k' x'] s IH]; simpl; [done|]. intros H.
  apply bind_err in H as [H|(lt & Hlt & H)].
  - apply key_ltb_Err in H as [-> H]. split; [done|]. exists k'. split; [by left|done].
  - destruct lt; [done|]. apply bind_err in H as [H|(r & _ & H)]; [|done].
    destruct (IH H) as (-> & k2 & Hin & Hk2). split; [done|].
    exists k2. split; [by right|done].
Qed.

Lemma insert_by_key_head {A} k (x : A) s s' :
  insert_by_key k x s = Ok s' → ∀ k', k' ∈ map fst s → homogeneous (map fst s) →
  same_kind k k'.
Proof.
  destruct s as [|[k0 x0] s]; simpl.
  - intros _ k' H. by apply elem_of_nil in H.
  - intros H k' Hin Hh. apply bind_ok in H as (lt & Hlt & _).
    apply key_ltb_Ok in Hlt. eapply same_kind_trans; [exact Hlt|].
    apply Hh; [by left|done].
Qed.

Lemma sorted_items_Ok {A} (l s : list (key * A)) :
  sorted_items l = Ok s →
  l ≡ₚ s ∧ homogeneous (map fst l)
  ∧ (NoDup (map fst l) → StronglySorted item_lt s).
Proof.
  revert s. induction l as [|[k x] l IH]; intros s; simpl.
  - intros [= <-]. split; [done|]. split; [|constructor].
    intros k k' H. by apply elem_of_nil in H.
  - intros H. apply bind_ok in H as (rest' & Hrest & H).
    destruct (IH _ Hrest) as (Hp & Hh & Hs).
    split; [|split].
    + rewrite Hp. by apply insert_by_key_perm.
    + assert (∀ k', k' ∈ map fst l → same_kind k k') as Hk.
      { pose proof (Permutation_map fst Hp) as Hpk.
        intros k' Hin. apply (insert_by_key_head _ _ _ _ H).
        - by rewrite <- Hpk.
        - by apply (homogeneous_perm _ _ Hpk). }
      intros k1 k2 [->|H1]%elem_of_cons [->|H2]%elem_of_cons.
      * apply same_kind_refl.
      * by apply Hk.
      * apply same_kind_sym. by apply Hk.
      * by apply Hh.
    + intros [Hk Hnd]%NoDup_cons.
      apply (insert_by_key_sorted _ _ _ _ H); [|by apply Hs].
      by rewrite <- (Permutation_map fst Hp).
Qed.

Lemma sorted_items_homogeneous {A} (l : list (key * A)) :
  homogeneous (map fst l) → ∃ s, sorted_items l = Ok s.
Proof.
  induction l as [|[k x] l IH]; simpl; [eauto|]. intros Hh.
  destruct IH as [s Hs].
  { intros k1 k2 H1 H2. apply Hh; by right. }
  rewrite Hs. simpl. apply insert_by_key_Ok.
  intros k' Hin. apply sorted_items_Ok in Hs as (Hp & _).
  rewrite <- (Permutation_map fst Hp) in Hin. apply Hh; [by left|by right].
Qed.

Lemma sorted_items_Err {A} (l : list (key * A)) e :
  sorted_items l = Err e → e = TypeError ∧ ¬ homogeneous (map fst l).
Proof.
  intros H. split.
  - revert H. induction l as [|[k x] l IH]; simpl; [done|]. intros H.
    apply bind_err in H as [H|(r & _ & H)]; [by apply IH|].
    by apply insert_by_key_Err in H as [-> _].
  - intros Hh. apply sorted_items_homogeneous in Hh as [s Hs]. congruence.
Qed.

(** [sorted] does not see the order of the dict. *)
Lemma sorted_items_perm {A} (l l' : list (key * A)) :
  NoDup (map fst l) → l ≡ₚ l' → sorted_items l = sorted_items l'.
Proof.
  intros Hnd Hp.
  assert (homogeneous (map fst l) ↔ homogeneous (map fst l')) as Hh.
  { pose proof (Permutation_map fst Hp) as Hpk.
    split; apply homogeneous_perm; [done|by symmetry]. }
  destruct (sorted_items l) as [s|e] eqn:Hs.
  - pose proof Hs as Hs0. apply sorted_items_Ok in Hs as (Hps & Hhs & Hss).
    destruct (sorted_items_homogeneous l') as [s' Hs']; [by apply Hh|].
    rewrite Hs'. f_equal.
    apply sorted_items_Ok in Hs' as (Hps' & _ & Hss').
    apply (sorting.StronglySorted_unique_strong item_lt).
    + intros x1 x2 _ _ H1 H2. exfalso.
      apply (key_lt_irrefl x1.1). by eapply key_lt_trans.
    + by apply Hss.
    + apply Hss'. by rewrite <- (Permutation_map fst Hp).
    + by rewrite <- Hps, <- Hps'.
  - apply sorted_items_Err in Hs as [-> Hs].
    destruct (sorted_items l') as [s'|e'] eqn:Hs'.
    + apply sorted_items_Ok in Hs' as (_ & Hh' & _). by apply Hh in Hh'.
    + by apply sorted_items_Err in Hs' as [-> _].
Qed.

Lemma sorted_items_sorted {A} (l : list (key * A)) :
  StronglySorted item_lt l → sorted_items l = Ok l.
Proof.
  induction 1 as [|[k x] l Hs IH Hall]; simpl; [done|].
  rewrite IH. simpl. destruct l as [|[k' x'] l]; [done|]. simpl.
  apply Forall_cons in Hall as [Hlt _]. unfold item_lt, key_lt in Hlt. simpl in Hlt.
  by rewrite Hlt.
Qed.

Section StateTreeInd.
Context (P : state_tree → Prop).
Hypothesis Hleaf : ∀ l, P (SLeaf l).
Hypothesis Hmap : ∀ items, Forall (fun kv => P kv.2) items → P (SMap items).

Fixpoint state_tree_ind' (t : state_tree) : P t :=
  match t with
  | SLeaf l => Hleaf l
  | SMap items =>
      Hmap items
        ((fix go (items : list (key * state_tree)) : Forall (fun kv => P kv.2) items :=
            match items with
            | [] => List.Forall_nil _
            | kv :: rest => List.Forall_cons _ kv rest (state_tree_ind' kv.2) (go rest)
            end) items)
  end.
End StateTreeInd.

(** The leaves below each value of a mapping, as the loop of [_flatten]
    finds them. *)
Fixpoint leaves_below (items : list (key * state_tree)) : result (list (key * list leaf)) :=
  match items with
  | [] => Ok []
  | (k, v) :: rest =>
      let* ls := _flatten_state v in
      let* rest' := leaves_below rest in
      Ok ((k, ls) :: rest')
  end.

Lemma _flatten_state_SMap items :
  _flatten_state (SMap items)
  = let* below := leaves_below items in
    let* ordered := sorted_items below in
    Ok (concat (map snd ordered)).
Proof.
  reflexivity.
Qed.

Lemma leaves_below_keys items below :
  leaves_below items = Ok below → map fst below = map fst items.
Proof.
  revert below. induction items as [|[k v] items IH]; intros below; simpl.
  - by intros [= <-].
  - intros H. apply bind_ok in H as (ls & _ & H).
    apply bind_ok in H as (rest' & Hrest & [= <-]). simpl. f_equal. by apply IH.
Qed.

Lemma _flatten_state_Err t e : _flatten_state t = Err e → e = TypeError.
Proof.
  revert e. induction t as [l|items IH] using state_tree_ind'; intros e; [done|].
  rewrite _flatten_state_SMap. intros H.
  apply bind_err in H as [H|(below & _ & H)].
  - revert H. induction IH as [|[k v] items Hv _ IHitems]; simpl; [done|].
    intros H. apply bind_err in H as [H|(ls & _ & H)]; [by apply Hv|].
    apply bind_err in H as [H|(r & _ & H)]; [by apply IHitems|done].
  - apply bind_err in H as [H|(r & _ & H)]; [|done].
    by apply sorted_items_Err in H as [-> _].
Qed.

Lemma leaves_below_Err items e : leaves_below items = Err e → e = TypeError.
Proof.
  induction items as [|[k v] items IH]; simpl; [done|]. intros H.
  apply bind_err in H as [H|(ls & _ & H)]; [by apply _flatten_state_Err in H|].
  apply bind_err in H as [H|(r & _ & H)]; [by apply IH|done].
Qed.

Lemma leaves_below_perm items items' :
  items ≡ₚ items' →
  match leaves_below items, leaves_below items' with
  | Ok below, Ok below' => below ≡ₚ below'
  | Err _, Err _ => True
  | _, _ => False
  end.
Proof.
  induction 1 as [|[k v] l l' Hp IH|[k1 v1] [k2 v2] l|l1 l2 l3 Hp1 IH1 Hp2 IH2].
  - simpl. reflexivity.
  - simpl. destruct (_flatten_state v) as [ls|e]; simpl; [|done].
    destruct (leaves_below l) as [b|e1], (leaves_below l') as [b'|e2]; simpl;
      try done. by constructor.
  - simpl. destruct (_flatten_state v1) as [ls1|e1], (_flatten_state v2) as [ls2|e2],
      (leaves_below l) as [b|e]; simpl; try done. apply Permutation_swap.
  - destruct (leaves_below l1), (leaves_below l2), (leaves_below l3); try done.
    by etransitivity.
Qed.

Lemma Forall_item_lt_keys {A B} k (x : A) (y : B) (l : list (key * A))
    (l' : list (key * B)) :
  map fst l' = map fst l → Forall (item_lt (k, x)) l → Forall (item_lt (k, y)) l'.
Proof.
  revert l'. induction l as [|[k1 x1] l IH]; intros [|[k2 y2] l']; simpl; try done.
  intros [= -> Hk] [Hlt Hall]%Forall_cons. constructor; [done|by apply IH].
Qed.

Lemma StronglySorted_keys {A B} (l : list (key * A)) (l' : list (key * B)) :
  map fst l' = map fst l → StronglySorted item_lt l → StronglySorted item_lt l'.
Proof.
  intros Hk Hs. revert l' Hk.
  induction Hs as [|[k x] l Hs IH Hall]; intros [|[k' y] l']; simpl; try done.
  - intros _. constructor.
  - intros [= -> Hk]. constructor; [by apply IH|].
    by apply (Forall_item_lt_keys k x y l).
Qed.

(** X11. [unflatten] on a nested state does not see the order in which the
    dict was filled: two states with the same items, with no key twice,
    give the same leaves in the same order, or both raise the [TypeError]
    of [sorted], and [unflatten] returns the same on both. Keys that are
    in increasing order already are left in that order. Keys of
    different types do not compare: [sorted] raises. *)
Theorem sorted_leaves_order_independent items items' :
  NoDup (map fst items) → items ≡ₚ items' →
  _get_sorted_leaves items = _get_sorted_leaves items'
  ∧ (∀ E h gd index_ref0 outer,
       unflatten E h gd (Nested items) index_ref0 outer
       = unflatten E h gd (Nested items') index_ref0 outer)
  ∧ (∀ below, StronglySorted item_lt items → leaves_below items = Ok below →
       _get_sorted_leaves items = Ok (concat (map snd below)))
  ∧ (¬ homogeneous (map fst items) → _get_sorted_leaves items = Err TypeError).
Proof.
  intros Hnd Hp.
  assert (_get_sorted_leaves items = _get_sorted_leaves items') as Heq.
  { unfold _get_sorted_leaves. rewrite !_flatten_state_SMap.
    pose proof (leaves_below_perm _ _ Hp) as Hb.
    destruct (leaves_below items) as [b|e] eqn:E1,
      (leaves_below items') as [b'|e'] eqn:E2; try done.
    - simpl. rewrite (sorted_items_perm b b'); [done| |done].
      by rewrite (leaves_below_keys _ _ E1).
    - apply leaves_below_Err in E1, E2. by subst. }
  split; [done|]. split; [|split].
  - intros E h gd index_ref0 outer. unfold unflatten. simpl. by rewrite Heq.
  - intros below Hs Hb. unfold _get_sorted_leaves. rewrite _flatten_state_SMap, Hb.
    simpl. rewrite (sorted_items_sorted below); [done|].
    apply (StronglySorted_keys items); [|done]. by apply leaves_below_keys.
  - intros Hh. unfold _get_sorted_leaves. rewrite _flatten_state_SMap.
    destruct (leaves_below items) as [b|e] eqn:E1; simpl.
    + destruct (sorted_items b) as [s|e] eqn:E2; simpl.
      * apply sorted_items_Ok in E2 as (_ & Hb & _).
        by rewrite (leaves_below_keys _ _ E1) in Hb.
      * by apply sorted_items_Err in E2 as [-> _].
    + by apply leaves_below_Err in E1 as ->.
Qed.

Lemma sorted_leaves_order_independent_witness :
  let l1 := VariableState "Param" (PData 1) [] in
  let l2 := VariableState "Param" (PData 2) [] in
  let l3 := VariableState "Param" (PData 3) [] in
  let inner := SMap [(KStr "w", SLeaf l2); (KStr "b", SLeaf l1)] in
  let items := [(KStr "layer", inner); (KStr "scale", SLeaf l3)] in
  let items' := [(KStr "scale", SLeaf l3); (KStr "layer", inner)] in
  _get_sorted_leaves items = Ok [l1; l2; l3]
  ∧ _get_sorted_leaves items' = Ok [l1; l2; l3].
Proof.
  intros l1 l2 l3 inner items items'.
  assert (NoDup (map fst items)) as Hnd.
  { repeat constructor; simpl; [|by intros H; apply elem_of_nil in H].
    intros H. apply list_elem_of_singleton in H. discriminate. }
  assert (items ≡ₚ items') as Hp by apply Permutation_swap.
  split; [reflexivity|].
  rewrite <- (proj1 (sorted_leaves_order_independent items items' Hnd Hp)).
  reflexivity.
Defined.

(* --------------------------------------------------------------------- *)
(* iter_graph                                                             *)
(* --------------------------------------------------------------------- *)

Definition obind {A B} (m : outcome A) (k : A → outcome B) : outcome B :=
  match m with
  | Return a => k a
  | Raise e => Raise e
  end.

Notation "'let!' x ':=' m 'in' k" := (obind m (fun x => k))
  (at level 10, x pattern, m at level 100, k at level 200).

Lemma obind_return {A B} (m : outcome A) (k : A → outcome B) b :
  obind m k = Return b → ∃ a, m = Return a ∧ k a = Return b.
Proof. destruct m as [a|e]; simpl; [eauto|discriminate]. Qed.

Lemma lift_return {A} (r : result A) a : lift r = Return a → r = Ok a.
Proof. destruct r; simpl; congruence. Qed.

(** What a generator yields when it is run to its end. *)
Abbreviation yields := (list (list key * value)).

Section IterGraph.
Context (E : PyEnv) (h : heap).

Definition is_pytree_node_type (ty : string) : bool :=
  JAX_PYTREE_REGISTRY E ty || issubclass_tuple E ty.

(** [is_node]: [type(x) in GRAPH_REGISTRY], or [is_pytree_node(x)]. *)
Definition is_node (x : value) : result bool :=
  match x with
  | VRef a =>
      match h !! a with
      | Some (ONode ty _ _) | Some (OVar ty _ _) =>
          Ok (GRAPH_REGISTRY E ty || is_pytree_node_type ty)
      | None => Err InvalidObject
      end
  | VTree ty _ _ => Ok (GRAPH_REGISTRY E ty || is_pytree_node_type ty)
  | VStatic _ | VArray _ => Ok false
  end.

(** [NodeImplBase.node_dict]: [dict(nodes)] of what [flatten] returns. *)
Definition node_dict (node : value) : result (list (key * value)) :=
  let* (nodes, _) := node_flatten h node in
  Ok (dict_update key_eqb [] nodes).

(** [id(node) in visited]. An object of the store has its address for id.
    A container held by value stands at one place only, so that its id is
    in the set at no place where it is met. *)
Definition seen (visited : list addr) (node : value) : bool :=
  match node with
  | VRef a => existsb (Nat.eqb a) visited
  | _ => false
  end.

(** [visited.add(id(node))] *)
Definition mark (visited : list addr) (node : value) : list addr :=
  match node with
  | VRef a => a :: visited
  | _ => visited
  end.

(** The loop of [_iter_graph] over the items of [node_dict]. *)
Fixpoint iter_items
    (rec : value → list addr → list key → outcome (yields * list addr))
    (items : list (key * value)) (visited : list addr) (path_parts : list key)
  : outcome (yields * list addr) :=
  match items with
  | [] => Return ([], visited)
  | (key, value) :: rest =>
      let! (ys1, visited) := rec value visited (path_parts ++ [key]) in
      let! (ys2, visited) := iter_items rec rest visited path_parts in
      Return (ys1 ++ ys2, visited)
  end.

(** [_iter_graph], to a recursion depth of [fuel]; returns what it
    yields, in order, and the set [visited] as it leaves it. *)
Fixpoint _iter_graph (fuel : nat) (node : value) (visited : list addr)
    (path_parts : list key) : outcome (yields * list addr) :=
  match fuel with
  | O => Raise (GraphError RecursionError)
  | S fuel =>
      let! node_b := lift (is_node node) in
      if node_b then
        if seen visited node then Return ([], visited)
        else
          let visited := mark visited node in
          let! impl := lift (get_node_impl E h node) in
          match impl with
          | None => Raise (GraphError AttributeError)
          | Some _ =>
              let! node_dict := lift (node_dict node) in
              let! (ys, visited) :=
                iter_items (_iter_graph fuel) node_dict visited path_parts in
              Return (ys ++ [(path_parts, node)], visited)
          end
      else Return ([(path_parts, node)], visited)
  end.

Definition iter_graph (fuel : nat) (node : value) : outcome yields :=
  let! (ys, _) := _iter_graph fuel node [] [] in
  Return ys.

(** [iter_reaches v p w]: the keys [p] lead from [v] to [w] through the
    dicts of values that [is_node] accepts. *)
Inductive iter_reaches : value → list key → value → Prop :=
| iter_reaches_here v : iter_reaches v [] v
| iter_reaches_step v items k c p w :
    is_node v = Ok true →
    node_dict v = Ok items →
    (k, c) ∈ items →
    iter_reaches c p w →
    iter_reaches v (k :: p) w.
End IterGraph.

Lemma dict_set_elem {K V} (eqb : K → K → bool) (d : list (K * V)) k v k' v' :
  (∀ a b, eqb a b = true ↔ a = b) →
  (k', v') ∈ dict_set eqb d k v → (k', v') ∈ d ∨ (k', v') = (k, v).
Proof.
  intros Hspec. induction d as [|[k0 v0] d IH]; simpl.
  - intros H. apply list_elem_of_singleton in H. by right.
  - destruct (eqb k0 k) eqn:Ek.
    + apply Hspec in Ek as ->.
      intros [->|H]%elem_of_cons; [by right|]. left. by right.
    + intros [->|H]%elem_of_cons; [left; by left|].
      destruct (IH H) as [H'|H']; [left; by right|by right].
Qed.

Lemma dict_update_elem {K V} (eqb : K → K → bool) (d items : list (K * V)) k v :
  (∀ a b, eqb a b = true ↔ a = b) →
  (k, v) ∈ dict_update eqb d items → (k, v) ∈ d ∨ (k, v) ∈ items.
Proof.
  intros Hspec. unfold dict_update. revert d.
  induction items as [|[k0 v0] items IH]; intros d; simpl; [by left|].
  intros H. apply IH in H as [H|H]; [|right; by right].
  apply (dict_set_elem eqb _ _ _ _ _ Hspec) in H as [H|H]; [by left|].
  right. rewrite H. by left.
Qed.

Lemma node_dict_elem h v items k c :
  node_dict h v = Ok items → (k, c) ∈ items →
  ∃ nodes md, node_flatten h v = Ok (nodes, md) ∧ (k, c) ∈ nodes.
Proof.
  unfold node_dict. intros H Hin. apply bind_ok in H as ([nodes md] & Hfl & [= <-]).
  exists nodes, md. split; [done|].
  apply (dict_update_elem key_eqb _ _ _ _ key_eqb_spec) in Hin as [Hin|Hin]; [|done].
  by apply elem_of_nil in Hin.
Qed.

Lemma seen_spec visited a : seen visited (VRef a) = true ↔ a ∈ visited.
Proof.
  simpl. rewrite existsb_exists. split.
  - intros (x & Hin & ->%Nat.eqb_eq). by apply list_elem_of_In.
  - intros Hin. exists a. split; [by apply list_elem_of_In|apply Nat.eqb_refl].
Qed.

Lemma iter_reaches_app E h v p w q u :
  iter_reaches E h v p w → iter_reaches E h w q u → iter_reaches E h v (p ++ q) u.
Proof.
  induction 1 as [v|v items k c p w Hn Hd Hin Hr IH]; intros Hq; simpl; [done|].
  eapply iter_reaches_step; eauto.
Qed.

Lemma reaches_app E h v p w q u :
  reaches E h v p w → reaches E h w q u → reaches E h v (p ++ q) u.
Proof.
  induction 1 as [v|v impl items md k c p w Hn Hd Hin Hr IH]; intros Hq; simpl; [done|].
  eapply reaches_step; eauto.
Qed.

Section IterSound.
Context (E : PyEnv) (h : heap).

(** What a run of [_iter_graph] on [v] leaves: the set only grows; every
    pair yielded is a value below [v] with its path; a node of the store
    is yielded when it enters the set, and so once; and [v] itself comes
    last, unless it was in the set. *)
Definition iter_post (v : value) (visited : list addr) (path : list key)
    (ys : yields) (visited' : list addr) : Prop :=
  (∀ a, a ∈ visited → a ∈ visited')
  ∧ (∀ p w, (p, w) ∈ ys →
       ∃ q, p = path ++ q ∧ iter_reaches E h v q w ∧ reaches E h v q w)
  ∧ (∀ p a, (p, VRef a) ∈ ys → is_node E h (VRef a) = Ok true →
       (a ∉ visited) ∧ a ∈ visited')
  ∧ (∀ i j p1 p2 a, ys !! i = Some (p1, VRef a) → ys !! j = Some (p2, VRef a) →
       is_node E h (VRef a) = Ok true → i = j)
  ∧ (seen visited v = true ∧ is_node E h v = Ok true ∧ ys = []
     ∨ last ys = Some (path, v)).

Definition items_post (items : list (key * value)) (visited : list addr)
    (path : list key) (ys : yields) (visited' : list addr) : Prop :=
  (∀ a, a ∈ visited → a ∈ visited')
  ∧ (∀ p w, (p, w) ∈ ys →
       ∃ k c q, (k, c) ∈ items ∧ p = path ++ k :: q
                ∧ iter_reaches E h c q w ∧ reaches E h c q w)
  ∧ (∀ p a, (p, VRef a) ∈ ys → is_node E h (VRef a) = Ok true →
       (a ∉ visited) ∧ a ∈ visited')
  ∧ (∀ i j p1 p2 a, ys !! i = Some (p1, VRef a) → ys !! j = Some (p2, VRef a) →
       is_node E h (VRef a) = Ok true → i = j).

Definition rec_post (rec : value → list addr → list key → outcome (yields * list addr))
  : Prop :=
  ∀ v visited path ys visited',
    rec v visited path = Return (ys, visited') → iter_post v visited path ys visited'.

Lemma iter_items_post rec items visited path ys visited' :
  rec_post rec →
  iter_items rec items visited path = Return (ys, visited') →
  items_post items visited path ys visited'.
Proof.
  intros Hrec. revert visited ys visited'.
  induction items as [|[k c] items IH]; intros visited ys visited'; simpl.
  - intros [= <- <-]. split; [done|]. split; [|split].
    + intros p w H. by apply elem_of_nil in H.
    + intros p a H. by apply elem_of_nil in H.
    + intros i j p1 p2 a H. done.
  - intros H. apply obind_return in H as ([ys1 v1] & H1 & H).
    apply obind_return in H as ([ys2 v2] & H2 & [= <- <-]).
    apply Hrec in H1 as (Hs1 & Hr1 & Hn1 & Ho1 & _).
    apply IH in H2 as (Hs2 & Hr2 & Hn2 & Ho2).
    split; [by auto|]. split; [|split].
    + intros p w [Hin|Hin]%elem_of_app.
      * destruct (Hr1 p w Hin) as (q & -> & Hq & Hq').
        exists k, c, q. split; [by left|]. by rewrite <- app_assoc.
      * destruct (Hr2 p w Hin) as (k' & c' & q & Hin' & -> & Hq & Hq').
        exists k', c', q. split; [by right|done].
    + intros p a [Hin|Hin]%elem_of_app Ha.
      * destruct (Hn1 p a Hin Ha). by auto.
      * destruct (Hn2 p a Hin Ha) as [Hnot Hin2]. split; [|done].
        intros Hv. apply Hnot. by apply Hs1.
    + intros i j p1 p2 a Hi Hj Ha.
      destruct (decide (i < length ys1)%nat) as [Hil|Hil];
        destruct (decide (j < length ys1)%nat) as [Hjl|Hjl].
      * rewrite lookup_app_l in Hi, Hj by done. by eapply Ho1.
      * exfalso. rewrite lookup_app_l in Hi by done.
        rewrite lookup_app_r in Hj by lia.
        apply list_elem_of_lookup_2 in Hi, Hj.
        destruct (Hn1 _ _ Hi Ha) as [_ Hin1]. destruct (Hn2 _ _ Hj Ha) as [Hnot _]. done.
      * exfalso. rewrite lookup_app_l in Hj by done.
        rewrite lookup_app_r in Hi by lia.
        apply list_elem_of_lookup_2 in Hi, Hj.
        destruct (Hn1 _ _ Hj Ha) as [_ Hin1]. destruct (Hn2 _ _ Hi Ha) as [Hnot _]. done.
      * rewrite lookup_app_r in Hi, Hj by lia.
        pose proof (Ho2 _ _ _ _ _ Hi Hj Ha). lia.
Qed.

Lemma _iter_graph_post fuel : rec_post (_iter_graph E h fuel).
Proof.
  induction fuel as [|fuel IH]; intros v visited path ys visited'; [done|]. simpl.
  intros H. apply obind_return in H as (b & Hb%lift_return & H).
  destruct b.
  - destruct (seen visited v) eqn:Hseen.
    { injection H as <- <-. split; [done|]. split; [|split; [|split]].
      - intros p w Hin. by apply elem_of_nil in Hin.
      - intros p a Hin. by apply elem_of_nil in Hin.
      - done.
      - by left. }
    apply obind_return in H as (impl & Himpl%lift_return & H).
    destruct impl as [impl|]; [|done].
    apply obind_return in H as (items & Hd%lift_return & H).
    apply obind_return in H as ([ys1 v1] & Hit & [= <- <-]).
    apply (iter_items_post _ _ _ _ _ _ IH) in Hit as (Hs1 & Hr1 & Hn1 & Ho1).
    assert (∀ a, a ∈ visited → a ∈ mark visited v) as Hmark.
    { intros a Ha. destruct v; simpl; try done. by right. }
    split; [by auto|]. split; [|split; [|split]].
    + intros p w [Hin|Hin]%elem_of_app.
      * destruct (Hr1 p w Hin) as (k & c & q & Hkc & -> & Hq & Hq').
        exists (k :: q). split; [done|].
        destruct (node_dict_elem h v items k c Hd Hkc) as (nodes & md & Hfl & Hkc').
        split; [by eapply iter_reaches_step|by eapply reaches_step].
      * apply list_elem_of_singleton in Hin. injection Hin as -> ->.
        exists []. rewrite app_nil_r. split; [done|]. split; constructor.
    + intros p a [Hin|Hin]%elem_of_app Ha.
      * destruct (Hn1 p a Hin Ha) as [Hnot Hin1]. split; [|done].
        intros Hv. by apply Hnot, Hmark.
      * apply list_elem_of_singleton in Hin. injection Hin as -> <-.
        split; [by rewrite <- seen_spec, Hseen|]. apply Hs1. simpl. by left.
    + intros i j p1 p2 a Hi Hj Ha.
      assert (∀ n p, (ys1 ++ [(path, v)]) !! n = Some (p, VRef a) →
                     (n < length ys1)%nat ∨ (n = length ys1 ∧ v = VRef a)) as Hcase.
      { intros n p Hn. destruct (decide (n < length ys1)%nat) as [Hl|Hl]; [by left|].
        right. rewrite lookup_app_r in Hn by lia.
        destruct (n - length ys1)%nat as [|m] eqn:Hm; simpl in Hn; [|done].
        injection Hn as _ <-. split; [lia|done]. }
      assert (∀ n p, (n < length ys1)%nat → ys1 !! n = Some (p, VRef a) →
                     v = VRef a → False) as Hroot.
      { intros n p Hl Hn ->. apply list_elem_of_lookup_2 in Hn.
        destruct (Hn1 _ _ Hn Ha) as [Hnot _]. apply Hnot. simpl. by left. }
      destruct (Hcase i p1 Hi) as [Hil|[-> Hvi]]; destruct (Hcase j p2 Hj) as [Hjl|[-> Hvj]].
      * rewrite lookup_app_l in Hi, Hj by done. by eapply Ho1.
      * exfalso. rewrite lookup_app_l in Hi by done. by eapply Hroot.
      * exfalso. rewrite lookup_app_l in Hj by done. by eapply Hroot.
      * done.
    + right. by rewrite last_snoc.
  - injection H as <- <-. split; [done|]. split; [|split; [|split]].
    + intros p w Hin. apply list_elem_of_singleton in Hin. injection Hin as -> ->.
      exists []. rewrite app_nil_r. split; [done|]. split; constructor.
    + intros p a Hin Ha. apply list_elem_of_singleton in Hin. injection Hin as -> <-.
      congruence.
    + intros i j p1 p2 a Hi Hj Ha. destruct i, j; simpl in *; try done.
    + by right.
Qed.
End IterSound.

(** X12. What [iter_graph] yields when it is run to its end: every pair is a
    value with the keys that lead to it from the root, through values that
    [is_node] accepts, which are values that [get_node_impl] has an
    implementation for; an object of the store that [is_node] accepts is
    yielded once, wherever else it stands; and the root comes last, with
    the empty path. *)
Theorem iter_graph_yields E h fuel node ys :
  iter_graph E h fuel node = Return ys →
  last ys = Some ([], node)
  ∧ (∀ p w, (p, w) ∈ ys → iter_reaches E h node p w ∧ reaches E h node p w)
  ∧ (∀ i j p1 p2 a, ys !! i = Some (p1, VRef a) → ys !! j = Some (p2, VRef a) →
       is_node E h (VRef a) = Ok true → i = j).
Proof.
  unfold iter_graph. intros H. apply obind_return in H as ([ys' v'] & H & [= <-]).
  apply _iter_graph_post in H as (_ & Hr & _ & Ho & Hl).
  split; [|split].
  - destruct Hl as [(Hseen & _)|Hl]; [|done]. by destruct node.
  - intros p w Hin. destruct (Hr p w Hin) as (q & -> & Hq). done.
  - done.
Qed.

Section IterComplete.
Context (E : PyEnv) (h : heap).

Definition found (ys : yields) (w : value) : Prop := ∃ p, (p, w) ∈ ys.

(** The keys [p] lead from [v] to [w] through an object of the set. *)
Definition blocked (visited : list addr) (v : value) (p : list key) (w : value) : Prop :=
  ∃ p1 p2 b, p = p1 ++ p2 ∧ b ∈ visited
             ∧ iter_reaches E h v p1 (VRef b) ∧ iter_reaches E h (VRef b) p2 w.

(** What is below [v], and below the objects that entered the set in a
    run on [v], was yielded in the run, or is behind an object that was
    in the set before. *)
Definition cover_post (v : value) (visited : list addr) (ys : yields)
    (visited' : list addr) : Prop :=
  (∀ p w, iter_reaches E h v p w → found ys w ∨ blocked visited v p w)
  ∧ (∀ b p w, b ∈ visited' → b ∉ visited → iter_reaches E h (VRef b) p w →
       found ys w ∨ blocked visited (VRef b) p w).

Definition cover_items (items : list (key * value)) (visited : list addr) (ys : yields)
    (visited' : list addr) : Prop :=
  (∀ k c p w, (k, c) ∈ items → iter_reaches E h c p w →
     found ys w ∨ blocked visited c p w)
  ∧ (∀ b p w, b ∈ visited' → b ∉ visited → iter_reaches E h (VRef b) p w →
       found ys w ∨ blocked visited (VRef b) p w).

Definition rec_cover (rec : value → list addr → list key → outcome (yields * list addr))
  : Prop :=
  ∀ v visited path ys visited',
    rec v visited path = Return (ys, visited') → cover_post v visited ys visited'.

Lemma found_app_l ys1 ys2 w : found ys1 w → found (ys1 ++ ys2) w.
Proof. intros [p Hp]. exists p. apply elem_of_app. by left. Qed.

Lemma found_app_r ys1 ys2 w : found ys2 w → found (ys1 ++ ys2) w.
Proof. intros [p Hp]. exists p. apply elem_of_app. by right. Qed.

Lemma blocked_prefix visited v q u p w :
  iter_reaches E h v q u → blocked visited u p w → blocked visited v (q ++ p) w.
Proof.
  intros Hq (p1 & p2 & b & -> & Hb & H1 & H2).
  exists (q ++ p1), p2, b. rewrite app_assoc. repeat split; try done.
  by eapply iter_reaches_app.
Qed.

Lemma iter_items_cover rec items visited path ys visited' :
  rec_cover rec → rec_post E h rec →
  iter_items rec items visited path = Return (ys, visited') →
  cover_items items visited ys visited'.
Proof.
  intros Hrec Hpost. revert visited ys visited'.
  induction items as [|[k c] items IH]; intros visited ys visited'; simpl.
  - intros [= <- <-]. split.
    + intros k c p w H. by apply elem_of_nil in H.
    + intros b p w Hb Hnb. done.
  - intros H. apply obind_return in H as ([ys1 v1] & H1 & H).
    apply obind_return in H as ([ys2 v2] & H2 & [= <- <-]).
    destruct (Hrec _ _ _ _ _ H1) as [Hc1 Hn1].
    destruct (IH _ _ _ H2) as [Hc2 Hn2].
    assert (∀ u p w, found ys2 w ∨ blocked v1 u p w →
                     found (ys1 ++ ys2) w ∨ blocked visited u p w) as Hstep.
    { intros u p w [Hf|(p1 & p2 & b & -> & Hb & Hr1 & Hr2)]; [left; by apply found_app_r|].
      destruct (decide (b ∈ visited)) as [Hin|Hnin].
      - right. by exists p1, p2, b.
      - destruct (Hn1 b p2 w Hb Hnin Hr2) as [Hf|Hbl]; [left; by apply found_app_l|].
        right. exact (blocked_prefix visited u p1 (VRef b) p2 w Hr1 Hbl). }
    split.
    + intros k' c' p w [Heq|Hin]%elem_of_cons Hr.
      * injection Heq as -> ->.
        destruct (Hc1 p w Hr) as [Hf|Hbl]; [left; by apply found_app_l|by right].
      * apply Hstep. by eapply Hc2.
    + intros b p w Hb Hnb Hr.
      destruct (decide (b ∈ v1)) as [Hin|Hnin].
      * destruct (Hn1 b p w Hin Hnb Hr) as [Hf|Hbl]; [left; by apply found_app_l|by right].
      * apply Hstep. by apply Hn2.
Qed.

Lemma iter_reaches_leaf v p w :
  is_node E h v = Ok false → iter_reaches E h v p w → p = [] ∧ w = v.
Proof. intros Hn Hr. inversion Hr; subst; [done|congruence]. Qed.

Lemma _iter_graph_cover fuel : rec_cover (_iter_graph E h fuel).
Proof.
  induction fuel as [|fuel IH]; intros v visited path ys visited'; [done|]. simpl.
  intros H. apply obind_return in H as (b & Hb%lift_return & H).
  destruct b.
  - destruct (seen visited v) eqn:Hseen.
    { injection H as <- <-. destruct v as [s|d|a|ty items aux]; try done.
      apply seen_spec in Hseen. split; [|done].
      intros p w Hr. right. exists [], p, a. repeat split; try done. constructor. }
    apply obind_return in H as (impl & Himpl%lift_return & H).
    destruct impl as [impl|]; [|done].
    apply obind_return in H as (items & Hd%lift_return & H).
    apply obind_return in H as ([ys1 v1] & Hit & [= <- <-]).
    pose proof (iter_items_post E h _ _ _ _ _ _ (_iter_graph_post E h fuel) Hit)
      as (Hsub & _).
    apply (iter_items_cover _ _ _ _ _ _ IH (_iter_graph_post E h fuel)) in Hit
      as [Hc Hn].
    assert (∀ b, b ∈ mark visited v → b ∈ visited ∨ v = VRef b) as Hmark.
    { intros b Hin. destruct v; simpl in Hin; try by left.
      apply elem_of_cons in Hin as [->|Hin]; [by right|by left]. }
    set (ys := ys1 ++ [(path, v)]).
    assert (∀ n p w, (length p ≤ n)%nat → iter_reaches E h v p w →
                     found ys w ∨ blocked visited v p w) as Hroot.
    { induction n as [|n IHn]; intros p w Hlen Hr.
      - destruct p; [|simpl in Hlen; lia]. inversion Hr; subst.
        left. exists path. apply elem_of_app. right. by left.
      - inversion Hr as [|v0 items0 k c p' w0 Hnode Hd0 Hin Hr']; subst.
        { left. exists path. apply elem_of_app. right. by left. }
        assert (items0 = items) as -> by congruence.
        destruct (Hc k c p' w Hin Hr') as [Hf|(p1 & p2 & b & -> & Hbv & Hr1 & Hr2)];
          [left; by apply found_app_l|].
        assert (iter_reaches E h v (k :: p1) (VRef b)) as Hvb
          by by eapply iter_reaches_step.
        destruct (Hmark b Hbv) as [Hin'|Hv].
        + right. by exists (k :: p1), p2, b.
        + subst v. simpl in Hlen. rewrite length_app in Hlen.
          destruct (IHn p2 w) as [Hf|Hbl]; [lia|done|by left|].
          right. exact (blocked_prefix visited _ (k :: p1) _ p2 w Hvb Hbl). }
    split; [intros p w; by apply (Hroot (length p))|].
    intros b p w Hbv Hnb Hr.
    destruct (decide (b ∈ mark visited v)) as [Hin|Hnin].
    { destruct (Hmark b Hin) as [Hin'|Hv]; [done|]. subst v.
      by apply (Hroot (length p)). }
    destruct (Hn b p w Hbv Hnin Hr) as [Hf|(p1 & p2 & b' & -> & Hb' & Hr1 & Hr2)];
      [left; by apply found_app_l|].
    destruct (Hmark b' Hb') as [Hin'|Hv].
    + right. by exists p1, p2, b'.
    + subst v. destruct (Hroot (length p2) p2 w) as [Hf|Hbl]; [done|done|by left|].
      right. exact (blocked_prefix visited _ p1 _ p2 w Hr1 Hbl).
  - injection H as <- <-. split; [|done].
    intros p w Hr. apply (iter_reaches_leaf _ _ _ Hb) in Hr as [-> ->].
    left. exists path. by left.
Qed.
End IterComplete.


Lemma vdepths_elem items k c : (k, c) ∈ items → (vdepth c ≤ vdepths items)%nat.
Proof.
  intros (n & Hn)%list_elem_of_lookup_1. by eapply vdepths_lookup.
Qed.

(** A value that [_iter_graph] can work on: an object of the store, and
    not a Variable of a class that [is_node] accepts. *)
Definition iter_safe (E : PyEnv) (h : heap) (w : value) : Prop :=
  match w with
  | VRef a =>
      match h !! a with
      | Some (ONode _ _ _) => True
      | Some (OVar ty _ _) => GRAPH_REGISTRY E ty || is_pytree_node_type E ty = false
      | None => False
      end
  | _ => True
  end.

Section IterEnds.
Context (E : PyEnv) (h : heap).

(** The set holds objects of the store, each once. *)
Definition visited_ok (visited : list addr) : Prop :=
  NoDup visited ∧ Forall (fun a => a < length h)%nat visited.

Lemma visited_ok_length visited : visited_ok visited → (length visited ≤ length h)%nat.
Proof.
  intros [Hnd Hdom].
  transitivity (length (seq 0 (length h))); [|by rewrite length_seq].
  apply submseteq_length, NoDup_submseteq; [done|].
  intros x Hx. apply elem_of_seq. rewrite Forall_forall in Hdom.
  apply Hdom in Hx. lia.
Qed.

Lemma visited_ok_cons visited a :
  visited_ok visited → a ∉ visited → (a < length h)%nat →
  visited_ok (a :: visited) ∧ (S (length visited) ≤ length h)%nat.
Proof.
  intros [Hnd Hdom] Hnot Hlt.
  assert (visited_ok (a :: visited)) as Hok.
  { split; [by constructor|by constructor]. }
  split; [done|]. by apply visited_ok_length in Hok.
Qed.

(** What is left to visit: the objects not yet in the set, each with the
    containers it holds by value, and the containers below [v]. *)
Definition iter_measure (v : value) (visited : list addr) : nat :=
  ((length h - length visited) * S (hdepth h) + vdepth v)%nat.

(** Every value below [v] is one that [_iter_graph] can work on. *)
Definition all_safe (v : value) : Prop :=
  ∀ p w, iter_reaches E h v p w → iter_safe E h w.

(** A run that did not end in the recursion limit, and in no exception
    where all values are safe, and left a set that is in order and no
    smaller. *)
Definition iter_ended (v : value) (visited : list addr)
    (r : outcome (yields * list addr)) : Prop :=
  match r with
  | Return (_, visited') =>
      visited_ok visited' ∧ (length visited ≤ length visited')%nat
  | Raise e => e ≠ GraphError RecursionError ∧ ¬ all_safe v
  end.

Definition items_ended (items : list (key * value)) (visited : list addr)
    (r : outcome (yields * list addr)) : Prop :=
  match r with
  | Return (_, visited') =>
      visited_ok visited' ∧ (length visited ≤ length visited')%nat
  | Raise e => e ≠ GraphError RecursionError ∧ ¬ (∀ k c, (k, c) ∈ items → all_safe c)
  end.

Definition rec_iter_ends
    (rec : value → list addr → list key → outcome (yields * list addr)) (m : nat)
  : Prop :=
  ∀ v visited path,
    visited_ok visited → (iter_measure v visited < m)%nat →
    iter_ended v visited (rec v visited path).

Lemma iter_measure_mono v visited visited' :
  (length visited ≤ length visited')%nat →
  (iter_measure v visited' ≤ iter_measure v visited)%nat.
Proof.
  intros Hle. unfold iter_measure. apply Nat.add_le_mono_r, Nat.mul_le_mono_r. lia.
Qed.

Lemma iter_items_ends rec m items visited path :
  rec_iter_ends rec m → visited_ok visited →
  (∀ k c, (k, c) ∈ items → (iter_measure c visited < m)%nat) →
  items_ended items visited (iter_items rec items visited path).
Proof.
  intros Hrec. revert visited.
  induction items as [|[k c] items IH]; intros visited Hok Hm; simpl.
  - split; [done|lia].
  - pose proof (Hrec c visited (path ++ [k]) Hok (Hm k c ltac:(by left))) as H1.
    destruct (rec c visited (path ++ [k])) as [[ys1 v1]|e]; simpl.
    + destruct H1 as [Hok1 Hle1].
      assert (items_ended items v1 (iter_items rec items v1 path)) as H2.
      { apply IH; [done|]. intros k' c' Hin.
        pose proof (Hm k' c' ltac:(by right)).
        pose proof (iter_measure_mono c' visited v1 Hle1). lia. }
      destruct (iter_items rec items v1 path) as [[ys2 v2]|e]; simpl.
      * destruct H2 as [Hok2 Hle2]. split; [done|lia].
      * destruct H2 as [Hne Hns]. split; [done|].
        intros Hall. apply Hns. intros k' c' Hin. apply (Hall k' c'). by right.
    + destruct H1 as [Hne Hns]. split; [done|].
      intros Hall. apply Hns. apply (Hall k c). by left.
Qed.

Lemma all_safe_here v : all_safe v → iter_safe E h v.
Proof. intros H. apply (H [] v). constructor. Qed.

Lemma all_safe_child v items k c :
  all_safe v → is_node E h v = Ok true → node_dict h v = Ok items → (k, c) ∈ items →
  all_safe c.
Proof.
  intros H Hn Hd Hin p w Hr. apply (H (k :: p) w). by eapply iter_reaches_step.
Qed.

Lemma is_node_impl v :
  is_node E h v = Ok true → iter_safe E h v →
  ∃ impl items, get_node_impl E h v = Ok (Some impl) ∧ node_dict h v = Ok items.
Proof.
  unfold is_node, iter_safe, get_node_impl, node_dict, node_flatten, lookup_impl,
    is_pytree_node_type.
  destruct v as [s|d|a|ty items aux]; try done.
  - destruct (h !! a) as [[ty attrs aux|ty raw md]|]; try done.
    + intros [= Hn] _. destruct (GRAPH_REGISTRY E ty); simpl in *; [eauto|].
      destruct (PYTREE_REGISTRY E ty); [eauto|]. rewrite Hn. eauto.
    + intros [= Hn] Hs. congruence.
  - intros [= Hn] _. destruct (GRAPH_REGISTRY E ty); simpl in *; [eauto|].
    destruct (PYTREE_REGISTRY E ty); [eauto|]. rewrite Hn. eauto.
Qed.

Lemma is_node_err v e : is_node E h v = Err e → ¬ iter_safe E h v.
Proof.
  unfold is_node, iter_safe. destruct v as [s|d|a|ty items aux]; try done.
  destruct (h !! a) as [[]|]; [done|done|]. intros _ Hf. exact Hf.
Qed.

Lemma node_dict_err v e : node_dict h v = Err e → e = InvalidObject.
Proof.
  unfold node_dict. intros H. apply bind_err in H as [H|([nodes md] & _ & H)]; [|done].
  by apply node_flatten_err in H.
Qed.

Lemma node_dict_depth v items k c :
  node_dict h v = Ok items → (k, c) ∈ items →
  match v with
  | VRef _ => (vdepth c ≤ hdepth h)%nat
  | _ => (vdepth c < vdepth v)%nat
  end.
Proof.
  intros Hd Hin. destruct (node_dict_elem h v items k c Hd Hin) as (nodes & md & Hfl & Hkc).
  unfold node_flatten in Hfl. destruct v as [s|d|a|ty items' aux]; try done.
  - destruct (h !! a) as [[ty attrs aux|]|] eqn:Ha; try done. injection Hfl as <- <-.
    apply hdepth_lookup in Ha. simpl in Ha. apply vdepths_elem in Hkc. lia.
  - injection Hfl as <- <-. rewrite vdepth_VTree. apply vdepths_elem in Hkc. lia.
Qed.
End IterEnds.

Lemma _iter_graph_ends E h fuel : rec_iter_ends E h (_iter_graph E h fuel) fuel.
Proof.
  induction fuel as [|fuel IH]; intros v visited path Hok Hm; [lia|]. simpl.
  destruct (is_node E h v) as [[|]|e] eqn:Hn; simpl.
  - destruct (seen visited v) eqn:Hseen; [split; [done|lia]|].
    destruct (get_node_impl E h v) as [[impl|]|e] eqn:Himpl; simpl.
    + destruct (node_dict h v) as [items|e] eqn:Hd; simpl.
      * assert (visited_ok h (mark visited v)
                ∧ (length visited ≤ length (mark visited v))%nat
                ∧ ∀ k c, (k, c) ∈ items →
                    (iter_measure h c (mark visited v) < fuel)%nat) as (Hok1 & Hle1 & Hm1).
        { destruct v as [s|d|a|ty items' aux]; try done.
          - assert (a ∉ visited) as Hnot.
            { rewrite <- seen_spec. by rewrite Hseen. }
            apply get_node_impl_ref_lt in Himpl.
            destruct (visited_ok_cons h visited a Hok Hnot Himpl) as [Hok1 Hlen].
            split; [done|]. split; [simpl; lia|].
            intros k c Hin. pose proof (node_dict_depth h _ _ _ _ Hd Hin) as Hc.
            simpl in Hc. unfold iter_measure in *. simpl.
            assert ((length h - S (length visited)) * S (hdepth h) + S (hdepth h)
                    ≤ (length h - length visited) * S (hdepth h))%nat; [|lia].
            replace (length h - length visited)%nat
              with (S (length h - S (length visited))) by lia. lia.
          - split; [done|]. split; [done|].
            intros k c Hin. pose proof (node_dict_depth h _ _ _ _ Hd Hin) as Hc.
            simpl in Hc. unfold iter_measure in *. simpl. lia. }
        pose proof (iter_items_ends E h _ fuel items (mark visited v) path IH Hok1 Hm1)
          as H2.
        destruct (iter_items (_iter_graph E h fuel) items (mark visited v) path)
          as [[ys1 v1]|e]; simpl.
        -- destruct H2 as [Hok2 Hle2]. split; [done|lia].
        -- destruct H2 as [Hne Hns]. split; [done|].
           intros Hall. apply Hns. intros k c Hin. by eapply all_safe_child.
      * pose proof (node_dict_err h v e Hd) as ->. split; [done|].
        intros Hall. apply all_safe_here in Hall.
        destruct (is_node_impl E h v Hn Hall) as (impl' & items & _ & Hd2). congruence.
    + split; [done|]. intros Hall. apply all_safe_here in Hall.
      destruct (is_node_impl E h v Hn Hall) as (impl' & items & Hi & _). congruence.
    + pose proof (get_node_impl_err _ _ _ _ Himpl) as ->. split; [done|].
      intros Hall. apply all_safe_here in Hall.
      destruct (is_node_impl E h v Hn Hall) as (impl' & items & Hi & _). congruence.
  - split; [done|lia].
  - split.
    + unfold is_node in Hn. destruct v as [s|d|a|ty items aux]; try done.
      destruct (h !! a) as [[]|]; try done. by injection Hn as <-.
    + intros Hall. apply all_safe_here in Hall. by apply is_node_err in Hn.
Qed.

Lemma iter_items_mono rec rec' items visited path r :
  (∀ v visited path r, rec v visited path = Return r → rec' v visited path = Return r) →
  iter_items rec items visited path = Return r →
  iter_items rec' items visited path = Return r.
Proof.
  intros Hrec. revert visited r.
  induction items as [|[k c] items IH]; intros visited r; simpl; [done|].
  intros H. apply obind_return in H as ([ys1 v1] & H1 & H).
  apply obind_return in H as ([ys2 v2] & H2 & <-).
  rewrite (Hrec _ _ _ _ H1). simpl. by rewrite (IH _ _ H2).
Qed.

(** A deeper recursion limit changes nothing in a run that ended. *)
Lemma _iter_graph_fuel_mono E h fuel fuel' v visited path r :
  (fuel ≤ fuel')%nat →
  _iter_graph E h fuel v visited path = Return r →
  _iter_graph E h fuel' v visited path = Return r.
Proof.
  revert fuel' v visited path r.
  induction fuel as [|fuel IH]; intros fuel' v visited path r Hle; [done|].
  destruct fuel' as [|fuel']; [lia|]. simpl.
  destruct (lift (is_node E h v)) as [[|]|e]; simpl; try done.
  destruct (seen visited v); [done|].
  destruct (lift (get_node_impl E h v)) as [[impl|]|e]; simpl; try done.
  destruct (lift (node_dict h v)) as [items|e]; simpl; try done.
  intros H. apply obind_return in H as ([ys1 v1] & H1 & <-).
  rewrite (iter_items_mono _ (_iter_graph E h fuel') _ _ _ _ (fun v V p r => IH fuel' v V p r ltac:(lia)) H1).
  done.
Qed.

(** No reference of the value leads out of the store, or to a Variable of
    a class that [is_node] accepts. *)
Fixpoint value_safe (E : PyEnv) (h : heap) (v : value) : bool :=
  match v with
  | VRef a =>
      match h !! a with
      | Some (ONode _ _ _) => true
      | Some (OVar ty _ _) => negb (GRAPH_REGISTRY E ty || is_pytree_node_type E ty)
      | None => false
      end
  | VTree _ items _ =>
      (fix go (l : list (key * value)) : bool :=
         match l with
         | [] => true
         | kc :: r => value_safe E h kc.2 && go r
         end) items
  | VStatic _ | VArray _ => true
  end.

Definition heap_safe (E : PyEnv) (h : heap) : bool :=
  forallb (fun o => match o with
                    | ONode _ attrs _ => forallb (fun kc => value_safe E h kc.2) attrs
                    | OVar _ _ _ => true
                    end) h.

Lemma value_safe_VTree E h ty items aux k c :
  value_safe E h (VTree ty items aux) = true → (k, c) ∈ items → value_safe E h c = true.
Proof.
  simpl. induction items as [|[k0 c0] items IH]; intros H Hin.
  - by apply elem_of_nil in Hin.
  - apply andb_true_iff in H as [H0 H]. apply elem_of_cons in Hin as [Heq|Hin].
    + by injection Heq as -> ->.
    + by apply IH.
Qed.

Lemma heap_safe_attrs E h a ty attrs aux k c :
  heap_safe E h = true → h !! a = Some (ONode ty attrs aux) → (k, c) ∈ attrs →
  value_safe E h c = true.
Proof.
  intros Hs Ha Hin. unfold heap_safe in Hs. rewrite forallb_forall in Hs.
  apply list_elem_of_lookup_2, list_elem_of_In in Ha. apply Hs in Ha.
  rewrite forallb_forall in Ha. apply list_elem_of_In in Hin. by apply Ha in Hin.
Qed.

Lemma value_safe_all_safe E h v :
  heap_safe E h = true → value_safe E h v = true → all_safe E h v.
Proof.
  intros Hs Hv p w Hr. revert Hv.
  induction Hr as [v|v items k c p w Hn Hd Hin Hr IH]; intros Hv.
  - unfold iter_safe. destruct v as [s|d|a|ty items aux]; try done.
    simpl in Hv. destruct (h !! a) as [[]|]; try done.
    by apply negb_true_iff in Hv.
  - apply IH. destruct (node_dict_elem h v items k c Hd Hin) as (nodes & md & Hfl & Hkc).
    unfold node_flatten in Hfl. destruct v as [s|d|a|ty items' aux]; try done.
    + destruct (h !! a) as [[ty attrs aux|]|] eqn:Ha; try done. injection Hfl as <- <-.
      by eapply heap_safe_attrs.
    + injection Hfl as <- <-. by eapply value_safe_VTree.
Qed.

(** X14. [iter_graph] ends: with a recursion depth of [fuel_bound] or more it
    does not run into the recursion limit, on any graph, cyclic or not.
    Where no reference leads out of the store and no Variable is of a
    class that [is_node] accepts, it raises nothing, and returns the same
    with any deeper limit. *)
Theorem iter_graph_returns E h node fuel :
  (fuel_bound h node ≤ fuel)%nat →
  iter_graph E h fuel node ≠ Raise (GraphError RecursionError)
  ∧ (heap_safe E h = true → value_safe E h node = true →
     ∃ ys, iter_graph E h (fuel_bound h node) node = Return ys
           ∧ iter_graph E h fuel node = Return ys).
Proof.
  intros Hle. unfold iter_graph.
  assert (visited_ok h []) as Hnil by (split; constructor).
  split.
  - pose proof (_iter_graph_ends E h fuel node [] [] Hnil) as Hend.
    destruct (_iter_graph E h fuel node [] []) as [[ys v']|e]; simpl; [done|].
    destruct Hend as [Hne _]; [|congruence].
    unfold iter_measure, fuel_bound in *. simpl. lia.
  - intros Hs Hv.
    pose proof (_iter_graph_ends E h (fuel_bound h node) node [] [] Hnil) as Hend.
    destruct (_iter_graph E h (fuel_bound h node) node [] []) as [[ys v']|e] eqn:Hrun.
    + exists ys. split; [done|].
      by rewrite (_iter_graph_fuel_mono E h _ fuel _ _ _ _ Hle Hrun).
    + exfalso. destruct Hend as [_ Hns].
      * unfold iter_measure, fuel_bound. simpl. lia.
      * apply Hns. by apply value_safe_all_safe.
Qed.

Lemma iter_graph_returns_witness :
  iter_graph std_env cycle_store 100 (VRef 0%nat) ≠ Raise (GraphError RecursionError)
  ∧ ∃ ys, iter_graph std_env cycle_store (fuel_bound cycle_store (VRef 0%nat))
            (VRef 0%nat) = Return ys
          ∧ iter_graph std_env cycle_store 100 (VRef 0%nat) = Return ys.
Proof.
  assert (fuel_bound cycle_store (VRef 0%nat) ≤ 100)%nat as Hle by (vm_compute; lia).
  destruct (iter_graph_returns std_env cycle_store (VRef 0%nat) 100 Hle) as [H1 H2].
  split; [exact H1|]. apply H2; reflexivity.
Defined.

Lemma iter_graph_yields_witness :
  let node := VRef 0%nat in
  let ys := [([KStr "child"; KStr "w"], VRef 2%nat);
             ([KStr "child"], VRef 1%nat);
             ([], VRef 0%nat)] in
  last ys = Some ([], node)
  ∧ (∀ p w, (p, w) ∈ ys →
       iter_reaches std_env cycle_store node p w ∧ reaches std_env cycle_store node p w)
  ∧ (∀ i j p1 p2 a, ys !! i = Some (p1, VRef a) → ys !! j = Some (p2, VRef a) →
       is_node std_env cycle_store (VRef a) = Ok true → i = j).
Proof.
  intros node ys. apply (iter_graph_yields std_env cycle_store 4 node ys). reflexivity.
Defined.


(* --------------------------------------------------------------------- *)
(* What a fingerprint says about the descriptor                           *)
(* --------------------------------------------------------------------- *)

(** The descriptor a fingerprint stands for, outer indices apart. *)
Fixpoint descriptor_of (fp : fingerprint_t) : graphdef :=
  match fp with
  | FpSeen _ ty i => NodeRef ty i
  | FpNode _ ty i attributes md =>
      NodeDef ty i None
        ((fix go (l : list fp_attr) : list (key * graphdef) :=
            match l with
            | [] => []
            | fa :: rest => attr_descriptor fa :: go rest
            end) attributes)
        md
  end
with attr_descriptor (fa : fp_attr) : key * graphdef :=
  match fa with
  | FaNode k node_fp => (k, descriptor_of node_fp)
  | FaSeenVariable k _ ty i => (k, NodeRef ty i)
  | FaVariable k _ ty i md => (k, VariableDef ty i None md)
  | FaStatic k v => (k, Static v)
  end.

(** The Variables a fingerprint registered, in the order it met them. *)
Fixpoint fp_variables (fp : fingerprint_t) : list addr :=
  match fp with
  | FpSeen _ _ _ => []
  | FpNode _ _ _ attributes _ =>
      (fix go (l : list fp_attr) : list addr :=
         match l with
         | [] => []
         | fa :: rest => attr_variables fa ++ go rest
         end) attributes
  end
with attr_variables (fa : fp_attr) : list addr :=
  match fa with
  | FaNode _ node_fp => fp_variables node_fp
  | FaVariable _ a _ _ _ => [a]
  | FaSeenVariable _ _ _ _ | FaStatic _ _ => []
  end.

(** The paths of these Variables, below [prefix]. *)
Fixpoint fp_paths (fp : fingerprint_t) (prefix : list key) : list (list key) :=
  match fp with
  | FpSeen _ _ _ => []
  | FpNode _ _ _ attributes _ =>
      (fix go (l : list fp_attr) : list (list key) :=
         match l with
         | [] => []
         | fa :: rest => attr_paths fa prefix ++ go rest
         end) attributes
  end
with attr_paths (fa : fp_attr) (prefix : list key) : list (list key) :=
  match fa with
  | FaNode k node_fp => fp_paths node_fp (prefix ++ [k])
  | FaVariable k _ _ _ _ => [prefix ++ [k]]
  | FaSeenVariable _ _ _ _ | FaStatic _ _ => []
  end.

Lemma descriptor_of_FpNode id ty i attributes md :
  descriptor_of (FpNode id ty i attributes md)
  = NodeDef ty i None (map attr_descriptor attributes) md.
Proof. reflexivity. Qed.

Lemma fp_variables_FpNode id ty i attributes md :
  fp_variables (FpNode id ty i attributes md) = concat (map attr_variables attributes).
Proof. simpl. induction attributes as [|fa l IH]; simpl; [done|]. by rewrite IH. Qed.

Lemma fp_paths_FpNode id ty i attributes md prefix :
  fp_paths (FpNode id ty i attributes md) prefix
  = concat (map (fun fa => attr_paths fa prefix) attributes).
Proof. simpl. induction attributes as [|fa l IH]; simpl; [done|]. by rewrite IH. Qed.

Arguments descriptor_of : simpl never.
Arguments fp_variables : simpl never.
Arguments fp_paths : simpl never.

(** The leaf [flatten] emits for the Variable at [a], as the store has
    it. *)
Definition leaf_in (h : heap) (rv with_path : bool) (a : addr) : leaf :=
  match h !! a with
  | Some (OVar ty raw md) => leaf_of rv with_path a ty raw md
  | _ => VariableLeaf a
  end.

Definition add_paths (path : option (list key)) (ps : option (list (list key)))
    (new : list key → list (list key)) : option (list (list key)) :=
  match path, ps with
  | Some p, Some ps => Some (ps ++ new p)
  | _, _ => ps
  end.

Section FingerprintDescriptor.
Context (E : PyEnv) (h : heap) (ri : RefMap) (roi : option RefMap) (rv wp : bool).

Definition path_flag (path : option (list key)) : Prop :=
  wp = match path with Some _ => true | None => false end.

(** A run of the loop body of [flatten] from [st] to [st'] that gave
    [gd], beside the fingerprint [fp] of the same value. *)
Definition desc_rel (path : option (list key)) (st : fstate) (gd : graphdef)
    (st' : fstate) (fp : fingerprint_t) : Prop :=
  with_no_outer_index gd = descriptor_of fp
  ∧ leaves st' = leaves st ++ map (leaf_in h rv wp) (fp_variables fp)
  ∧ paths st' = add_paths path (paths st) (fp_paths fp).

Definition attr_rel (path : option (list key)) (k : key) (st : fstate) (gd : graphdef)
    (st' : fstate) (fa : fp_attr) : Prop :=
  (k, with_no_outer_index gd) = attr_descriptor fa
  ∧ leaves st' = leaves st ++ map (leaf_in h rv wp) (attr_variables fa)
  ∧ paths st' = add_paths path (paths st) (attr_paths fa).

Definition attrs_rel (path : option (list key)) (st : fstate)
    (ds : list (key * graphdef)) (st' : fstate) (fas : list fp_attr) : Prop :=
  map_values with_no_outer_index ds = map attr_descriptor fas
  ∧ leaves st' = leaves st ++ map (leaf_in h rv wp) (concat (map attr_variables fas))
  ∧ paths st' = add_paths path (paths st)
                  (fun p => concat (map (fun fa => attr_paths fa p) fas)).

Context (rec1 : value → NodeImpl → option (list key) → fstate
                → result (graphdef * fstate)).
Context (rec2 : value → NodeImpl → fpstate → result (fingerprint_t * fpstate)).
Hypothesis Hstep : ∀ v impl path st fst,
  in_step E h ri st fst → paths_ready path st →
  step_post E h ri st (rec1 v impl path st) (rec2 v impl fst).
Hypothesis Hdesc : ∀ v impl path st fst gd st' fp fst',
  in_step E h ri st fst → paths_ready path st → path_flag path →
  rec1 v impl path st = Ok (gd, st') → rec2 v impl fst = Ok (fp, fst') →
  desc_rel path st gd st' fp.

Lemma flatten_attr_desc path k v st fst gd st' fa fst' :
  in_step E h ri st fst → paths_ready path st → path_flag path →
  flatten_attr E h roi rv rec1 path k v st = Ok (gd, st') →
  fingerprint_attr E h ri rec2 k v fst = Ok (fa, fst') →
  attr_rel path k st gd st' fa.
Proof.
  intros Hin Hready Hflag. unfold flatten_attr, fingerprint_attr.
  destruct (get_node_impl E h v) as [[impl|]|e]; simpl; [| |done].
  { intros H1 H2. apply bind_ok in H2 as ([fp fst1] & H2 & [= <- <-]).
    assert (paths_ready (option_map (fun p => p ++ [k]) path) st) as Hready'.
    { intros Hs. apply Hready. by destruct path. }
    assert (path_flag (option_map (fun p => p ++ [k]) path)) as Hflag'.
    { unfold path_flag in *. by destruct path. }
    destruct (Hdesc v impl _ st fst gd st' fp fst1 Hin Hready' Hflag' H1 H2)
      as (Hgd & Hl & Hp).
    split; [simpl; by rewrite Hgd|]. split; [done|].
    rewrite Hp. by destruct path, (paths st). }
  destruct v as [s|data|a|ty items aux]; try done.
  - intros [= <- <-] [= <- <-]. split; [done|]. split; [by rewrite app_nil_r|].
    destruct path, (paths st); simpl; by rewrite ?app_nil_r.
  - destruct Hin as (Hri & Hnext & Hup).
    destruct (h !! a) as [[ty attrs aux|ty raw md]|] eqn:Ha; try done.
    + intros [= <- <-] [= <- <-]. split; [done|]. split; [by rewrite app_nil_r|].
      destruct path, (paths st); simpl; by rewrite ?app_nil_r.
    + rewrite Hri, ref_get_app.
      destruct (ref_get E h ri a) as [j|].
      { intros [= <- <-] [= <- <-]. split; [done|]. split; [by rewrite app_nil_r|].
        destruct path, (paths st); simpl; by rewrite ?app_nil_r. }
      destruct (ref_get E h (new_ref_index fst) a) as [j|].
      { intros [= <- <-] [= <- <-]. split; [done|]. split; [by rewrite app_nil_r|].
        destruct path, (paths st); simpl; by rewrite ?app_nil_r. }
      intros H1 H2. injection H2 as <- <-.
      apply bind_ok in H1 as (paths' & Hps & [= <- <-]).
      split; [|split].
      * simpl. rewrite <- Hri, Hnext. done.
      * simpl. unfold leaf_in. rewrite Ha. unfold leaf_of.
        destruct rv; [done|]. unfold path_flag in Hflag. rewrite Hflag.
        by destruct path.
      * simpl. destruct path as [p|]; simpl in *.
        -- destruct (paths st) as [ps|]; [|done]. by injection Hps as <-.
        -- by injection Hps as <-.
  - intros [= <- <-] [= <- <-]. split; [done|]. split; [by rewrite app_nil_r|].
    destruct path, (paths st); simpl; by rewrite ?app_nil_r.
Qed.

Lemma flatten_attrs_desc path values st fst ds st' fas fst' :
  in_step E h ri st fst → paths_ready path st → path_flag path →
  flatten_attrs E h roi rv rec1 path values st = Ok (ds, st') →
  fingerprint_attrs E h ri rec2 values fst = Ok (fas, fst') →
  attrs_rel path st ds st' fas.
Proof.
  revert st fst ds st' fas fst'.
  induction values as [|[k v] values IH]; intros st fst ds st' fas fst' Hin Hready Hflag;
    simpl.
  - intros [= <- <-] [= <- <-]. split; [done|]. split; [by rewrite app_nil_r|].
    destruct path, (paths st); simpl; by rewrite ?app_nil_r.
  - intros H1 H2.
    apply bind_ok in H1 as ([d st1] & Ha1 & H1).
    apply bind_ok in H1 as ([ds1 st2] & Hr1 & [= <- <-]).
    apply bind_ok in H2 as ([fa fst1] & Ha2 & H2).
    apply bind_ok in H2 as ([fas1 fst2] & Hr2 & [= <- <-]).
    pose proof (flatten_attr_in_step E h ri roi rv rec1 rec2 Hstep path k v st fst
                  Hin Hready) as Hs1.
    rewrite Ha1, Ha2 in Hs1. destruct Hs1 as [Hin1 Hp1].
    assert (paths_ready path st1) as Hready1 by (intros Hs; auto).
    destruct (flatten_attr_desc path k v st fst d st1 fa fst1 Hin Hready Hflag Ha1 Ha2)
      as (Hd & Hl & Hp).
    destruct (IH st1 fst1 ds1 st2 fas1 fst2 Hin1 Hready1 Hflag Hr1 Hr2)
      as (Hds & Hls & Hps).
    split; [|split].
    + unfold map_values in *. simpl. by rewrite Hd, Hds.
    + simpl. by rewrite Hls, Hl, map_app, app_assoc.
    + rewrite Hps, Hp. destruct path, (paths st); simpl; try done.
      by rewrite app_assoc.
Qed.
End FingerprintDescriptor.

Lemma _graph_flatten_desc_rel E h ri roi rv wp fuel :
  ∀ v impl path st fst gd st' fp fst',
    in_step E h ri st fst → paths_ready path st → path_flag wp path →
    _graph_flatten E fuel h roi rv v impl path st = Ok (gd, st') →
    _graph_fingerprint E fuel h ri v impl fst = Ok (fp, fst') →
    desc_rel h rv wp path st gd st' fp.
Proof.
  induction fuel as [|fuel IH];
    intros v impl path st fst gd st' fp fst' Hin Hready Hflag; [done|].
  pose proof (_graph_flatten_in_step E h ri roi rv fuel) as Hstep.
  destruct impl as [ty|pty].
  - destruct v as [s|data|a|ty' items aux]; try done.
    rewrite _graph_fingerprint_graph.
    pose proof Hin as (Hri & Hnext & Hup).
    destruct (ref_get E h (ref_index st) a) as [i|] eqn:Hget.
    + rewrite (_graph_flatten_seen _ _ _ _ _ _ _ _ _ _ Hget).
      rewrite Hri, ref_get_app in Hget.
      assert (match ref_get E h ri a with
              | Some i => let* node_ty := type_of h (VRef a) in
                          Ok (FpSeen a node_ty i, fst)
              | None =>
                  match ref_get E h (new_ref_index fst) a with
                  | Some i => let* node_ty := type_of h (VRef a) in
                              Ok (FpSeen a node_ty i, fst)
                  | None => Err InvalidObject
                  end
              end = let* node_ty := type_of h (VRef a) in Ok (FpSeen a node_ty i, fst))
        as Heq.
      { destruct (ref_get E h ri a) as [j|]; [by injection Hget as ->|].
        by rewrite Hget. }
      intros H1 H2.
      assert (fp = match type_of h (VRef a) with
                   | Ok node_ty => FpSeen a node_ty i
                   | Err _ => fp
                   end ∧ fst' = fst) as [Hfp ->].
      { destruct (ref_get E h ri a) as [j|].
        - injection Hget as ->. destruct (type_of h (VRef a)); simpl in *;
            [by injection H2 as <- <-|done].
        - rewrite Hget in H2. destruct (type_of h (VRef a)); simpl in *;
            [by injection H2 as <- <-|done]. }
      destruct (type_of h (VRef a)) as [node_ty|e]; simpl in H1; [|done].
      injection H1 as <- <-. subst fp.
      split; [done|]. split; [by rewrite app_nil_r|].
      destruct path, (paths st); simpl; by rewrite ?app_nil_r.
    + rewrite (_graph_flatten_new _ _ _ _ _ _ _ _ _ Hget). cbn zeta.
      pose proof (in_step_add E h ri st fst a Hin Hget) as Hadd.
      rewrite Hri, ref_get_app in Hget.
      destruct (ref_get E h ri a) as [j|]; [done|]. rewrite Hget.
      destruct (node_flatten h (VRef a)) as [[values md]|e]; simpl; [|done].
      intros H1 H2.
      apply bind_ok in H1 as ([ds st2] & Hr1 & [= <- <-]).
      apply bind_ok in H2 as ([fas fst2] & Hr2 & [= <- <-]).
      destruct (flatten_attrs_desc E h ri roi rv wp _ _ Hstep IH path values _ _ _ _ _ _
                  Hadd Hready Hflag Hr1 Hr2) as (Hds & Hls & Hps).
      split; [|split].
      * rewrite with_no_outer_index_NodeDef, descriptor_of_FpNode, Hds.
        by rewrite Hnext.
      * by rewrite fp_variables_FpNode.
      * rewrite Hps. simpl. destruct path, (paths st); simpl; try done.
        by rewrite fp_paths_FpNode.
  - rewrite _graph_flatten_pytree, _graph_fingerprint_pytree.
    destruct (node_flatten h v) as [[values md]|e]; simpl; [|done].
    intros H1 H2.
    apply bind_ok in H1 as ([ds st2] & Hr1 & [= <- <-]).
    apply bind_ok in H2 as ([fas fst2] & Hr2 & [= <- <-]).
    destruct (flatten_attrs_desc E h ri roi rv wp _ _ Hstep IH path values _ _ _ _ _ _
                Hin Hready Hflag Hr1 Hr2) as (Hds & Hls & Hps).
    split; [|split].
    * by rewrite with_no_outer_index_NodeDef, descriptor_of_FpNode, Hds.
    * by rewrite fp_variables_FpNode.
    * rewrite Hps. destruct path, (paths st); simpl; try done.
      by rewrite fp_paths_FpNode.
Qed.

Lemma leaf_in_variables h wp l :
  map (leaf_in h true wp) l = map VariableLeaf l.
Proof.
  apply map_ext. intros a. unfold leaf_in. by destruct (h !! a) as [[]|].
Qed.

Lemma flatten_fingerprint_desc E fuel h node with_paths rv ref_index0 roi gd fs ri fp nri :
  flatten E fuel h node with_paths rv ref_index0 roi = Ok (gd, fs, ri) →
  fingerprint E fuel h node ref_index0 None = Ok (fp, nri) →
  with_no_outer_index gd = descriptor_of fp
  ∧ fs = (if with_paths
          then FlatState (fp_paths fp []) (map (leaf_in h rv true) (fp_variables fp))
          else LeafList (map (leaf_in h rv false) (fp_variables fp)))
  ∧ ri = dict_update (ref_eqb E h) (default [] ref_index0) nri.
Proof.
  unfold flatten, fingerprint. intros H1 H2.
  apply bind_ok in H1 as (oimpl & Himpl & H1). rewrite Himpl in H2. simpl in H2.
  destruct oimpl as [impl|]; [|done].
  apply bind_ok in H1 as ([gd' st] & Hr1 & H1).
  apply bind_ok in H2 as ([fp' fst] & Hr2 & [= <- <-]).
  set (ri0 := default [] ref_index0) in *.
  pose proof (_graph_flatten_in_step E h ri0 roi rv fuel node impl _ _ _
                (in_step_init E h ri0 [] _) (paths_ready_init with_paths ri0 [])) as Hs.
  rewrite Hr1, Hr2 in Hs. destruct Hs as [(Hri & _ & Hup) _].
  assert (path_flag with_paths (if with_paths then Some [] else None)) as Hflag
    by by destruct with_paths.
  destruct (_graph_flatten_desc_rel E h ri0 roi rv with_paths fuel node impl _ _ _ _ _ _ _
              (in_step_init E h ri0 [] _) (paths_ready_init with_paths ri0 [])
              Hflag Hr1 Hr2) as (Hgd & Hl & Hp).
  simpl in Hl, Hp. rewrite Hp, Hl in H1.
  destruct with_paths; simpl in H1; injection H1 as <- <- <-;
    (split; [done|]); (split; [done|]); by rewrite Hup, Hri.
Qed.

(** X15. The fingerprint of a graph determines what [flatten] returns for it,
    outer indices apart: the descriptor is the one read off the
    fingerprint, the leaves are those of the Variables the fingerprint
    registered, in its order and with its paths, and the reference map is
    the given one updated with the new map of the fingerprint. *)
Theorem fingerprint_determines_descriptor
    E fuel h node with_paths rv ref_index0 roi gd fs ri fp nri :
  flatten E fuel h node with_paths rv ref_index0 roi = Ok (gd, fs, ri) →
  fingerprint E fuel h node ref_index0 None = Ok (fp, nri) →
  with_no_outer_index gd = descriptor_of fp
  ∧ fs = (if with_paths
          then FlatState (fp_paths fp []) (map (leaf_in h rv true) (fp_variables fp))
          else LeafList (map (leaf_in h rv false) (fp_variables fp)))
  ∧ ri = dict_update (ref_eqb E h) (default [] ref_index0) nri.
Proof. apply flatten_fingerprint_desc. Qed.

(** [variable.to_state()] and [variable.raw_value] of a Variable kept in
    a cache, as the store has it now. *)
Definition to_state (h : heap) (variable : leaf) : leaf :=
  match variable with
  | VariableLeaf a =>
      match h !! a with
      | Some (OVar ty raw md) => VariableState ty raw md
      | _ => variable
      end
  | _ => variable
  end.

Definition raw_value_of (h : heap) (variable : leaf) : leaf :=
  match variable with
  | VariableLeaf a =>
      match h !! a with
      | Some (OVar _ raw _) => RawLeaf raw
      | _ => variable
      end
  | _ => variable
  end.


(** A module with one Param under two names, before and after the Param
    got new contents. *)
Definition cached_store (contents : Z) : heap :=
  [ONode "Module" [(KStr "w", VRef 1%nat); (KStr "v", VRef 1%nat)] MNone;
   OVar "Param" (PData contents) [("sharding", SStr "x")]].

Lemma fingerprint_determines_descriptor_witness :
  let h := cached_store 1 in
  let fp := FpNode (Some 0%nat) (Cls "Module") 0
              [FaVariable (KStr "w") 1 "Param" 1 [("sharding", SStr "x")];
               FaSeenVariable (KStr "v") 1 "Param" 1] MNone in
  let gd := NodeDef (Cls "Module") 0 None
              [(KStr "w", VariableDef "Param" 1 None [("sharding", SStr "x")]);
               (KStr "v", NodeRef "Param" 1)] MNone in
  let fs := FlatState [[KStr "w"]]
              [VariableState "Param" (PData 1) [("sharding", SStr "x")]] in
  let ri := [(0%nat, 0); (1%nat, 1)] in
  with_no_outer_index gd = descriptor_of fp
  ∧ fs = FlatState (fp_paths fp []) (map (leaf_in h false true) (fp_variables fp))
  ∧ ri = dict_update (ref_eqb std_env h) [] ri.
Proof.
  intros h fp gd fs ri.
  apply (fingerprint_determines_descriptor std_env 3 h (VRef 0%nat) true false None None
           gd fs ri fp ri); reflexivity.
Defined.


(* --------------------------------------------------------------------- *)
(* HashableMapping                                                        *)
(* --------------------------------------------------------------------- *)

Module HashableMapping.
Section Methods.
Context {V H : Type}.
(** [==] on the values, and [hash] on a tuple of items. *)
Context (value_eqb : V → V → bool) (hash : list (key * V) → H).

(** [__hash__]: [hash(tuple(sorted(self._mapping.items())))] *)
Definition __hash__ (_mapping : list (key * V)) : result H :=
  let* items := sorted_items _mapping in
  Ok (hash items).

(** [__eq__] between two instances: [self._mapping == other._mapping],
    the equality of dicts. *)
Definition __eq__ (_mapping other : list (key * V)) : bool :=
  Nat.eqb (length _mapping) (length other)
  && forallb (fun kv => match dict_get key_eqb other kv.1 with
                        | Some v => value_eqb kv.2 v
                        | None => false
                        end) _mapping.
End Methods.
End HashableMapping.

Lemma NoDup_keys_items {A} (l : list (key * A)) : NoDup (map fst l) → NoDup l.
Proof.
  induction l as [|[k x] l IH]; simpl; [constructor|].
  intros [Hk Hnd]%NoDup_cons. constructor; [|by apply IH].
  intros Hin. apply Hk. apply list_elem_of_fmap. by exists (k, x).
Qed.

(** X17. Mappings that are equal hash alike: the hash does not see the order
    in which a mapping was filled. Where the keys of one do not compare,
    [hash] raises the same [TypeError] on both. *)
Theorem hashable_mapping_eq_hash {V H} (value_eqb : V → V → bool)
    (hash : list (key * V) → H) (m1 m2 : list (key * V)) :
  (∀ a b, value_eqb a b = true ↔ a = b) →
  NoDup (map fst m1) → NoDup (map fst m2) →
  HashableMapping.__eq__ value_eqb m1 m2 = true →
  HashableMapping.__hash__ hash m1 = HashableMapping.__hash__ hash m2.
Proof.
  intros Hspec Hnd1 Hnd2 Heq. unfold HashableMapping.__eq__ in Heq.
  apply andb_true_iff in Heq as [Hlen Hall]. apply Nat.eqb_eq in Hlen.
  rewrite forallb_forall in Hall.
  assert (m1 ≡ₚ m2) as Hp.
  { apply submseteq_length_Permutation; [|lia].
    apply NoDup_submseteq; [by apply NoDup_keys_items|].
    intros [k v] Hin. apply list_elem_of_In, Hall in Hin. simpl in Hin.
    destruct (dict_get key_eqb m2 k) as [v'|] eqn:Hget; [|done].
    apply Hspec in Hin as ->.
    by apply (dict_get_Some_in key_eqb _ _ _ key_eqb_spec). }
  unfold HashableMapping.__hash__. by rewrite (sorted_items_perm m1 m2 Hnd1 Hp).
Qed.

Lemma static_eqb_spec a b : static_eqb a b = true ↔ a = b.
Proof.
  destruct a as [x|s|x], b as [y|t|y]; simpl; try (split; congruence).
  - rewrite Z.eqb_eq. split; congruence.
  - rewrite String.eqb_eq. split; congruence.
  - rewrite Bool.eqb_true_iff. split; congruence.
Qed.

Lemma hashable_mapping_eq_hash_witness :
  let m1 := [(KStr "sharding", SStr "x"); (KStr "mesh", SInt 2)] in
  let m2 := [(KStr "mesh", SInt 2); (KStr "sharding", SStr "x")] in
  HashableMapping.__hash__ (fun items => items) m1
  = HashableMapping.__hash__ (fun items => items) m2.
Proof.
  intros m1 m2.
  apply (hashable_mapping_eq_hash static_eqb (fun items => items) m1 m2).
  - exact static_eqb_spec.
  - apply keys_nodup_NoDup. reflexivity.
  - apply keys_nodup_NoDup. reflexivity.
  - reflexivity.
Defined.

(* --------------------------------------------------------------------- *)
(* Generic pytrees: the order of the children                             *)
(* --------------------------------------------------------------------- *)

(** [enumerate(xs)], counting from [n]. *)
Fixpoint enumerate_from {A} (n : nat) (xs : list A) : list (nat * A) :=
  match xs with
  | [] => []
  | x :: rest => (n, x) :: enumerate_from (S n) rest
  end.

Section GenericPytree.
Context {A : Type}.

(** [{key: i for i, (key, _) in enumerate(nodes)}] *)
Definition key_index_of (nodes : list (key * A)) : list (key * nat) :=
  dict_update key_eqb [] (map (fun ix => (ix.2.1, ix.1)) (enumerate_from 0 nodes)).

(** [_flatten_pytree], from the children that [tree_flatten_with_path]
    finds one level below the pytree, in its order, each with its key as
    [_key_path_to_key] gives it; returns the nodes and the [key_index] of
    the metadata. *)
Definition _flatten_pytree (children : list (key * A))
  : result (list (key * A) * list (key * nat)) :=
  let nodes := children in
  let key_index := key_index_of nodes in
  let* nodes := sorted_items nodes in
  Ok (nodes, key_index).

Fixpoint insert_by_index (i : nat) (x : key * A) (sorted : list (nat * (key * A)))
  : list (nat * (key * A)) :=
  match sorted with
  | [] => [(i, x)]
  | (j, y) :: rest =>
      if (i <=? j)%nat then (i, x) :: sorted else (j, y) :: insert_by_index i x rest
  end.

(** [sorted(nodes, key=lambda x: metadata.key_index[x[0]])], each node
    with its sort key; a stable sort, by insertion from the right. *)
Fixpoint sorted_by_index (key_index : list (key * nat)) (nodes : list (key * A))
  : result (list (nat * (key * A))) :=
  match nodes with
  | [] => Ok []
  | x :: rest =>
      match dict_get key_eqb key_index x.1 with
      | None => Err KeyError
      | Some i =>
          let* rest' := sorted_by_index key_index rest in
          Ok (insert_by_index i x rest')
      end
  end.

(** [_unflatten_pytree]: the values in the order in which the treedef
    takes them. *)
Definition _unflatten_pytree (nodes : list (key * A)) (key_index : list (key * nat))
  : result (list A) :=
  let* sorted_nodes := sorted_by_index key_index nodes in
  Ok (map (fun ix => ix.2.2) sorted_nodes).

Definition index_le (p q : nat * (key * A)) : Prop := (p.1 ≤ q.1)%nat.

Lemma enumerate_from_lookup n (xs : list (key * A)) i x :
  xs !! i = Some x → enumerate_from n xs !! i = Some ((n + i)%nat, x).
Proof.
  revert n i. induction xs as [|y xs IH]; intros n [|i]; simpl; try done.
  - intros [= ->]. by rewrite Nat.add_0_r.
  - intros H. rewrite (IH (S n) i H). f_equal. f_equal. lia.
Qed.

Lemma enumerate_from_elem n (xs : list (key * A)) j x :
  (j, x) ∈ enumerate_from n xs ↔ ∃ i, j = (n + i)%nat ∧ xs !! i = Some x.
Proof.
  revert n. induction xs as [|y xs IH]; intros n; simpl.
  - split; [intros H; by apply elem_of_nil in H|by intros (i & _ & H)].
  - rewrite elem_of_cons, IH. split.
    + intros [[= -> ->]|(i & -> & Hi)].
      * exists 0%nat. split; [lia|done].
      * exists (S i). split; [lia|done].
    + intros ([|i] & -> & Hi); simpl in Hi.
      * left. injection Hi as ->. f_equal. lia.
      * right. exists i. split; [lia|done].
Qed.

Lemma enumerate_from_snd n (xs : list (key * A)) :
  map snd (enumerate_from n xs) = xs.
Proof. revert n. induction xs as [|y xs IH]; intros n; simpl; [done|]. by rewrite IH. Qed.

Lemma enumerate_from_sorted n (xs : list (key * A)) :
  StronglySorted index_le (enumerate_from n xs).
Proof.
  revert n. induction xs as [|y xs IH]; intros n; simpl; constructor; [apply IH|].
  apply Forall_forall. intros [j x] (i & -> & _)%enumerate_from_elem.
  unfold index_le. simpl. lia.
Qed.

Lemma key_index_of_get (children : list (key * A)) i k x :
  NoDup (map fst children) → children !! i = Some (k, x) →
  dict_get key_eqb (key_index_of children) k = Some i.
Proof.
  intros Hnd Hi. unfold key_index_of.
  assert (map fst (map (fun ix : nat * (key * A) => (ix.2.1, ix.1))
                     (enumerate_from 0 children)) = map fst children) as Hk.
  { rewrite map_map. simpl. rewrite <- (enumerate_from_snd 0 children) at 2.
    by rewrite map_map. }
  rewrite (dict_update_rebuild key_eqb key_eqb_spec []) by (simpl; by rewrite Hk).
  simpl. apply (dict_get_in_NoDup key_eqb _ _ _ key_eqb_spec); [by rewrite Hk|].
  apply list_elem_of_fmap. exists (i, (k, x)). split; [done|].
  apply enumerate_from_elem. by exists i.
Qed.

Lemma insert_by_index_perm i x s : insert_by_index i x s ≡ₚ (i, x) :: s.
Proof.
  induction s as [|[j y] s IH]; simpl; [done|].
  destruct (i <=? j)%nat; [done|]. rewrite IH. apply Permutation_swap.
Qed.

Lemma insert_by_index_sorted i x s :
  StronglySorted index_le s → StronglySorted index_le (insert_by_index i x s).
Proof.
  induction 1 as [|[j y] s Hs IH Hall]; simpl; [repeat constructor|].
  destruct (i <=? j)%nat eqn:Hle.
  - apply Nat.leb_le in Hle. constructor; [by constructor|].
    constructor; [done|]. eapply Forall_impl; [exact Hall|].
    intros [j' y']. unfold index_le. simpl. lia.
  - apply Nat.leb_gt in Hle. constructor; [done|].
    rewrite insert_by_index_perm. constructor; [|done].
    unfold index_le. simpl. lia.
Qed.

Lemma sorted_by_index_Ok (children nodes : list (key * A)) :
  NoDup (map fst children) → (∀ x, x ∈ nodes → x ∈ children) →
  ∃ s, sorted_by_index (key_index_of children) nodes = Ok s
       ∧ map snd s ≡ₚ nodes
       ∧ StronglySorted index_le s
       ∧ Forall (fun p => children !! p.1 = Some p.2) s.
Proof.
  intros Hnd. induction nodes as [|[k x] nodes IH]; intros Hsub; simpl.
  - exists []. repeat split; constructor.
  - destruct IH as (s & Hs & Hp & Hsorted & Hall).
    { intros y Hy. apply Hsub. by right. }
    assert ((k, x) ∈ children) as Hin by (apply Hsub; by left).
    apply list_elem_of_lookup_1 in Hin as [i Hi].
    rewrite (key_index_of_get children i k x Hnd Hi), Hs. simpl.
    exists (insert_by_index i (k, x) s). split; [done|]. split; [|split].
    + rewrite insert_by_index_perm. simpl. by rewrite Hp.
    + by apply insert_by_index_sorted.
    + rewrite insert_by_index_perm. by constructor.
Qed.
End GenericPytree.

(** X18. The children of a generic pytree come back in their order:
    [_flatten_pytree] hands them out sorted by key, and [_unflatten_pytree]
    gives the treedef the values in the order in which
    [tree_flatten_with_path] found them, when no key stands twice. Keys of
    different types do not compare, and [_flatten_pytree] raises. *)
Theorem pytree_children_order {A} (children : list (key * A)) :
  NoDup (map fst children) →
  match _flatten_pytree children with
  | Ok (nodes, key_index) =>
      nodes ≡ₚ children ∧ StronglySorted item_lt nodes
      ∧ _unflatten_pytree nodes key_index = Ok (map snd children)
  | Err e => e = TypeError ∧ ¬ homogeneous (map fst children)
  end.
Proof.
  intros Hnd. unfold _flatten_pytree.
  destruct (sorted_items children) as [nodes|e] eqn:Hs; simpl;
    [|by apply sorted_items_Err].
  apply sorted_items_Ok in Hs as (Hp & _ & Hsorted).
  split; [done|]. split; [by apply Hsorted|].
  destruct (sorted_by_index_Ok children nodes Hnd) as (s & Hrun & Hps & Hss & Hall).
  { intros x Hx. by rewrite Hp. }
  unfold _unflatten_pytree. rewrite Hrun. simpl. f_equal.
  assert (s = enumerate_from 0 children) as ->.
  { rewrite Forall_forall in Hall.
    pose proof (NoDup_keys_items children Hnd) as Hndc.
    apply (sorting.StronglySorted_unique_strong index_le).
    - intros [i x] [j y] H1 (j' & -> & Hj)%enumerate_from_elem Hle1 Hle2.
      unfold index_le in *. simpl in *. apply Hall in H1. simpl in H1.
      assert (i = j') as -> by lia. congruence.
    - done.
    - apply enumerate_from_sorted.
    - apply NoDup_Permutation.
      + apply (NoDup_fmap_1 snd). rewrite Hps, <- Hp. done.
      + apply (NoDup_fmap_1 snd). by rewrite enumerate_from_snd.
      + intros [i x]. rewrite enumerate_from_elem. split.
        * intros H. apply Hall in H. simpl in H. by exists i.
        * intros (i' & -> & Hi). simpl in Hi.
          assert (x ∈ map snd s) as Hx.
          { rewrite Hps, <- Hp. by eapply list_elem_of_lookup_2. }
          apply list_elem_of_fmap in Hx as ([j y] & -> & Hjy). simpl in *.
          pose proof (Hall _ Hjy) as Hj. simpl in Hj.
          by rewrite (NoDup_lookup _ _ _ _ Hndc Hi Hj). }
  rewrite <- (enumerate_from_snd 0 children) at 2. by rewrite map_map.
Qed.

Lemma pytree_children_order_witness :
  let children := [(KStr "y", 1); (KStr "x", 2); (KStr "z", 3)] in
  match _flatten_pytree children with
  | Ok (nodes, key_index) =>
      nodes ≡ₚ children ∧ StronglySorted item_lt nodes
      ∧ _unflatten_pytree nodes key_index = Ok (map snd children)
  | Err e => e = TypeError ∧ ¬ homogeneous (map fst children)
  end.
Proof.
  intros children. apply (pytree_children_order children).
  apply keys_nodup_NoDup. reflexivity.
Defined.

(* --------------------------------------------------------------------- *)
(* Registering node types                                                 *)
(* --------------------------------------------------------------------- *)

(** [register_graph_node_type]: the functions of the implementation are
    those of the class, which the store has. *)
Definition register_graph_node_type (type : string) (E : PyEnv) : outcome PyEnv :=
  if GRAPH_REGISTRY E type then Raise (AlreadyRegistered type)
  else Return {| GRAPH_REGISTRY := fun t => String.eqb t type || GRAPH_REGISTRY E t;
                 PYTREE_REGISTRY := PYTREE_REGISTRY E;
                 JAX_PYTREE_REGISTRY := JAX_PYTREE_REGISTRY E;
                 issubclass_tuple := issubclass_tuple E;
                 py_eq := py_eq E |}.

Definition register_pytree_node_type (type : string) (E : PyEnv) : outcome PyEnv :=
  if PYTREE_REGISTRY E type then Raise (AlreadyRegistered type)
  else Return {| GRAPH_REGISTRY := GRAPH_REGISTRY E;
                 PYTREE_REGISTRY := fun t => String.eqb t type || PYTREE_REGISTRY E t;
                 JAX_PYTREE_REGISTRY := JAX_PYTREE_REGISTRY E;
                 issubclass_tuple := issubclass_tuple E;
                 py_eq := py_eq E |}.

(** [is_node_type] *)
Definition is_node_type (E : PyEnv) (x : pytype) : bool :=
  match x with
  | Cls name => GRAPH_REGISTRY E name || PYTREE_REGISTRY E name
  | GenericPytree => true
  end.

(** X19. Each of the two functions looks into its own registry only. A class
    that is not a graph node type becomes one, and a second registration
    as such is refused; but it can still be registered as a pytree node
    type, and then the two lookups disagree on it: [get_node_impl] finds
    the graph node implementation for an instance, and
    [get_node_impl_for_type] the pytree implementation for the class, so
    that [unflatten] takes a descriptor that [flatten] made of a graph
    node for that of a pytree. *)
Theorem registration_checks_one_registry (E : PyEnv) (type : string) :
  GRAPH_REGISTRY E type = false → PYTREE_REGISTRY E type = false →
  ∃ E1 E2,
    register_graph_node_type type E = Return E1
    ∧ register_graph_node_type type E1 = Raise (AlreadyRegistered type)
    ∧ (∀ t, t ≠ type → lookup_impl E1 t = lookup_impl E t
                       ∧ get_node_impl_for_type E1 (Cls t)
                         = get_node_impl_for_type E (Cls t))
    ∧ lookup_impl E1 type = Some (GraphNodeImpl type)
    ∧ get_node_impl_for_type E1 (Cls type) = Some (GraphNodeImpl type)
    ∧ register_pytree_node_type type E1 = Return E2
    ∧ is_node_type E2 (Cls type) = true
    ∧ lookup_impl E2 type = Some (GraphNodeImpl type)
    ∧ get_node_impl_for_type E2 (Cls type) = Some (PytreeNodeImpl (Cls type))
    ∧ ¬ registry_ok E2.
Proof.
  intros HG HP.
  set (E1 := {| GRAPH_REGISTRY := fun t => String.eqb t type || GRAPH_REGISTRY E t;
                PYTREE_REGISTRY := PYTREE_REGISTRY E;
                JAX_PYTREE_REGISTRY := JAX_PYTREE_REGISTRY E;
                issubclass_tuple := issubclass_tuple E;
                py_eq := py_eq E |}).
  set (E2 := {| GRAPH_REGISTRY := GRAPH_REGISTRY E1;
                PYTREE_REGISTRY := fun t => String.eqb t type || PYTREE_REGISTRY E1 t;
                JAX_PYTREE_REGISTRY := JAX_PYTREE_REGISTRY E1;
                issubclass_tuple := issubclass_tuple E1;
                py_eq := py_eq E1 |}).
  exists E1, E2.
  unfold register_graph_node_type, register_pytree_node_type, lookup_impl,
    get_node_impl_for_type, is_node_type, registry_ok.
  simpl. rewrite HG, HP, !String.eqb_refl. simpl.
  repeat (split; [done|]). split; [|split; [done|]].
  - intros t Hne. apply String.eqb_neq in Hne. by rewrite Hne.
  - repeat (split; [done|]).
    intros Hok. specialize (Hok type). rewrite String.eqb_refl in Hok. simpl in Hok.
    by specialize (Hok eq_refl).
Qed.

Lemma registration_checks_one_registry_witness :
  ∃ E1 E2,
    register_graph_node_type "Linear" std_env = Return E1
    ∧ register_pytree_node_type "Linear" E1 = Return E2
    ∧ lookup_impl E2 "Linear" = Some (GraphNodeImpl "Linear")
    ∧ get_node_impl_for_type E2 (Cls "Linear") = Some (PytreeNodeImpl (Cls "Linear")).
Proof.
  destruct (registration_checks_one_registry std_env "Linear" eq_refl eq_refl)
    as (E1 & E2 & H1 & _ & _ & _ & _ & H2 & _ & H3 & H4 & _).
  by exists E1, E2.
Defined.

(* --------------------------------------------------------------------- *)
(* transforms/compilation.py: StateSharding                               *)
(* --------------------------------------------------------------------- *)

Module StateSharding.
Section Methods.
Context {Filter Sharding Var : Type}.
(** [filterlib.to_predicate] *)
Context (to_predicate : Filter → list key → Var → bool).

Record t := {
  _filters : list Filter;
  _shardings : list Sharding
}.

(** [__init__], from an iterable of pairs or the items of a mapping. *)
Definition __init__ (iterable : list (Filter * Sharding)) : t :=
  {| _filters := map fst iterable; _shardings := map snd iterable |}.

Fixpoint first_match (pairs : list (Filter * Sharding)) (path : list key)
    (variable : Var) : outcome Sharding :=
  match pairs with
  | [] => Raise NoAxisFound
  | (filter, sharding) :: rest =>
      let predicate := to_predicate filter in
      if predicate path variable then Return sharding
      else first_match rest path variable
  end.

(** [map_prefix]: the loop over [zip(self.filters, self.shardings)]. *)
Definition map_prefix (self : t) (path : list key) (variable : Var)
  : outcome Sharding :=
  first_match (zip (_filters self) (_shardings self)) path variable.
End Methods.
End StateSharding.

Lemma zip_fst_snd {A B} (l : list (A * B)) : zip (map fst l) (map snd l) = l.
Proof. induction l as [|[a b] l IH]; simpl; [done|]. by rewrite IH. Qed.

(** X20. [map_prefix] gives the sharding of the first filter that accepts the
    Variable, whatever filters come after it, and raises when no filter
    accepts it; a filter that accepts everything, put last, makes it
    return for every Variable. *)
Theorem map_prefix_first_match {Filter Sharding Var : Type}
    (to_predicate : Filter → list key → Var → bool)
    (iterable : list (Filter * Sharding)) path variable :
  let self := StateSharding.__init__ iterable in
  (∀ s, StateSharding.map_prefix to_predicate self path variable = Return s ↔
        ∃ before filter after,
          iterable = before ++ (filter, s) :: after
          ∧ to_predicate filter path variable = true
          ∧ Forall (fun fs => to_predicate fs.1 path variable = false) before)
  ∧ (StateSharding.map_prefix to_predicate self path variable = Raise NoAxisFound ↔
     Forall (fun fs => to_predicate fs.1 path variable = false) iterable)
  ∧ (∀ e, StateSharding.map_prefix to_predicate self path variable = Raise e →
          e = NoAxisFound)
  ∧ (∀ filter s,
       to_predicate filter path variable = true →
       ∃ s', StateSharding.map_prefix to_predicate
               (StateSharding.__init__ (iterable ++ [(filter, s)])) path variable
             = Return s').
Proof.
  intros self. unfold StateSharding.map_prefix, self. simpl. rewrite zip_fst_snd.
  split; [|split; [|split]].
  - intros s. induction iterable as [|[f s0] l IH]; simpl.
    + split; [done|]. intros (before & f & after & H & _). by destruct before.
    + destruct (to_predicate f path variable) eqn:Hf.
      * split.
        -- intros [= ->]. by exists [], f, l.
        -- intros ([|[g s1] before] & f' & after & Heq & Hf' & Hall).
           ++ by injection Heq as -> -> ->.
           ++ injection Heq as -> -> ->. apply Forall_cons in Hall as [Hg _].
              simpl in Hg. congruence.
      * rewrite IH. split.
        -- intros (before & f' & after & -> & Hf' & Hall).
           exists ((f, s0) :: before), f', after. split; [done|]. split; [done|].
           by constructor.
        -- intros ([|[g s1] before] & f' & after & Heq & Hf' & Hall).
           ++ injection Heq as -> -> ->. congruence.
           ++ injection Heq as -> -> ->. apply Forall_cons in Hall as [_ Hall].
              by exists before, f', after.
  - induction iterable as [|[f s0] l IH]; simpl; [done|].
    destruct (to_predicate f path variable) eqn:Hf.
    + split; [done|]. intros [Hg _]%Forall_cons. simpl in Hg. congruence.
    + rewrite IH. split; [by constructor|]. by intros [_ H]%Forall_cons.
  - intros e. induction iterable as [|[f s0] l IH]; simpl; [congruence|].
    by destruct (to_predicate f path variable).
  - intros f s Hf. rewrite (zip_fst_snd (iterable ++ [(f, s)])).
    induction iterable as [|[g s0] l IH]; simpl.
    + rewrite Hf. eauto.
    + destruct (to_predicate g path variable); eauto.
Qed.

(* --------------------------------------------------------------------- *)
(* Unflatten over the objects that were flattened                         *)
(* --------------------------------------------------------------------- *)

(** [variable.update_from_state(leaf)], or [variable.raw_value = leaf]. *)
Definition update_cell (H : heap) (a : addr) (l : leaf) : heap :=
  match H !! a with
  | Some o =>
      match update_variable o l with
      | Ok o' => <[a := o']> H
      | Err _ => H
      end
  | None => H
  end.

(** The loop [for variable, leaf in zip(cache.variables, leaves)] of
    [MergeContext.unflatten]. *)
Definition update_variables (H : heap) (pairs : list (addr * leaf)) : heap :=
  foldl (fun H p => update_cell H p.1 p.2) H pairs.

(** [{index: obj for obj, index in ref_index.items()}], pair by pair. *)
Definition swap_pairs (ri : RefMap) : IndexMap := map (fun oi => (oi.2, oi.1)) ri.

Lemma update_cell_length H a l : length (update_cell H a l) = length H.
Proof.
  unfold update_cell. destruct (H !! a) as [o|]; [|done].
  destruct (update_variable o l); [by rewrite length_insert|done].
Qed.

Lemma update_cell_ne H a l b : a ≠ b → update_cell H a l !! b = H !! b.
Proof.
  intros Hne. unfold update_cell. destruct (H !! a) as [o|]; [|done].
  destruct (update_variable o l); [by rewrite list_lookup_insert_ne|done].
Qed.

Lemma update_variables_length H pairs : length (update_variables H pairs) = length H.
Proof.
  unfold update_variables. revert H.
  induction pairs as [|[a l] pairs IH]; intros H; simpl; [done|].
  by rewrite IH, update_cell_length.
Qed.

Lemma update_variables_ne H pairs b :
  b ∉ map fst pairs → update_variables H pairs !! b = H !! b.
Proof.
  unfold update_variables. revert H.
  induction pairs as [|[a l] pairs IH]; intros H; simpl; [done|].
  intros [Hne Hnot]%not_elem_of_cons. rewrite IH by done.
  apply update_cell_ne. congruence.
Qed.

Lemma update_variables_app H p1 p2 :
  update_variables H (p1 ++ p2) = update_variables (update_variables H p1) p2.
Proof. unfold update_variables. by rewrite foldl_app. Qed.

Lemma update_cell_insert H a l b o :
  a ≠ b → update_cell (<[b := o]> H) a l = <[b := o]> (update_cell H a l).
Proof.
  intros Hne. unfold update_cell. rewrite list_lookup_insert_ne by congruence.
  destruct (H !! a) as [o0|]; [|done].
  destruct (update_variable o0 l); [|done]. by apply list_insert_insert_ne.
Qed.

Lemma update_variables_insert H pairs b o :
  b ∉ map fst pairs →
  update_variables (<[b := o]> H) pairs = <[b := o]> (update_variables H pairs).
Proof.
  unfold update_variables. revert H.
  induction pairs as [|[a l] pairs IH]; intros H; simpl; [done|].
  intros [Hne Hnot]%not_elem_of_cons.
  rewrite update_cell_insert by congruence. by apply IH.
Qed.

Lemma zip_fst_subset {A B} (l : list A) (k : list B) x :
  x ∈ map fst (zip l k) → x ∈ l.
Proof.
  revert k. induction l as [|a l IH]; intros [|b k]; simpl; try done.
  - intros H. by apply elem_of_nil in H.
  - intros [->|H]%elem_of_cons; [by left|]. right. by eapply IH.
Qed.

Lemma zip_app_length {A B} (l1 l2 : list A) (k1 k2 : list B) :
  length l1 = length k1 → zip (l1 ++ l2) (k1 ++ k2) = zip l1 k1 ++ zip l2 k2.
Proof.
  revert k1. induction l1 as [|a l1 IH]; intros [|b k1]; simpl; try done.
  intros [= H]. by rewrite IH.
Qed.

Lemma swap_pairs_synced ri : synced ri (swap_pairs ri).
Proof. unfold synced, swap_pairs. by rewrite !map_map. Qed.

Lemma swap_pairs_get h ri a i :
  ri_ok h ri → (a, i) ∈ ri → idx_get (swap_pairs ri) i = Some a.
Proof.
  intros Hri Hin. unfold idx_get.
  apply (dict_get_in_NoDup Z.eqb _ _ _ Z_eqb_spec).
  - rewrite (swap_pairs_synced ri). destruct Hri as (Hpos & _ & _). rewrite Hpos.
    apply NoDup_fmap_2; [intros x y; lia|apply NoDup_seq].
  - apply list_elem_of_fmap. by exists (a, i).
Qed.

Lemma _graph_unflatten_NodeDef E outer ty index oi attrs md impl st :
  idx_get (index_ref st) index = None →
  _graph_unflatten E outer (NodeDef ty index oi attrs md) impl st
  = let _get_children :=
      unflatten_attrs E outer (_graph_unflatten E outer) attrs in
    match impl with
    | GraphNodeImpl name =>
        let* (node, h1) :=
          match outer_lookup outer oi with
          | Some a =>
              match u_heap st !! a with
              | None => Err InvalidObject
              | Some o =>
                  if type_matches o ty then
                    let* o' := clear o in
                    Ok (a, <[a := o']> (u_heap st))
                  else Err NodeTypeMismatch
              end
          | None => Ok (length (u_heap st), u_heap st ++ [create_empty name md])
          end in
        let st1 := UState h1 (u_leaves st) (idx_set (index_ref st) index node) in
        let* (children, st2) := _get_children st1 in
        match u_heap st2 !! node with
        | None => Err InvalidObject
        | Some o =>
            let* o' := init o children in
            Ok (VRef node,
                UState (<[node := o']> (u_heap st2)) (u_leaves st2) (index_ref st2))
        end
    | PytreeNodeImpl pty =>
        let* (children, st2) := _get_children st in
        let* node := pytree_unflatten pty children md in
        Ok (node, st2)
    end.
Proof.
  intros H. simpl. unfold dict_mem. fold (idx_get (index_ref st) index). by rewrite H.
Qed.

Section InPlace.
Context (E : PyEnv) (h : heap) (roi : option RefMap).
Hypothesis Hid : identity_keys E.
Hypothesis Hreg : registry_ok E.
Hypothesis Hok : store_ok E h = true.

(** The store while [unflatten] works over the objects of [h]: the
    objects it has not come to are as they were. *)
Definition untouched (ri : RefMap) (H : heap) : Prop :=
  length H = length h ∧ ∀ a, a ∉ map fst ri → H !! a = h !! a.

Lemma untouched_update ri Δri H vars ls :
  untouched ri H → Forall (fun a => a ∈ map fst Δri) vars →
  untouched (ri ++ Δri) (update_variables H (zip vars ls)).
Proof.
  intros [Hlen Hun] Hvars. split; [by rewrite update_variables_length|].
  intros a Ha. rewrite map_app in Ha. apply not_elem_of_app in Ha as [Ha1 Ha2].
  rewrite update_variables_ne; [by apply Hun|].
  intros Hin%zip_fst_subset. rewrite Forall_forall in Hvars. by apply Ha2, Hvars.
Qed.

(** A run of [flatten]'s loop body, and what [unflatten] does on the
    descriptor it gave, with every outer index set, where the outer map
    has the objects themselves. *)
Definition place_sim (v : value) (st : fstate) (gd : graphdef) (st' : fstate) : Prop :=
  ∃ Δri vars,
    ref_index st' = ref_index st ++ Δri
    ∧ leaves st' = leaves st ++ map VariableLeaf vars
    ∧ ri_ok h (ref_index st')
    ∧ Forall (fun a => a ∈ map fst Δri) vars
    ∧ ∀ oio H ls rest,
        length ls = length vars → untouched (ref_index st) H →
        (∀ a i, (a, i) ∈ Δri → idx_get oio i = Some a) →
        unflatten_attr E (Some oio) (_graph_unflatten E (Some oio))
          (with_same_outer_index gd) (UState H (ls ++ rest) (swap_pairs (ref_index st)))
        = Ok (v, UState (update_variables H (zip vars ls)) rest
                        (swap_pairs (ref_index st'))).

Definition place_sims (values : list (key * value)) (st : fstate)
    (ds : list (key * graphdef)) (st' : fstate) : Prop :=
  ∃ Δri vars,
    ref_index st' = ref_index st ++ Δri
    ∧ leaves st' = leaves st ++ map VariableLeaf vars
    ∧ ri_ok h (ref_index st')
    ∧ Forall (fun a => a ∈ map fst Δri) vars
    ∧ ∀ oio H ls rest,
        length ls = length vars → untouched (ref_index st) H →
        (∀ a i, (a, i) ∈ Δri → idx_get oio i = Some a) →
        unflatten_attrs E (Some oio) (_graph_unflatten E (Some oio))
          (map_values with_same_outer_index ds)
          (UState H (ls ++ rest) (swap_pairs (ref_index st)))
        = Ok (values, UState (update_variables H (zip vars ls)) rest
                             (swap_pairs (ref_index st'))).

Definition rec_place
    (rec : value → NodeImpl → option (list key) → fstate → result (graphdef * fstate))
  : Prop :=
  ∀ v impl path st gd st',
    get_node_impl E h v = Ok (Some impl) → value_ok E v = true →
    ri_ok h (ref_index st) →
    rec v impl path st = Ok (gd, st') → place_sim v st gd st'.

Lemma place_static v st :
  ri_ok h (ref_index st) → place_sim v st (Static v) st.
Proof.
  intros Hri. exists [], []. rewrite !app_nil_r.
  split; [done|]. split; [done|]. split; [done|]. split; [constructor|].
  intros oio H ls rest Hlen _ _. destruct ls; [reflexivity|done].
Qed.

Lemma place_seen a st ty i :
  ref_get E h (ref_index st) a = Some i → ri_ok h (ref_index st) →
  place_sim (VRef a) st (NodeRef ty i) st.
Proof.
  intros Hget Hri. apply (ref_get_Some_in E h _ _ _ Hid) in Hget.
  exists [], []. rewrite !app_nil_r.
  split; [done|]. split; [done|]. split; [done|]. split; [constructor|].
  intros oio H ls rest Hlen _ _. destruct ls; [|done].
  change (with_same_outer_index (NodeRef ty i)) with (NodeRef ty i). simpl.
  by rewrite (swap_pairs_get h _ _ _ Hri Hget).
Qed.

Lemma flatten_attr_place rec path k v st d st' :
  rec_place rec → ri_ok h (ref_index st) → value_ok E v = true →
  flatten_attr E h roi true rec path k v st = Ok (d, st') →
  place_sim v st d st'.
Proof.
  intros Hrec Hri Hv. unfold flatten_attr.
  destruct (get_node_impl E h v) as [[impl|]|e] eqn:Himpl; simpl; [| |done].
  { by apply Hrec. }
  destruct v as [s|data|a|ty items aux]; try done.
  - intros [= <- <-]. by apply place_static.
  - destruct (h !! a) as [[ty attrs aux|ty raw md]|] eqn:Ha; [| |done].
    { intros [= <- <-]. by apply place_static. }
    destruct (ref_get E h (ref_index st) a) as [i|] eqn:Hget.
    { intros [= <- <-]. by apply place_seen. }
    intros H. apply bind_ok in H as (ps & _ & H). injection H as <- <-. simpl.
    destruct (ri_ok_snoc E h (ref_index st) a Hri Hget) as [Hset Hok1].
    { by apply lookup_lt_Some in Ha. }
    rewrite Hset.
    exists [(a, Z.of_nat (length (ref_index st)))], [a]. simpl.
    split; [done|]. split; [done|]. split; [done|].
    split; [repeat constructor; by left|].
    intros oio H ls rest Hlen [Hlh Hun] Hoio.
    destruct ls as [|l [|l' ls]]; try done.
    change (with_same_outer_index (VariableDef ty (dict_len (ref_index st))
                                     (outer_index_of E h roi a) md))
      with (VariableDef ty (dict_len (ref_index st))
              (Some (dict_len (ref_index st))) md).
    simpl. unfold outer_lookup, dict_len.
    rewrite (Hoio a _ ltac:(by left)).
    rewrite (Hun a (ref_get_None_notin E h _ _ Hget)), Ha. simpl.
    unfold update_variables, update_cell. simpl.
    rewrite (Hun a (ref_get_None_notin E h _ _ Hget)), Ha. simpl.
    pose proof (synced_absent h _ _ Hri (swap_pairs_synced (ref_index st))) as Habs.
    unfold idx_set, dict_len. unfold dict_len in Habs.
    rewrite (dict_set_absent _ _ _ _ Habs).
    unfold swap_pairs. by rewrite map_app.
  - intros [= <- <-]. by apply place_static.
Qed.

Lemma flatten_attrs_place rec path values st ds st' :
  rec_place rec → ri_ok h (ref_index st) → values_ok E values = true →
  flatten_attrs E h roi true rec path values st = Ok (ds, st') →
  place_sims values st ds st'.
Proof.
  intros Hrec. revert st ds st'.
  induction values as [|[k v] values IH]; intros st ds st' Hri Hvs; simpl.
  - intros [= <- <-]. exists [], []. rewrite !app_nil_r.
    split; [done|]. split; [done|]. split; [done|]. split; [constructor|].
    intros oio H ls rest Hlen _ _. by destruct ls.
  - simpl in Hvs. apply andb_true_iff in Hvs as [Hv Hvs].
    intros H. apply bind_ok in H as ([d st1] & Hx & H).
    apply bind_ok in H as ([ds' st2] & Hx0 & H). injection H as <- <-.
    apply flatten_attr_place in Hx as (Δ1 & vars1 & Hri1 & Hl1 & Hok1 & Hv1 & Hsim1);
      [|done..].
    apply IH in Hx0 as (Δ2 & vars2 & Hri2 & Hl2 & Hok2 & Hv2 & Hsim2); [|done..].
    exists (Δ1 ++ Δ2), (vars1 ++ vars2).
    split; [by rewrite Hri2, Hri1, app_assoc|].
    split; [by rewrite Hl2, Hl1, map_app, app_assoc|].
    split; [done|]. split.
    { apply Forall_app. split.
      - eapply Forall_impl; [exact Hv1|]. intros a Ha. rewrite map_app.
        apply elem_of_app. by left.
      - eapply Forall_impl; [exact Hv2|]. intros a Ha. rewrite map_app.
        apply elem_of_app. by right. }
    intros oio H ls rest Hlen Hun Hoio.
    rewrite length_app in Hlen.
    set (ls1 := take (length vars1) ls). set (ls2 := drop (length vars1) ls).
    assert (ls = ls1 ++ ls2) as Hls by (symmetry; apply take_drop).
    assert (length ls1 = length vars1) as Hlen1.
    { unfold ls1. rewrite length_take. lia. }
    assert (length ls2 = length vars2) as Hlen2.
    { unfold ls2. rewrite length_drop. lia. }
    rewrite Hls. simpl. rewrite <- app_assoc.
    rewrite (Hsim1 oio H ls1 (ls2 ++ rest) Hlen1 Hun).
    2: { intros a i Hin. apply Hoio. apply elem_of_app. by left. }
    simpl. rewrite Hri1.
    rewrite <- Hri1.
    rewrite (Hsim2 oio _ ls2 rest Hlen2).
    + simpl. rewrite zip_app_length by done. by rewrite update_variables_app.
    + rewrite Hri1. by apply untouched_update.
    + intros a i Hin. apply Hoio. apply elem_of_app. by right.
Qed.
End InPlace.

Lemma _graph_flatten_place E h roi fuel :
  identity_keys E → registry_ok E → store_ok E h = true →
  rec_place E h (_graph_flatten E fuel h roi true).
Proof.
  intros Hid Hreg Hok. induction fuel as [|fuel IH];
    intros v impl path st gd st' Himpl Hv Hri; [done|].
  destruct impl as [ty|pty].
  - destruct v as [s|data|a|ty' items aux]; try done.
    destruct (ref_get E h (ref_index st) a) as [i|] eqn:Hget.
    { rewrite (_graph_flatten_seen _ _ _ _ _ _ _ _ _ _ Hget).
      intros H. apply bind_ok in H as (node_ty & _ & [= <- <-]).
      by apply place_seen. }
    rewrite (_graph_flatten_new _ _ _ _ _ _ _ _ _ Hget). cbn zeta.
    intros H. apply bind_ok in H as ([values md] & Hfl & H).
    apply bind_ok in H as ([attributes st2] & Hloop & [= <- <-]).
    destruct (ri_ok_snoc E h (ref_index st) a Hri Hget) as [Hset Hok1].
    { by apply get_node_impl_ref_lt in Himpl. }
    rewrite Hset in Hloop.
    assert (h !! a = Some (ONode ty values md)
            ∧ GRAPH_REGISTRY E ty = true) as [Ha HG].
    { unfold node_flatten in Hfl. unfold get_node_impl in Himpl.
      destruct (h !! a) as [[ty0 attrs aux|]|] eqn:Ha; try done.
      injection Hfl as <- <-. injection Himpl as Himpl.
      apply lookup_impl_graph in Himpl as [-> HG]. done. }
    destruct (store_ok_node E h a ty values md Hok Ha) as [Hnd Hvs].
    apply (flatten_attrs_place E h roi Hid) in Hloop
      as (Δ2 & vars & Hri2 & Hl2 & Hok2 & Hvars & Hsim2); [|done..].
    simpl in Hri2, Hl2.
    set (n := Z.of_nat (length (ref_index st))) in *.
    exists ((a, n) :: Δ2), vars.
    split; [by rewrite Hri2, <- app_assoc|]. split; [done|]. split; [done|].
    split.
    { eapply Forall_impl; [exact Hvars|]. intros b Hb. simpl. by right. }
    intros oio H ls rest Hlen [Hlh Hun] Hoio.
    pose proof (synced_absent h _ _ Hri (swap_pairs_synced (ref_index st))) as Habs.
    change (dict_len (ref_index st)) with n in *.
    rewrite with_same_outer_index_NodeDef.
    assert ((0 <=? n) = true) as -> by (apply Z.leb_le; unfold n; lia).
    unfold unflatten_attr.
    rewrite (get_node_impl_for_type_graph E ty HG (Hreg _ HG)).
    rewrite _graph_unflatten_NodeDef by done. cbn zeta. simpl.
    rewrite (Hoio a n ltac:(by left)).
    pose proof (ref_get_None_notin E h _ _ Hget) as Hnot.
    rewrite (Hun a Hnot), Ha. simpl. rewrite String.eqb_refl. simpl.
    assert (a < length H)%nat as Hlt.
    { rewrite Hlh. by apply lookup_lt_Some in Ha. }
    unfold idx_set. rewrite (dict_set_absent _ _ _ _ Habs).
    assert (swap_pairs (ref_index st) ++ [(n, a)]
            = swap_pairs (ref_index st ++ [(a, n)])) as ->.
    { unfold swap_pairs. by rewrite map_app. }
    rewrite (Hsim2 oio (<[a := ONode ty [] md]> H) ls rest Hlen).
    2: { split; [by rewrite length_insert|]. simpl.
         intros b Hb. rewrite map_app in Hb. apply not_elem_of_app in Hb as [Hb1 Hb2].
         rewrite list_lookup_insert_ne; [by apply Hun|].
         intros ->. apply Hb2. simpl. by left. }
    2: { intros b j Hin. apply Hoio. by right. }
    simpl.
    assert (a ∉ map fst (zip vars ls)) as Hnv.
    { intros Hin%zip_fst_subset. rewrite Forall_forall in Hvars. apply Hvars in Hin.
      destruct Hok2 as (_ & Hnd2 & _). rewrite Hri2, map_app in Hnd2.
      apply NoDup_app in Hnd2 as (_ & Hdis & _).
      apply (Hdis a); [|done]. rewrite map_app. apply elem_of_app. right. by left. }
    rewrite (update_variables_insert _ _ _ _ Hnv).
    rewrite list_lookup_insert_eq by (by rewrite update_variables_length).
    simpl. rewrite (dict_update_rebuild key_eqb key_eqb_spec [] values) by done.
    simpl. rewrite list_insert_insert_eq.
    rewrite list_insert_id; [done|].
    by rewrite (update_variables_ne _ _ _ Hnv), (Hun a Hnot).
  - rewrite _graph_flatten_pytree.
    destruct v as [s|data|a|ty' items aux]; try done.
    { by destruct (heap_by_value_not_pytree E h (store_ok_by_value E h Hok) a pty). }
    change (node_flatten h (VTree ty' items aux)) with (Ok (A:=_) (items, aux)). simpl.
    intros H. apply bind_ok in H as ([attributes st2] & Hloop & [= <- <-]).
    assert (lookup_impl E ty' = Some (PytreeNodeImpl pty)) as Hl.
    { unfold get_node_impl in Himpl. by injection Himpl. }
    destruct (value_ok_VTree E ty' items aux Hv) as [Hvs Hgen].
    apply (flatten_attrs_place E h roi Hid) in Hloop
      as (Δ2 & vars & Hri2 & Hl2 & Hok2 & Hvars & Hsim2); [|done..].
    exists Δ2, vars. repeat (split; [done|]).
    intros oio H ls rest Hlen Hun Hoio.
    rewrite with_same_outer_index_NodeDef.
    unfold unflatten_attr.
    pose proof (lookup_impl_for_type E ty' _ Hreg Hl) as Hfor. simpl in Hfor.
    rewrite Hfor.
    rewrite _graph_unflatten_NodeDef
      by exact (synced_no_pytree_index h _ _ Hri (swap_pairs_synced (ref_index st))).
    cbn zeta. rewrite (Hsim2 oio H ls rest Hlen Hun Hoio). simpl.
    destruct (lookup_impl_pytree E ty' pty Hl) as [->| ->]; simpl; [done|].
    destruct (Hgen Hl) as (ki & -> & Hks). by rewrite Hks.
Qed.

Lemma unflatten_top_attr_outer E outer gd st r :
  match gd with NodeDef _ _ _ _ _ | NodeRef _ _ => True | _ => False end →
  unflatten_attr E outer (_graph_unflatten E outer) gd st = Ok r →
  unflatten_top E outer gd st = Ok r.
Proof.
  destruct gd as [ty i oi attrs md|ty i|ty i oi md|v]; simpl; try done.
  by destruct (get_node_impl_for_type E ty).
Qed.

Lemma invert_ref_index_swap h ri : ri_ok h ri → invert_ref_index ri = swap_pairs ri.
Proof.
  intros (Hpos & _ & _). unfold invert_ref_index.
  apply (dict_update_rebuild Z.eqb Z_eqb_spec []). simpl.
  fold (swap_pairs ri). rewrite (swap_pairs_synced ri), Hpos.
  apply NoDup_fmap_2; [intros x y; lia|apply NoDup_seq].
Qed.

Lemma unflatten_over_objects E fuel h g roi gd keys variables ri :
  identity_keys E → registry_ok E → store_ok E h = true → value_ok E g = true →
  flatten E fuel h g true true None roi = Ok (gd, FlatState keys variables, ri) →
  ∃ vars,
    variables = map VariableLeaf vars
    ∧ ∀ leaves, length leaves = length vars →
        unflatten E h (with_same_outer_index gd) (Flat (LeafList leaves)) None
          (Some (invert_ref_index ri))
        = Ok (g, update_variables h (zip vars leaves), invert_ref_index ri).
Proof.
  intros Hid Hreg Hok Hv H. unfold flatten in H.
  apply bind_ok in H as (oimpl & Himpl & H).
  destruct oimpl as [impl|]; [|done].
  apply bind_ok in H as ([gd' st] & Hrun & H).
  pose proof (_graph_flatten_desc _ _ _ _ _ _ _ _ _ _ _ Hrun) as Hdesc.
  apply (_graph_flatten_place E h roi fuel Hid Hreg Hok) in Hrun
    as (Δri & vars & Hri & Hl & Hok' & Hvars & Hsim); [|done|done|apply ri_ok_nil].
  simpl in Hri, Hl.
  assert (gd' = gd ∧ ref_index st = ri ∧ leaves st = variables) as (-> & <- & <-).
  { destruct (paths st) as [p|]; [|done]. by injection H as H1 H2 H3 H4. }
  exists vars. split; [done|]. intros ls Hlen.
  rewrite (invert_ref_index_swap h _ Hok').
  assert (untouched h [] h) as Hun by (split; [done|by intros]).
  assert (∀ a i, (a, i) ∈ Δri → idx_get (swap_pairs (ref_index st)) i = Some a) as Hoio.
  { intros a i Hin. apply (swap_pairs_get h); [done|]. by rewrite Hri. }
  pose proof (Hsim (swap_pairs (ref_index st)) h ls [] Hlen Hun Hoio) as Hrun.
  rewrite app_nil_r in Hrun.
  assert (match with_same_outer_index gd with
          | NodeDef _ _ _ _ _ | NodeRef _ _ => True
          | _ => False
          end) as Hdesc'.
  { destruct gd; try done. }
  apply (unflatten_top_attr_outer E _ _ _ _ Hdesc') in Hrun.
  rewrite unflatten_unfold.
  change (leaves_of_state (Flat (LeafList ls))) with (Ok (A:=list leaf) ls).
  change (default [] None) with ([] : IndexMap).
  change (swap_pairs (ref_index (FState (default [] None) [] (Some []))))
    with ([] : IndexMap) in Hrun.
  cbn [bind]. by rewrite Hrun.
Qed.

(** X21. [unflatten] over the objects that were flattened. Let [flatten]
    return the Variables of a graph with its descriptor, let every outer
    index of the descriptor be set to the index itself
    ([with_same_outer_index], as in a [CacheContext]), and let the outer
    map be the inverse of the reference map of [flatten]. Then [unflatten]
    with any leaves, one for each Variable, returns the graph itself: it
    makes no object, leaves every node with the attributes it had, and
    gives each Variable its leaf, which is what the loop over the cached
    Variables of [MergeContext.unflatten] does. *)
Theorem unflatten_in_place E fuel h g roi gd keys variables ri :
  identity_keys E → registry_ok E → store_ok E h = true → value_ok E g = true →
  flatten E fuel h g true true None roi = Ok (gd, FlatState keys variables, ri) →
  ∃ vars,
    variables = map VariableLeaf vars
    ∧ ∀ leaves, length leaves = length vars →
        unflatten E h (with_same_outer_index gd) (Flat (LeafList leaves)) None
          (Some (invert_ref_index ri))
        = Ok (g, update_variables h (zip vars leaves), invert_ref_index ri).
Proof. apply unflatten_over_objects. Qed.

Lemma unflatten_in_place_witness :
  let gd := NodeDef (Cls "Module") 0 None
              [(KStr "child",
                NodeDef (Cls "Module") 1 None
                  [(KStr "parent", NodeRef "Module" 0);
                   (KStr "w", VariableDef "Param" 2 None [])] MNone)] MNone in
  let ri := [(0%nat, 0); (1%nat, 1); (2%nat, 2)] in
  ∃ vars,
    [VariableLeaf 2%nat] = map VariableLeaf vars
    ∧ ∀ leaves, length leaves = length vars →
        unflatten std_env cycle_store (with_same_outer_index gd) (Flat (LeafList leaves))
          None (Some (invert_ref_index ri))
        = Ok (VRef 0%nat, update_variables cycle_store (zip vars leaves),
              invert_ref_index ri).
Proof.
  intros gd ri.
  apply (unflatten_in_place std_env 4 cycle_store (VRef 0%nat) None gd
           [[KStr "child"; KStr "w"]] [VariableLeaf 2%nat] ri).
  - exact std_env_identity_keys.
  - exact std_env_registry_ok.
  - reflexivity.
  - reflexivity.
  - reflexivity.
Defined.

Lemma fingerprint_flatten_together E fuel h node with_paths rv ref_index0 roi :
  match flatten E fuel h node with_paths rv ref_index0 roi,
        fingerprint E fuel h node ref_index0 None with
  | Ok _, Ok _ | Err _, Err _ => True
  | _, _ => False
  end.
Proof.
  unfold flatten, fingerprint.
  destruct (get_node_impl E h node) as [[impl|]|e]; simpl; [|done|done].
  set (ri := default [] ref_index0).
  match goal with
  | |- context [_graph_flatten E fuel h roi rv node impl ?p ?st] =>
      pose proof (_graph_flatten_in_step E h ri roi rv fuel node impl p st
                    (FpState [] (dict_len ri + dict_len ([] : RefMap)))) as H
  end.
  destruct (_graph_flatten E fuel h roi rv node impl _ _) as [[gd st]|e1];
    destruct (_graph_fingerprint E fuel h ri node impl _) as [[fp fst]|e2];
    simpl in *.
  - by destruct (paths st).
  - exfalso. apply H; [apply in_step_init|apply paths_ready_init].
  - exfalso. apply H; [apply in_step_init|apply paths_ready_init].
  - done.
Qed.

Lemma map_VariableLeaf_inj l1 l2 :
  map VariableLeaf l1 = map VariableLeaf l2 → l1 = l2.
Proof.
  revert l2. induction l1 as [|a l1 IH]; intros [|b l2]; simpl; try done.
  intros [= -> Hl]. f_equal. by apply IH.
Qed.

Lemma with_same_of_no_outer_index gd :
  with_same_outer_index (with_no_outer_index gd) = with_same_outer_index gd.
Proof.
  induction gd as [ty i oi attrs md IH|ty i|ty i oi md|v] using graphdef_ind';
    try done.
  rewrite with_no_outer_index_NodeDef, !with_same_outer_index_NodeDef.
  rewrite map_values_compose. f_equal. by apply map_values_ext_Forall.
Qed.

Lemma update_variables_same h wp vars :
  update_variables h (zip vars (map (leaf_in h false wp) vars)) = h.
Proof.
  unfold update_variables. induction vars as [|a vars IH]; simpl; [done|].
  assert (update_cell h a (leaf_in h false wp a) = h) as ->; [|done].
  unfold update_cell, leaf_in.
  destruct (h !! a) as [[ty attrs aux|ty raw md]|] eqn:Ha; simpl; [done| |done].
  apply list_insert_id. rewrite Ha. unfold leaf_of. by destruct wp.
Qed.

(** X22. Flattening a graph and unflattening it over its own objects changes
    nothing: with every outer index of the descriptor set and the inverse
    of the reference map as the outer map, [unflatten] on what [flatten]
    returned gives back the graph itself, and leaves the store as it
    was. *)
Theorem unflatten_in_place_identity E fuel h g with_paths roi gd fs ri :
  identity_keys E → registry_ok E → store_ok E h = true → value_ok E g = true →
  flatten E fuel h g with_paths false None roi = Ok (gd, fs, ri) →
  unflatten E h (with_same_outer_index gd) (Flat fs) None (Some (invert_ref_index ri))
  = Ok (g, h, invert_ref_index ri).
Proof.
  intros Hid Hreg Hok Hv Hfl.
  assert (∃ fp nri, fingerprint E fuel h g None None = Ok (fp, nri)) as (fp & nri & Hfp).
  { pose proof (fingerprint_flatten_together E fuel h g with_paths false None roi) as H.
    rewrite Hfl in H. destruct (fingerprint E fuel h g None None) as [[fp nri]|e]; [|done].
    eauto. }
  assert (∃ gdv fsv riv, flatten E fuel h g true true None roi = Ok (gdv, fsv, riv))
    as (gdv & fsv & riv & Hflv).
  { pose proof (fingerprint_flatten_together E fuel h g true true None roi) as H.
    rewrite Hfp in H.
    destruct (flatten E fuel h g true true None roi) as [[[gdv fsv] riv]|e]; [|done].
    eauto. }
  destruct (flatten_fingerprint_desc _ _ _ _ _ _ _ _ _ _ _ _ _ Hfl Hfp)
    as (Hgd & Hfs & Hri).
  destruct (flatten_fingerprint_desc _ _ _ _ _ _ _ _ _ _ _ _ _ Hflv Hfp)
    as (Hgdv & Hfsv & Hriv).
  subst fsv. rewrite leaf_in_variables in Hflv.
  destruct (unflatten_over_objects E fuel h g roi gdv _ _ riv Hid Hreg Hok Hv Hflv)
    as (vars & Hvars & Hun).
  apply map_VariableLeaf_inj in Hvars as <-.
  assert (with_same_outer_index gd = with_same_outer_index gdv) as ->.
  { rewrite <- (with_same_of_no_outer_index gd), <- (with_same_of_no_outer_index gdv).
    by rewrite Hgd, Hgdv. }
  assert (ri = riv) as -> by congruence.
  assert (unflatten E h (with_same_outer_index gdv) (Flat fs) None
            (Some (invert_ref_index riv))
          = unflatten E h (with_same_outer_index gdv)
              (Flat (LeafList (map (leaf_in h false with_paths) (fp_variables fp))))
              None (Some (invert_ref_index riv))) as ->.
  { rewrite Hfs. by destruct with_paths. }
  rewrite Hun by by rewrite length_map.
  by rewrite update_variables_same.
Qed.

Lemma unflatten_in_place_identity_witness :
  let gd := NodeDef (Cls "Module") 0 None
              [(KStr "child",
                NodeDef (Cls "Module") 1 None
                  [(KStr "parent", NodeRef "Module" 0);
                   (KStr "w", VariableDef "Param" 2 None [])] MNone)] MNone in
  let fs := FlatState [[KStr "child"; KStr "w"]] [VariableState "Param" (PData 3) []] in
  let ri := [(0%nat, 0); (1%nat, 1); (2%nat, 2)] in
  unflatten std_env cycle_store (with_same_outer_index gd) (Flat fs) None
    (Some (invert_ref_index ri))
  = Ok (VRef 0%nat, cycle_store, invert_ref_index ri).
Proof.
  intros gd fs ri.
  apply (unflatten_in_place_identity std_env 4 cycle_store (VRef 0%nat) true None
           gd fs ri).
  - exact std_env_identity_keys.
  - exact std_env_registry_ok.
  - reflexivity.
  - reflexivity.
  - reflexivity.
Defined.
